(** * KeyDev: sliding-window artifact graph (data_manager.py, graph.py, util.py)

    A shallow embedding of the window manager ([DataManager]) and of the
    history graph ([HistoryGraph]) and the properties of both.

    Conventions of the embedding.
    - A [datetime] is the number of microseconds since an arbitrary epoch, a
      [Z]; [timedelta(days=1)] is [usec_per_day]; [(a - b).days] is the floor
      quotient of the difference by [usec_per_day].
    - A Python object with mutable attributes is a record, a method is a
      function in the monad [M] of state and exceptions: an exception keeps
      the state reached when it was raised, as in Python.
    - A Python [dict] whose order is observed (the timeline, the score tables)
      is an association list in insertion order. *)

From Stdlib Require Import ZArith QArith Qround Qpower Qabs Lqa List Lia
  Sorting.Sorted Permutation.

From stdpp Require Import gmap strings list fin_maps sorting.

#[local] Set Warnings "-level-tolerance,-clear-no-such-hyp".

Local Open Scope string_scope.

Local Open Scope Z_scope.

Local Open Scope list_scope.

(** ** Exceptions, and the monad of state and exceptions

    [OutOfFuel] is not an exception of Python: a loop of the model that is
    given a number of steps raises it when the steps run out, and the
    properties exclude it. *)

Inductive exn : Type :=
| SlidingNotPossible
| AssertionError
| IndexError
| KeyError
| TypeError
| ZeroDivisionError
| OverflowError
| OutOfFuel.

Inductive res (A : Type) : Type :=
| Ok (a : A)
| Raise (e : exn).

Arguments Ok {A} a.

Arguments Raise {A} e.

Definition M (S A : Type) : Type := S → res A * S.

Definition ret {S A} (a : A) : M S A := λ s, (Ok a, s).

Definition raise {S A} (e : exn) : M S A := λ s, (Raise e, s).

Definition bind {S A B} (m : M S A) (k : A → M S B) : M S B :=
  λ s, match m s with
       | (Ok a, s') => k a s'
       | (Raise e, s') => (Raise e, s')
       end.

Definition get_state {S} : M S S := λ s, (Ok s, s).

Definition put_state {S} (s : S) : M S unit := λ _, (Ok tt, s).

Module MNotation.

Notation "'let*' x := m 'in' k" := (bind m (λ x, k))
  (at level 10, x name, m at level 100, k at level 200).

Notation "'run' m 'in' k" := (bind m (λ _, k))
  (at level 10, m at level 100, k at level 200).

End MNotation.

Import MNotation.

(** [res] alone, for the constructors, which have no state. *)
Definition res_bind {A B} (r : res A) (k : A → res B) : res B :=
  match r with Ok a => k a | Raise e => Raise e end.

(** ** util.py *)

Definition usec_per_day : Z := 86400000000.

(** [max_of_day]: the same calendar day at 23:59:59.999999. *)
Definition max_of_day (date : Z) : Z :=
  date - date `mod` usec_per_day + (usec_per_day - 1).

(** A Python dict in insertion order. *)
Abbreviation dict K V := (list (K * V)) (only parsing).

Definition dict_keys {K V} (d : dict K V) : list K := map fst d.

Fixpoint dict_get {V} (k : Z) (d : dict Z V) : option V :=
  match d with
  | [] => None
  | (k', v) :: d' => if Z.eqb k k' then Some v else dict_get k d'
  end.

Definition dict_contains {V} (k : Z) (d : dict Z V) : bool :=
  match dict_get k d with Some _ => true | None => false end.

(** [sorted(d)] on integer keys: ascending. *)
Fixpoint sorted_insert (k : Z) (l : list Z) : list Z :=
  match l with
  | [] => [k]
  | k' :: l' => if Z.leb k k' then k :: l else k' :: sorted_insert k l'
  end.

Fixpoint sorted (l : list Z) : list Z :=
  match l with
  | [] => []
  | k :: l' => sorted_insert k (sorted l')
  end.

(** [sort_dict(d)] with the defaults [by_value=False, reverse=False]:
    [{k: d[k] for k in sorted(d)}]. Every [k] is a key of [d]. *)
Definition sort_dict {V} (d : dict Z (list V)) : dict Z (list V) :=
  map (λ k, (k, default [] (dict_get k d))) (sorted (dict_keys d)).

(** ** data_manager.py: CodeChange and ChangeSet *)

Record CodeChange : Type := mkCodeChange {
  file_path : string;
  change_type : string;
  old_file_path : option string
}.

Definition CodeChange_init (file_path change_type : string)
    (old_file_path : option string) : res CodeChange :=
  if bool_decide (change_type ∈ ["ADD"; "DELETE"; "MODIFY"; "RENAME"]) then
    if String.eqb change_type "RENAME" then
      match old_file_path with
      | Some _ => Ok (mkCodeChange file_path change_type old_file_path)
      | None => Raise AssertionError
      end
    else
      match old_file_path with
      | None => Ok (mkCodeChange file_path change_type old_file_path)
      | Some _ => Raise AssertionError
      end
  else Raise AssertionError.

Record ChangeSet : Type := mkChangeSet {
  commit_hash : string;
  author : string;
  date : Z;
  issues : list string;
  code_changes : list CodeChange;
  num_files_in_project : Z
}.

Definition ChangeSet_init (commit_hash author : string) (date : Z)
    (issues : list string) (code_changes : list CodeChange)
    (num_files_in_project : Z) : res ChangeSet :=
  match code_changes with
  | [] => Raise AssertionError
  | _ :: _ =>
      Ok (mkChangeSet commit_hash author date issues code_changes
            num_files_in_project)
  end.

(** The records of the dataset file, as [json.load] returns them; the date
    string is taken as already parsed by [str_to_date]. *)
Record JsonCodeChange : Type := mkJsonCodeChange {
  j_file_path : string;
  j_change_type : string;
  j_old_file_path : option string
}.

Record JsonChangeSet : Type := mkJsonChangeSet {
  j_commit_hash : string;
  j_author : string;
  j_date : Z;
  j_issues : list string;
  j_code_changes : list JsonCodeChange;
  j_num_current_files : Z
}.

Fixpoint load_code_changes (l : list JsonCodeChange) : res (list CodeChange) :=
  match l with
  | [] => Ok []
  | c :: l' =>
      res_bind
        (CodeChange_init (j_file_path c) (j_change_type c) (j_old_file_path c))
        (λ cc, res_bind (load_code_changes l') (λ ccs, Ok (cc :: ccs)))
  end.

Definition load_change_set (j : JsonChangeSet) : res ChangeSet :=
  res_bind (load_code_changes (j_code_changes j)) (λ code_changes,
    ChangeSet_init (j_commit_hash j) (j_author j) (max_of_day (j_date j))
      (j_issues j) code_changes (j_num_current_files j)).

(** ** data_manager.py: DataManager *)

(** [date_to_change_sets[k].append(cs)] on a [defaultdict(list)]. *)
Fixpoint dict_append {V} (k : Z) (v : V) (d : dict Z (list V))
    : dict Z (list V) :=
  match d with
  | [] => [(k, [v])]
  | (k', vs) :: d' =>
      if Z.eqb k k' then (k', vs ++ [v]) :: d'
      else (k', vs) :: dict_append k v d'
  end.

(** [date_to_change_sets[k]] on a [defaultdict(list)], for its effect. *)
Definition dict_touch {V} (k : Z) (d : dict Z (list V)) : dict Z (list V) :=
  if dict_contains k d then d else d ++ [(k, [])].

(** The first loop of [_generate_date_to_change_sets]. *)
Fixpoint load_date_to_change_sets (jsons : list JsonChangeSet)
    (d : dict Z (list ChangeSet)) : res (dict Z (list ChangeSet)) :=
  match jsons with
  | [] => Ok d
  | j :: jsons' =>
      res_bind (load_change_set j) (λ change_set,
        load_date_to_change_sets jsons'
          (dict_append (date change_set) change_set d))
  end.

(** [while date < last_date: date_to_change_sets[date]; date += 1 day].
    The loop runs at most [(last_date - date) / usec_per_day + 1] times;
    [fill_blanks] gives it that many steps and one more. *)
Fixpoint fill_blanks_loop (fuel : nat) (date last_date : Z)
    (d : dict Z (list ChangeSet)) : option (dict Z (list ChangeSet)) :=
  match fuel with
  | O => None
  | S fuel' =>
      if Z.ltb date last_date then
        fill_blanks_loop fuel' (date + usec_per_day) last_date
          (dict_touch date d)
      else Some d
  end.

Definition fill_blanks (date last_date : Z) (d : dict Z (list ChangeSet))
    : option (dict Z (list ChangeSet)) :=
  fill_blanks_loop (Z.to_nat ((last_date - date) / usec_per_day) + 2)
    date last_date d.

Definition _generate_date_to_change_sets (jsons : list JsonChangeSet)
    : res (dict Z (list ChangeSet)) :=
  res_bind (load_date_to_change_sets jsons []) (λ date_to_change_sets,
    let dates := dict_keys date_to_change_sets in
    match last dates, head dates with
    | Some last_date, Some date =>
        match fill_blanks date last_date date_to_change_sets with
        | Some filled => Ok (sort_dict filled)
        | None => Raise IndexError
        end
    | _, _ => Raise IndexError
    end).

Record DataManager : Type := mkDataManager {
  _sliding_window_size : Z;
  _date_to_change_sets : dict Z (list ChangeSet);
  _first_date : option Z;
  _last_date : option Z
}.

Definition DataManager_init (dataset : list JsonChangeSet)
    (sliding_window_size : Z) : res DataManager :=
  res_bind (_generate_date_to_change_sets dataset) (λ d,
    Ok (mkDataManager sliding_window_size d None None)).

Definition get_num_possible_iterations (self : DataManager) : Z :=
  Z.of_nat (length (_date_to_change_sets self)) - _sliding_window_size self + 1.

Definition get_first_included_date (self : DataManager) : option Z :=
  _first_date self.

Definition get_last_included_date (self : DataManager) : option Z :=
  _last_date self.

Definition set_first_date (v : option Z) : M DataManager unit :=
  λ self, (Ok tt, mkDataManager (_sliding_window_size self)
                    (_date_to_change_sets self) v (_last_date self)).

Definition set_last_date (v : option Z) : M DataManager unit :=
  λ self, (Ok tt, mkDataManager (_sliding_window_size self)
                    (_date_to_change_sets self) (_first_date self) v).

(** The loop of [get_initial_window]: extend until the first date after
    [last_date], then break. *)
Fixpoint initial_window_loop (last_date : Z) (d : dict Z (list ChangeSet))
    : list ChangeSet :=
  match d with
  | [] => []
  | (date, css) :: d' =>
      if Z.ltb last_date date then []
      else css ++ initial_window_loop last_date d'
  end.

Definition get_initial_window : M DataManager (list ChangeSet) :=
  let* self := get_state in
  match head (dict_keys (_date_to_change_sets self)) with
  | None => raise IndexError
  | Some first_date =>
      let last_date :=
        first_date + (_sliding_window_size self - 1) * usec_per_day in
      run set_first_date (Some first_date) in
      run set_last_date (Some last_date) in
      if dict_contains last_date (_date_to_change_sets self) then
        ret (initial_window_loop last_date (_date_to_change_sets self))
      else raise AssertionError
  end.

Definition can_slide : M DataManager bool :=
  let* self := get_state in
  match _last_date self with
  | None => raise TypeError
  | Some last_date =>
      ret (dict_contains (last_date + usec_per_day) (_date_to_change_sets self))
  end.

(** [d[k]] on a plain dict. *)
Definition dict_item {S V} (k : Z) (d : dict Z V) : M S V :=
  match dict_get k d with
  | Some v => ret v
  | None => raise KeyError
  end.

Definition forward_one_day
    : M DataManager (list ChangeSet * list ChangeSet) :=
  let* ok := can_slide in
  if negb ok then raise SlidingNotPossible
  else
    let* self := get_state in
    match _first_date self, _last_date self with
    | Some first_date, Some last_date =>
        let* change_sets_remove :=
          dict_item first_date (_date_to_change_sets self) in
        run set_first_date (Some (first_date + usec_per_day)) in
        run set_last_date (Some (last_date + usec_per_day)) in
        let* change_sets_add :=
          dict_item (last_date + usec_per_day) (_date_to_change_sets self) in
        ret (change_sets_add, change_sets_remove)
    | None, Some _ => raise KeyError
    | _, None => raise TypeError
    end.

(** ** networkx.Graph

    The undirected simple graph of networkx: a node table [_node] from node
    to its attributes (here the one attribute [kind], absent for a node that
    [add_edge] created) and the adjacency [_adj], where [_adj[u][v]] and
    [_adj[v][u]] are one shared attribute dict; the model keys it by the pair
    and stores both orientations. Every edge of this program carries the
    attribute [date] ([None] or a datetime) and possibly [kind].

    networkx iterates its dicts in insertion order; the model iterates in
    key order. Where [relabel_nodes] merges two nodes or two edges whose
    attributes differ, the attributes met last win, so the winner depends on
    that order; the properties below are on node and edge sets, or exclude a
    merge. *)

Record EdgeAttr : Type := mkEdgeAttr {
  e_date : option Z;
  e_kind : option string
}.

Record Graph : Type := mkGraph {
  _node : gmap string (option string);
  _adj : gmap (string * string) EdgeAttr
}.

Module nx.

Definition Graph_init : Graph := mkGraph ∅ ∅.

(** [G.add_node(n, kind=k)]. *)
Definition add_node (n kind : string) (G : Graph) : Graph :=
  mkGraph (<[n := Some kind]> (_node G)) (_adj G).

(** [G.add_nodes_from(ns, kind=k)]. *)
Definition add_nodes_from (ns : list string) (kind : string) (G : Graph)
    : Graph :=
  foldl (λ G n, add_node n kind G) G ns.

(** A node that an edge mentions and the graph has not is created without
    attributes. *)
Definition ensure_node (n : string) (N : gmap string (option string))
    : gmap string (option string) :=
  match N !! n with
  | Some _ => N
  | None => <[n := None]> N
  end.

(** [datadict.update(...)] with a [date] and possibly a [kind]. *)
Definition attr_update (old : option EdgeAttr) (date : option Z)
    (kind : option string) : EdgeAttr :=
  mkEdgeAttr date
    (match kind with
     | Some k => Some k
     | None => match old with Some o => e_kind o | None => None end
     end).

(** [G.add_edge(u, v, date=d)], and with [kind] one item of
    [G.add_edges_from([(u, v, {"date": d})], kind=k)]. *)
Definition add_edge (u v : string) (date : option Z) (kind : option string)
    (G : Graph) : Graph :=
  let a := attr_update (_adj G !! (u, v)) date kind in
  mkGraph (ensure_node v (ensure_node u (_node G)))
          (<[(v, u) := a]> (<[(u, v) := a]> (_adj G))).

(** [G.remove_nodes_from(ns)]: every listed node that is in the graph goes,
    with its edges; the others are skipped silently. *)
Definition remove_nodes_from (ns : list string) (G : Graph) : Graph :=
  mkGraph
    (filter (λ p : string * option string, p.1 ∉ ns) (_node G))
    (filter (λ p : string * string * EdgeAttr,
               (p.1.1 ∉ ns) ∧ (p.1.2 ∉ ns))
            (_adj G)).

Definition nodes (G : Graph) : list string :=
  (map_to_list (_node G)).*1.

(** [G[n]]: the neighbours of [n]. *)
Definition neighbors (G : Graph) (n : string) : list string :=
  omap (λ p : string * string * EdgeAttr,
          if decide (p.1.1 = n) then Some p.1.2 else None)
       (map_to_list (_adj G)).

(** [G.degree(n)]: a self-loop counts twice. *)
Definition degree (G : Graph) (n : string) : nat :=
  (length (neighbors G n)
   + (if decide (n ∈ neighbors G n) then 1 else 0))%nat.

(** [nx.isolates(G)]. *)
Definition isolates (G : Graph) : list string :=
  filter (λ n, degree G n = 0%nat) (nodes G).

(** [nx.relabel_nodes(G, mapping)] with the default [copy=True]: a new
    graph; a node that [mapping] does not mention keeps its name, a key of
    [mapping] that is not a node is ignored, nodes that receive the same
    name are merged. *)
Definition relabel (mapping : gmap string string) (n : string) : string :=
  default n (mapping !! n).

Definition relabel_nodes (G : Graph) (mapping : gmap string string)
    : Graph :=
  mkGraph
    (foldl (λ N (p : string * option string),
              <[relabel mapping p.1 := p.2]> N)
           ∅ (map_to_list (_node G)))
    (foldl (λ E (p : string * string * EdgeAttr),
              let u := relabel mapping p.1.1 in
              let v := relabel mapping p.1.2 in
              let a := attr_update (E !! (u, v)) (e_date p.2) (e_kind p.2) in
              <[(v, u) := a]> (<[(u, v) := a]> E))
           ∅ (map_to_list (_adj G))).

(** [G.nodes(data="kind")]. *)
Definition nodes_data_kind (G : Graph) : list (string * option string) :=
  map_to_list (_node G).

Definition number_of_nodes (G : Graph) : nat := size (_node G).

(** [G[n]], which raises for a node that is not in the graph. *)
Definition getitem (G : Graph) (n : string) : res (list string) :=
  match _node G !! n with
  | Some _ => Ok (neighbors G n)
  | None => Raise KeyError
  end.

(** [nx.get_node_attributes(G, "kind")]. *)
Definition get_node_attributes_kind (G : Graph) : gmap string string :=
  omap id (_node G).

(** [nx.all_simple_paths(G, source, targets, cutoff)]: the simple paths
    from [source] to a node of [targets] with at most [cutoff] edges, each
    once; a path may pass through a node of [targets]. The order in which
    networkx yields them is not modelled. [visited] is the path walked so
    far, last node first. *)
Fixpoint simple_paths_from (G : Graph) (targets : list string)
    (cutoff : nat) (visited : list string) (current : string)
    : list (list string) :=
  match cutoff with
  | O => []
  | S cutoff' =>
      neighbors G current ≫= (λ child,
        if decide (child ∈ visited) then []
        else
          (if decide (child ∈ targets)
           then [reverse (child :: visited)] else [])
          ++ simple_paths_from G targets cutoff' (child :: visited) child)
  end.

Definition all_simple_paths (G : Graph) (source : string)
    (targets : list string) (cutoff : nat) : list (list string) :=
  if decide (source ∈ targets) then []
  else simple_paths_from G targets cutoff [source] source.

End nx.

(** ** graph.py: HistoryGraph *)

(** The developer graph: its edges and their [distance]. *)
Record DevGraph : Type := mkDevGraph {
  dg_node : gset string;
  dg_adj : gmap (string * string) Q
}.

Record CurrentData : Type := mkCurrentData {
  cd_devG : option DevGraph;
  cd_dev_to_reachable_files : option (list (string * list string));
  cd_dev_to_rare_files : option (list (string * list string));
  cd_file_to_devs : option (list (string * list string));
  cd_node_kinds : option (gmap string string);
  cd_jacks : option (list (string * Q));
  cd_mavens : option (list (string * Q));
  cd_connectors : option (list (string * Q))
}.

Definition no_current_data : CurrentData :=
  mkCurrentData None None None None None None None None.

Record HistoryGraph : Type := mkHistoryGraph {
  _graph_range_in_days : Z;
  _distance_limit : Q;
  _num_files_limit : Z;
  _score_threshold : Q;
  _number_of_files_in_project : Z;
  _current_data : CurrentData;
  _data_manager : DataManager;
  _G : Graph
}.

(** Assignments to the attributes of [self]. *)
Definition with_G (G : Graph) (self : HistoryGraph) : HistoryGraph :=
  mkHistoryGraph (_graph_range_in_days self) (_distance_limit self)
    (_num_files_limit self) (_score_threshold self)
    (_number_of_files_in_project self) (_current_data self)
    (_data_manager self) G.

Definition with_number_of_files_in_project (n : Z) (self : HistoryGraph)
    : HistoryGraph :=
  mkHistoryGraph (_graph_range_in_days self) (_distance_limit self)
    (_num_files_limit self) (_score_threshold self)
    n (_current_data self) (_data_manager self) (_G self).

Definition with_current_data (cd : CurrentData) (self : HistoryGraph)
    : HistoryGraph :=
  mkHistoryGraph (_graph_range_in_days self) (_distance_limit self)
    (_num_files_limit self) (_score_threshold self)
    (_number_of_files_in_project self) cd (_data_manager self) (_G self).

Definition with_data_manager (dm : DataManager) (self : HistoryGraph)
    : HistoryGraph :=
  mkHistoryGraph (_graph_range_in_days self) (_distance_limit self)
    (_num_files_limit self) (_score_threshold self)
    (_number_of_files_in_project self) (_current_data self) dm (_G self).

Definition set_G (G : Graph) : M HistoryGraph unit :=
  λ self, (Ok tt, with_G G self).

Definition set_number_of_files_in_project (n : Z) : M HistoryGraph unit :=
  λ self, (Ok tt, with_number_of_files_in_project n self).

Definition set_current_data (cd : CurrentData) : M HistoryGraph unit :=
  λ self, (Ok tt, with_current_data cd self).

(** A method of [self._data_manager] called from a method of the graph. *)
Definition on_data_manager {A} (m : M DataManager A) : M HistoryGraph A :=
  λ self, let '(r, dm) := m (_data_manager self) in
          (r, with_data_manager dm self).

(** The three lists that [_add_change_sets] sorts the code changes of one
    change set into. A RENAME always has its old path ([CodeChange_init]
    asserts it). *)
Record Partition : Type := mkPartition {
  files_add_modify : list string;
  files_delete : list string;
  files_rename_dict : gmap string string
}.

Definition partition_step (p : Partition) (cc : CodeChange) : Partition :=
  if String.eqb (change_type cc) "DELETE" then
    mkPartition (files_add_modify p) (files_delete p ++ [file_path cc])
      (files_rename_dict p)
  else if String.eqb (change_type cc) "RENAME" then
    mkPartition (files_add_modify p) (files_delete p)
      (match old_file_path cc with
       | Some old => <[old := file_path cc]> (files_rename_dict p)
       | None => files_rename_dict p
       end)
  else
    mkPartition (files_add_modify p ++ [file_path cc]) (files_delete p)
      (files_rename_dict p).

Definition partition_code_changes (ccs : list CodeChange) : Partition :=
  foldl partition_step (mkPartition [] [] ∅) ccs.

Definition _rename_nodes (mapping : gmap string string) : M HistoryGraph unit :=
  if decide (mapping = ∅) then ret tt
  else
    let* self := get_state in
    set_G (nx.relabel_nodes (_G self) mapping).

Definition _remove_nodes (nodes : list string) : M HistoryGraph unit :=
  match nodes with
  | [] => ret tt
  | _ :: _ =>
      let* self := get_state in
      run set_G (nx.remove_nodes_from nodes (_G self)) in
      let* self := get_state in
      let unconnected_nodes := nx.isolates (_G self) in
      set_G (nx.remove_nodes_from unconnected_nodes (_G self))
  end.

Definition modify_G (f : Graph → Graph) : M HistoryGraph unit :=
  let* self := get_state in set_G (f (_G self)).

(** The body of the loop of [_add_change_sets]. *)
Definition _add_change_set (cs : ChangeSet) : M HistoryGraph unit :=
  let p := partition_code_changes (code_changes cs) in
  run _rename_nodes (files_rename_dict p) in
  run _remove_nodes (files_delete p) in
  let* self := get_state in
  if Z.ltb (_num_files_limit self) (Z.of_nat (length (files_add_modify p)))
  then ret tt
  else
    run modify_G (nx.add_node (commit_hash cs) "ChangeSet") in
    run modify_G (nx.add_node (author cs) "Developer") in
    run modify_G (nx.add_edge (author cs) (commit_hash cs) None None) in
    run modify_G (nx.add_nodes_from (files_add_modify p) "File") in
    run modify_G (λ G,
      foldl (λ G filename,
               nx.add_edge (commit_hash cs) filename (Some (date cs))
                 (Some "include") G)
            G (files_add_modify p)) in
    run modify_G (nx.add_nodes_from (issues cs) "Issue") in
    modify_G (λ G,
      foldl (λ G issue_id,
               nx.add_edge (commit_hash cs) issue_id (Some (date cs))
                 (Some "link") G)
            G (issues cs)).

Fixpoint _add_change_sets (change_sets : list ChangeSet)
    : M HistoryGraph unit :=
  match change_sets with
  | [] => ret tt
  | cs :: change_sets' =>
      run _add_change_set cs in _add_change_sets change_sets'
  end.

Definition _remove_change_sets (change_sets : list ChangeSet)
    : M HistoryGraph unit :=
  _remove_nodes (map commit_hash change_sets).

Definition _initialize_graph : M HistoryGraph unit :=
  let* change_sets_add := on_data_manager get_initial_window in
  match last change_sets_add with
  | None => raise IndexError
  | Some cs =>
      run set_number_of_files_in_project (num_files_in_project cs) in
      _add_change_sets change_sets_add
  end.

Definition HistoryGraph_init (dataset : list JsonChangeSet)
    (graph_range_in_days : Z) (distance_limit : Q) (num_files_limit : Z)
    (score_threshold : Q) : res HistoryGraph :=
  res_bind (DataManager_init dataset graph_range_in_days) (λ dm,
    let self :=
      mkHistoryGraph graph_range_in_days distance_limit num_files_limit
        score_threshold 0 no_current_data dm nx.Graph_init in
    match _initialize_graph self with
    | (Ok _, self') => Ok self'
    | (Raise e, _) => Raise e
    end).

Definition forward_graph_one_day : M HistoryGraph bool :=
  λ self,
    match on_data_manager forward_one_day self with
    | (Raise SlidingNotPossible, self') => (Ok false, self')
    | (Raise e, self') => (Raise e, self')
    | (Ok (change_sets_add, change_sets_remove), self') =>
        (run _remove_change_sets change_sets_remove in
         run _add_change_sets change_sets_add in
         run (match last change_sets_add with
              | Some cs =>
                  set_number_of_files_in_project (num_files_in_project cs)
              | None => ret tt
              end) in
         run set_current_data no_current_data in
         ret true) self'
    end.

Definition get_num_files (self : HistoryGraph) : Z :=
  _number_of_files_in_project self.

Definition get_num_iterations (self : HistoryGraph) : Z :=
  get_num_possible_iterations (_data_manager self).

Definition get_num_nodes (self : HistoryGraph) : nat :=
  nx.number_of_nodes (_G self).

(** ** graph.py: the analytics of a window position

    A Python [float] is an exact rational here, or [float("inf")]: the
    quotients of this part are not rounded.  The divisions in double
    precision are those of [binary64], further down. *)

Inductive xQ : Type :=
| Finite (q : Q)
| Infinity.

(** Dicts with keys of any type with a decidable equality, in insertion
    order. *)
Fixpoint alist_get `{EqDecision K} {V} (k : K) (d : list (K * V)) : option V :=
  match d with
  | [] => None
  | (k', v) :: d' => if decide (k = k') then Some v else alist_get k d'
  end.

(** [d[k] = v]. *)
Fixpoint alist_set `{EqDecision K} {V} (k : K) (v : V) (d : list (K * V))
    : list (K * V) :=
  match d with
  | [] => [(k, v)]
  | (k', v') :: d' =>
      if decide (k = k') then (k', v) :: d' else (k', v') :: alist_set k v d'
  end.

(** [d[k].append(v)] on a [defaultdict(list)]. *)
Fixpoint alist_append `{EqDecision K} {V} (k : K) (v : V)
    (d : list (K * list V)) : list (K * list V) :=
  match d with
  | [] => [(k, [v])]
  | (k', vs) :: d' =>
      if decide (k = k') then (k', vs ++ [v]) :: d'
      else (k', vs) :: alist_append k v d'
  end.

Definition lift {S A} (r : res A) : M S A := λ s, (r, s).

(** [if self._current_data[key] == None: ...; return
    self._current_data[key]]. *)
Definition memo {A} (getc : CurrentData → option A)
    (setc : A → CurrentData → CurrentData) (compute : M HistoryGraph A)
    : M HistoryGraph A :=
  let* self := get_state in
  match getc (_current_data self) with
  | Some v => ret v
  | None =>
      let* v := compute in
      let* self := get_state in
      run set_current_data (setc v (_current_data self)) in
      ret v
  end.

Definition set_cd_devG (v : DevGraph) (cd : CurrentData) : CurrentData :=
  mkCurrentData (Some v) (cd_dev_to_reachable_files cd)
    (cd_dev_to_rare_files cd) (cd_file_to_devs cd) (cd_node_kinds cd)
    (cd_jacks cd) (cd_mavens cd) (cd_connectors cd).

Definition set_cd_dev_to_reachable_files (v : list (string * list string))
    (cd : CurrentData) : CurrentData :=
  mkCurrentData (cd_devG cd) (Some v)
    (cd_dev_to_rare_files cd) (cd_file_to_devs cd) (cd_node_kinds cd)
    (cd_jacks cd) (cd_mavens cd) (cd_connectors cd).

Definition set_cd_dev_to_rare_files (v : list (string * list string))
    (cd : CurrentData) : CurrentData :=
  mkCurrentData (cd_devG cd) (cd_dev_to_reachable_files cd)
    (Some v) (cd_file_to_devs cd) (cd_node_kinds cd)
    (cd_jacks cd) (cd_mavens cd) (cd_connectors cd).

Definition set_cd_file_to_devs (v : list (string * list string))
    (cd : CurrentData) : CurrentData :=
  mkCurrentData (cd_devG cd) (cd_dev_to_reachable_files cd)
    (cd_dev_to_rare_files cd) (Some v) (cd_node_kinds cd)
    (cd_jacks cd) (cd_mavens cd) (cd_connectors cd).

Definition set_cd_node_kinds (v : gmap string string) (cd : CurrentData)
    : CurrentData :=
  mkCurrentData (cd_devG cd) (cd_dev_to_reachable_files cd)
    (cd_dev_to_rare_files cd) (cd_file_to_devs cd) (Some v)
    (cd_jacks cd) (cd_mavens cd) (cd_connectors cd).

Definition set_cd_jacks (v : list (string * Q)) (cd : CurrentData)
    : CurrentData :=
  mkCurrentData (cd_devG cd) (cd_dev_to_reachable_files cd)
    (cd_dev_to_rare_files cd) (cd_file_to_devs cd) (cd_node_kinds cd)
    (Some v) (cd_mavens cd) (cd_connectors cd).

Definition set_cd_mavens (v : list (string * Q)) (cd : CurrentData)
    : CurrentData :=
  mkCurrentData (cd_devG cd) (cd_dev_to_reachable_files cd)
    (cd_dev_to_rare_files cd) (cd_file_to_devs cd) (cd_node_kinds cd)
    (cd_jacks cd) (Some v) (cd_connectors cd).

Definition _filter_nodes_by_kind (kind : string) (G : Graph) : list string :=
  omap (λ p : string * option string,
          if decide (p.2 = Some kind) then Some p.1 else None)
       (nx.nodes_data_kind G).

Definition get_developers (self : HistoryGraph) : list string :=
  _filter_nodes_by_kind "Developer" (_G self).

Definition get_files (self : HistoryGraph) : list string :=
  _filter_nodes_by_kind "File" (_G self).

Definition _get_node_kinds : M HistoryGraph (gmap string string) :=
  memo cd_node_kinds set_cd_node_kinds
    (let* self := get_state in ret (nx.get_node_attributes_kind (_G self))).

Definition _which_day (self : HistoryGraph) (edge_date : Z) : res Z :=
  match get_first_included_date (_data_manager self) with
  | None => Raise TypeError
  | Some first_date_in_graph =>
      Ok ((edge_date - first_date_in_graph) `div` usec_per_day + 1)
  end.

Definition _calculate_distance (self : HistoryGraph) (edge_date : option Z)
    : res xQ :=
  match edge_date with
  | None => Ok (Finite 0)
  | Some edge_date =>
      res_bind (_which_day self edge_date) (λ day,
        if Z.eqb (_graph_range_in_days self) 0 then Raise ZeroDivisionError
        else
          let recency :=
            (inject_Z day / inject_Z (_graph_range_in_days self))%Q in
          if Qeq_bool recency 0 then Ok Infinity
          else Ok (Finite (1 / recency)%Q))
  end.

(** [self._G[parent][child]["date"]]. *)
Definition edge_date_of (G : Graph) (parent child : string)
    : res (option Z) :=
  match _adj G !! (parent, child) with
  | Some e => Ok (e_date e)
  | None => Raise KeyError
  end.

(** The loop of [_find_reachable_files]; a frame of the stack is
    [(parent, distance_now, children)], the iterator [children] being the
    neighbours not yet taken. One step of [fuel] is one turn of the loop. *)
Fixpoint find_reachable_files_loop (fuel : nat) (self : HistoryGraph)
    (node_kinds : gmap string string) (visited : gset string)
    (reachable_files : list string)
    (stack : list (string * Q * list string)) : res (list string) :=
  match fuel with
  | O => Raise OutOfFuel
  | S fuel' =>
      match stack with
      | [] => Ok reachable_files
      | (parent, distance_now, []) :: stack' =>
          find_reachable_files_loop fuel' self node_kinds visited
            reachable_files stack'
      | (parent, distance_now, child :: children) :: stack' =>
          let stack1 := (parent, distance_now, children) :: stack' in
          if decide (child ∈ visited) then
            find_reachable_files_loop fuel' self node_kinds visited
              reachable_files stack1
          else
            res_bind (edge_date_of (_G self) parent child) (λ edge_date,
            res_bind (_calculate_distance self edge_date) (λ d,
              match d with
              | Infinity =>
                  find_reachable_files_loop fuel' self node_kinds visited
                    reachable_files stack1
              | Finite d =>
                  let distance_now := (distance_now + d)%Q in
                  if Qlt_le_dec (_distance_limit self) distance_now then
                    find_reachable_files_loop fuel' self node_kinds visited
                      reachable_files stack1
                  else
                    match node_kinds !! child with
                    | None => Raise KeyError
                    | Some kind =>
                        if decide (kind = "Developer") then
                          find_reachable_files_loop fuel' self node_kinds
                            visited reachable_files stack1
                        else
                          let reachable_files :=
                            if decide (kind = "File")
                            then reachable_files ++ [child]
                            else reachable_files in
                          res_bind (nx.getitem (_G self) child) (λ nbrs,
                            find_reachable_files_loop fuel' self node_kinds
                              ({[child]} ∪ visited) reachable_files
                              ((child, distance_now, nbrs) :: stack1))
                    end
              end))
      end
  end.

(** Turns of the loop that always suffice: one per neighbour taken and one
    per frame popped, and a frame is pushed at most once per node. *)
Definition find_reachable_files_fuel (G : Graph) (developer : string) : nat :=
  (2 + length (nx.neighbors G developer)
   + sum_list (map (λ n, S (length (nx.neighbors G n))) (nx.nodes G)))%nat.

Definition _find_reachable_files (developer : string)
    : M HistoryGraph (list string) :=
  let* node_kinds := _get_node_kinds in
  let* self := get_state in
  let* children := lift (nx.getitem (_G self) developer) in
  lift (find_reachable_files_loop
          (find_reachable_files_fuel (_G self) developer) self node_kinds
          {[developer]} [] [(developer, 0%Q, children)]).

Fixpoint dev_to_reachable_files_loop (devs : list string)
    (dev_to_reachable_files : list (string * list string))
    : M HistoryGraph (list (string * list string)) :=
  match devs with
  | [] => ret dev_to_reachable_files
  | dev :: devs' =>
      let* files := _find_reachable_files dev in
      dev_to_reachable_files_loop devs'
        (alist_set dev files dev_to_reachable_files)
  end.

Definition get_dev_to_reachable_files
    : M HistoryGraph (list (string * list string)) :=
  memo cd_dev_to_reachable_files set_cd_dev_to_reachable_files
    (let* self := get_state in
     dev_to_reachable_files_loop (get_developers self) []).

Definition file_to_devs_of (dev_to_files : list (string * list string))
    : list (string * list string) :=
  foldl (λ file_to_devs (p : string * list string),
           foldl (λ file_to_devs f, alist_append f p.1 file_to_devs)
                 file_to_devs p.2)
        [] dev_to_files.

Definition get_file_to_devs : M HistoryGraph (list (string * list string)) :=
  memo cd_file_to_devs set_cd_file_to_devs
    (let* dev_to_files := get_dev_to_reachable_files in
     ret (file_to_devs_of dev_to_files)).

Definition dev_to_rare_files_of (file_to_devs : list (string * list string))
    : list (string * list string) :=
  foldl (λ dev_to_rarefiles (p : string * list string),
           match p.2 with
           | [dev] => alist_append dev p.1 dev_to_rarefiles
           | _ => dev_to_rarefiles
           end)
        [] file_to_devs.

Definition get_dev_to_rare_files
    : M HistoryGraph (list (string * list string)) :=
  memo cd_dev_to_rare_files set_cd_dev_to_rare_files
    (let* file_to_devs := get_file_to_devs in
     ret (dev_to_rare_files_of file_to_devs)).

Definition num_files_of (d : list (string * list string)) : Z :=
  foldr (λ (p : string * list string) n, Z.of_nat (length p.2) + n) 0 d.

Definition get_num_rare_files : M HistoryGraph Z :=
  let* dev_to_rare_files := get_dev_to_rare_files in
  ret (num_files_of dev_to_rare_files).

(** [a / b] on two ints, before it is rounded to a double. *)
Definition true_div (a b : Z) : res Q :=
  if Z.eqb b 0 then Raise ZeroDivisionError
  else Ok (inject_Z a / inject_Z b)%Q.

(** [for dev, files in d.items(): scores[dev] = len(files) / total]. *)
Fixpoint scores_loop (d : list (string * list string)) (total : Z)
    (scores : list (string * Q)) : res (list (string * Q)) :=
  match d with
  | [] => Ok scores
  | (dev, files) :: d' =>
      res_bind (true_div (Z.of_nat (length files)) total) (λ score,
        scores_loop d' total (alist_set dev score scores))
  end.

(** [sorted(d, key=lambda x: d[x], reverse=True)]: descending, and stable. *)
Fixpoint sorted_desc_insert (p : string * Q) (l : list (string * Q))
    : list (string * Q) :=
  match l with
  | [] => [p]
  | p' :: l' =>
      if Qlt_le_dec p.2 p'.2 then p' :: sorted_desc_insert p l'
      else p :: l
  end.

Definition sorted_desc (d : list (string * Q)) : list (string * Q) :=
  foldr sorted_desc_insert [] d.

Definition _sort_and_filter (self : HistoryGraph) (d : list (string * Q))
    : list (string * Q) :=
  filter (λ p : string * Q, Qle_bool (_score_threshold self) p.2 = true)
         (sorted_desc d).

Definition get_jacks : M HistoryGraph (list (string * Q)) :=
  memo cd_jacks set_cd_jacks
    (let* dev_to_files := get_dev_to_reachable_files in
     let* self := get_state in
     let len_files := get_num_files self in
     let* dev_to_file_coverage := lift (scores_loop dev_to_files len_files []) in
     ret (_sort_and_filter self dev_to_file_coverage)).

Definition get_mavens : M HistoryGraph (list (string * Q)) :=
  memo cd_mavens set_cd_mavens
    (let* dev_to_rare_files := get_dev_to_rare_files in
     let* num_rare_files := get_num_rare_files in
     let* dev_to_mavenness :=
       lift (scores_loop dev_to_rare_files num_rare_files []) in
     let* self := get_state in
     ret (_sort_and_filter self dev_to_mavenness)).

(** [itertools.combinations(devs, 2)]. *)
Fixpoint combinations2 (l : list string) : list (string * string) :=
  match l with
  | [] => []
  | x :: l' => map (λ y, (x, y)) l' ++ combinations2 l'
  end.

(** [sum(1 / d for d in distances)]. *)
Definition sum_reciprocals (distances : list nat) : Q :=
  foldr (λ d acc, (1 / inject_Z (Z.of_nat d) + acc)%Q) 0%Q distances.

(** The first loop of [_calculate_rsrd_distances]. Python iterates the set
    [devs] in an order of its own; the model takes the order of
    [get_developers]. *)
Definition dev_pair2distances_of (G : Graph) (devs : list string)
    : list (string * string * list nat) :=
  foldl (λ dev_pair2distances start,
           let other_devs := filter (λ d, d ≠ start) devs in
           let paths := nx.all_simple_paths G start other_devs 4 in
           foldl (λ dev_pair2distances (path : list string),
                    match last path with
                    | Some end_ =>
                        alist_append (start, end_) (length path - 1)%nat
                          dev_pair2distances
                    | None => dev_pair2distances
                    end)
                 dev_pair2distances paths)
        [] devs.

(** The second loop of [_calculate_rsrd_distances]. *)
Definition dev_pair2rsrd_of
    (dev_pair2distances : list (string * string * list nat))
    (devs : list string) : list (string * string * Q) :=
  foldl (λ dev_pair2rsrd (dev_pair : string * string),
           match alist_get dev_pair dev_pair2distances with
           | Some distances =>
               let srd := sum_reciprocals distances in
               if Qeq_bool srd 0 then dev_pair2rsrd
               else alist_set dev_pair (1 / srd)%Q dev_pair2rsrd
           | None => dev_pair2rsrd
           end)
        [] (combinations2 devs).

Definition _calculate_rsrd_distances (self : HistoryGraph)
    : list (string * string * Q) :=
  let devs := get_developers self in
  dev_pair2rsrd_of (dev_pair2distances_of (_G self) devs) devs.

(** [devG.add_edges_from(edge_list)]. *)
Definition devG_of (edge_list : list (string * string * Q)) : DevGraph :=
  foldl (λ devG (e : string * string * Q),
           mkDevGraph ({[e.1.1; e.1.2]} ∪ dg_node devG)
             (<[(e.1.2, e.1.1) := e.2]> (<[e.1 := e.2]> (dg_adj devG))))
        (mkDevGraph ∅ ∅) edge_list.

Definition get_developer_graph : M HistoryGraph DevGraph :=
  memo cd_devG set_cd_devG
    (let* self := get_state in
     let dev_pair2distances := _calculate_rsrd_distances self in
     let edge_list :=
       filter (λ e : string * string * Q, Qle_bool e.2 0 = false)
              dev_pair2distances in
     ret (devG_of edge_list)).

(** * Notions of the statements *)

(** ** The node set and the edge set of a graph *)

Definition nset (G : Graph) : gset string := dom (_node G).

Definition eset (G : Graph) : gset (string * string) := dom (_adj G).

(** ** The graphs that the program builds

    [good G]: the adjacency is symmetric ([_adj[u][v]] and [_adj[v][u]] are
    the same attributes), an edge joins two nodes of the graph, and no node
    is isolated. *)

Record good (G : Graph) : Prop := mkGood {
  good_sym : ∀ u v, _adj G !! (u, v) = _adj G !! (v, u);
  good_closed : ∀ u v, (u, v) ∈ eset G → u ∈ nset G;
  good_connected : ∀ u, u ∈ nset G → ∃ v, (u, v) ∈ eset G
}.

(** ** The effect of the mutating methods on [self._G] *)

Definition rename_nodes_G (mapping : gmap string string) (G : Graph) : Graph :=
  if decide (mapping = ∅) then G else nx.relabel_nodes G mapping.

Definition remove_nodes_G (ns : list string) (G : Graph) : Graph :=
  match ns with
  | [] => G
  | _ :: _ =>
      let G1 := nx.remove_nodes_from ns G in
      nx.remove_nodes_from (nx.isolates G1) G1
  end.

Definition add_edges_G (h : string) (d : Z) (k : string) (xs : list string)
    (G : Graph) : Graph :=
  foldl (λ G x, nx.add_edge h x (Some d) (Some k) G) G xs.

Definition add_content_G (cs : ChangeSet) (files : list string) (G : Graph)
    : Graph :=
  let G := nx.add_node (commit_hash cs) "ChangeSet" G in
  let G := nx.add_node (author cs) "Developer" G in
  let G := nx.add_edge (author cs) (commit_hash cs) None None G in
  let G := nx.add_nodes_from files "File" G in
  let G := add_edges_G (commit_hash cs) (date cs) "include" files G in
  let G := nx.add_nodes_from (issues cs) "Issue" G in
  add_edges_G (commit_hash cs) (date cs) "link" (issues cs) G.

Definition is_large (limit : Z) (cs : ChangeSet) : bool :=
  Z.ltb limit
    (Z.of_nat (length (files_add_modify (partition_code_changes (code_changes cs))))).

Definition add_change_set_G (limit : Z) (cs : ChangeSet) (G : Graph) : Graph :=
  let p := partition_code_changes (code_changes cs) in
  let G := remove_nodes_G (files_delete p)
             (rename_nodes_G (files_rename_dict p) G) in
  if is_large limit cs then G else add_content_G cs (files_add_modify p) G.

Definition add_change_sets_G (limit : Z) (css : list ChangeSet) (G : Graph)
    : Graph :=
  foldl (λ G cs, add_change_set_G limit cs G) G css.

(** ** Adding the content of a change set on node and edge sets *)

Definition adj_sym (G : Graph) : Prop :=
  ∀ u v, _adj G !! (u, v) = _adj G !! (v, u).

(** The edges that a change set brings. *)
Definition new_edge (cs : ChangeSet) (files : list string) (a b : string)
    : Prop :=
  (a = author cs ∧ b = commit_hash cs)
  ∨ (a = commit_hash cs ∧ b = author cs)
  ∨ (a = commit_hash cs ∧ (b ∈ files ∨ b ∈ issues cs))
  ∨ (b = commit_hash cs ∧ (a ∈ files ∨ a ∈ issues cs)).

(** ** The timeline that [_generate_date_to_change_sets] builds *)

Definition normalized (k : Z) : Prop := k `mod` usec_per_day = usec_per_day - 1.

(** The change sets as loaded, in the order of the file. *)
Definition loaded (jsons : list JsonChangeSet) (css : list ChangeSet) : Prop :=
  Forall2 (λ j cs, load_change_set j = Ok cs) jsons css.

Definition bucket (css : list ChangeSet) (d : dict Z (list ChangeSet))
    : dict Z (list ChangeSet) :=
  foldl (λ d cs, dict_append (date cs) cs d) d css.

(** The timeline: dates strictly ascending, each at the end of its day. *)
Definition timeline_ok (tl : dict Z (list ChangeSet)) : Prop :=
  StronglySorted Z.lt (dict_keys tl) ∧ Forall normalized (dict_keys tl).

(** ** The timeline of an input in chronological order *)

(** [n] consecutive days from [first]. *)
Definition day_range (first : Z) (n : nat) : list Z :=
  map (λ i : nat, first + Z.of_nat i * usec_per_day) (seq 0 n).

(** What the timeline is to be: its dates are exactly the days from the
    earliest to the latest date of a change set, consecutive and ascending,
    and each date holds the change sets of that day in the order of the
    input (none for a day without a commit). *)
Definition covers_every_day (css : list ChangeSet)
    (tl : dict Z (list ChangeSet)) : Prop :=
  ∃ earliest latest,
    earliest ∈ map date css ∧ latest ∈ map date css
    ∧ (∀ c, c ∈ css → earliest ≤ date c ≤ latest)
    ∧ tl = map (λ k, (k, filter (λ cs, date cs = k) css))
             (day_range earliest
                (S (Z.to_nat ((latest - earliest) `div` usec_per_day)))).

(** *** An input that is not in chronological order *)

Definition noon (day : Z) : Z := day * usec_per_day + 43200000000.

Definition unordered_dataset : list JsonChangeSet :=
  [ mkJsonChangeSet "CS1" "d1" (noon 2) []
      [mkJsonCodeChange "F1" "ADD" None] 2;
    mkJsonChangeSet "CS0" "d1" (noon 0) []
      [mkJsonCodeChange "F0" "ADD" None] 1 ].

Definition unordered_change_sets : list ChangeSet :=
  [ mkChangeSet "CS1" "d1" (max_of_day (noon 2)) []
      [mkCodeChange "F1" "ADD" None] 2;
    mkChangeSet "CS0" "d1" (max_of_day (noon 0)) []
      [mkCodeChange "F0" "ADD" None] 1 ].

(** ** Sliding the window *)

(** [n] successful calls of [forward_one_day] in a row. *)
Fixpoint forward_days (n : nat) (dm : DataManager) : res DataManager :=
  match n with
  | O => Ok dm
  | S n' =>
      match forward_one_day dm with
      | (Ok _, dm') => forward_days n' dm'
      | (Raise e, _) => Raise e
      end
  end.

(** From this position the window advances [IterationCount() - 1] times
    and the call after these raises [SlidingNotPossible]. *)
Definition advances_exactly (dm : DataManager) : Prop :=
  ∃ (n : nat) (dm' : DataManager),
    Z.of_nat n = get_num_possible_iterations dm - 1
    ∧ forward_days n dm = Ok dm'
    ∧ (forward_one_day dm').1 = Raise SlidingNotPossible.

(** A timeline of [S N] days from [first], the change sets of a day given
    by [g]. *)
Definition contiguous (g : Z → list ChangeSet) (first : Z) (N : nat)
    : dict Z (list ChangeSet) :=
  map (λ k, (k, g k)) (day_range first (S N)).

(** ** Renaming in place *)

(** The graph [G'] is the graph [G] with every node [n] renamed to [f n]
    in place: a renamed node has the attributes and exactly the edges, with
    their attributes, that the node had under its old name; no other node
    and no other edge exists. *)
Definition relabelled_in_place (f : string → string) (G G' : Graph) : Prop :=
  (∀ n, n ∈ nset G → _node G' !! f n = _node G !! n)
  ∧ (∀ x, x ∈ nset G' → ∃ n, n ∈ nset G ∧ x = f n)
  ∧ (∀ u v, u ∈ nset G → v ∈ nset G →
       _adj G' !! (f u, f v) = _adj G !! (u, v))
  ∧ (∀ a b, (a, b) ∈ eset G' → ∃ u v, (u, v) ∈ eset G ∧ a = f u ∧ b = f v).

(** ** One change set on the edge set *)

(** The names of a change set that [H] must avoid for the removal of the
    nodes [H] to commute with the addition of the change set. *)
Definition names_disjoint (H : list string) (cs : ChangeSet) : Prop :=
  commit_hash cs ∉ H
  ∧ author cs ∉ H
  ∧ (∀ i, i ∈ issues cs → i ∉ H)
  ∧ (∀ cc, cc ∈ code_changes cs →
       file_path cc ∉ H ∧ ∀ o, old_file_path cc = Some o → o ∉ H).

Definition olds_disjoint (H : list string) (cs : ChangeSet) : Prop :=
  ∀ cc o, cc ∈ code_changes cs → old_file_path cc = Some o → o ∉ H.

(** [G2] has the edges of [G1] that touch no node of [H]. *)
Definition same_modulo (H : list string) (G1 G2 : Graph) : Prop :=
  good G1 ∧ good G2
  ∧ ∀ a b, (a, b) ∈ eset G2 ↔ (a, b) ∈ eset G1 ∧ a ∉ H ∧ b ∉ H.

Definition all_touch (H : list string) (G : Graph) : Prop :=
  ∀ a b, (a, b) ∈ eset G → a ∈ H ∨ b ∈ H.

(** ** The window and the graph rebuilt from it *)

(** The change sets of the window, in ascending order of date. *)
Definition window_of (dm : DataManager) : list ChangeSet :=
  match _first_date dm, _last_date dm with
  | Some a, Some b =>
      concat (map snd
        (filter (λ p : Z * list ChangeSet, a ≤ p.1 ≤ b)
           (_date_to_change_sets dm)))
  | _, _ => []
  end.

(** The graph built from scratch from the change sets of the window. *)
Definition rebuild (self : HistoryGraph) : Graph :=
  add_change_sets_G (_num_files_limit self) (window_of (_data_manager self))
    nx.Graph_init.

Definition all_change_sets (dm : DataManager) : list ChangeSet :=
  concat (map snd (_date_to_change_sets dm)).

(** The commit hashes are pairwise distinct, and no commit hash is also the
    name of an author, an issue or a file. *)
Definition separate_names (all : list ChangeSet) : Prop :=
  NoDup (map commit_hash all)
  ∧ ∀ cs cs', cs ∈ all → cs' ∈ all →
      commit_hash cs ≠ author cs'
      ∧ commit_hash cs ∉ issues cs'
      ∧ ∀ cc, cc ∈ code_changes cs' →
          file_path cc ≠ commit_hash cs
          ∧ old_file_path cc ≠ Some (commit_hash cs).

(** [n] successful calls of [forward_graph_one_day] in a row. *)
Fixpoint forward_graph_days (n : nat) (self : HistoryGraph)
    : res HistoryGraph :=
  match n with
  | O => Ok self
  | S n' =>
      match forward_graph_one_day self with
      | (Ok true, self') => forward_graph_days n' self'
      | (Ok false, _) => Raise SlidingNotPossible
      | (Raise e, _) => Raise e
      end
  end.

Definition window_inv (dm : DataManager) : Prop :=
  timeline_ok (_date_to_change_sets dm)
  ∧ ∃ a b, _first_date dm = Some a ∧ _last_date dm = Some b
           ∧ a ≤ b ∧ normalized a ∧ normalized b.

(** The graph has the edges of the graph rebuilt from its window. *)
Definition in_step (self : HistoryGraph) : Prop :=
  good (_G self)
  ∧ eset (_G self) = eset (rebuild self)
  ∧ window_inv (_data_manager self).

(** ** What the getters compute, and the memoized values *)

Definition fresh_node_kinds (self : HistoryGraph) : gmap string string :=
  nx.get_node_attributes_kind (_G self).

Definition find_reachable_files_of (self : HistoryGraph) (developer : string)
    : res (list string) :=
  res_bind (nx.getitem (_G self) developer) (λ children,
    find_reachable_files_loop
      (find_reachable_files_fuel (_G self) developer) self
      (fresh_node_kinds self) {[developer]} [] [(developer, 0%Q, children)]).

Fixpoint reachable_files_of (self : HistoryGraph) (devs : list string)
    (acc : list (string * list string)) : res (list (string * list string)) :=
  match devs with
  | [] => Ok acc
  | dev :: devs' =>
      res_bind (find_reachable_files_of self dev) (λ files,
        reachable_files_of self devs' (alist_set dev files acc))
  end.

Definition fresh_dev_to_reachable_files (self : HistoryGraph)
    : res (list (string * list string)) :=
  reachable_files_of self (get_developers self) [].

Definition fresh_file_to_devs (self : HistoryGraph)
    : res (list (string * list string)) :=
  res_bind (fresh_dev_to_reachable_files self) (λ d, Ok (file_to_devs_of d)).

Definition fresh_dev_to_rare_files (self : HistoryGraph)
    : res (list (string * list string)) :=
  res_bind (fresh_file_to_devs self) (λ d, Ok (dev_to_rare_files_of d)).

(** The scores before [_sort_and_filter]. *)
Definition fresh_file_coverage (self : HistoryGraph)
    : res (list (string * Q)) :=
  res_bind (fresh_dev_to_reachable_files self) (λ d,
    scores_loop d (get_num_files self) []).

Definition fresh_mavenness (self : HistoryGraph) : res (list (string * Q)) :=
  res_bind (fresh_dev_to_rare_files self) (λ d,
    scores_loop d (num_files_of d) []).

Definition fresh_jacks (self : HistoryGraph) : res (list (string * Q)) :=
  res_bind (fresh_file_coverage self) (λ t, Ok (_sort_and_filter self t)).

Definition fresh_mavens (self : HistoryGraph) : res (list (string * Q)) :=
  res_bind (fresh_mavenness self) (λ t, Ok (_sort_and_filter self t)).

Definition fresh_devG (self : HistoryGraph) : DevGraph :=
  devG_of (filter (λ e : string * string * Q, Qle_bool e.2 0 = false)
             (_calculate_rsrd_distances self)).

(** Every memoized value is the value that would be computed now. *)
Record coherent (self : HistoryGraph) : Prop := mkCoherent {
  coh_node_kinds : ∀ v,
    cd_node_kinds (_current_data self) = Some v → v = fresh_node_kinds self;
  coh_reachable : ∀ v,
    cd_dev_to_reachable_files (_current_data self) = Some v →
    fresh_dev_to_reachable_files self = Ok v;
  coh_file_to_devs : ∀ v,
    cd_file_to_devs (_current_data self) = Some v →
    fresh_file_to_devs self = Ok v;
  coh_rare : ∀ v,
    cd_dev_to_rare_files (_current_data self) = Some v →
    fresh_dev_to_rare_files self = Ok v;
  coh_jacks : ∀ v,
    cd_jacks (_current_data self) = Some v → fresh_jacks self = Ok v;
  coh_mavens : ∀ v,
    cd_mavens (_current_data self) = Some v → fresh_mavens self = Ok v;
  coh_devG : ∀ v,
    cd_devG (_current_data self) = Some v → v = fresh_devG self
}.

(** The same object but for the memoized values. *)
Definition same_core (self self' : HistoryGraph) : Prop :=
  self' = with_current_data (_current_data self') self.

(** A function of the object that does not look at the memoized values. *)
Definition core_only {A} (f : HistoryGraph → A) : Prop :=
  ∀ cd self, f (with_current_data cd self) = f self.

(** [m] returns what [f] computes, and leaves the object as it is but for
    memoized values that stay coherent. *)
Definition computes {A} (m : M HistoryGraph A) (f : HistoryGraph → res A)
    : Prop :=
  ∀ self, coherent self →
    ∃ self', m self = (f self, self') ∧ coherent self' ∧ same_core self self'.

(** ** The window positions, and the states between two slides *)

(** The states of the object: after its construction, after a successful
    slide, and after any call of a getter in such a state. *)
Inductive position : HistoryGraph → Prop :=
| position_init dataset w dl nfl st self :
    HistoryGraph_init dataset w dl nfl st = Ok self → position self
| position_forward self self' :
    position self → forward_graph_one_day self = (Ok true, self') →
    position self'
| position_get_dev_to_reachable_files self :
    position self → position (get_dev_to_reachable_files self).2
| position_get_file_to_devs self :
    position self → position (get_file_to_devs self).2
| position_get_dev_to_rare_files self :
    position self → position (get_dev_to_rare_files self).2
| position_get_num_rare_files self :
    position self → position (get_num_rare_files self).2
| position_get_jacks self :
    position self → position (get_jacks self).2
| position_get_mavens self :
    position self → position (get_mavens self).2
| position_get_developer_graph self :
    position self → position (get_developer_graph self).2.

(** ** Rare files and maven scores *)


(** ** Every node has a kind *)

Definition kinded (G : Graph) : Prop :=
  ∀ n, n ∈ nset G → ∃ k, _node G !! n = Some (Some k).

(** What the traversal needs of a state. *)
Record ready (self : HistoryGraph) : Prop := mkReady {
  ready_good : good (_G self);
  ready_kinded : kinded (_G self);
  ready_range : 0 < _graph_range_in_days self;
  ready_first : is_Some (_first_date (_data_manager self))
}.

(** ** The traversal of [_find_reachable_files] *)

(** The measure of the traversal: what the frames of the stack still hold,
    and what the nodes not yet visited can still push. *)
Definition unvisited_weight (G : Graph) (visited : gset string)
    (l : list string) : nat :=
  sum_list (map (λ n, if decide (n ∈ visited) then 0%nat
                      else S (length (nx.neighbors G n))) l).

Definition stack_weight (stack : list (string * Q * list string)) : nat :=
  sum_list (map (λ fr : string * Q * list string, S (length fr.2)) stack).

(** Every frame holds neighbours of its node. *)
Definition frames_ok (G : Graph) (stack : list (string * Q * list string))
    : Prop :=
  ∀ fr c, fr ∈ stack → c ∈ fr.2 → (fr.1.1, c) ∈ eset G.

(** ** Simple paths *)

(** Consecutive nodes of [p] are joined by an edge. *)
Fixpoint walk (G : Graph) (p : list string) : Prop :=
  match p with
  | x :: (y :: _) as p' => (x, y) ∈ eset G ∧ walk G p'
  | _ => True
  end.

(** [p] is a simple path from [a] to [b] with at least one and at most [k]
    edges. *)
Definition simple_path (G : Graph) (k : nat) (a b : string)
    (p : list string) : Prop :=
  head p = Some a ∧ last p = Some b ∧ NoDup p ∧ walk G p
  ∧ (2 ≤ length p ≤ k + 1)%nat.

(** The lengths of the simple paths from [a] to [b] with at most [k]
    edges. *)
Definition simple_path_lengths (G : Graph) (k : nat) (a b : string)
    : list nat :=
  map (λ p, (length p - 1)%nat) (nx.all_simple_paths G a [b] k).

(** ** The developer graph *)

(** The value under a key of a [defaultdict(list)] after more appends. *)
Definition appended {V} (o : option (list V)) (l : list V)
    : option (list V) :=
  match o, l with
  | None, [] => None
  | _, _ => Some (default [] o ++ l)
  end.

(** What one path from [start] adds under the key [k]. *)
Definition recorded_by (start : string) (k : string * string)
    (path : list string) : option nat :=
  match last path with
  | Some end_ =>
      if decide ((start, end_) = k) then Some (length path - 1)%nat else None
  | None => None
  end.

(** The value that the second loop stores for a pair. *)
Definition rsrd_of (dev_pair2distances : list (string * string * list nat))
    (dev_pair : string * string) : option Q :=
  match alist_get dev_pair dev_pair2distances with
  | Some distances =>
      if Qeq_bool (sum_reciprocals distances) 0 then None
      else Some (1 / sum_reciprocals distances)%Q
  | None => None
  end.

(** The distance that the developer graph records between two developers:
    nothing when no simple path of at most four edges joins them, otherwise
    the reciprocal of the sum of the reciprocals of the lengths of these
    paths, each path counted once. *)
Definition rsrd_distance (G : Graph) (a b : string) : option Q :=
  match simple_path_lengths G 4 a b with
  | [] => None
  | lengths => Some (1 / sum_reciprocals lengths)%Q
  end.

Definition option_Qeq (o1 o2 : option Q) : Prop :=
  match o1, o2 with
  | Some q1, Some q2 => (q1 == q2)%Q
  | None, None => True
  | _, _ => False
  end.

(** * Sample histories *)

(** The object that a successful construction returns. *)
Definition history_or_empty (r : res HistoryGraph) : HistoryGraph :=
  match r with
  | Ok self => self
  | Raise _ =>
      mkHistoryGraph 0 0 0 0 0 no_current_data (mkDataManager 0 [] None None)
        nx.Graph_init
  end.

(** Four change sets of three developers over six days. *)
Definition sample_dataset : list JsonChangeSet :=
  [ mkJsonChangeSet "CS0" "d1" (noon 0) ["I0"]
      [mkJsonCodeChange "F0" "ADD" None] 1;
    mkJsonChangeSet "CS1" "d1" (noon 2) ["I1"]
      [mkJsonCodeChange "F1" "ADD" None; mkJsonCodeChange "F2" "ADD" None] 3;
    mkJsonChangeSet "CS2" "d2" (noon 3) ["I2"]
      [mkJsonCodeChange "F2" "MODIFY" None; mkJsonCodeChange "F3" "ADD" None] 4;
    mkJsonChangeSet "CS3" "d3" (noon 5) ["I2"]
      [mkJsonCodeChange "F4" "ADD" None;
       mkJsonCodeChange "F9" "RENAME" (Some "F0")] 5 ].

Definition sample_change_sets : list ChangeSet :=
  [ mkChangeSet "CS0" "d1" (max_of_day (noon 0)) ["I0"]
      [mkCodeChange "F0" "ADD" None] 1;
    mkChangeSet "CS1" "d1" (max_of_day (noon 2)) ["I1"]
      [mkCodeChange "F1" "ADD" None; mkCodeChange "F2" "ADD" None] 3;
    mkChangeSet "CS2" "d2" (max_of_day (noon 3)) ["I2"]
      [mkCodeChange "F2" "MODIFY" None; mkCodeChange "F3" "ADD" None] 4;
    mkChangeSet "CS3" "d3" (max_of_day (noon 5)) ["I2"]
      [mkCodeChange "F4" "ADD" None;
       mkCodeChange "F9" "RENAME" (Some "F0")] 5 ].

(** The history over the sample with a window of four days: days 0 to 3. *)
Definition sample_history : HistoryGraph :=
  history_or_empty (HistoryGraph_init sample_dataset 4 10 50 (1 # 100)).

(** The same after two days forward: days 2 to 5. *)
Definition sample_history_later : HistoryGraph :=
  history_or_empty (forward_graph_days 2 sample_history).

(** A window of six days takes the whole sample. *)
Definition exhausted_history : HistoryGraph :=
  history_or_empty (HistoryGraph_init sample_dataset 6 10 50 (1 # 100)).

(** The sample with [num_files_limit = 2], and a change set with three
    add/modify targets, one rename and one deletion. *)
Definition small_limit_history : HistoryGraph :=
  history_or_empty (HistoryGraph_init sample_dataset 4 10 2 (1 # 100)).

Definition large_change_set : ChangeSet :=
  mkChangeSet "CS9" "d9" (max_of_day (noon 4)) ["I9"]
    [ mkCodeChange "F5" "ADD" None; mkCodeChange "F7" "ADD" None;
      mkCodeChange "F8" "MODIFY" None;
      mkCodeChange "F6" "RENAME" (Some "F0");
      mkCodeChange "F3" "DELETE" None ] 6.

(** Two developers change the one file of the window: no file is rare. *)
Definition shared_file_dataset : list JsonChangeSet :=
  [ mkJsonChangeSet "CS0" "d1" (noon 0) []
      [mkJsonCodeChange "F0" "ADD" None] 1;
    mkJsonChangeSet "CS1" "d2" (noon 0) []
      [mkJsonCodeChange "F0" "MODIFY" None] 1 ].

Definition shared_file_history : HistoryGraph :=
  history_or_empty (HistoryGraph_init shared_file_dataset 1 10 50 (1 # 100)).

(** The last change set of the window deletes the only file of the project:
    [num_current_files] is 0. *)
Definition emptied_project_dataset : list JsonChangeSet :=
  [ mkJsonChangeSet "CS0" "d1" (noon 0) []
      [mkJsonCodeChange "F0" "ADD" None] 1;
    mkJsonChangeSet "CS1" "d1" (noon 1) []
      [mkJsonCodeChange "F0" "DELETE" None] 0 ].

Definition emptied_project_history : HistoryGraph :=
  history_or_empty
    (HistoryGraph_init emptied_project_dataset 2 10 50 (1 # 100)).

(** A change set that adds a file and modifies a file that no change set of
    the dataset added (preprocess.py counts the files that were added: its
    [num_current_files] is 1). *)
Definition undercounted_dataset : list JsonChangeSet :=
  [ mkJsonChangeSet "CS0" "d1" (noon 0) []
      [mkJsonCodeChange "F0" "ADD" None;
       mkJsonCodeChange "F1" "MODIFY" None] 1 ].

Definition undercounted_history : HistoryGraph :=
  history_or_empty (HistoryGraph_init undercounted_dataset 1 10 50 (1 # 100)).

(** Two change sets under one commit hash, and a commit hash that is also
    the name of an author; a window of two days over three days. *)
Definition repeated_hash_dataset : list JsonChangeSet :=
  [ mkJsonChangeSet "CS0" "d1" (noon 0) []
      [mkJsonCodeChange "F0" "ADD" None] 1;
    mkJsonChangeSet "CS0" "d2" (noon 1) []
      [mkJsonCodeChange "F1" "ADD" None] 2;
    mkJsonChangeSet "CS2" "d3" (noon 2) []
      [mkJsonCodeChange "F2" "ADD" None] 3 ].

Definition repeated_hash_history : HistoryGraph :=
  history_or_empty (HistoryGraph_init repeated_hash_dataset 2 10 50 (1 # 100)).

Definition repeated_hash_history_later : HistoryGraph :=
  history_or_empty (forward_graph_days 1 repeated_hash_history).

Definition hash_of_author_dataset : list JsonChangeSet :=
  [ mkJsonChangeSet "d2" "d1" (noon 0) []
      [mkJsonCodeChange "F0" "ADD" None] 1;
    mkJsonChangeSet "CS1" "d2" (noon 1) []
      [mkJsonCodeChange "F1" "ADD" None] 2;
    mkJsonChangeSet "CS2" "d3" (noon 2) []
      [mkJsonCodeChange "F2" "ADD" None] 3 ].

Definition hash_of_author_history : HistoryGraph :=
  history_or_empty
    (HistoryGraph_init hash_of_author_dataset 2 10 50 (1 # 100)).

Definition hash_of_author_history_later : HistoryGraph :=
  history_or_empty (forward_graph_days 1 hash_of_author_history).


(** * More of the program *)

(** ** util.py: [sort_dict] by value, [highest_k] *)

(** [sort_dict(d, by_value=True, reverse=reverse)]:
    [{k: d[k] for k in sorted(d, key=lambda x: d[x], reverse=reverse)}].
    [sorted] is stable in both directions: keys with the same value keep
    the order of the dict. *)
Fixpoint sorted_by_value_insert {K} (reverse : bool) (p : K * Z)
    (l : list (K * Z)) : list (K * Z) :=
  match l with
  | [] => [p]
  | p' :: l' =>
      if (if reverse then Z.ltb p.2 p'.2 else Z.ltb p'.2 p.2)
      then p' :: sorted_by_value_insert reverse p l'
      else p :: l
  end.

Definition sort_dict_by_value {K} (d : list (K * Z)) (reverse : bool)
    : list (K * Z) :=
  foldr (sorted_by_value_insert reverse) [] d.

(** [list(sort_dict(d, by_value=True, reverse=True))[:k]]; a negative [k]
    cuts from the end, as a slice does. *)
Definition highest_k {K} (d : list (K * Z)) (k : Z) : list K :=
  let keys := (sort_dict_by_value d true).*1 in
  if Z.leb 0 k then take (Z.to_nat k) keys
  else take (length keys - Z.to_nat (- k)) keys.

(** ** validation.py

    A set of names is a [gset string]; the ratios are exact rationals, the
    rounding of the floating-point division is not modelled. *)

(** [len(set1.intersection(set2)) / len(set1)]. *)
Definition accuracy (set1 set2 : gset string) : res Q :=
  true_div (Z.of_nat (size (set1 ∩ set2))) (Z.of_nat (size set1)).

Definition kvalues : list Z := [1; 3; 5; 10].

(** The keys of [accs]: the pairs [k1 <= k2] of [kvalues], in the order of
    the comprehension. *)
Definition topk_cells : list (Z * Z) :=
  flat_map (λ k1, map (pair k1) (filter (λ k2, k1 ≤ k2) kvalues)) kvalues.

(** [l[:k]] for [k >= 0]. *)
Definition slice_to {A} (k : Z) (l : list A) : list A := take (Z.to_nat k) l.

(** [for k1, k2 in accs: accs[(k1, k2)].append(accuracy(...))]. *)
Fixpoint topk_append (top_commenters key_developers : list string)
    (accs : list (Z * Z * list Q)) : res (list (Z * Z * list Q)) :=
  match accs with
  | [] => Ok []
  | (k1, k2, values) :: accs' =>
      res_bind (accuracy (list_to_set (slice_to k1 top_commenters))
                         (list_to_set (slice_to k2 key_developers))) (λ acc,
      res_bind (topk_append top_commenters key_developers accs') (λ rest,
      Ok ((k1, k2, values ++ [acc]) :: rest)))
  end.

(** The loop over the dates of the predictions. *)
Fixpoint topk_loop (date_to_predicted_key_developers
                    date_to_correct_key_developers : list (Z * list string))
    (accs : list (Z * Z * list Q)) : res (list (Z * Z * list Q)) :=
  match date_to_predicted_key_developers with
  | [] => Ok accs
  | (date, key_developers) :: rest =>
      match alist_get date date_to_correct_key_developers with
      | None => Raise KeyError
      | Some top_commenters =>
          res_bind (topk_append top_commenters key_developers accs)
            (λ accs', topk_loop rest date_to_correct_key_developers accs')
      end
  end.

(** [sum(values)]: the additions from the left, starting at 0. *)
Definition py_sum (values : list Q) : Q := foldl Qplus 0%Q values.

(** [sum(values) / len(values)]. *)
Definition average (values : list Q) : res Q :=
  match values with
  | [] => Raise ZeroDivisionError
  | _ => Ok (py_sum values / inject_Z (Z.of_nat (length values)))%Q
  end.

Fixpoint topk_averages (accs : list (Z * Z * list Q))
    : res (list (Z * Z * Q)) :=
  match accs with
  | [] => Ok []
  | (c, values) :: accs' =>
      res_bind (average values) (λ avg,
      res_bind (topk_averages accs') (λ rest, Ok ((c, avg) :: rest)))
  end.

Definition topk_table (date_to_predicted_key_developers
                       date_to_correct_key_developers : list (Z * list string))
    : res (list (Z * Z * Q)) :=
  let accs := map (λ c, (c, [])) topk_cells in
  res_bind (topk_loop date_to_predicted_key_developers
                      date_to_correct_key_developers accs)
           topk_averages.

(** ** extract_commenters.py

    [generate_date_to_top_commenters] reads the comments of the issues and
    the change sets from files; here it takes what it reads: the table
    [issue_to_commenters] and the records of the dataset. *)

(** [del d[k]]. *)
Definition alist_delete `{EqDecision K} {V} (k : K) (d : list (K * V))
    : list (K * V) :=
  filter (λ p : K * V, p.1 ≠ k) d.

(** [top_commenters[commenter] += 1] on a [defaultdict(lambda: 0)]. *)
Definition count_up (commenter : string) (top_commenters : list (string * Z))
    : list (string * Z) :=
  alist_set commenter (default 0 (alist_get commenter top_commenters) + 1)
    top_commenters.

(** [top_commenters[commenter] -= 1], and [del top_commenters[commenter]]
    when the count is not positive. *)
Definition count_down (commenter : string)
    (top_commenters : list (string * Z)) : list (string * Z) :=
  let count := default 0 (alist_get commenter top_commenters) - 1 in
  if Z.leb count 0 then alist_delete commenter top_commenters
  else alist_set commenter count top_commenters.

(** The three nested loops over change sets, issues and commenters. *)
Definition for_each_comment
    (step : string → list (string * Z) → list (string * Z))
    (issue_to_commenters : list (string * list string))
    (change_sets : list ChangeSet) (top_commenters : list (string * Z))
    : list (string * Z) :=
  foldl (λ top_commenters change_set,
    foldl (λ top_commenters issue_id,
      foldl (λ top_commenters commenter, step commenter top_commenters)
        top_commenters
        (default [] (alist_get issue_id issue_to_commenters)))
      top_commenters (issues change_set))
    top_commenters change_sets.

(** The loop [while True] of [generate_date_to_top_commenters]; one step
    of [fuel] is one turn. *)
Fixpoint top_commenters_loop (fuel : nat)
    (issue_to_commenters : list (string * list string))
    (change_sets_add change_sets_remove : list ChangeSet)
    (top_commenters : list (string * Z))
    (date_to_top_commenters : list (option Z * list (string * Z)))
    (data_manager : DataManager)
    : res (list (option Z * list (string * Z))) :=
  match fuel with
  | O => Raise OutOfFuel
  | S fuel' =>
      let top_commenters :=
        for_each_comment count_up issue_to_commenters change_sets_add
          top_commenters in
      let top_commenters :=
        for_each_comment count_down issue_to_commenters change_sets_remove
          top_commenters in
      let date := get_last_included_date data_manager in
      let date_to_top_commenters :=
        alist_set date (sort_dict_by_value top_commenters true)
          date_to_top_commenters in
      match forward_one_day data_manager with
      | (Ok (change_sets_add, change_sets_remove), data_manager) =>
          top_commenters_loop fuel' issue_to_commenters change_sets_add
            change_sets_remove top_commenters date_to_top_commenters
            data_manager
      | (Raise SlidingNotPossible, _) => Ok date_to_top_commenters
      | (Raise e, _) => Raise e
      end
  end.

(** The window slides at most once per date of the timeline. *)
Definition generate_date_to_top_commenters
    (issue_to_commenters : list (string * list string))
    (dataset : list JsonChangeSet)
    : res (list (option Z * list (string * Z))) :=
  res_bind (DataManager_init dataset 365) (λ data_manager,
    match get_initial_window data_manager with
    | (Ok change_sets_add, data_manager) =>
        top_commenters_loop
          (S (length (_date_to_change_sets data_manager)))
          issue_to_commenters change_sets_add [] [] [] data_manager
    | (Raise e, _) => Raise e
    end).

(** * More notions of the statements *)

(** What [CodeChange.__init__] and [ChangeSet.__init__] assert of a record
    of the dataset. *)
Definition valid_code_change (c : JsonCodeChange) : Prop :=
  j_change_type c ∈ ["ADD"; "DELETE"; "MODIFY"; "RENAME"]
  ∧ (j_change_type c = "RENAME" ↔ is_Some (j_old_file_path c)).

Definition valid_change_set (j : JsonChangeSet) : Prop :=
  j_code_changes j ≠ [] ∧ Forall valid_code_change (j_code_changes j).

#[local] Instance valid_code_change_dec (c : JsonCodeChange)
    : Decision (valid_code_change c) :=
  ltac:(unfold valid_code_change; apply _).

(** The object with every memoized value cleared. *)
Definition cleared (self : HistoryGraph) : HistoryGraph :=
  with_current_data no_current_data self.

(** [d.get(k, [])]: the list under a key, empty for a key that is absent. *)
Definition listed {V} (k : string) (d : list (string * list V)) : list V :=
  default [] (alist_get k d).

(** The accuracy of one date in the cell [(k1, k2)], for a date that has
    top commenters. *)
Definition cell_accuracy (correct : list (Z * list string)) (c : Z * Z)
    (p : Z * list string) : Q :=
  let top := default [] (alist_get p.1 correct) in
  (inject_Z (Z.of_nat (size (list_to_set (C := gset string) (slice_to c.1 top)
                             ∩ list_to_set (slice_to c.2 p.2))))
   / inject_Z (Z.of_nat (size (list_to_set (C := gset string)
                                 (slice_to c.1 top)))))%Q.

(** Every predicted date has at least one top commenter. *)
Definition has_top_commenters (predicted correct : list (Z * list string))
    : Prop :=
  Forall (λ p : Z * list string, default [] (alist_get p.1 correct) ≠ [])
         predicted.

(** The commenters of the issues of some change sets, one occurrence for
    each comment. *)
Definition commenters_of (issue_to_commenters : list (string * list string))
    (change_sets : list ChangeSet) : list string :=
  change_sets ≫= (λ change_set,
    issues change_set ≫= (λ issue_id,
      default [] (alist_get issue_id issue_to_commenters))).

Definition occurrences (c : string) (l : list string) : Z :=
  Z.of_nat (length (filter (λ x, x = c) l)).

(** The change sets of the window of [w] days that ends on [last]. *)
Definition window_ending (w : Z) (tl : dict Z (list ChangeSet)) (last : Z)
    : list ChangeSet :=
  window_of (mkDataManager w tl (Some (last - (w - 1) * usec_per_day))
               (Some last)).

(** The counter holds for each commenter the number of their comments, and
    no commenter without a comment. *)
Definition counts (top_commenters : list (string * Z)) (l : list string)
    : Prop :=
  NoDup top_commenters.*1
  ∧ ∀ c, alist_get c top_commenters
         = if decide (0 < occurrences c l) then Some (occurrences c l)
           else None.

(** The entry of one date: the commenters of the issues of the window that
    ends on that date, each with the number of their comments, by
    descending number. *)
Definition top_commenters_entry
    (issue_to_commenters : list (string * list string)) (w : Z)
    (tl : dict Z (list ChangeSet)) (e : option Z * list (string * Z))
    : Prop :=
  ∃ last,
    e.1 = Some last
    ∧ StronglySorted (λ p q : string * Z, q.2 ≤ p.2) e.2
    ∧ counts e.2 (commenters_of issue_to_commenters (window_ending w tl last)).

(** [developer] reaches [node] at distance [q]: along edges of the graph
    whose distances are finite and add up to [q], never beyond the distance
    limit on the way, and through no other developer. *)
Inductive route (self : HistoryGraph) (developer : string)
    : Q → string → Prop :=
| route_start : route self developer 0%Q developer
| route_step parent child q e d kind :
    route self developer q parent →
    _adj (_G self) !! (parent, child) = Some e →
    _calculate_distance self (e_date e) = Ok (Finite d) →
    (q + d <= _distance_limit self)%Q →
    fresh_node_kinds self !! child = Some kind → kind ≠ "Developer" →
    route self developer (q + d)%Q child.

(** * More samples *)

(** The dict of [test_sort_dict]. *)
Definition test_dict : list (Z * Z) := [(1, 10); (2, 11); (4, 8); (3, 9)].

Definition test_timeline : list (Z * list Z) :=
  [(1, [10]); (2, [11]); (4, [8]); (3, [9])].

(** The data manager that a successful construction returns. *)
Definition data_manager_or_empty (r : res DataManager) : DataManager :=
  match r with
  | Ok dm => dm
  | Raise _ => mkDataManager 0 [] None None
  end.

(** The data manager over the sample with a window of four days, as
    constructed, and with its initial window. *)
Definition sample_manager : DataManager :=
  data_manager_or_empty (DataManager_init sample_dataset 4).

Definition sample_manager_started : DataManager :=
  (get_initial_window sample_manager).2.

(** The same one day and two days later. *)
Definition sample_manager_next : DataManager :=
  data_manager_or_empty (forward_days 1 sample_manager_started).

Definition sample_manager_later : DataManager :=
  data_manager_or_empty (forward_days 2 sample_manager_started).

(** Two dates of predictions, and the top commenters of these dates. *)
Definition sample_predictions : list (Z * list string) :=
  [(0, ["ann"; "bob"; "cat"; "dan"]); (1, ["bob"])].

Definition sample_top_commenters : list (Z * list string) :=
  [(1, ["ann"; "bob"]); (0, ["cat"; "ann"; "eve"; "bob"])].

(** A change set within the limit, with an author that is neither one of
    its files nor one of its issues. *)
Definition within_limit_change_set : ChangeSet :=
  mkChangeSet "CS9" "d9" (max_of_day (noon 3)) ["I9"]
    [mkCodeChange "F1" "MODIFY" None; mkCodeChange "F0" "DELETE" None;
     mkCodeChange "F7" "RENAME" (Some "F2")] 3.

(** A year and a day of history: commits on the first two days and on the
    last day, and the comments of their issues. *)
Definition year_dataset : list JsonChangeSet :=
  [ mkJsonChangeSet "CS0" "d1" (noon 0) ["I0"; "I1"]
      [mkJsonCodeChange "F0" "ADD" None] 1;
    mkJsonChangeSet "CS1" "d2" (noon 1) ["I1"]
      [mkJsonCodeChange "F1" "ADD" None] 2;
    mkJsonChangeSet "CS2" "d1" (noon 365) ["I2"]
      [mkJsonCodeChange "F1" "MODIFY" None] 2 ].

Definition year_change_sets : list ChangeSet :=
  [ mkChangeSet "CS0" "d1" (max_of_day (noon 0)) ["I0"; "I1"]
      [mkCodeChange "F0" "ADD" None] 1;
    mkChangeSet "CS1" "d2" (max_of_day (noon 1)) ["I1"]
      [mkCodeChange "F1" "ADD" None] 2;
    mkChangeSet "CS2" "d1" (max_of_day (noon 365)) ["I2"]
      [mkCodeChange "F1" "MODIFY" None] 2 ].

Definition year_comments : list (string * list string) :=
  [("I0", ["ann"; "bob"; "ann"]); ("I1", ["bob"]); ("I2", ["cat"; "ann"])].

(** * Double precision

    The analytics above divide in the rationals: their scores and their
    distances are the values before any rounding.  Python computes them as
    [float]s, the binary64 numbers of IEEE 754, and rounds every quotient
    to the nearest double, a tie going to the double with the even
    significand.  This part has that rounding, and with it the divisions of
    [get_mavens] and of [_calculate_distance].  A finite double is the
    rational that it denotes; the sign of a zero is not kept, which none of
    these computations observes. *)

(** The integer nearest to [x], the even one of the two when [x] lies
    halfway. *)
Definition round_half_even (x : Q) : Z :=
  let q := Qfloor x in
  match (x - inject_Z q ?= 1 # 2)%Q with
  | Lt => q
  | Gt => q + 1
  | Eq => if Z.even q then q else q + 1
  end.

(** The binary exponent of [x > 0]: the [k] with
    [2 ^ k <= x < 2 ^ (k + 1)]. *)
Definition floor_log2 (x : Q) : Z :=
  let k := Z.log2 (Qnum x) - Z.log2 (Zpos (Qden x)) in
  if Qle_bool (2 ^ k) x then k else k - 1.

(** The double nearest to [x > 0], the exponents being taken unbounded
    above: a multiple of [2 ^ e] by a significand of 53 bits, where [e] is
    not less than -1074, the exponent of the subnormal numbers.  The
    result is [2 ^ 1024] or more when [x] rounds to no finite double. *)
Definition nearest_double (x : Q) : Q :=
  let e := Z.max (floor_log2 x - 52) (-1074) in
  (inject_Z (round_half_even (x / 2 ^ e)) * 2 ^ e)%Q.

Definition round_float (x : Q) : Q :=
  match (x ?= 0)%Q with
  | Eq => 0%Q
  | Gt => nearest_double x
  | Lt => (- nearest_double (- x))%Q
  end.

Module binary64.

(** [a / b] on two ints: the double nearest to the quotient, and
    [OverflowError] when the quotient rounds to no finite double. *)
Definition true_div (a b : Z) : res Q :=
  if Z.eqb b 0 then Raise ZeroDivisionError
  else
    let q := round_float (inject_Z a / inject_Z b) in
    if Qle_bool (2 ^ 1024) (Qabs q) then Raise OverflowError else Ok q.

(** A [float] that is not a NaN. *)
Inductive float : Type :=
| finite (q : Q)
| inf
| neg_inf.

(** [x / y] on two finite floats: [ZeroDivisionError] for a zero divisor;
    otherwise the division of IEEE 754, which overflows to an infinity. *)
Definition float_div (x y : Q) : res float :=
  if Qeq_bool y 0 then Raise ZeroDivisionError
  else
    let q := round_float (x / y) in
    if Qle_bool (2 ^ 1024) q then Ok inf
    else if Qle_bool q (- 2 ^ 1024) then Ok neg_inf
    else Ok (finite q).

(** The loop of [get_mavens]:
    [for dev, rare_files in dev_to_rare_files.items():
       dev_to_mavenness[dev] = len(rare_files) / num_rare_files]. *)
Fixpoint scores_loop (d : list (string * list string)) (total : Z)
    (scores : list (string * Q)) : res (list (string * Q)) :=
  match d with
  | [] => Ok scores
  | (dev, files) :: d' =>
      res_bind (true_div (Z.of_nat (length files)) total) (λ score,
        scores_loop d' total (alist_set dev score scores))
  end.

(** [_calculate_distance]: the recency is a quotient of two ints, the
    distance the quotient of the int 1 by the float [recency]. *)
Definition _calculate_distance (self : HistoryGraph) (edge_date : option Z)
    : res float :=
  match edge_date with
  | None => Ok (finite 0)
  | Some edge_date =>
      res_bind (_which_day self edge_date) (λ day,
      res_bind (true_div day (_graph_range_in_days self)) (λ recency,
        if Qeq_bool recency 0 then Ok inf
        else float_div 1 recency))
  end.

End binary64.



(** The first seven weeks of the year of history. *)
Definition seven_weeks_history : HistoryGraph :=
  history_or_empty (HistoryGraph_init year_dataset 49 10 50 (1 # 100)).

(** * Properties *)

(** ** The node set and the edge set of a graph *)

Section nx_sets.

Implicit Types (G : Graph) (n u v x a b : string) (ns : list string).

Lemma nset_add_node n k G x :
  x ∈ nset (nx.add_node n k G) ↔ x = n ∨ x ∈ nset G.
Proof. unfold nset, nx.add_node; simpl. rewrite dom_insert. set_solver. Qed.

Lemma eset_add_node n k G : eset (nx.add_node n k G) = eset G.
Proof. reflexivity. Qed.

Lemma nset_add_nodes_from ns k G x :
  x ∈ nset (nx.add_nodes_from ns k G) ↔ x ∈ ns ∨ x ∈ nset G.
Proof.
  unfold nx.add_nodes_from. revert G.
  induction ns as [|n ns IH]; intros G; simpl.
  - set_solver.
  - rewrite IH, nset_add_node. set_solver.
Qed.

Lemma eset_add_nodes_from ns k G : eset (nx.add_nodes_from ns k G) = eset G.
Proof.
  unfold nx.add_nodes_from. revert G.
  induction ns as [|n ns IH]; intros G; simpl; [done|].
  by rewrite IH.
Qed.

Lemma dom_ensure_node n (N : gmap string (option string)) x :
  x ∈ dom (nx.ensure_node n N) ↔ x = n ∨ x ∈ dom N.
Proof.
  unfold nx.ensure_node. destruct (N !! n) eqn:E.
  - split; [auto|]. intros [->|?]; [|done]. apply elem_of_dom; eauto.
  - rewrite dom_insert. set_solver.
Qed.

Lemma nset_add_edge u v d k G x :
  x ∈ nset (nx.add_edge u v d k G) ↔ x = u ∨ x = v ∨ x ∈ nset G.
Proof.
  unfold nset, nx.add_edge; simpl. rewrite !dom_ensure_node. tauto.
Qed.

Lemma eset_add_edge u v d k G a b :
  (a, b) ∈ eset (nx.add_edge u v d k G) ↔
  (a = u ∧ b = v) ∨ (a = v ∧ b = u) ∨ (a, b) ∈ eset G.
Proof.
  unfold eset, nx.add_edge; simpl. rewrite !dom_insert.
  rewrite !elem_of_union, !elem_of_singleton.
  split; intros H; [destruct H as [H|[H|H]]|destruct H as [[-> ->]|[[-> ->]|H]]];
    try (injection H as -> ->); auto.
Qed.

Lemma nset_remove_nodes_from ns G x :
  x ∈ nset (nx.remove_nodes_from ns G) ↔ x ∉ ns ∧ x ∈ nset G.
Proof.
  unfold nset, nx.remove_nodes_from; simpl.
  rewrite !elem_of_dom. unfold is_Some.
  setoid_rewrite map_lookup_filter_Some. simpl. naive_solver.
Qed.

Lemma eset_remove_nodes_from ns G a b :
  (a, b) ∈ eset (nx.remove_nodes_from ns G) ↔
  a ∉ ns ∧ b ∉ ns ∧ (a, b) ∈ eset G.
Proof.
  unfold eset, nx.remove_nodes_from; simpl.
  rewrite !elem_of_dom. unfold is_Some.
  setoid_rewrite map_lookup_filter_Some. simpl. naive_solver.
Qed.

Lemma elem_of_nodes G x : x ∈ nx.nodes G ↔ x ∈ nset G.
Proof.
  unfold nx.nodes, nset. rewrite elem_of_dom, list_elem_of_fmap.
  split.
  - intros [[k a] [-> H]]. apply elem_of_map_to_list in H. eauto.
  - intros [a H]. exists (x, a). split; [done|].
    by apply elem_of_map_to_list.
Qed.

Lemma elem_of_neighbors G n v : v ∈ nx.neighbors G n ↔ (n, v) ∈ eset G.
Proof.
  unfold nx.neighbors, eset. rewrite elem_of_dom, list_elem_of_omap.
  split.
  - intros [[[u w] a] [H1 H2]]. cbn [fst snd] in H2.
    destruct (decide (u = n)) as [->|]; [|done].
    injection H2 as ->. apply elem_of_map_to_list in H1. eauto.
  - intros [a H]. exists ((n, v), a). split.
    + by apply elem_of_map_to_list.
    + cbn [fst snd]. by destruct (decide (n = n)).
Qed.

Lemma degree_zero G n : nx.degree G n = 0%nat ↔ ∀ v, (n, v) ∉ eset G.
Proof.
  unfold nx.degree. split.
  - intros H v Hv. apply elem_of_neighbors in Hv.
    destruct (nx.neighbors G n); [by apply not_elem_of_nil in Hv|].
    simpl in H. lia.
  - intros H. destruct (nx.neighbors G n) as [|v l] eqn:E.
    + destruct (decide (n ∈ [])) as [Hin|]; [|done].
      by apply not_elem_of_nil in Hin.
    + exfalso. apply (H v), elem_of_neighbors. rewrite E. left.
Qed.

Lemma elem_of_isolates G x :
  x ∈ nx.isolates G ↔ x ∈ nset G ∧ ∀ v, (x, v) ∉ eset G.
Proof.
  unfold nx.isolates. rewrite list_elem_of_filter, elem_of_nodes, degree_zero.
  tauto.
Qed.

End nx_sets.

(** *** relabel_nodes on node and edge sets *)

Section relabel_sets.

Variable mapping : gmap string string.

Local Abbreviation f := (nx.relabel mapping).

Lemma relabel_node_fold (l : list (string * option string))
    (N0 : gmap string (option string)) x :
  x ∈ dom (foldl (λ N (p : string * option string), <[f p.1 := p.2]> N)
             N0 l)
  ↔ x ∈ dom N0 ∨ ∃ p, p ∈ l ∧ x = f p.1.
Proof.
  revert N0. induction l as [|p l IH]; intros N0; simpl.
  - split; [auto|]. intros [?|(p & Hp & _)]; [done|].
    by apply not_elem_of_nil in Hp.
  - rewrite IH, dom_insert, elem_of_union, elem_of_singleton.
    split.
    + intros [[->|?]|(q & Hq & ->)]; eauto.
      * right. exists p. split; [left|done].
      * right. exists q. split; [by right|done].
    + intros [?|(q & Hq & ->)]; [auto|].
      apply elem_of_cons in Hq as [->|Hq]; eauto.
Qed.

Lemma nset_relabel_nodes G x :
  x ∈ nset (nx.relabel_nodes G mapping) ↔ ∃ n, n ∈ nset G ∧ x = f n.
Proof.
  unfold nset, nx.relabel_nodes; simpl. rewrite relabel_node_fold.
  rewrite dom_empty. split.
  - intros [H|([n a] & Hp & ->)]; [by apply not_elem_of_empty in H|].
    apply elem_of_map_to_list in Hp. exists n. split; [|done].
    apply elem_of_dom; eauto.
  - intros (n & Hn & ->). apply elem_of_dom in Hn as [a Ha].
    right. exists (n, a). split; [|done]. by apply elem_of_map_to_list.
Qed.

Lemma relabel_edge_fold (l : list (string * string * EdgeAttr))
    (E0 : gmap (string * string) EdgeAttr) a b :
  (a, b) ∈ dom (foldl (λ E (p : string * string * EdgeAttr),
                   let u := f p.1.1 in
                   let v := f p.1.2 in
                   let a := nx.attr_update (E !! (u, v)) (e_date p.2)
                              (e_kind p.2) in
                   <[(v, u) := a]> (<[(u, v) := a]> E)) E0 l)
  ↔ (a, b) ∈ dom E0
    ∨ ∃ p, p ∈ l ∧ ((a = f p.1.1 ∧ b = f p.1.2) ∨ (a = f p.1.2 ∧ b = f p.1.1)).
Proof.
  revert E0. induction l as [|p l IH]; intros E0; simpl.
  - split; [auto|]. intros [?|(p & Hp & _)]; [done|].
    by apply not_elem_of_nil in Hp.
  - rewrite IH, !dom_insert, !elem_of_union, !elem_of_singleton.
    split.
    + intros [[H|[H|?]]|(q & Hq & Hab)]; eauto.
      * injection H as -> ->. right. exists p. split; [left|auto].
      * injection H as -> ->. right. exists p. split; [left|auto].
      * right. exists q. split; [by right|done].
    + intros [?|(q & Hq & Hab)]; [auto|].
      apply elem_of_cons in Hq as [->|Hq]; [|eauto].
      left. destruct Hab as [[-> ->]|[-> ->]]; auto.
Qed.

Lemma eset_relabel_nodes G a b :
  (a, b) ∈ eset (nx.relabel_nodes G mapping) ↔
  ∃ u v, (u, v) ∈ eset G ∧ ((a = f u ∧ b = f v) ∨ (a = f v ∧ b = f u)).
Proof.
  unfold eset, nx.relabel_nodes; simpl. rewrite relabel_edge_fold.
  rewrite dom_empty. split.
  - intros [H|([[u v] e] & Hp & Hab)]; [by apply not_elem_of_empty in H|].
    apply elem_of_map_to_list in Hp. exists u, v. split; [|done].
    apply elem_of_dom; eauto.
  - intros (u & v & Huv & Hab). apply elem_of_dom in Huv as [e He].
    right. exists ((u, v), e). split; [|done]. by apply elem_of_map_to_list.
Qed.

End relabel_sets.

(** ** The graphs that the program builds *)

Lemma good_sym_set G u v : good G → (u, v) ∈ eset G → (v, u) ∈ eset G.
Proof.
  intros HG. unfold eset. rewrite !elem_of_dom. by rewrite (good_sym G HG u v).
Qed.

Lemma good_empty : good nx.Graph_init.
Proof.
  split; unfold eset, nset; simpl; intros *.
  - by rewrite !lookup_empty.
  - rewrite dom_empty. intros H. by apply not_elem_of_empty in H.
  - rewrite dom_empty. intros H. by apply not_elem_of_empty in H.
Qed.

Lemma relabel_edge_fold_sym (mapping : gmap string string)
    (l : list (string * string * EdgeAttr))
    (E0 : gmap (string * string) EdgeAttr) :
  (∀ u v, E0 !! (u, v) = E0 !! (v, u)) →
  ∀ u v,
    foldl (λ E (p : string * string * EdgeAttr),
             let u := nx.relabel mapping p.1.1 in
             let v := nx.relabel mapping p.1.2 in
             let a := nx.attr_update (E !! (u, v)) (e_date p.2) (e_kind p.2) in
             <[(v, u) := a]> (<[(u, v) := a]> E)) E0 l !! (u, v)
    = foldl (λ E (p : string * string * EdgeAttr),
             let u := nx.relabel mapping p.1.1 in
             let v := nx.relabel mapping p.1.2 in
             let a := nx.attr_update (E !! (u, v)) (e_date p.2) (e_kind p.2) in
             <[(v, u) := a]> (<[(u, v) := a]> E)) E0 l !! (v, u).
Proof.
  revert E0. induction l as [|p l IH]; intros E0 H0; simpl; [done|].
  apply IH. intros u v.
  set (a := nx.attr_update _ _ _).
  set (x := nx.relabel mapping p.1.1). set (y := nx.relabel mapping p.1.2).
  destruct (decide ((u, v) = (y, x))) as [Heq|Hne1].
  - injection Heq as -> ->. rewrite lookup_insert_eq.
    destruct (decide ((x, y) = (y, x))) as [Heq|Hne].
    + rewrite Heq. by rewrite lookup_insert_eq.
    + rewrite lookup_insert_ne by done. by rewrite lookup_insert_eq.
  - rewrite lookup_insert_ne by done.
    destruct (decide ((u, v) = (x, y))) as [Heq|Hne2].
    + injection Heq as -> ->. rewrite !lookup_insert_eq. done.
    + rewrite lookup_insert_ne by done.
      rewrite lookup_insert_ne by congruence.
      rewrite lookup_insert_ne by congruence. apply H0.
Qed.

Lemma good_nset G x : good G → x ∈ nset G ↔ ∃ v, (x, v) ∈ eset G.
Proof.
  intros [Hs Hc Hn]. split; [apply Hn|]. intros [v Hv]. eauto.
Qed.

(** Two good graphs with the same edges have the same nodes. *)
Lemma good_nset_eq G1 G2 :
  good G1 → good G2 → eset G1 = eset G2 → nset G1 = nset G2.
Proof.
  intros H1 H2 He. apply set_eq. intros x.
  rewrite (good_nset G1), (good_nset G2) by done. by rewrite He.
Qed.

Lemma eset_relabel_nodes_sym (mapping : gmap string string) G a b :
  good G →
  (a, b) ∈ eset (nx.relabel_nodes G mapping) ↔
  ∃ u v, (u, v) ∈ eset G ∧ a = nx.relabel mapping u ∧ b = nx.relabel mapping v.
Proof.
  intros HG. rewrite eset_relabel_nodes. split.
  - intros (u & v & Huv & [[-> ->]|[-> ->]]); [by exists u, v|].
    exists v, u. split; [by apply good_sym_set|done].
  - intros (u & v & Huv & -> & ->). exists u, v. auto.
Qed.

Lemma good_relabel_nodes (mapping : gmap string string) G :
  good G → good (nx.relabel_nodes G mapping).
Proof.
  intros HG. split.
  - intros u v. unfold nx.relabel_nodes; simpl.
    apply relabel_edge_fold_sym. intros *. by rewrite !lookup_empty.
  - intros u v. rewrite eset_relabel_nodes_sym, nset_relabel_nodes by done.
    intros (u' & v' & H & -> & ->). exists u'. split; [|done].
    by eapply good_closed.
  - intros u. rewrite nset_relabel_nodes. intros (n & Hn & ->).
    destruct (good_connected G HG n Hn) as [v Hv].
    exists (nx.relabel mapping v). apply eset_relabel_nodes_sym; eauto.
Qed.

(** ** The effect of the mutating methods on [self._G] *)

Lemma with_G_same self : with_G (_G self) self = self.
Proof. by destruct self. Qed.

Lemma with_G_with_G G G' self : with_G G (with_G G' self) = with_G G self.
Proof. reflexivity. Qed.

Lemma with_data_manager_same self :
  with_data_manager (_data_manager self) self = self.
Proof. by destruct self. Qed.

Lemma _rename_nodes_run mapping self :
  _rename_nodes mapping self
  = (Ok tt, with_G (rename_nodes_G mapping (_G self)) self).
Proof.
  unfold _rename_nodes, rename_nodes_G.
  destruct (decide (mapping = ∅)); [|done].
  unfold ret. by rewrite with_G_same.
Qed.

Lemma _remove_nodes_run ns self :
  _remove_nodes ns self = (Ok tt, with_G (remove_nodes_G ns (_G self)) self).
Proof.
  destruct ns as [|n ns]; simpl.
  - unfold ret. by rewrite with_G_same.
  - reflexivity.
Qed.

Lemma _add_change_set_run cs self :
  _add_change_set cs self
  = (Ok tt, with_G (add_change_set_G (_num_files_limit self) cs (_G self)) self).
Proof.
  unfold _add_change_set, add_change_set_G, is_large, bind.
  rewrite _rename_nodes_run, _remove_nodes_run. simpl.
  destruct (_num_files_limit self <? _)%Z; reflexivity.
Qed.

Lemma _add_change_sets_run css self :
  _add_change_sets css self
  = (Ok tt, with_G (add_change_sets_G (_num_files_limit self) css (_G self)) self).
Proof.
  unfold add_change_sets_G. revert self.
  induction css as [|cs css IH]; intros self; simpl.
  - unfold ret. by rewrite with_G_same.
  - unfold bind. rewrite _add_change_set_run, IH. reflexivity.
Qed.

Lemma _remove_change_sets_run css self :
  _remove_change_sets css self
  = (Ok tt, with_G (remove_nodes_G (map commit_hash css) (_G self)) self).
Proof. apply _remove_nodes_run. Qed.

(** ** The window manager cannot advance: nothing changes *)

Lemma forward_one_day_exhausted (dm : DataManager) :
  can_slide dm = (Ok false, dm) →
  forward_one_day dm = (Raise SlidingNotPossible, dm).
Proof. intros H. unfold forward_one_day, bind. by rewrite H. Qed.

Lemma can_slide_state (dm : DataManager) : (can_slide dm).2 = dm.
Proof.
  unfold can_slide, bind, get_state. by destruct (_last_date dm).
Qed.

(** C4. When the day after [last_date] is not a date of the timeline,
    [forward_graph_one_day] returns [False] and the whole object is as
    before the call: the window bounds, the graph, the number of files of
    the project and every memoized structure. *)
Theorem forward_graph_one_day_exhausted (self : HistoryGraph) :
  (can_slide (_data_manager self)).1 = Ok false →
  forward_graph_one_day self = (Ok false, self).
Proof.
  intros H. unfold forward_graph_one_day, on_data_manager.
  rewrite forward_one_day_exhausted.
  - by rewrite with_data_manager_same.
  - pose proof (can_slide_state (_data_manager self)) as Hs.
    destruct (can_slide (_data_manager self)) as [r dm]. simpl in *.
    by subst.
Qed.

(** ** Renaming and removing on node and edge sets *)

Lemma relabel_empty n : nx.relabel ∅ n = n.
Proof. unfold nx.relabel. by rewrite lookup_empty. Qed.

Lemma nset_rename_nodes_G mapping G x :
  x ∈ nset (rename_nodes_G mapping G) ↔
  ∃ n, n ∈ nset G ∧ x = nx.relabel mapping n.
Proof.
  unfold rename_nodes_G. destruct (decide (mapping = ∅)) as [->|].
  - setoid_rewrite relabel_empty. naive_solver.
  - apply nset_relabel_nodes.
Qed.

Lemma eset_rename_nodes_G mapping G a b :
  good G →
  (a, b) ∈ eset (rename_nodes_G mapping G) ↔
  ∃ u v, (u, v) ∈ eset G ∧ a = nx.relabel mapping u ∧ b = nx.relabel mapping v.
Proof.
  intros HG. unfold rename_nodes_G. destruct (decide (mapping = ∅)) as [->|].
  - setoid_rewrite relabel_empty. naive_solver.
  - by apply eset_relabel_nodes_sym.
Qed.

Lemma good_rename_nodes_G mapping G : good G → good (rename_nodes_G mapping G).
Proof.
  unfold rename_nodes_G. destruct (decide (mapping = ∅)); [done|].
  apply good_relabel_nodes.
Qed.

Lemma nset_remove_nodes_G ns G x :
  x ∈ nset (remove_nodes_G ns G) → x ∉ ns ∧ x ∈ nset G.
Proof.
  destruct ns as [|n ns]; simpl.
  - intros H. split; [apply not_elem_of_nil|done].
  - rewrite !nset_remove_nodes_from. tauto.
Qed.

Lemma eset_remove_nodes_G ns G a b :
  good G →
  (a, b) ∈ eset (remove_nodes_G ns G) ↔ a ∉ ns ∧ b ∉ ns ∧ (a, b) ∈ eset G.
Proof.
  intros HG. destruct ns as [|n ns]; simpl.
  - split; [|tauto]. intros H. repeat split; auto using not_elem_of_nil.
  - rewrite !eset_remove_nodes_from. split; [tauto|].
    intros (Ha & Hb & Hab). repeat split; try done.
    + rewrite elem_of_isolates. intros [_ H]. apply (H b).
      by apply eset_remove_nodes_from.
    + rewrite elem_of_isolates. intros [_ H]. apply (H a).
      apply eset_remove_nodes_from. repeat split; try done.
      by apply good_sym_set.
Qed.

Lemma adj_remove_nodes_from_sym ns G :
  (∀ u v, _adj G !! (u, v) = _adj G !! (v, u)) →
  ∀ u v, _adj (nx.remove_nodes_from ns G) !! (u, v)
         = _adj (nx.remove_nodes_from ns G) !! (v, u).
Proof.
  intros H u v. unfold nx.remove_nodes_from; simpl.
  apply option_eq. intros e. rewrite !map_lookup_filter_Some. simpl.
  rewrite (H u v). tauto.
Qed.

Lemma good_remove_nodes_G ns G : good G → good (remove_nodes_G ns G).
Proof.
  intros HG. destruct ns as [|n ns]; [done|]. simpl.
  set (G1 := nx.remove_nodes_from (n :: ns) G).
  assert (Hsym1 : ∀ u v, (u, v) ∈ eset G1 → (v, u) ∈ eset G1).
  { intros u v. unfold G1. rewrite !eset_remove_nodes_from.
    intros (? & ? & ?). repeat split; try done. by apply good_sym_set. }
  split.
  - apply adj_remove_nodes_from_sym, adj_remove_nodes_from_sym.
    by apply good_sym.
  - intros u v. rewrite eset_remove_nodes_from, nset_remove_nodes_from.
    intros (Hu & Hv & Huv). split; [done|].
    unfold G1 in *. apply eset_remove_nodes_from in Huv as (? & ? & ?).
    apply nset_remove_nodes_from. split; [done|]. by eapply good_closed.
  - intros u. rewrite nset_remove_nodes_from, elem_of_isolates.
    intros [Hiso Hu].
    destruct (decide (nx.neighbors G1 u = [])) as [Hnil|Hne].
    + exfalso. apply Hiso. split; [done|]. intros v Hv.
      apply elem_of_neighbors in Hv. rewrite Hnil in Hv.
      by apply not_elem_of_nil in Hv.
    + destruct (nx.neighbors G1 u) as [|v l] eqn:E; [done|].
      assert (Huv : (u, v) ∈ eset G1).
      { apply elem_of_neighbors. rewrite E. left. }
      exists v. apply eset_remove_nodes_from. repeat split; try done.
      * rewrite elem_of_isolates. intros [_ H]. by apply (H v).
      * rewrite elem_of_isolates. intros [_ H]. apply (H u). by apply Hsym1.
Qed.

(** ** Large change sets *)

(** C5. A change set with more add/modify targets than [_num_files_limit]
    is processed as its renames followed by its deletions and nothing else:
    every node left is a (relabelled) node of the graph before and is not a
    deleted path, and every edge left is a (relabelled) edge of the graph
    before, so neither the change set, nor its developer, nor any file,
    issue or edge of it enters the graph. *)
Theorem large_change_set_adds_nothing (cs : ChangeSet) (self : HistoryGraph) :
  let p := partition_code_changes (code_changes cs) in
  let f := nx.relabel (files_rename_dict p) in
  (_num_files_limit self < Z.of_nat (length (files_add_modify p)))%Z →
  _add_change_set cs self
  = (run _rename_nodes (files_rename_dict p) in
     _remove_nodes (files_delete p)) self
  ∧ (∀ x, x ∈ nset (_G (_add_change_set cs self).2) →
       x ∉ files_delete p ∧ ∃ n, n ∈ nset (_G self) ∧ x = f n)
  ∧ (∀ a b, (a, b) ∈ eset (_G (_add_change_set cs self).2) →
       a ∉ files_delete p ∧ b ∉ files_delete p ∧
       ∃ u v, (u, v) ∈ eset (_G self) ∧
         ((a = f u ∧ b = f v) ∨ (a = f v ∧ b = f u))).
Proof.
  intros p f Hlarge.
  assert (Hrun : _add_change_set cs self
    = (run _rename_nodes (files_rename_dict p) in
       _remove_nodes (files_delete p)) self).
  { unfold _add_change_set, bind. fold p.
    rewrite _rename_nodes_run, _remove_nodes_run. simpl.
    apply Z.ltb_lt in Hlarge. by rewrite Hlarge. }
  split; [done|]. rewrite Hrun. unfold bind.
  rewrite _rename_nodes_run, _remove_nodes_run. simpl.
  split.
  - intros x Hx. apply nset_remove_nodes_G in Hx as [Hx1 Hx2].
    split; [done|]. by apply nset_rename_nodes_G.
  - intros a b Hab.
    destruct (files_delete p) as [|n ns] eqn:E; simpl in Hab.
    + repeat split; try apply not_elem_of_nil.
      unfold rename_nodes_G in Hab.
      destruct (decide (files_rename_dict p = ∅)) as [Hm|Hm].
      * exists a, b. split; [done|]. left. unfold f. rewrite Hm.
        by rewrite !relabel_empty.
      * by apply eset_relabel_nodes in Hab.
    + apply eset_remove_nodes_from in Hab as (_ & _ & Hab).
      apply eset_remove_nodes_from in Hab as (Ha & Hb & Hab).
      repeat split; try done.
      unfold rename_nodes_G in Hab.
      destruct (decide (files_rename_dict p = ∅)) as [Hm|Hm].
      * exists a, b. split; [done|]. left. unfold f. rewrite Hm.
        by rewrite !relabel_empty.
      * by apply eset_relabel_nodes in Hab.
Qed.

(** ** Adding the content of a change set on node and edge sets *)

Lemma adj_sym_add_edge u v d k G : adj_sym G → adj_sym (nx.add_edge u v d k G).
Proof.
  intros H a b. unfold nx.add_edge; simpl.
  set (e := nx.attr_update _ _ _).
  destruct (decide ((a, b) = (v, u))) as [Heq|Hne1].
  - injection Heq as -> ->. rewrite lookup_insert_eq.
    destruct (decide ((u, v) = (v, u))) as [Heq|Hne].
    + rewrite Heq. by rewrite lookup_insert_eq.
    + rewrite lookup_insert_ne by done. by rewrite lookup_insert_eq.
  - rewrite lookup_insert_ne by done.
    destruct (decide ((a, b) = (u, v))) as [Heq|Hne2].
    + injection Heq as -> ->. by rewrite !lookup_insert_eq.
    + rewrite lookup_insert_ne by done.
      rewrite lookup_insert_ne by congruence.
      rewrite lookup_insert_ne by congruence. apply H.
Qed.

Lemma adj_sym_add_nodes_from ns k G :
  adj_sym G → adj_sym (nx.add_nodes_from ns k G).
Proof.
  unfold nx.add_nodes_from. revert G.
  induction ns as [|n ns IH]; intros G H; simpl; [done|].
  by apply IH.
Qed.

Lemma adj_sym_add_edges_G h d k xs G :
  adj_sym G → adj_sym (add_edges_G h d k xs G).
Proof.
  unfold add_edges_G. revert G.
  induction xs as [|x xs IH]; intros G H; simpl; [done|].
  by apply IH, adj_sym_add_edge.
Qed.

Lemma eset_add_edges_G h d k xs G a b :
  (a, b) ∈ eset (add_edges_G h d k xs G) ↔
  (a, b) ∈ eset G ∨ (a = h ∧ b ∈ xs) ∨ (b = h ∧ a ∈ xs).
Proof.
  unfold add_edges_G. revert G.
  induction xs as [|x xs IH]; intros G; simpl.
  - split; [auto|]. intros [?|[[_ H]|[_ H]]]; [done| |];
      by apply not_elem_of_nil in H.
  - rewrite IH, eset_add_edge, !elem_of_cons. naive_solver.
Qed.

Lemma nset_add_edges_G h d k xs G x :
  x ∈ nset (add_edges_G h d k xs G) ↔
  x ∈ nset G ∨ x ∈ xs ∨ (xs ≠ [] ∧ x = h).
Proof.
  unfold add_edges_G. revert G.
  induction xs as [|y xs IH]; intros G; simpl.
  - split; [auto|]. intros [?|[H|[H _]]]; [done| |done].
    by apply not_elem_of_nil in H.
  - rewrite IH, nset_add_edge, !elem_of_cons.
    split; [|naive_solver].
    intros [[->|[->|?]]|[?|[? ->]]]; auto.
Qed.

Lemma eset_add_content_G cs files G a b :
  (a, b) ∈ eset (add_content_G cs files G) ↔
  (a, b) ∈ eset G ∨ new_edge cs files a b.
Proof.
  unfold add_content_G, new_edge.
  rewrite eset_add_edges_G, eset_add_nodes_from, eset_add_edges_G,
    eset_add_nodes_from, eset_add_edge, !eset_add_node.
  tauto.
Qed.

Lemma nset_add_content_G cs files G x :
  x ∈ nset (add_content_G cs files G) ↔
  x ∈ nset G ∨ x = commit_hash cs ∨ x = author cs
  ∨ x ∈ files ∨ x ∈ issues cs.
Proof.
  unfold add_content_G.
  rewrite nset_add_edges_G, nset_add_nodes_from, nset_add_edges_G,
    nset_add_nodes_from, nset_add_edge, !nset_add_node.
  tauto.
Qed.

Lemma good_add_content_G cs files G :
  good G → good (add_content_G cs files G).
Proof.
  intros HG. split.
  - unfold add_content_G.
    apply adj_sym_add_edges_G, adj_sym_add_nodes_from, adj_sym_add_edges_G,
      adj_sym_add_nodes_from, adj_sym_add_edge.
    intros u v. simpl. by apply good_sym.
  - intros u v. rewrite eset_add_content_G, nset_add_content_G.
    unfold new_edge.
    intros [H|[[-> _]|[[-> _]|[[-> _]|[_ H]]]]]; [|tauto..].
    left. by eapply good_closed.
  - intros u. rewrite nset_add_content_G.
    setoid_rewrite eset_add_content_G. unfold new_edge.
    intros [H|[->|[->|H]]].
    + destruct (good_connected G HG u H) as [v Hv]. eauto.
    + exists (author cs). auto.
    + exists (commit_hash cs). auto.
    + exists (commit_hash cs). right. do 3 right. tauto.
Qed.

Lemma good_add_change_set_G limit cs G :
  good G → good (add_change_set_G limit cs G).
Proof.
  intros HG. unfold add_change_set_G.
  destruct (is_large limit cs).
  - by apply good_remove_nodes_G, good_rename_nodes_G.
  - by apply good_add_content_G, good_remove_nodes_G, good_rename_nodes_G.
Qed.

Lemma good_add_change_sets_G limit css G :
  good G → good (add_change_sets_G limit css G).
Proof.
  unfold add_change_sets_G. revert G.
  induction css as [|cs css IH]; intros G HG; simpl; [done|].
  by apply IH, good_add_change_set_G.
Qed.

Lemma add_change_sets_G_app limit css1 css2 G :
  add_change_sets_G limit (css1 ++ css2) G
  = add_change_sets_G limit css2 (add_change_sets_G limit css1 G).
Proof. unfold add_change_sets_G. by rewrite foldl_app. Qed.

(** ** Dicts in insertion order *)

Section dict_facts.

Context {V : Type}.

Implicit Types (d : dict Z (list V)) (k : Z).

Lemma dict_contains_keys {W} (d : dict Z W) k :
  dict_contains k d = true ↔ k ∈ dict_keys d.
Proof.
  unfold dict_contains, dict_keys.
  induction d as [|[k' v] d IH]; simpl.
  - split; [done|]. intros H. by apply not_elem_of_nil in H.
  - rewrite elem_of_cons. destruct (Z.eqb_spec k k') as [->|Hne].
    + tauto.
    + rewrite IH. split; [tauto|]. intros [?|?]; [done|tauto].
Qed.

Lemma dict_get_None {W} (d : dict Z W) k :
  dict_get k d = None ↔ k ∉ dict_keys d.
Proof.
  rewrite <- dict_contains_keys. unfold dict_contains.
  destruct (dict_get k d); split; try done.
Qed.

Lemma dict_get_elem_of {W} (d : dict Z W) k (v : W) :
  dict_get k d = Some v → (k, v) ∈ d.
Proof.
  induction d as [|[k' v'] d IH]; simpl; [done|].
  destruct (Z.eqb_spec k k') as [->|Hne].
  - intros [= ->]. left.
  - intros H. right. auto.
Qed.

Lemma dict_get_NoDup {W} (d : dict Z W) k (v : W) :
  NoDup (dict_keys d) → (k, v) ∈ d → dict_get k d = Some v.
Proof.
  unfold dict_keys.
  induction d as [|[k' v'] d IH]; simpl; intros Hnd Hin.
  - by apply not_elem_of_nil in Hin.
  - apply NoDup_cons in Hnd as [Hk' Hnd].
    apply elem_of_cons in Hin as [[= -> ->]|Hin].
    + by rewrite Z.eqb_refl.
    + destruct (Z.eqb_spec k k') as [->|Hne]; [|auto].
      exfalso. apply Hk'. apply list_elem_of_fmap. by exists (k', v).
Qed.

Lemma dict_keys_append k (v : V) d :
  dict_keys (dict_append k v d)
  = if dict_contains k d then dict_keys d else dict_keys d ++ [k].
Proof.
  unfold dict_contains, dict_keys.
  induction d as [|[k' vs] d IH]; simpl; [done|].
  destruct (Z.eqb_spec k k') as [->|Hne]; simpl; [done|].
  rewrite IH. by destruct (dict_get k d).
Qed.

Lemma dict_get_append k k' (v : V) d :
  dict_get k' (dict_append k v d)
  = if Z.eqb k' k then Some (default [] (dict_get k d) ++ [v])
    else dict_get k' d.
Proof.
  induction d as [|[k0 vs] d IH]; simpl.
  - by destruct (Z.eqb_spec k' k).
  - destruct (Z.eqb_spec k k0) as [->|Hne]; simpl.
    + destruct (Z.eqb_spec k' k0) as [->|Hne']; [done|done].
    + destruct (Z.eqb_spec k' k0) as [->|Hne'].
      * destruct (Z.eqb_spec k0 k); [congruence|done].
      * apply IH.
Qed.

Lemma dict_keys_touch k d :
  dict_keys (dict_touch k d)
  = if dict_contains k d then dict_keys d else dict_keys d ++ [k].
Proof.
  unfold dict_touch. destruct (dict_contains k d); [done|].
  unfold dict_keys. by rewrite map_app.
Qed.

Lemma dict_get_app_l {W} (d1 d2 : dict Z W) k :
  dict_get k (d1 ++ d2)
  = match dict_get k d1 with Some v => Some v | None => dict_get k d2 end.
Proof.
  induction d1 as [|[k' v] d1 IH]; simpl; [done|].
  by destruct (Z.eqb_spec k k').
Qed.

Lemma dict_get_touch k k' d :
  dict_get k' (dict_touch k d)
  = match dict_get k' d with
    | Some vs => Some vs
    | None => if Z.eqb k' k then Some [] else None
    end.
Proof.
  unfold dict_touch, dict_contains.
  destruct (dict_get k d) eqn:E.
  - destruct (dict_get k' d) eqn:E'; [done|].
    destruct (Z.eqb_spec k' k) as [->|]; [congruence|done].
  - rewrite dict_get_app_l. simpl. by destruct (dict_get k' d).
Qed.

Lemma NoDup_keys_append k (v : V) d :
  NoDup (dict_keys d) → NoDup (dict_keys (dict_append k v d)).
Proof.
  intros H. rewrite dict_keys_append.
  destruct (dict_contains k d) eqn:E; [done|].
  apply NoDup_app. split; [done|]. split; [|apply NoDup_singleton].
  intros x Hx Hx'. apply list_elem_of_singleton in Hx' as ->.
  apply dict_contains_keys in Hx. congruence.
Qed.

Lemma NoDup_keys_touch k d :
  NoDup (dict_keys d) → NoDup (dict_keys (dict_touch k d)).
Proof.
  intros H. rewrite dict_keys_touch.
  destruct (dict_contains k d) eqn:E; [done|].
  apply NoDup_app. split; [done|]. split; [|apply NoDup_singleton].
  intros x Hx Hx'. apply list_elem_of_singleton in Hx' as ->.
  apply dict_contains_keys in Hx. congruence.
Qed.

End dict_facts.

(** ** [sorted] *)

Lemma elem_of_sorted_insert k l x :
  x ∈ sorted_insert k l ↔ x = k ∨ x ∈ l.
Proof.
  induction l as [|k' l IH]; simpl.
  - rewrite list_elem_of_singleton. split; [auto|].
    intros [?|H]; [done|]. by apply not_elem_of_nil in H.
  - destruct (Z.leb k k').
    + by rewrite elem_of_cons.
    + rewrite !elem_of_cons, IH. tauto.
Qed.

Lemma elem_of_sorted l x : x ∈ sorted l ↔ x ∈ l.
Proof.
  induction l as [|k l IH]; simpl; [done|].
  by rewrite elem_of_sorted_insert, elem_of_cons, IH.
Qed.

Lemma sorted_insert_lt k l :
  k ∉ l → StronglySorted Z.lt l → StronglySorted Z.lt (sorted_insert k l).
Proof.
  intros Hk Hl. induction Hl as [|k' l Hl IH Hall]; simpl.
  - repeat constructor.
  - apply not_elem_of_cons in Hk as [Hne Hk].
    destruct (Z.leb_spec k k').
    + constructor; [by constructor|]. constructor; [lia|].
      eapply Forall_impl; [exact Hall|]. simpl. intros; lia.
    + constructor; [auto|]. apply Forall_forall. intros x Hx.
      apply elem_of_sorted_insert in Hx as [->|Hx]; [lia|].
      rewrite Forall_forall in Hall. by apply Hall.
Qed.

Lemma sorted_lt l : NoDup l → StronglySorted Z.lt (sorted l).
Proof.
  induction 1 as [|k l Hk Hnd IH]; simpl; [constructor|].
  apply sorted_insert_lt; [|done]. by rewrite elem_of_sorted.
Qed.

(** Two strictly ascending lists with the same elements are equal. *)
Lemma StronglySorted_lt_unique (l1 l2 : list Z) :
  StronglySorted Z.lt l1 → StronglySorted Z.lt l2 →
  (∀ x, x ∈ l1 ↔ x ∈ l2) → l1 = l2.
Proof.
  intros H1. revert l2. induction H1 as [|a l1 H1 IH Ha]; intros l2 H2 Heq.
  - destruct l2 as [|b l2]; [done|]. exfalso.
    eapply not_elem_of_nil, Heq. left.
  - destruct H2 as [|b l2 H2 Hb].
    { exfalso. eapply not_elem_of_nil, Heq. left. }
    rewrite Forall_forall in Ha, Hb.
    assert (a = b) as ->.
    { assert (Hain : a ∈ b :: l2) by (apply Heq; left).
      assert (Hbin : b ∈ a :: l1) by (apply Heq; left).
      apply elem_of_cons in Hain as [?|Hain]; [done|].
      apply elem_of_cons in Hbin as [?|Hbin]; [done|].
      apply Hb in Hain. apply Ha in Hbin. lia. }
    f_equal. apply IH; [done|]. intros x. split; intros Hx.
    + assert (Hx' : x ∈ b :: l2) by (apply Heq; by right).
      apply elem_of_cons in Hx' as [->|?]; [|done].
      apply Ha in Hx. lia.
    + assert (Hx' : x ∈ b :: l1) by (apply Heq; by right).
      apply elem_of_cons in Hx' as [->|?]; [|done].
      apply Hb in Hx. lia.
Qed.

Lemma StronglySorted_lt_NoDup (l : list Z) : StronglySorted Z.lt l → NoDup l.
Proof.
  induction 1 as [|a l Hs IH Ha]; constructor; [|done].
  rewrite Forall_forall in Ha. intros Hin. specialize (Ha a Hin). lia.
Qed.

(** ** The timeline that [_generate_date_to_change_sets] builds *)

Lemma max_of_day_normalized t : normalized (max_of_day t).
Proof.
  unfold normalized, max_of_day, usec_per_day.
  pose proof (Z.div_mod t 86400000000 ltac:(lia)) as H.
  replace (t - t `mod` 86400000000 + (86400000000 - 1))
    with (86400000000 - 1 + (t `div` 86400000000) * 86400000000) by lia.
  rewrite Z.mod_add by lia. by apply Z.mod_small.
Qed.

(** Normalized dates differ by a whole number of days. *)
Lemma normalized_diff a b :
  normalized a → normalized b → ∃ i, b = a + i * usec_per_day.
Proof.
  unfold normalized, usec_per_day. intros Ha Hb.
  exists (b `div` 86400000000 - a `div` 86400000000).
  pose proof (Z.div_mod a 86400000000 ltac:(lia)).
  pose proof (Z.div_mod b 86400000000 ltac:(lia)). lia.
Qed.

Lemma load_change_set_date j cs :
  load_change_set j = Ok cs → date cs = max_of_day (j_date j).
Proof.
  unfold load_change_set, res_bind, ChangeSet_init.
  destruct (load_code_changes _) as [[|c l]|]; [done| |done].
  by intros [= <-].
Qed.

Lemma load_date_to_change_sets_loaded jsons css d :
  loaded jsons css → load_date_to_change_sets jsons d = Ok (bucket css d).
Proof.
  intros H. revert d. induction H as [|j cs jsons css Hj H IH]; intros d.
  - done.
  - simpl. rewrite Hj. simpl. apply IH.
Qed.

Lemma load_date_to_change_sets_inv jsons d d' :
  load_date_to_change_sets jsons d = Ok d' →
  ∃ css, loaded jsons css ∧ d' = bucket css d.
Proof.
  revert d. induction jsons as [|j jsons IH]; intros d; simpl.
  - intros [= <-]. exists []. split; [constructor|done].
  - destruct (load_change_set j) as [cs|] eqn:E; [|done]. simpl.
    intros H. apply IH in H as (css & Hl & ->).
    exists (cs :: css). split; [by constructor|done].
Qed.

Lemma NoDup_keys_bucket css d :
  NoDup (dict_keys d) → NoDup (dict_keys (bucket css d)).
Proof.
  unfold bucket. revert d. induction css as [|cs css IH]; intros d H; simpl.
  - done.
  - by apply IH, NoDup_keys_append.
Qed.

Lemma elem_of_keys_append {V} k (v : V) d x :
  x ∈ dict_keys (dict_append k v d) ↔ x ∈ dict_keys d ∨ x = k.
Proof.
  rewrite dict_keys_append. destruct (dict_contains k d) eqn:E.
  - apply dict_contains_keys in E. split; [auto|]. by intros [?| ->].
  - by rewrite elem_of_app, list_elem_of_singleton.
Qed.

Lemma elem_of_keys_touch {V} k (d : dict Z (list V)) x :
  x ∈ dict_keys (dict_touch k d) ↔ x ∈ dict_keys d ∨ x = k.
Proof.
  rewrite dict_keys_touch. destruct (dict_contains k d) eqn:E.
  - apply dict_contains_keys in E. split; [auto|]. by intros [?| ->].
  - by rewrite elem_of_app, list_elem_of_singleton.
Qed.

Lemma elem_of_keys_bucket css d x :
  x ∈ dict_keys (bucket css d) ↔ x ∈ dict_keys d ∨ x ∈ map date css.
Proof.
  unfold bucket. revert d. induction css as [|cs css IH]; intros d; simpl.
  - split; [auto|]. intros [?|H]; [done|]. by apply not_elem_of_nil in H.
  - rewrite IH, elem_of_keys_append, elem_of_cons. tauto.
Qed.

(** Each date holds the change sets of that date, in the order of the file. *)
Lemma dict_get_bucket css d k :
  default [] (dict_get k (bucket css d))
  = default [] (dict_get k d) ++ filter (λ cs, date cs = k) css.
Proof.
  unfold bucket. revert d. induction css as [|cs css IH]; intros d; simpl.
  - by rewrite app_nil_r.
  - rewrite IH, dict_get_append, filter_cons.
    destruct (Z.eqb_spec k (date cs)) as [->|Hne].
    + rewrite decide_True by done. simpl. by rewrite <- app_assoc.
    + rewrite decide_False by done. done.
Qed.

Lemma fill_blanks_loop_spec fuel date last_date d :
  (last_date - date ≤ (Z.of_nat fuel - 1) * usec_per_day)%Z → (0 < fuel)%nat →
  ∃ d', fill_blanks_loop fuel date last_date d = Some d'
    ∧ (NoDup (dict_keys d) → NoDup (dict_keys d'))
    ∧ (∀ x, x ∈ dict_keys d' ↔
          x ∈ dict_keys d
          ∨ ∃ i, 0 ≤ i ∧ x = date + i * usec_per_day ∧ x < last_date)
    ∧ (∀ x, default [] (dict_get x d') = default [] (dict_get x d)).
Proof.
  revert date d. induction fuel as [|fuel IH]; intros date d Hfuel Hpos.
  - lia.
  - simpl. destruct (Z.ltb_spec date last_date) as [Hlt|Hge].
    + destruct (IH (date + usec_per_day) (dict_touch date d))
        as (d' & -> & Hnd & Hkeys & Hget).
      { unfold usec_per_day in *. lia. }
      { unfold usec_per_day in *. lia. }
      exists d'. split; [done|]. split; [|split].
      * intros H. by apply Hnd, NoDup_keys_touch.
      * intros x. rewrite Hkeys, elem_of_keys_touch. split.
        -- intros [[?| ->]|(i & Hi & -> & Hx)]; [by left| |].
           ++ right. exists 0. lia.
           ++ right. exists (i + 1). lia.
        -- intros [?|(i & Hi & -> & Hx)]; [by left; left|].
           destruct (decide (i = 0)) as [->|Hne].
           ++ left. right. lia.
           ++ right. exists (i - 1). lia.
      * intros x. rewrite Hget, dict_get_touch.
        destruct (dict_get x d); [done|]. by destruct (x =? date).
    + exists d. split; [done|]. split; [done|]. split; [|done].
      intros x. split; [auto|]. intros [?|(i & Hi & -> & Hx)]; [done|].
      unfold usec_per_day in *. lia.
Qed.

Lemma fill_blanks_spec date last_date d :
  ∃ d', fill_blanks date last_date d = Some d'
    ∧ (NoDup (dict_keys d) → NoDup (dict_keys d'))
    ∧ (∀ x, x ∈ dict_keys d' ↔
          x ∈ dict_keys d
          ∨ ∃ i, 0 ≤ i ∧ x = date + i * usec_per_day ∧ x < last_date)
    ∧ (∀ x, default [] (dict_get x d') = default [] (dict_get x d)).
Proof.
  apply fill_blanks_loop_spec; [|lia].
  destruct (Z.le_gt_cases 0 (last_date - date)) as [Hle|Hgt].
  - pose proof (Z.div_mod (last_date - date) usec_per_day ltac:(done)) as H.
    pose proof (Z.mod_pos_bound (last_date - date) usec_per_day ltac:(done)).
    assert (0 ≤ (last_date - date) `div` usec_per_day)
      by (apply Z.div_pos; [done|by unfold usec_per_day]).
    rewrite Nat2Z.inj_add, Z2Nat.id by done.
    unfold usec_per_day in *. lia.
  - assert (0 ≤ Z.of_nat (Z.to_nat ((last_date - date) `div` usec_per_day)))
      by lia.
    rewrite Nat2Z.inj_add. unfold usec_per_day in *. lia.
Qed.

Lemma dict_keys_sort_dict {V} (d : dict Z (list V)) :
  dict_keys (sort_dict d) = sorted (dict_keys d).
Proof.
  unfold sort_dict, dict_keys. rewrite map_map. simpl. apply map_id.
Qed.

Lemma bucket_normalized jsons css :
  loaded jsons css → Forall normalized (map date css).
Proof.
  induction 1 as [|j cs jsons css Hj H IH]; simpl; constructor; [|done].
  rewrite (load_change_set_date _ _ Hj). apply max_of_day_normalized.
Qed.

Lemma _generate_date_to_change_sets_timeline_ok jsons tl :
  _generate_date_to_change_sets jsons = Ok tl → timeline_ok tl.
Proof.
  unfold _generate_date_to_change_sets, res_bind.
  destruct (load_date_to_change_sets jsons []) as [d|] eqn:E; [|done].
  apply load_date_to_change_sets_inv in E as (css & Hl & ->).
  destruct (last _) as [last_date|] eqn:Elast; [|done].
  destruct (head _) as [first|] eqn:Ehead; [|done].
  destruct (fill_blanks_spec first last_date (bucket css []))
    as (d' & -> & Hnd & Hkeys & Hget).
  intros [= <-]. unfold timeline_ok. rewrite dict_keys_sort_dict.
  assert (Hnd0 : NoDup (dict_keys (bucket css []))).
  { apply NoDup_keys_bucket. constructor. }
  split; [by apply sorted_lt, Hnd|].
  apply Forall_forall. intros x Hx. apply elem_of_sorted, Hkeys in Hx.
  pose proof (bucket_normalized _ _ Hl) as Hnorm.
  rewrite Forall_forall in Hnorm.
  assert (Hfirst : normalized first).
  { apply Hnorm. apply head_Some_elem_of in Ehead.
    apply elem_of_keys_bucket in Ehead as [H|H]; [|done].
    by apply not_elem_of_nil in H. }
  destruct Hx as [Hx|(i & Hi & -> & Hx)].
  - apply Hnorm. apply elem_of_keys_bucket in Hx as [H|H]; [|done].
    by apply not_elem_of_nil in H.
  - unfold normalized in *. by rewrite Z.mod_add.
Qed.

(** ** The timeline of an input in chronological order *)

Lemma elem_of_day_range first n x :
  x ∈ day_range first n ↔
  ∃ i, 0 ≤ i < Z.of_nat n ∧ x = first + i * usec_per_day.
Proof.
  unfold day_range. rewrite list_elem_of_fmap. split.
  - intros (i & -> & Hi). apply elem_of_seq in Hi. exists (Z.of_nat i). lia.
  - intros (i & Hi & ->). exists (Z.to_nat i). rewrite Z2Nat.id by lia.
    split; [done|]. apply elem_of_seq. lia.
Qed.

Lemma day_range_sorted first n : StronglySorted Z.lt (day_range first n).
Proof.
  unfold day_range. generalize 0%nat as s. induction n as [|n IH]; intros s.
  - constructor.
  - simpl. constructor; [apply IH|]. apply Forall_forall. intros x Hx.
    apply list_elem_of_fmap in Hx as (i & -> & Hi). apply elem_of_seq in Hi.
    unfold usec_per_day. lia.
Qed.

Lemma keys_bucket_prefix css d :
  ∃ l, dict_keys (bucket css d) = dict_keys d ++ l.
Proof.
  unfold bucket. revert d. induction css as [|cs css IH]; intros d; simpl.
  - exists []. by rewrite app_nil_r.
  - destruct (IH (dict_append (date cs) cs d)) as [l ->].
    rewrite dict_keys_append. destruct (dict_contains _ d); [eauto|].
    exists (date cs :: l). by rewrite <- app_assoc.
Qed.

Lemma keys_bucket_sorted css d :
  StronglySorted Z.le (map date css) →
  StronglySorted Z.lt (dict_keys d) →
  (∀ k cs, k ∈ dict_keys d → cs ∈ css → k ≤ date cs) →
  StronglySorted Z.lt (dict_keys (bucket css d)).
Proof.
  unfold bucket. revert d. induction css as [|cs css IH]; intros d Hs Hd Hle.
  - done.
  - simpl in *. apply StronglySorted_inv in Hs as [Hs Hcs].
    rewrite Forall_forall in Hcs.
    apply IH; [done| |].
    + rewrite dict_keys_append. destruct (dict_contains _ d) eqn:E; [done|].
      assert (Hnot : date cs ∉ dict_keys d).
      { intros H. apply dict_contains_keys in H. congruence. }
      clear E IH. induction Hd as [|k l Hl IHl Hk]; simpl.
      * repeat constructor.
      * constructor.
        -- apply IHl.
           ++ intros k' c Hk' Hc. apply Hle; [by right|done].
           ++ intros H. apply Hnot. by right.
        -- apply Forall_app. split; [done|]. constructor; [|constructor].
           assert (k ≤ date cs) by (apply Hle; left).
           assert (k ≠ date cs) by (intros ->; apply Hnot; left). lia.
    + intros k c Hk Hc. apply elem_of_keys_append in Hk as [Hk| ->].
      * apply Hle; [done|by right].
      * apply Hcs. apply list_elem_of_fmap. eauto.
Qed.

Lemma StronglySorted_lt_last (l : list Z) m x :
  StronglySorted Z.lt l → last l = Some m → x ∈ l → x ≤ m.
Proof.
  intros Hs. revert m. induction Hs as [|a l Hs IH Ha]; intros m Hl Hx.
  - by apply not_elem_of_nil in Hx.
  - rewrite Forall_forall in Ha. destruct l as [|b l].
    + simpl in Hl. injection Hl as <-.
      apply list_elem_of_singleton in Hx. lia.
    + rewrite last_cons_cons in Hl.
      apply elem_of_cons in Hx as [->|Hx]; [|by apply IH].
      assert (Hm : m ∈ b :: l) by by apply last_Some_elem_of.
      specialize (Ha m Hm). lia.
Qed.

Lemma timeline_of_chronological_input_eq (jsons : list JsonChangeSet)
    (css : list ChangeSet) (c0 cn : ChangeSet) :
  loaded jsons css →
  head css = Some c0 → last css = Some cn →
  Sorted Z.le (map date css) →
  _generate_date_to_change_sets jsons
  = Ok (map (λ k, (k, filter (λ cs, date cs = k) css))
          (day_range (date c0)
             (S (Z.to_nat ((date cn - date c0) `div` usec_per_day))))).
Proof.
  intros Hl Hhead Hlast Hsorted.
  apply Sorted_StronglySorted in Hsorted; [|intros x y z; lia].
  unfold _generate_date_to_change_sets.
  rewrite (load_date_to_change_sets_loaded _ css) by done. unfold res_bind.
  pose proof (bucket_normalized _ _ Hl) as Hnorm.
  rewrite Forall_forall in Hnorm.
  assert (Hks : StronglySorted Z.lt (dict_keys (bucket css []))).
  { apply keys_bucket_sorted; [done|constructor|].
    intros k c Hk. by apply not_elem_of_nil in Hk. }
  assert (Hkin : ∀ x, x ∈ dict_keys (bucket css []) ↔ x ∈ map date css).
  { intros x. rewrite elem_of_keys_bucket. split; [|auto].
    intros [H|?]; [|done]. by apply not_elem_of_nil in H. }
  assert (Hc0 : ∀ c, c ∈ css → date c0 ≤ date c).
  { destruct css as [|c css']; [done|]. injection Hhead as ->.
    simpl in Hsorted. apply StronglySorted_inv in Hsorted as [_ H].
    rewrite Forall_forall in H. intros c' Hc'.
    apply elem_of_cons in Hc' as [->|Hc']; [lia|].
    apply H. apply list_elem_of_fmap. eauto. }
  assert (Hcn : ∀ c, c ∈ css → date c ≤ date cn).
  { apply last_Some in Hlast as [l' ->]. intros c Hc.
    rewrite map_app in Hsorted. simpl in Hsorted.
    apply elem_of_app in Hc as [Hc|Hc].
    - clear -Hsorted Hc. induction l' as [|a l' IH]; simpl in *.
      + by apply not_elem_of_nil in Hc.
      + apply StronglySorted_inv in Hsorted as [Hs Ha].
        apply elem_of_cons in Hc as [->|Hc]; [|auto].
        rewrite Forall_forall in Ha. apply Ha.
        apply elem_of_app. right. left.
    - apply list_elem_of_singleton in Hc as ->. lia. }
  assert (Hcn_in : cn ∈ css) by by apply last_Some_elem_of.
  assert (Hc0_in : c0 ∈ css) by by apply head_Some_elem_of.
  assert (Hh : head (dict_keys (bucket css [])) = Some (date c0)).
  { destruct css as [|c css']; [done|]. injection Hhead as ->.
    unfold bucket. simpl. fold (bucket css' [(date c0, [c0])]).
    destruct (keys_bucket_prefix css' [(date c0, [c0])]) as [l ->]. done. }
  destruct (last (dict_keys (bucket css []))) as [m|] eqn:Em; cycle 1.
  { apply last_None in Em. rewrite Em in Hh. done. }
  assert (m = date cn) as ->.
  { assert (Hm : m ∈ dict_keys (bucket css [])) by by apply last_Some_elem_of.
    apply Hkin, list_elem_of_fmap in Hm as (c & -> & Hc).
    assert (date cn ≤ date c).
    { eapply StronglySorted_lt_last; [done..|].
      apply Hkin, list_elem_of_fmap. eauto. }
    specialize (Hcn c Hc). lia. }
  rewrite Hh.
  destruct (fill_blanks_spec (date c0) (date cn) (bucket css []))
    as (d' & -> & Hnd & Hkeys & Hget).
  f_equal. unfold sort_dict.
  destruct (normalized_diff (date c0) (date cn)) as [n Hn].
  { apply Hnorm, list_elem_of_fmap; eauto. }
  { apply Hnorm, list_elem_of_fmap; eauto. }
  assert (Hn0 : 0 ≤ n).
  { specialize (Hc0 cn Hcn_in). unfold usec_per_day in *. lia. }
  assert (Hdiv : (date cn - date c0) `div` usec_per_day = n).
  { rewrite Hn. replace (date c0 + n * usec_per_day - date c0)
      with (n * usec_per_day) by lia. by apply Z.div_mul. }
  rewrite Hdiv.
  assert (Hrange : sorted (dict_keys d') = day_range (date c0) (S (Z.to_nat n))).
  { apply StronglySorted_lt_unique.
    - apply sorted_lt, Hnd, NoDup_keys_bucket. constructor.
    - apply day_range_sorted.
    - intros x. rewrite elem_of_sorted, Hkeys, elem_of_day_range, Hkin.
      split.
      + intros [Hx|(i & Hi & -> & Hx)].
        * destruct (normalized_diff (date c0) x) as [i Hi].
          { apply Hnorm, list_elem_of_fmap; eauto. }
          { by apply Hnorm. }
          apply list_elem_of_fmap in Hx as (c & Hxc & Hc).
          specialize (Hc0 c Hc). specialize (Hcn c Hc).
          exists i. split; [|done]. unfold usec_per_day in *. lia.
        * exists i. split; [|done]. unfold usec_per_day in *. lia.
      + intros (i & Hi & ->).
        destruct (decide (i = n)) as [->|Hne].
        * left. rewrite <- Hn. apply list_elem_of_fmap. eauto.
        * right. exists i. unfold usec_per_day in *. lia. }
  rewrite Hrange. apply map_ext. intros k. f_equal.
  by rewrite Hget, dict_get_bucket.
Qed.

Lemma chronological_timeline (jsons : list JsonChangeSet)
    (css : list ChangeSet) :
  jsons ≠ [] →
  loaded jsons css →
  Sorted Z.le (map date css) →
  ∃ c0 cn,
    c0 ∈ css ∧ cn ∈ css
    ∧ (∀ c, c ∈ css → date c0 ≤ date c ≤ date cn)
    ∧ _generate_date_to_change_sets jsons
      = Ok (map (λ k, (k, filter (λ cs, date cs = k) css))
              (day_range (date c0)
                 (S (Z.to_nat ((date cn - date c0) `div` usec_per_day))))).
Proof.
  intros Hne Hl Hs.
  destruct (head css) as [c0|] eqn:Eh; cycle 1.
  { apply head_None in Eh as ->. inversion Hl; by subst. }
  destruct (last css) as [cn|] eqn:El; cycle 1.
  { apply last_None in El as ->. done. }
  exists c0, cn.
  assert (Hs' : StronglySorted Z.le (map date css)).
  { apply Sorted_StronglySorted; [intros x y z; lia|done]. }
  split; [by apply head_Some_elem_of|].
  split; [by apply last_Some_elem_of|].
  split; [|by eapply timeline_of_chronological_input_eq].
  intros c Hc. split.
  - destruct css as [|c' css']; [done|]. injection Eh as ->.
    simpl in Hs'. apply StronglySorted_inv in Hs' as [_ H].
    rewrite Forall_forall in H.
    apply elem_of_cons in Hc as [->|Hc]; [lia|].
    apply H, list_elem_of_fmap. eauto.
  - apply last_Some in El as [l' ->].
    rewrite map_app in Hs'. simpl in Hs'.
    apply elem_of_app in Hc as [Hc|Hc].
    + clear -Hs' Hc. induction l' as [|a l' IH]; simpl in *.
      * by apply not_elem_of_nil in Hc.
      * apply StronglySorted_inv in Hs' as [Hs Ha].
        apply elem_of_cons in Hc as [->|Hc]; [|auto].
        rewrite Forall_forall in Ha. apply Ha.
        apply elem_of_app. right. left.
    + apply list_elem_of_singleton in Hc as ->. lia.
Qed.

(** C2 (as amended: for an input in chronological order). When the input is
    not empty and lists the change sets in the order of their calendar days
    (any order within a day), the timeline is built and covers every day
    from the earliest to the latest change set. *)
Theorem timeline_of_chronological_input (jsons : list JsonChangeSet)
    (css : list ChangeSet) :
  jsons ≠ [] →
  loaded jsons css →
  Sorted Z.le (map date css) →
  ∃ tl, _generate_date_to_change_sets jsons = Ok tl ∧ covers_every_day css tl.
Proof.
  intros Hne Hl Hs.
  destruct (chronological_timeline jsons css Hne Hl Hs)
    as (c0 & cn & H0 & Hn & Hall & Htl).
  eexists. split; [exact Htl|].
  exists (date c0), (date cn).
  split; [apply list_elem_of_fmap; eauto|].
  split; [apply list_elem_of_fmap; eauto|]. done.
Qed.

(** *** An input that is not in chronological order *)

Lemma unordered_dataset_loaded : loaded unordered_dataset unordered_change_sets.
Proof. repeat constructor. Qed.

(** C2, counterexample. The commit of day 2 comes before the commit of day
    0 in the file: the timeline gets the two days and not day 1 between
    them. *)
Lemma unordered_input_leaves_a_gap :
  ∃ tl, _generate_date_to_change_sets unordered_dataset = Ok tl
        ∧ dict_keys tl = [max_of_day (noon 0); max_of_day (noon 2)]
        ∧ ¬ covers_every_day unordered_change_sets tl.
Proof.
  eexists. split; [vm_compute; reflexivity|]. split; [reflexivity|].
  intros (earliest & latest & _ & _ & _ & H).
  apply (f_equal dict_keys) in H. revert H.
  unfold dict_keys at 2. rewrite map_map. simpl. rewrite map_id.
  destruct (Z.to_nat _) as [|[|n]]; simpl.
  - discriminate.
  - intros [= H1 H2]. unfold usec_per_day in *. lia.
  - discriminate.
Qed.

(** ** Sliding the window *)

Lemma forward_one_day_ok w tl a b ra rb :
  dict_get (b + usec_per_day) tl = Some rb →
  dict_get a tl = Some ra →
  forward_one_day (mkDataManager w tl (Some a) (Some b))
  = (Ok (rb, ra),
     mkDataManager w tl (Some (a + usec_per_day)) (Some (b + usec_per_day))).
Proof.
  intros Hb Ha.
  unfold forward_one_day, bind, can_slide, get_state, ret, dict_item,
    dict_contains, set_first_date, set_last_date; simpl.
  rewrite Hb. simpl. rewrite Ha. simpl. by rewrite Hb.
Qed.

Lemma forward_one_day_stop w tl a b :
  dict_get (b + usec_per_day) tl = None →
  forward_one_day (mkDataManager w tl a (Some b))
  = (Raise SlidingNotPossible, mkDataManager w tl a (Some b)).
Proof.
  intros Hb.
  unfold forward_one_day, bind, can_slide, get_state, ret, dict_item,
    dict_contains; simpl.
  by rewrite Hb.
Qed.

Lemma get_initial_window_inv dm win dm1 :
  get_initial_window dm = (Ok win, dm1) →
  ∃ first,
    head (dict_keys (_date_to_change_sets dm)) = Some first
    ∧ let last_date :=
        first + (_sliding_window_size dm - 1) * usec_per_day in
      dict_contains last_date (_date_to_change_sets dm) = true
      ∧ win = initial_window_loop last_date (_date_to_change_sets dm)
      ∧ dm1 = mkDataManager (_sliding_window_size dm)
                (_date_to_change_sets dm) (Some first) (Some last_date).
Proof.
  unfold get_initial_window, bind, get_state, set_first_date, set_last_date,
    ret, raise; simpl.
  destruct (head _) as [first|]; [|done]. simpl.
  destruct (dict_contains _ _) eqn:E; [|done].
  intros [= <- <-]. exists first. simpl. auto.
Qed.

Section contiguous_timeline.

Variables (g : Z → list ChangeSet) (first : Z) (N : nat).

Local Abbreviation tl := (contiguous g first N).

Lemma contiguous_keys : dict_keys tl = day_range first (S N).
Proof. unfold contiguous, dict_keys. rewrite map_map. apply map_id. Qed.

Lemma contiguous_get i :
  dict_get (first + i * usec_per_day) tl
  = if decide (0 ≤ i ≤ Z.of_nat N)
    then Some (g (first + i * usec_per_day)) else None.
Proof.
  destruct (decide (0 ≤ i ≤ Z.of_nat N)) as [Hi|Hi].
  - apply dict_get_NoDup.
    + rewrite contiguous_keys.
      apply StronglySorted_lt_NoDup, day_range_sorted.
    + unfold contiguous. apply list_elem_of_fmap. eexists. split; [done|].
      apply elem_of_day_range. exists i. lia.
  - apply dict_get_None. rewrite contiguous_keys, elem_of_day_range.
    intros (j & Hj & Heq). unfold usec_per_day in *. lia.
Qed.

Lemma contiguous_forward_days w (j : Z) (m t : nat) :
  0 ≤ j →
  j + Z.of_nat t + Z.of_nat m ≤ Z.of_nat N →
  forward_days m
    (mkDataManager w tl (Some (first + Z.of_nat t * usec_per_day))
       (Some (first + (j + Z.of_nat t) * usec_per_day)))
  = Ok (mkDataManager w tl
          (Some (first + Z.of_nat (t + m) * usec_per_day))
          (Some (first + (j + Z.of_nat (t + m)) * usec_per_day))).
Proof.
  revert t. induction m as [|m IH]; intros t Hj Hm; simpl.
  - by rewrite Nat.add_0_r.
  - erewrite forward_one_day_ok; cycle 1.
    + replace (first + (j + Z.of_nat t) * usec_per_day + usec_per_day)
        with (first + (j + Z.of_nat t + 1) * usec_per_day) by lia.
      rewrite contiguous_get. rewrite decide_True by lia. done.
    + rewrite contiguous_get. rewrite decide_True by lia. done.
    + replace (first + Z.of_nat t * usec_per_day + usec_per_day)
        with (first + Z.of_nat (S t) * usec_per_day) by lia.
      replace (first + (j + Z.of_nat t) * usec_per_day + usec_per_day)
        with (first + (j + Z.of_nat (S t)) * usec_per_day) by lia.
      rewrite IH by lia. by rewrite Nat.add_succ_r.
Qed.

Lemma contiguous_advances_exactly w dm win dm1 :
  dm = mkDataManager w tl None None →
  get_initial_window dm = (Ok win, dm1) →
  advances_exactly dm1.
Proof.
  intros -> H. apply get_initial_window_inv in H as (f & Hf & Hc & _ & ->).
  cbn [_date_to_change_sets _sliding_window_size] in *.
  rewrite contiguous_keys in Hf.
  assert (f = first) as ->.
  { unfold day_range in Hf. simpl in Hf. injection Hf as <-. lia. }
  unfold dict_contains in Hc. rewrite contiguous_get in Hc.
  destruct (decide (0 ≤ w - 1 ≤ Z.of_nat N)) as [Hw|]; [|done].
  exists (Z.to_nat (Z.of_nat N - (w - 1))). eexists. split; [|split].
  - unfold get_num_possible_iterations; simpl. unfold contiguous.
    rewrite length_map. unfold day_range. rewrite length_map, length_seq.
    lia.
  - pose proof (contiguous_forward_days w (w - 1)
                  (Z.to_nat (Z.of_nat N - (w - 1))) 0) as Hfd.
    simpl in Hfd. rewrite Z.add_0_r in Hfd. rewrite Z.add_0_r in Hfd.
    apply Hfd; lia.
  - rewrite forward_one_day_stop; [done|]. rewrite Z2Nat.id by lia.
    replace (first + (w - 1 + (Z.of_nat N - (w - 1)))
               * usec_per_day + usec_per_day)
      with (first + (Z.of_nat N + 1) * usec_per_day) by lia.
    rewrite contiguous_get. by rewrite decide_False by lia.
Qed.

Lemma contiguous_initial_window w :
  0 ≤ w - 1 ≤ Z.of_nat N →
  ∃ win,
    get_initial_window (mkDataManager w tl None None)
    = (Ok win,
       mkDataManager w tl (Some first)
         (Some (first + (w - 1) * usec_per_day))).
Proof.
  intros Hw.
  assert (Hhead : head (dict_keys tl) = Some first).
  { rewrite contiguous_keys. unfold day_range. simpl. f_equal. lia. }
  assert (Hc : dict_contains (first + (w - 1) * usec_per_day) tl = true).
  { unfold dict_contains. rewrite contiguous_get.
    by rewrite decide_True by done. }
  unfold get_initial_window, bind, get_state, set_first_date,
    set_last_date, ret, raise.
  cbn [_date_to_change_sets _sliding_window_size fst snd].
  rewrite Hhead. cbn [_date_to_change_sets _sliding_window_size fst snd].
  rewrite Hc. eexists. reflexivity.
Qed.

End contiguous_timeline.

(** C3 (as amended: for an input in chronological order). For a dataset in
    chronological order, with a window of at least one day and two change
    sets at least the size of the window minus one day apart, the data
    manager is built and gives the initial window; the dates of the timeline
    are distinct, the number of iterations is their number minus the size of
    the window plus 1; and from the initial window [forward_one_day]
    succeeds that many times minus one and then raises
    [SlidingNotPossible]. *)
Theorem iterations_of_chronological_input (jsons : list JsonChangeSet)
    (css : list ChangeSet) (w : Z) :
  loaded jsons css →
  Sorted Z.le (map date css) →
  1 ≤ w →
  (∃ c c', c ∈ css ∧ c' ∈ css
           ∧ (w - 1) * usec_per_day ≤ date c' - date c) →
  ∃ dm win dm1,
    DataManager_init jsons w = Ok dm
    ∧ get_initial_window dm = (Ok win, dm1)
    ∧ NoDup (dict_keys (_date_to_change_sets dm1))
    ∧ get_num_possible_iterations dm1
      = Z.of_nat (length (dict_keys (_date_to_change_sets dm1))) - w + 1
    ∧ advances_exactly dm1.
Proof.
  intros Hl Hs Hw (c & c' & Hc & Hc' & Hspan).
  assert (Hne : jsons ≠ []).
  { intros ->. inversion Hl; subst. by apply not_elem_of_nil in Hc. }
  destruct (chronological_timeline jsons css Hne Hl Hs)
    as (c0 & cn & _ & _ & Hall & Htl).
  set (N := Z.to_nat ((date cn - date c0) `div` usec_per_day)) in *.
  assert (HN : w - 1 ≤ Z.of_nat N).
  { pose proof (Hall c Hc). pose proof (Hall c' Hc').
    unfold N. rewrite Z2Nat.id.
    - apply Z.div_le_lower_bound; unfold usec_per_day in *; lia.
    - apply Z.div_pos; unfold usec_per_day; lia. }
  destruct (contiguous_initial_window
              (λ k, filter (λ cs, date cs = k) css) (date c0) N w)
    as [win Hwin]; [lia|].
  eexists _, win, _. split.
  { unfold DataManager_init. rewrite Htl. reflexivity. }
  split; [exact Hwin|].
  cbn [_date_to_change_sets _sliding_window_size].
  split; [|split].
  - rewrite contiguous_keys.
    apply StronglySorted_lt_NoDup, day_range_sorted.
  - unfold get_num_possible_iterations, dict_keys.
    cbn [_date_to_change_sets _sliding_window_size].
    by rewrite !length_map.
  - eapply contiguous_advances_exactly; [reflexivity|exact Hwin].
Qed.

(** C3, counterexample. On the input that is not in chronological order,
    with a window of one day, two iterations are announced and the window
    cannot advance once. *)
Lemma unordered_input_cannot_advance :
  ∃ dm win dm1,
    DataManager_init unordered_dataset 1 = Ok dm
    ∧ get_initial_window dm = (Ok win, dm1)
    ∧ get_num_possible_iterations dm1 = 2
    ∧ (forward_one_day dm1).1 = Raise SlidingNotPossible
    ∧ ¬ advances_exactly dm1.
Proof.
  do 3 eexists. split; [vm_compute; reflexivity|].
  split; [vm_compute; reflexivity|].
  split; [reflexivity|]. split; [reflexivity|].
  intros (n & dm' & Hn & Hfd & _).
  change (Z.of_nat n = 1) in Hn.
  assert (n = 1%nat) as -> by lia.
  vm_compute in Hfd. discriminate.
Qed.

(** ** Renaming in place *)

Section relabel_injective.

Variables (mapping : gmap string string) (G : Graph).

Local Abbreviation f := (nx.relabel mapping).

Hypothesis HG : good G.

Hypothesis Hinj :
  ∀ x y, x ∈ nset G → y ∈ nset G → f x = f y → x = y.

Lemma attr_update_same (e : EdgeAttr) :
  nx.attr_update (Some e) (e_date e) (e_kind e) = e.
Proof. destruct e as [d [k|]]; reflexivity. Qed.

Lemma attr_update_new (e : EdgeAttr) :
  nx.attr_update None (e_date e) (e_kind e) = e.
Proof. destruct e as [d [k|]]; reflexivity. Qed.

Lemma edge_endpoints u v e :
  _adj G !! (u, v) = Some e → u ∈ nset G ∧ v ∈ nset G.
Proof.
  intros H. split.
  - apply (good_closed G HG u v), elem_of_dom. eauto.
  - apply (good_closed G HG v u), elem_of_dom.
    rewrite (good_sym G HG v u). eauto.
Qed.

Lemma relabel_edge_fold_inj (l S : list (string * string * EdgeAttr))
    (E0 : gmap (string * string) EdgeAttr) :
  (∀ p, p ∈ S ++ l → _adj G !! p.1 = Some p.2) →
  (∀ a b e, E0 !! (a, b) = Some e ↔
     ∃ u v, ((u, v, e) ∈ S ∨ (v, u, e) ∈ S) ∧ a = f u ∧ b = f v) →
  ∀ a b e,
    foldl (λ E (p : string * string * EdgeAttr),
             let u := f p.1.1 in
             let v := f p.1.2 in
             let a := nx.attr_update (E !! (u, v)) (e_date p.2) (e_kind p.2) in
             <[(v, u) := a]> (<[(u, v) := a]> E)) E0 l !! (a, b) = Some e
    ↔ ∃ u v, ((u, v, e) ∈ S ++ l ∨ (v, u, e) ∈ S ++ l) ∧ a = f u ∧ b = f v.
Proof.
  revert S E0. induction l as [|[[u0 v0] e0] l IH]; intros S E0 Hall HP.
  - simpl. by rewrite app_nil_r.
  - simpl.
    replace (S ++ (u0, v0, e0) :: l) with ((S ++ [(u0, v0, e0)]) ++ l)
      by by rewrite <- app_assoc.
    assert (H0 : _adj G !! (u0, v0) = Some e0).
    { apply (Hall (u0, v0, e0)). apply elem_of_app. right. left. }
    destruct (edge_endpoints _ _ _ H0) as [Hu0 Hv0].
    assert (Hfrom : ∀ u v e, (u, v, e) ∈ S ∨ (v, u, e) ∈ S →
              f u = f u0 → f v = f v0 → e = e0).
    { intros u v e Hin Hfu Hfv.
      assert (He : _adj G !! (u, v) = Some e).
      { destruct Hin as [Hin|Hin].
        - apply (Hall (u, v, e)). apply elem_of_app. by left.
        - rewrite (good_sym G HG u v).
          apply (Hall (v, u, e)). apply elem_of_app. by left. }
      destruct (edge_endpoints _ _ _ He) as [Hu Hv].
      apply Hinj in Hfu; [|done..]. apply Hinj in Hfv; [|done..].
      subst. congruence. }
    assert (Hval : nx.attr_update (E0 !! (f u0, f v0)) (e_date e0) (e_kind e0)
                   = e0).
    { destruct (E0 !! (f u0, f v0)) as [e'|] eqn:E'.
      - apply HP in E' as (u & v & Hin & Hfu & Hfv).
        rewrite (Hfrom u v e') by done. apply attr_update_same.
      - apply attr_update_new. }
    rewrite Hval.
    apply IH.
    + intros p Hp. apply Hall. by rewrite <- app_assoc in Hp.
    + intros a b e. split.
      * intros Hlook.
        destruct (decide ((a, b) = (f v0, f u0))) as [Heq|Hne1].
        { injection Heq as -> ->. rewrite lookup_insert_eq in Hlook.
          injection Hlook as <-. exists v0, u0. split; [|done].
          right. apply elem_of_app. right. left. }
        rewrite lookup_insert_ne in Hlook by done.
        destruct (decide ((a, b) = (f u0, f v0))) as [Heq|Hne2].
        { injection Heq as -> ->. rewrite lookup_insert_eq in Hlook.
          injection Hlook as <-. exists u0, v0. split; [|done].
          left. apply elem_of_app. right. left. }
        rewrite lookup_insert_ne in Hlook by done.
        apply HP in Hlook as (u & v & Hin & -> & ->).
        exists u, v. split; [|done].
        destruct Hin; [left|right]; apply elem_of_app; by left.
      * intros (u & v & Hin & -> & ->).
        assert (Hcase : ((u, v, e) ∈ S ∨ (v, u, e) ∈ S)
                        ∨ (u = u0 ∧ v = v0 ∧ e = e0)
                        ∨ (u = v0 ∧ v = u0 ∧ e = e0)).
        { destruct Hin as [Hin|Hin]; apply elem_of_app in Hin as [Hin|Hin];
            auto; apply list_elem_of_singleton in Hin; injection Hin as -> -> ->;
            auto. }
        destruct Hcase as [Hin'|[(-> & -> & ->)|(-> & -> & ->)]].
        -- destruct (decide ((f u, f v) = (f v0, f u0))) as [Heq|Hne1].
           { rewrite Heq, lookup_insert_eq. f_equal. symmetry.
             injection Heq as Hfu Hfv.
             apply (Hfrom v u e); [tauto|done..]. }
           rewrite lookup_insert_ne by done.
           destruct (decide ((f u, f v) = (f u0, f v0))) as [Heq|Hne2].
           { rewrite Heq, lookup_insert_eq. f_equal. symmetry.
             injection Heq as Hfu Hfv. by apply (Hfrom u v e). }
           rewrite lookup_insert_ne by done.
           apply HP. eauto.
        -- destruct (decide ((f u0, f v0) = (f v0, f u0))) as [Heq|Hne1].
           { by rewrite Heq, lookup_insert_eq. }
           rewrite lookup_insert_ne by done. by rewrite lookup_insert_eq.
        -- by rewrite lookup_insert_eq.
Qed.

Lemma adj_relabel_nodes_inj a b e :
  _adj (nx.relabel_nodes G mapping) !! (a, b) = Some e ↔
  ∃ u v, _adj G !! (u, v) = Some e ∧ a = f u ∧ b = f v.
Proof.
  unfold nx.relabel_nodes; simpl.
  rewrite (relabel_edge_fold_inj (map_to_list (_adj G)) []); cycle 1.
  - intros [k e'] Hp. simpl in *. by apply elem_of_map_to_list.
  - intros a' b' e'. rewrite lookup_empty. split; [done|].
    intros (u & v & [H|H] & _); by apply not_elem_of_nil in H.
  - simpl. split.
    + intros (u & v & [H|H] & -> & ->); apply elem_of_map_to_list in H.
      * eauto.
      * rewrite (good_sym G HG v u) in H. eauto.
    + intros (u & v & H & -> & ->). exists u, v. split; [|done].
      left. by apply elem_of_map_to_list.
Qed.

Lemma relabel_node_fold_inj (l S : list (string * option string))
    (N0 : gmap string (option string)) :
  (∀ p, p ∈ S ++ l → _node G !! p.1 = Some p.2) →
  (∀ x a, N0 !! x = Some a ↔ ∃ n, (n, a) ∈ S ∧ x = f n) →
  ∀ x a,
    foldl (λ N (p : string * option string), <[f p.1 := p.2]> N) N0 l !! x
    = Some a
    ↔ ∃ n, (n, a) ∈ S ++ l ∧ x = f n.
Proof.
  revert S N0. induction l as [|[n0 a0] l IH]; intros S N0 Hall HP.
  - simpl. by rewrite app_nil_r.
  - simpl.
    replace (S ++ (n0, a0) :: l) with ((S ++ [(n0, a0)]) ++ l)
      by by rewrite <- app_assoc.
    assert (H0 : _node G !! n0 = Some a0).
    { apply (Hall (n0, a0)). apply elem_of_app. right. left. }
    apply IH.
    + intros p Hp. apply Hall. by rewrite <- app_assoc in Hp.
    + intros x a. split.
      * intros Hlook. destruct (decide (x = f n0)) as [->|Hne].
        { rewrite lookup_insert_eq in Hlook. injection Hlook as <-.
          exists n0. split; [|done]. apply elem_of_app. right. left. }
        rewrite lookup_insert_ne in Hlook by done.
        apply HP in Hlook as (n & Hin & ->). exists n. split; [|done].
        apply elem_of_app. by left.
      * intros (n & Hin & ->). apply elem_of_app in Hin as [Hin|Hin].
        -- destruct (decide (f n = f n0)) as [Heq|Hne].
           { rewrite Heq, lookup_insert_eq. f_equal.
             assert (Hn : _node G !! n = Some a).
             { apply (Hall (n, a)). apply elem_of_app. by left. }
             apply Hinj in Heq; [|apply elem_of_dom; eauto..].
             subst. congruence. }
           rewrite lookup_insert_ne by done. apply HP. eauto.
        -- apply list_elem_of_singleton in Hin. injection Hin as -> ->.
           by rewrite lookup_insert_eq.
Qed.

Lemma node_relabel_nodes_inj x a :
  _node (nx.relabel_nodes G mapping) !! x = Some a ↔
  ∃ n, _node G !! n = Some a ∧ x = f n.
Proof.
  unfold nx.relabel_nodes; simpl.
  rewrite (relabel_node_fold_inj (map_to_list (_node G)) []); cycle 1.
  - intros [k a'] Hp. simpl in *. by apply elem_of_map_to_list.
  - intros x' a'. rewrite lookup_empty. split; [done|].
    intros (n & H & _). by apply not_elem_of_nil in H.
  - simpl. split.
    + intros (n & H & ->). apply elem_of_map_to_list in H. eauto.
    + intros (n & H & ->). exists n. split; [|done].
      by apply elem_of_map_to_list.
Qed.

Lemma relabel_nodes_in_place :
  relabelled_in_place f G (nx.relabel_nodes G mapping).
Proof.
  split; [|split; [|split]].
  - intros n Hn. apply option_eq. intros a.
    rewrite node_relabel_nodes_inj. split.
    + intros (n' & Hn' & Heq). apply Hinj in Heq; [by subst|done|].
      apply elem_of_dom. eauto.
    + eauto.
  - intros x. by rewrite nset_relabel_nodes.
  - intros u v Hu Hv. apply option_eq. intros e.
    rewrite adj_relabel_nodes_inj. split.
    + intros (u' & v' & H & Hfu & Hfv).
      destruct (edge_endpoints _ _ _ H) as [Hu' Hv'].
      apply Hinj in Hfu; [|done..]. apply Hinj in Hfv; [|done..].
      by subst.
    + eauto.
  - intros a b. by rewrite eset_relabel_nodes_sym.
Qed.

End relabel_injective.

Lemma relabelled_in_place_id (G : Graph) :
  relabelled_in_place (nx.relabel ∅) G G.
Proof.
  split; [|split; [|split]].
  - intros n _. by rewrite relabel_empty.
  - intros x Hx. exists x. by rewrite relabel_empty.
  - intros u v _ _. by rewrite !relabel_empty.
  - intros a b H. exists a, b. by rewrite !relabel_empty.
Qed.

(** C6 (as amended: when the renames merge no two nodes). [_rename_nodes]
    renames the nodes in place, provided that no two nodes of the graph
    receive the same name; for one RENAME of a file of the graph this is:
    provided that the new path is not a node of the graph. *)
Theorem rename_without_merge_in_place (mapping : gmap string string)
    (self : HistoryGraph) :
  good (_G self) →
  (∀ x y, x ∈ nset (_G self) → y ∈ nset (_G self) →
     nx.relabel mapping x = nx.relabel mapping y → x = y) →
  (_rename_nodes mapping self).1 = Ok tt
  ∧ relabelled_in_place (nx.relabel mapping) (_G self)
      (_G (_rename_nodes mapping self).2).
Proof.
  intros HG Hinj. rewrite _rename_nodes_run. simpl. split; [done|].
  unfold rename_nodes_G. destruct (decide (mapping = ∅)) as [->|].
  - apply relabelled_in_place_id.
  - by apply relabel_nodes_in_place.
Qed.

(** ** One change set on the edge set *)

Lemma foldl_partition_rename ccs p old new :
  files_rename_dict (foldl partition_step p ccs) !! old = Some new →
  files_rename_dict p !! old = Some new
  ∨ ∃ cc, cc ∈ ccs ∧ old_file_path cc = Some old ∧ file_path cc = new.
Proof.
  revert p. induction ccs as [|cc ccs IH]; intros p; simpl; [auto|].
  intros H. apply IH in H as [H|(cc' & Hin & Hcc')].
  - unfold partition_step in H.
    destruct (String.eqb (change_type cc) "DELETE"); [by left|].
    destruct (String.eqb (change_type cc) "RENAME"); [|by left].
    simpl in H. destruct (old_file_path cc) as [o|] eqn:Eo; [|by left].
    destruct (decide (o = old)) as [->|Hne].
    + rewrite lookup_insert_eq in H. injection H as <-.
      right. exists cc. split; [left|done].
    + rewrite lookup_insert_ne in H by done. by left.
  - right. exists cc'. split; [by right|done].
Qed.

Lemma partition_rename ccs old new :
  files_rename_dict (partition_code_changes ccs) !! old = Some new →
  ∃ cc, cc ∈ ccs ∧ old_file_path cc = Some old ∧ file_path cc = new.
Proof.
  intros H. apply foldl_partition_rename in H as [H|H]; [|done].
  simpl in H. by rewrite lookup_empty in H.
Qed.

Lemma foldl_partition_add_modify ccs p x :
  x ∈ files_add_modify (foldl partition_step p ccs) →
  x ∈ files_add_modify p ∨ ∃ cc, cc ∈ ccs ∧ file_path cc = x.
Proof.
  revert p. induction ccs as [|cc ccs IH]; intros p; simpl; [auto|].
  intros H. apply IH in H as [H|(cc' & Hin & Hcc')].
  - unfold partition_step in H.
    destruct (String.eqb (change_type cc) "DELETE"); [by left|].
    destruct (String.eqb (change_type cc) "RENAME"); [by left|].
    simpl in H. apply elem_of_app in H as [H|H]; [by left|].
    apply list_elem_of_singleton in H as ->.
    right. exists cc. split; [left|done].
  - right. exists cc'. split; [by right|done].
Qed.

Lemma partition_add_modify ccs x :
  x ∈ files_add_modify (partition_code_changes ccs) →
  ∃ cc, cc ∈ ccs ∧ file_path cc = x.
Proof.
  intros H. apply foldl_partition_add_modify in H as [H|H]; [|done].
  simpl in H. by apply not_elem_of_nil in H.
Qed.

Lemma eset_add_change_set_G limit cs G a b :
  good G →
  let p := partition_code_changes (code_changes cs) in
  let f := nx.relabel (files_rename_dict p) in
  (a, b) ∈ eset (add_change_set_G limit cs G) ↔
  ((∃ u v, (u, v) ∈ eset G ∧ a = f u ∧ b = f v)
   ∧ a ∉ files_delete p ∧ b ∉ files_delete p)
  ∨ (is_large limit cs = false ∧ new_edge cs (files_add_modify p) a b).
Proof.
  intros HG p f. unfold add_change_set_G. fold p.
  assert (Hbase : (a, b) ∈ eset (remove_nodes_G (files_delete p)
                                   (rename_nodes_G (files_rename_dict p) G))
          ↔ (∃ u v, (u, v) ∈ eset G ∧ a = f u ∧ b = f v)
            ∧ a ∉ files_delete p ∧ b ∉ files_delete p).
  { rewrite eset_remove_nodes_G by by apply good_rename_nodes_G.
    rewrite eset_rename_nodes_G by done. tauto. }
  destruct (is_large limit cs).
  - rewrite Hbase. split; [auto|]. by intros [?|[? _]].
  - rewrite eset_add_content_G, Hbase. split; [tauto|].
    intros [?|[_ ?]]; auto.
Qed.

Lemma relabel_avoids H cs n :
  names_disjoint H cs →
  nx.relabel (files_rename_dict (partition_code_changes (code_changes cs))) n
    ∈ H ↔ n ∈ H.
Proof.
  intros (_ & _ & _ & Hcc). unfold nx.relabel.
  destruct (_ !! n) as [new|] eqn:E; simpl; [|done].
  apply partition_rename in E as (cc & Hin & Hold & <-).
  destruct (Hcc cc Hin) as [Hfp Ho]. specialize (Ho n Hold). tauto.
Qed.

Lemma relabel_fixes H cs n :
  olds_disjoint H cs → n ∈ H →
  nx.relabel (files_rename_dict (partition_code_changes (code_changes cs))) n
  = n.
Proof.
  intros Hcc Hn. unfold nx.relabel.
  destruct (_ !! n) as [new|] eqn:E; simpl; [|done].
  apply partition_rename in E as (cc & Hin & Hold & <-).
  by destruct (Hcc cc n Hin Hold).
Qed.

Lemma new_edge_avoids H cs a b :
  names_disjoint H cs →
  new_edge cs (files_add_modify (partition_code_changes (code_changes cs))) a b →
  a ∉ H ∧ b ∉ H.
Proof.
  intros (Hh & Ha & Hi & Hcc) Hnew.
  assert (Hfile : ∀ x,
    x ∈ files_add_modify (partition_code_changes (code_changes cs)) → x ∉ H).
  { intros x Hx. apply partition_add_modify in Hx as (cc & Hin & <-).
    by apply Hcc. }
  destruct Hnew as [[-> ->]|[[-> ->]|[[-> [Hb|Hb]]|[-> [Hb|Hb]]]]]; auto.
Qed.

Lemma same_modulo_step H limit cs G1 G2 :
  same_modulo H G1 G2 → names_disjoint H cs →
  same_modulo H (add_change_set_G limit cs G1) (add_change_set_G limit cs G2).
Proof.
  intros (HG1 & HG2 & Heq) Hcs.
  split; [by apply good_add_change_set_G|].
  split; [by apply good_add_change_set_G|].
  intros a b. rewrite !eset_add_change_set_G by done. cbv zeta. split.
  - intros [[(u & v & Huv & -> & ->) [Hda Hdb]]|[Hl Hnew]].
    + apply Heq in Huv as (Huv & Hu & Hv). split.
      { left. split; [|done]. by exists u, v. }
      pose proof (relabel_avoids H cs u Hcs).
      pose proof (relabel_avoids H cs v Hcs). tauto.
    + split; [by right|]. by eapply new_edge_avoids.
  - intros [[[(u & v & Huv & -> & ->) [Hda Hdb]]|[Hl Hnew]] [Ha Hb]].
    + left. split; [|done]. exists u, v. split; [|done].
      apply Heq.
      pose proof (relabel_avoids H cs u Hcs).
      pose proof (relabel_avoids H cs v Hcs). tauto.
    + by right.
Qed.

Lemma same_modulo_steps H limit css G1 G2 :
  same_modulo H G1 G2 → Forall (names_disjoint H) css →
  same_modulo H (add_change_sets_G limit css G1)
    (add_change_sets_G limit css G2).
Proof.
  unfold add_change_sets_G. intros HG Hcss. revert G1 G2 HG.
  induction Hcss as [|cs css Hcs Hcss IH]; intros G1 G2 HG; simpl; [done|].
  by apply IH, same_modulo_step.
Qed.

Lemma all_touch_step H limit cs G :
  good G → all_touch H G → commit_hash cs ∈ H → olds_disjoint H cs →
  all_touch H (add_change_set_G limit cs G).
Proof.
  intros HG Hall Hh Hold a b. rewrite eset_add_change_set_G by done.
  cbv zeta. intros [[(u & v & Huv & -> & ->) _]|[_ Hnew]].
  - destruct (Hall u v Huv) as [Hu|Hv].
    + left. by rewrite (relabel_fixes H cs).
    + right. by rewrite (relabel_fixes H cs).
  - destruct Hnew as [[-> ->]|[[-> ->]|[[-> _]|[-> _]]]]; auto.
Qed.

Lemma all_touch_steps H limit css G :
  good G → all_touch H G →
  Forall (λ cs, commit_hash cs ∈ H ∧ olds_disjoint H cs) css →
  all_touch H (add_change_sets_G limit css G).
Proof.
  unfold add_change_sets_G. intros HG Hall Hcss. revert G HG Hall.
  induction Hcss as [|cs css [Hh Ho] Hcss IH]; intros G HG Hall; simpl; [done|].
  apply IH; [by apply good_add_change_set_G|by apply all_touch_step].
Qed.

(** Removing the change sets that leave and adding those that enter gives
    the edges of the graph built from those that stay and those that
    enter. *)
Lemma slide_edges limit (rem mid add : list ChangeSet) (G : Graph) :
  good G →
  eset G = eset (add_change_sets_G limit (rem ++ mid) nx.Graph_init) →
  Forall (olds_disjoint (map commit_hash rem)) rem →
  Forall (names_disjoint (map commit_hash rem)) mid →
  let G' := add_change_sets_G limit add
              (remove_nodes_G (map commit_hash rem) G) in
  good G'
  ∧ eset G' = eset (add_change_sets_G limit (mid ++ add) nx.Graph_init).
Proof.
  intros HG Heq Hrem Hmid G'.
  set (H := map commit_hash rem) in *.
  assert (Hfull : same_modulo H
            (add_change_sets_G limit (rem ++ mid) nx.Graph_init)
            (add_change_sets_G limit mid nx.Graph_init)).
  { rewrite add_change_sets_G_app. apply same_modulo_steps; [|done].
    assert (Hg : good (add_change_sets_G limit rem nx.Graph_init))
      by apply good_add_change_sets_G, good_empty.
    split; [done|]. split; [apply good_empty|].
    intros a b. split.
    - unfold eset at 1; simpl. rewrite dom_empty. intros Hin.
      by apply not_elem_of_empty in Hin.
    - intros (Hab & Ha & Hb).
      assert (Htouch : all_touch H (add_change_sets_G limit rem nx.Graph_init)).
      { apply all_touch_steps; [apply good_empty| |].
        - intros x y Hxy. unfold eset in Hxy; simpl in Hxy.
          rewrite dom_empty in Hxy. by apply not_elem_of_empty in Hxy.
        - apply Forall_forall. intros cs Hcs. split.
          + apply list_elem_of_fmap. eauto.
          + rewrite Forall_forall in Hrem. by apply Hrem. }
      destruct (Htouch a b Hab); tauto. }
  destruct Hfull as (Hg1 & Hg2 & Hfull).
  assert (Hmid' : same_modulo []
            (remove_nodes_G H G) (add_change_sets_G limit mid nx.Graph_init)).
  { split; [by apply good_remove_nodes_G|]. split; [done|].
    intros a b. rewrite eset_remove_nodes_G by done. rewrite Heq, Hfull.
    split; [|tauto]. intros (? & ? & ?).
    repeat split; auto using not_elem_of_nil. }
  assert (Hadd : same_modulo [] G'
            (add_change_sets_G limit add
               (add_change_sets_G limit mid nx.Graph_init))).
  { apply same_modulo_steps; [done|]. apply Forall_forall. intros cs _.
    repeat split; intros; apply not_elem_of_nil. }
  destruct Hadd as (Hg' & _ & Hadd). split; [done|].
  rewrite add_change_sets_G_app. apply set_eq. intros [a b].
  rewrite Hadd. split; [|tauto]. intros ?.
  repeat split; auto using not_elem_of_nil.
Qed.

(** ** The window and the graph rebuilt from it *)

Lemma filter_ext_elem_of {A} (P Q : A → Prop) `{!∀ x, Decision (P x)}
    `{!∀ x, Decision (Q x)} (l : list A) :
  (∀ x, x ∈ l → P x ↔ Q x) → filter P l = filter Q l.
Proof.
  induction l as [|x l IH]; intros Hext; [done|].
  rewrite !filter_cons, IH by (intros y Hy; apply Hext; by right).
  destruct (decide (P x)) as [HP|HP], (decide (Q x)) as [HQ|HQ]; try done.
  - exfalso. apply HQ, Hext; [left|done].
  - exfalso. apply HP, Hext; [left|done].
Qed.

Lemma filter_all {A} (P : A → Prop) `{!∀ x, Decision (P x)} (l : list A) :
  (∀ x, x ∈ l → P x) → filter P l = l.
Proof.
  induction l as [|x l IH]; intros Hext; [done|].
  rewrite filter_cons_True by (apply Hext; left).
  f_equal. apply IH. intros y Hy. apply Hext. by right.
Qed.

Lemma filter_none {A} (P : A → Prop) `{!∀ x, Decision (P x)} (l : list A) :
  (∀ x, x ∈ l → ¬ P x) → filter P l = [].
Proof.
  induction l as [|x l IH]; intros Hext; [done|].
  rewrite filter_cons_False by (apply Hext; left).
  apply IH. intros y Hy. apply Hext. by right.
Qed.

Lemma initial_window_loop_filter last_date (tl : dict Z (list ChangeSet)) :
  StronglySorted Z.lt (dict_keys tl) →
  initial_window_loop last_date tl
  = concat (map snd (filter (λ p : Z * list ChangeSet, p.1 ≤ last_date) tl)).
Proof.
  induction tl as [|[k css] tl IH]; intros Hs; [done|].
  cbn [initial_window_loop]. unfold dict_keys in Hs. cbn [map fst] in Hs.
  apply StronglySorted_inv in Hs as [Hs Hk]. rewrite Forall_forall in Hk.
  destruct (Z.ltb_spec last_date k) as [Hlt|Hge].
  - rewrite filter_cons_False by (simpl; lia).
    rewrite filter_none; [done|].
    intros [k' css'] Hin. simpl.
    assert (k < k'); [|lia].
    apply Hk. apply list_elem_of_fmap. by exists (k', css').
  - rewrite filter_cons_True by (simpl; lia). simpl. by rewrite IH.
Qed.

Lemma timeline_split (tl : dict Z (list ChangeSet)) a b rem add :
  timeline_ok tl → a ≤ b → normalized a → normalized b →
  dict_get a tl = Some rem → dict_get (b + usec_per_day) tl = Some add →
  ∃ l1 lmid l4,
    tl = l1 ++ (a, rem) :: lmid ++ (b + usec_per_day, add) :: l4
    ∧ filter (λ p : Z * list ChangeSet, a ≤ p.1 ≤ b) tl = (a, rem) :: lmid
    ∧ filter (λ p : Z * list ChangeSet,
                a + usec_per_day ≤ p.1 ≤ b + usec_per_day) tl
      = lmid ++ [(b + usec_per_day, add)].
Proof.
  intros [Hs Hn] Hab Hna Hnb Ha Hb.
  apply dict_get_elem_of in Ha, Hb.
  apply list_elem_of_split in Ha as (l1 & l2 & ->).
  unfold dict_keys in Hs, Hn. rewrite map_app in Hs, Hn. simpl in Hs, Hn.
  apply StronglySorted_app_1_r in Hs as Hs2.
  apply StronglySorted_inv in Hs2 as [Hs2 Hl2]. rewrite Forall_forall in Hl2.
  assert (Hl1 : ∀ p, p ∈ l1 → p.1 < a).
  { intros p Hp. clear -Hs Hp. induction l1 as [|q l1 IH]; simpl in *.
    - by apply not_elem_of_nil in Hp.
    - apply StronglySorted_inv in Hs as [Hs Hq].
      apply elem_of_cons in Hp as [->|Hp]; [|auto].
      rewrite Forall_forall in Hq. apply Hq, elem_of_app. right. left. }
  assert (Hb' : (b + usec_per_day, add) ∈ l2).
  { apply elem_of_app in Hb as [Hb|Hb].
    - apply Hl1 in Hb. simpl in Hb. unfold usec_per_day in *. lia.
    - apply elem_of_cons in Hb as [Hb|Hb]; [|done].
      injection Hb as Hb _. unfold usec_per_day in *. lia. }
  apply list_elem_of_split in Hb' as (lmid & l4 & ->).
  rewrite map_app in Hs2. simpl in Hs2.
  apply StronglySorted_app_1_r in Hs2 as Hs4.
  apply StronglySorted_inv in Hs4 as [_ Hl4]. rewrite Forall_forall in Hl4.
  assert (Hlm : ∀ p, p ∈ lmid → a < p.1 < b + usec_per_day).
  { intros p Hp. split.
    - apply Hl2. apply list_elem_of_fmap. exists p. split; [done|].
      apply elem_of_app. by left.
    - clear -Hs2 Hp. induction lmid as [|q lmid IH]; simpl in *.
      + by apply not_elem_of_nil in Hp.
      + apply StronglySorted_inv in Hs2 as [Hs Hq].
        apply elem_of_cons in Hp as [->|Hp]; [|auto].
        rewrite Forall_forall in Hq. apply Hq, elem_of_app. right. left. }
  assert (Hlm' : ∀ p, p ∈ lmid → a + usec_per_day ≤ p.1 ≤ b).
  { intros p Hp. destruct (Hlm p Hp) as [H1 H2].
    assert (Hnp : normalized p.1).
    { rewrite Forall_forall in Hn. apply Hn.
      apply elem_of_app. right. right. apply list_elem_of_fmap.
      exists p. split; [done|]. apply elem_of_app. by left. }
    destruct (normalized_diff a p.1 Hna Hnp) as [i Hi].
    destruct (normalized_diff p.1 b Hnp Hnb) as [j Hj].
    unfold usec_per_day in *. lia. }
  assert (Hl4' : ∀ p, p ∈ l4 → b + usec_per_day < p.1).
  { intros p Hp. apply Hl4. apply list_elem_of_fmap. eauto. }
  exists l1, lmid, l4. split; [done|]. split.
  - rewrite filter_app, filter_cons_True by (simpl; lia).
    rewrite filter_app, filter_cons_False by (simpl; unfold usec_per_day; lia).
    rewrite (filter_none _ l1), (filter_none _ l4), (filter_all _ lmid).
    + by rewrite app_nil_r.
    + intros p Hp. specialize (Hlm' p Hp). unfold usec_per_day in *. lia.
    + intros p Hp. specialize (Hl4' p Hp). unfold usec_per_day in *. lia.
    + intros p Hp. specialize (Hl1 p Hp). lia.
  - rewrite filter_app, filter_cons_False by (simpl; unfold usec_per_day; lia).
    rewrite filter_app, filter_cons_True by (simpl; lia).
    rewrite (filter_none _ l1), (filter_none _ l4), (filter_all _ lmid).
    + done.
    + intros p Hp. specialize (Hlm' p Hp). unfold usec_per_day in *. lia.
    + intros p Hp. specialize (Hl4' p Hp). lia.
    + intros p Hp. specialize (Hl1 p Hp). unfold usec_per_day in *. lia.
Qed.

Lemma forward_one_day_inv dm add rem dm' :
  forward_one_day dm = (Ok (add, rem), dm') →
  ∃ a b,
    _first_date dm = Some a ∧ _last_date dm = Some b
    ∧ dict_get a (_date_to_change_sets dm) = Some rem
    ∧ dict_get (b + usec_per_day) (_date_to_change_sets dm) = Some add
    ∧ dm' = mkDataManager (_sliding_window_size dm) (_date_to_change_sets dm)
              (Some (a + usec_per_day)) (Some (b + usec_per_day)).
Proof.
  destruct dm as [w tl [a|] [b|]];
    unfold forward_one_day, bind, can_slide, get_state, ret, raise, dict_item,
      dict_contains, set_first_date, set_last_date; simpl; try done.
  - destruct (dict_get (b + usec_per_day) tl) as [add'|] eqn:Eb; simpl;
      [|done].
    destruct (dict_get a tl) as [rem'|] eqn:Ea; simpl; [|done].
    rewrite Eb. intros [= <- <- <-]. exists a, b. auto.
  - destruct (dict_get (b + usec_per_day) tl); simpl; done.
Qed.

Lemma forward_graph_one_day_inv self self' :
  forward_graph_one_day self = (Ok true, self') →
  ∃ add rem dm',
    forward_one_day (_data_manager self) = (Ok (add, rem), dm')
    ∧ _G self' = add_change_sets_G (_num_files_limit self) add
                   (remove_nodes_G (map commit_hash rem) (_G self))
    ∧ _data_manager self' = dm'
    ∧ _num_files_limit self' = _num_files_limit self.
Proof.
  unfold forward_graph_one_day, on_data_manager.
  destruct (forward_one_day (_data_manager self)) as [[[add rem]|e] dm'] eqn:E.
  - unfold bind. rewrite _remove_change_sets_run, _add_change_sets_run.
    simpl. destruct (last add); simpl; intros [= <-]; exists add, rem, dm';
      simpl; auto.
  - destruct e; simpl; intros [=].
Qed.

Lemma in_step_sets self :
  in_step self →
  nset (_G self) = nset (rebuild self) ∧ eset (_G self) = eset (rebuild self).
Proof.
  intros (HG & He & _). split; [|done].
  apply good_nset_eq; [done| |done].
  apply good_add_change_sets_G, good_empty.
Qed.

Lemma HistoryGraph_init_in_step dataset w dl nfl st self :
  HistoryGraph_init dataset w dl nfl st = Ok self → in_step self.
Proof.
  unfold HistoryGraph_init, DataManager_init, res_bind.
  destruct (_generate_date_to_change_sets dataset) as [tl|] eqn:Etl; [|done].
  apply _generate_date_to_change_sets_timeline_ok in Etl as Htl.
  unfold _initialize_graph, bind, on_data_manager. simpl.
  destruct (get_initial_window _) as [[win|e] dm1] eqn:Ewin; [|done].
  apply get_initial_window_inv in Ewin as (a & Ha & Hc & -> & ->).
  simpl in *. destruct (last _) as [cs|]; [|done].
  unfold bind. simpl. rewrite _add_change_sets_run. simpl.
  intros [= <-]. unfold in_step, rebuild, window_of; simpl.
  destruct Htl as [Hs Hn].
  assert (Hmin : ∀ k, k ∈ dict_keys tl → a ≤ k).
  { intros k Hk. destruct tl as [|[k0 v0] tl']; [done|].
    injection Ha as ->. unfold dict_keys in *. simpl in *.
    apply StronglySorted_inv in Hs as [_ Hs]. rewrite Forall_forall in Hs.
    apply elem_of_cons in Hk as [->|Hk]; [lia|]. specialize (Hs k Hk). lia. }
  assert (Heq : initial_window_loop (a + (w - 1) * usec_per_day) tl
    = concat (map snd (filter (λ p : Z * list ChangeSet,
         a ≤ p.1 ≤ a + (w - 1) * usec_per_day) tl))).
  { rewrite initial_window_loop_filter by done. do 2 f_equal.
    apply filter_ext_elem_of. intros [k v] Hin. simpl.
    assert (a ≤ k); [|lia].
    apply Hmin. apply list_elem_of_fmap. by exists (k, v). }
  rewrite <- Heq. split; [apply good_add_change_sets_G, good_empty|].
  split; [done|]. split; [done|].
  exists a, (a + (w - 1) * usec_per_day).
  apply dict_contains_keys in Hc. rewrite Forall_forall in Hn.
  repeat split; auto.
  apply Hn. by apply head_Some_elem_of.
Qed.

Lemma separate_names_slide (pre rem mid rest : list ChangeSet) :
  separate_names (pre ++ rem ++ mid ++ rest) →
  Forall (olds_disjoint (map commit_hash rem)) rem
  ∧ Forall (names_disjoint (map commit_hash rem)) mid.
Proof.
  intros [Hnd Hsep].
  assert (Hin_rem : ∀ cs, cs ∈ rem → cs ∈ pre ++ rem ++ mid ++ rest).
  { intros cs Hcs. apply elem_of_app. right. apply elem_of_app. by left. }
  assert (Hin_mid : ∀ cs, cs ∈ mid → cs ∈ pre ++ rem ++ mid ++ rest).
  { intros cs Hcs. apply elem_of_app. right. apply elem_of_app. right.
    apply elem_of_app. by left. }
  split; apply Forall_forall.
  - intros cs Hcs cc o Hcc Ho Hin.
    apply list_elem_of_fmap in Hin as (cs' & -> & Hcs').
    destruct (Hsep cs' cs (Hin_rem _ Hcs') (Hin_rem _ Hcs)) as (_ & _ & H).
    by destruct (H cc Hcc).
  - intros cs Hcs.
    assert (Hsep' : ∀ x, x ∈ map commit_hash rem →
              ∃ cs', x = commit_hash cs' ∧ cs' ∈ rem).
    { intros x Hx. by apply list_elem_of_fmap in Hx. }
    split; [|split; [|split]].
    + rewrite !map_app in Hnd.
      apply NoDup_app in Hnd as (_ & _ & Hnd).
      apply NoDup_app in Hnd as (_ & Hdisj & _).
      intros Hin. apply (Hdisj _ Hin).
      apply elem_of_app. left. apply list_elem_of_fmap. eauto.
    + intros Hin. apply Hsep' in Hin as (cs' & Heq & Hcs').
      destruct (Hsep cs' cs (Hin_rem _ Hcs') (Hin_mid _ Hcs)) as (H & _).
      congruence.
    + intros i Hi Hin. apply Hsep' in Hin as (cs' & -> & Hcs').
      destruct (Hsep cs' cs (Hin_rem _ Hcs') (Hin_mid _ Hcs)) as (_ & H & _).
      done.
    + intros cc Hcc.
      split.
      * intros Hin. apply Hsep' in Hin as (cs' & Heq & Hcs').
        destruct (Hsep cs' cs (Hin_rem _ Hcs') (Hin_mid _ Hcs))
          as (_ & _ & H).
        by destruct (H cc Hcc).
      * intros o Ho Hin. apply Hsep' in Hin as (cs' & -> & Hcs').
        destruct (Hsep cs' cs (Hin_rem _ Hcs') (Hin_mid _ Hcs))
          as (_ & _ & H).
        by destruct (H cc Hcc).
Qed.

Lemma forward_graph_one_day_in_step self self' :
  in_step self →
  separate_names (all_change_sets (_data_manager self)) →
  forward_graph_one_day self = (Ok true, self') →
  in_step self'
  ∧ all_change_sets (_data_manager self')
    = all_change_sets (_data_manager self).
Proof.
  intros (HG & He & Htl & a & b & Ha & Hb & Hab & Hna & Hnb) Hsep Hfw.
  apply forward_graph_one_day_inv in Hfw
    as (add & rem & dm' & Hdm & HG' & Hdm' & Hlim).
  apply forward_one_day_inv in Hdm as (a' & b' & Ha' & Hb' & Hrem & Hadd & ->).
  rewrite Ha in Ha'. rewrite Hb in Hb'.
  injection Ha' as <-. injection Hb' as <-.
  destruct (timeline_split _ a b rem add Htl Hab Hna Hnb Hrem Hadd)
    as (l1 & lmid & l4 & Hsplit & Hf1 & Hf2).
  set (mid := concat (map snd lmid)).
  assert (Hw : window_of (_data_manager self) = rem ++ mid).
  { unfold window_of. by rewrite Ha, Hb, Hf1. }
  assert (Hw' : window_of (_data_manager self') = mid ++ add).
  { unfold window_of. rewrite Hdm'. simpl. rewrite Hf2.
    rewrite map_app, concat_app. simpl. by rewrite app_nil_r. }
  assert (Hall : all_change_sets (_data_manager self)
                 = concat (map snd l1) ++ rem ++ mid
                   ++ (add ++ concat (map snd l4))).
  { unfold all_change_sets. rewrite Hsplit.
    rewrite map_app, concat_app. simpl.
    rewrite map_app, concat_app. simpl. done. }
  rewrite Hall in Hsep. apply separate_names_slide in Hsep as [Hold Hnames].
  unfold rebuild in He. rewrite Hw in He.
  destruct (slide_edges (_num_files_limit self) rem mid add (_G self)
              HG He Hold Hnames) as [Hg' He'].
  split; [|by rewrite Hdm'].
  unfold in_step, rebuild. rewrite HG', Hw', Hlim. split; [done|].
  split; [done|]. rewrite Hdm'. split; [done|].
  exists (a + usec_per_day), (b + usec_per_day). simpl.
  unfold normalized in *. repeat split; try lia.
  - rewrite <- (Z.mul_1_l usec_per_day) at 1. by rewrite Z.mod_add.
  - rewrite <- (Z.mul_1_l usec_per_day) at 1. by rewrite Z.mod_add.
Qed.

(** C1 (as amended: for commit hashes that name one change set and nothing
    else). From the initial window, after any number of successful calls of
    [forward_graph_one_day], the graph has the nodes and the edges of the
    graph rebuilt from scratch from the change sets of the window, in
    ascending order of date, when the commit hashes of the dataset are
    pairwise distinct and are not also names of authors, issues or files. *)
Theorem incremental_graph_equals_rebuild (dataset : list JsonChangeSet)
    (w : Z) (dl : Q) (nfl : Z) (st : Q) (self0 self : HistoryGraph) (n : nat) :
  HistoryGraph_init dataset w dl nfl st = Ok self0 →
  separate_names (all_change_sets (_data_manager self0)) →
  forward_graph_days n self0 = Ok self →
  nset (_G self) = nset (rebuild self) ∧ eset (_G self) = eset (rebuild self).
Proof.
  intros Hinit Hsep Hfw. apply in_step_sets.
  apply HistoryGraph_init_in_step in Hinit.
  clear dataset w dl nfl st. revert self0 Hinit Hsep Hfw.
  induction n as [|n IH]; intros self0 Hinit Hsep; simpl.
  - by intros [= <-].
  - destruct (forward_graph_one_day self0) as [[[|]|e] self1] eqn:E; try done.
    destruct (forward_graph_one_day_in_step _ _ Hinit Hsep E) as [H1 H2].
    apply IH; [done|]. by rewrite H2.
Qed.

(** ** What the getters compute, and the memoized values *)

Lemma same_core_refl self : same_core self self.
Proof. unfold same_core. by destruct self. Qed.

Lemma same_core_trans s1 s2 s3 :
  same_core s1 s2 → same_core s2 s3 → same_core s1 s3.
Proof.
  unfold same_core. intros H12 H23. rewrite H23 at 1. rewrite H12 at 1.
  reflexivity.
Qed.

Lemma same_core_with cd self : same_core self (with_current_data cd self).
Proof. reflexivity. Qed.

Lemma _calculate_distance_core cd self d :
  _calculate_distance (with_current_data cd self) d = _calculate_distance self d.
Proof. reflexivity. Qed.

Lemma find_reachable_files_loop_core cd self fuel kinds visited files stack :
  find_reachable_files_loop fuel (with_current_data cd self) kinds visited
    files stack
  = find_reachable_files_loop fuel self kinds visited files stack.
Proof.
  revert visited files stack.
  induction fuel as [|fuel IH]; intros visited files stack; [done|].
  simpl. destruct stack as [|[[parent dist] [|child children]] stack];
    [done|apply IH|].
  destruct (decide (child ∈ visited)); [apply IH|].
  destruct (edge_date_of (_G self) parent child) as [ed|]; [|done]. simpl.
  rewrite _calculate_distance_core.
  destruct (_calculate_distance self ed) as [[d|]|]; simpl; [|apply IH|done].
  destruct (Qlt_le_dec _ _); [apply IH|].
  destruct (kinds !! child) as [kind|]; [|done].
  destruct (decide (kind = "Developer")); [apply IH|].
  destruct (nx.getitem (_G self) child); [|done]. simpl. apply IH.
Qed.

Lemma find_reachable_files_of_core cd self dev :
  find_reachable_files_of (with_current_data cd self) dev
  = find_reachable_files_of self dev.
Proof.
  unfold find_reachable_files_of.
  change (_G (with_current_data cd self)) with (_G self).
  change (fresh_node_kinds (with_current_data cd self))
    with (fresh_node_kinds self).
  destruct (nx.getitem (_G self) dev); [|done]. unfold res_bind.
  apply find_reachable_files_loop_core.
Qed.

Lemma reachable_files_of_core cd self devs acc :
  reachable_files_of (with_current_data cd self) devs acc
  = reachable_files_of self devs acc.
Proof.
  revert acc. induction devs as [|dev devs IH]; intros acc; [done|].
  simpl. rewrite find_reachable_files_of_core.
  destruct (find_reachable_files_of self dev); [|done]. simpl. apply IH.
Qed.

Lemma fresh_dev_to_reachable_files_core cd self :
  fresh_dev_to_reachable_files (with_current_data cd self)
  = fresh_dev_to_reachable_files self.
Proof. apply reachable_files_of_core. Qed.

Lemma fresh_file_to_devs_core cd self :
  fresh_file_to_devs (with_current_data cd self) = fresh_file_to_devs self.
Proof.
  unfold fresh_file_to_devs. by rewrite fresh_dev_to_reachable_files_core.
Qed.

Lemma fresh_dev_to_rare_files_core cd self :
  fresh_dev_to_rare_files (with_current_data cd self)
  = fresh_dev_to_rare_files self.
Proof.
  unfold fresh_dev_to_rare_files. by rewrite fresh_file_to_devs_core.
Qed.

Lemma fresh_file_coverage_core cd self :
  fresh_file_coverage (with_current_data cd self) = fresh_file_coverage self.
Proof.
  unfold fresh_file_coverage. by rewrite fresh_dev_to_reachable_files_core.
Qed.

Lemma fresh_mavenness_core cd self :
  fresh_mavenness (with_current_data cd self) = fresh_mavenness self.
Proof.
  unfold fresh_mavenness. by rewrite fresh_dev_to_rare_files_core.
Qed.

Lemma fresh_jacks_core cd self :
  fresh_jacks (with_current_data cd self) = fresh_jacks self.
Proof. unfold fresh_jacks. by rewrite fresh_file_coverage_core. Qed.

Lemma fresh_mavens_core cd self :
  fresh_mavens (with_current_data cd self) = fresh_mavens self.
Proof. unfold fresh_mavens. by rewrite fresh_mavenness_core. Qed.

Lemma core_only_same {A} (f : HistoryGraph → A) self self' :
  core_only f → same_core self self' → f self' = f self.
Proof. intros Hf H. rewrite H. apply Hf. Qed.

Lemma computes_bind {A B} (m : M HistoryGraph A) (k : A → M HistoryGraph B)
    (f : HistoryGraph → res A) (g : A → HistoryGraph → res B) :
  computes m f → (∀ a, computes (k a) (g a)) → (∀ a, core_only (g a)) →
  computes (bind m k) (λ self, res_bind (f self) (λ a, g a self)).
Proof.
  intros Hm Hk Hg self Hc. unfold bind.
  destruct (Hm self Hc) as (self1 & -> & Hc1 & Hs1).
  destruct (f self) as [a|e]; simpl.
  - destruct (Hk a self1 Hc1) as (self2 & -> & Hc2 & Hs2).
    exists self2. rewrite (core_only_same (g a) self self1) by auto.
    split; [done|]. split; [done|]. by eapply same_core_trans.
  - by exists self1.
Qed.

Lemma computes_ret {A} (f : HistoryGraph → A) :
  computes (let* self := get_state in ret (f self)) (λ self, Ok (f self)).
Proof.
  intros self Hc. exists self. split; [done|]. split; [done|].
  apply same_core_refl.
Qed.

Lemma computes_lift {A} (f : HistoryGraph → res A) :
  computes (let* self := get_state in lift (f self)) f.
Proof.
  intros self Hc. exists self. split; [done|]. split; [done|].
  apply same_core_refl.
Qed.

Lemma computes_ext {A} (m : M HistoryGraph A) (f g : HistoryGraph → res A) :
  computes m f → (∀ self, f self = g self) → computes m g.
Proof.
  intros Hm Hfg self Hc. destruct (Hm self Hc) as (self' & H & ?).
  exists self'. by rewrite <- Hfg.
Qed.

Lemma computes_memo {A} (getc : CurrentData → option A)
    (setc : A → CurrentData → CurrentData) (compute : M HistoryGraph A)
    (f : HistoryGraph → res A) :
  core_only f →
  (∀ self v, coherent self → getc (_current_data self) = Some v →
     f self = Ok v) →
  (∀ self v, coherent self → f self = Ok v →
     coherent (with_current_data (setc v (_current_data self)) self)) →
  computes compute f →
  computes (memo getc setc compute) f.
Proof.
  intros Hf Hget Hset Hm self Hc. unfold memo, bind, get_state.
  destruct (getc (_current_data self)) as [v|] eqn:E.
  - exists self. rewrite (Hget self v Hc E). split; [done|].
    split; [done|apply same_core_refl].
  - destruct (Hm self Hc) as (self1 & -> & Hc1 & Hs1).
    destruct (f self) as [v|e] eqn:Ef.
    + simpl. eexists. split; [reflexivity|]. split.
      * apply Hset; [done|]. by rewrite (core_only_same f self self1).
      * eapply same_core_trans; [exact Hs1|]. apply same_core_with.
    + by exists self1.
Qed.

Lemma fresh_node_kinds_core : core_only fresh_node_kinds.
Proof. by intros cd self. Qed.

Lemma fresh_devG_core : core_only fresh_devG.
Proof. by intros cd self. Qed.

(** The memoized values stay coherent when one of them is set to the value
    computed now. *)
Ltac coherent_set :=
  let self := fresh "self" in
  let v := fresh "v" in
  let Hc := fresh "Hc" in
  let Hf := fresh "Hf" in
  intros self v Hc Hf; destruct Hc; split; simpl; intros ? ?;
  rewrite ?fresh_dev_to_reachable_files_core, ?fresh_file_to_devs_core,
    ?fresh_dev_to_rare_files_core, ?fresh_jacks_core, ?fresh_mavens_core;
  change (fresh_node_kinds (with_current_data _ self))
    with (fresh_node_kinds self) in *;
  change (fresh_devG (with_current_data _ self)) with (fresh_devG self) in *;
  auto; congruence.

Lemma computes_const {A} (a : A) : computes (ret a) (λ _, Ok a).
Proof.
  intros self Hc. exists self. split; [done|]. split; [done|].
  apply same_core_refl.
Qed.

Lemma computes_get_state {A} (k : HistoryGraph → M HistoryGraph A)
    (g : HistoryGraph → res A) :
  (∀ s, computes (k s) g) →
  computes (let* self := get_state in k self) g.
Proof. intros Hk self Hc. unfold bind, get_state. by apply Hk. Qed.

Lemma _get_node_kinds_computes :
  computes _get_node_kinds (λ self, Ok (fresh_node_kinds self)).
Proof.
  unfold _get_node_kinds. apply computes_memo.
  - by intros cd self.
  - intros self v Hc Hv. f_equal. symmetry. by apply coh_node_kinds.
  - coherent_set.
  - apply (computes_ret (λ self, nx.get_node_attributes_kind (_G self))).
Qed.

Lemma _find_reachable_files_computes dev :
  computes (_find_reachable_files dev)
    (λ self, find_reachable_files_of self dev).
Proof.
  unfold _find_reachable_files.
  eapply computes_ext.
  - apply (computes_bind _ _ (λ self, Ok (fresh_node_kinds self))
      (λ kinds self,
         res_bind (nx.getitem (_G self) dev) (λ children,
           find_reachable_files_loop
             (find_reachable_files_fuel (_G self) dev) self kinds
             {[dev]} [] [(dev, 0%Q, children)]))).
    + apply _get_node_kinds_computes.
    + intros kinds self Hc. exists self.
      unfold bind, get_state, lift.
      destruct (nx.getitem (_G self) dev); simpl;
        (split; [done|]); (split; [done|]); apply same_core_refl.
    + intros kinds cd self.
      change (_G (with_current_data cd self)) with (_G self).
      destruct (nx.getitem (_G self) dev); [|done]. unfold res_bind.
      apply find_reachable_files_loop_core.
  - done.
Qed.

Lemma dev_to_reachable_files_loop_computes devs acc :
  computes (dev_to_reachable_files_loop devs acc)
    (λ self, reachable_files_of self devs acc).
Proof.
  revert acc. induction devs as [|dev devs IH]; intros acc.
  - apply computes_const.
  - simpl. apply (computes_bind _ _ (λ self, find_reachable_files_of self dev)
      (λ files self, reachable_files_of self devs (alist_set dev files acc))).
    + apply _find_reachable_files_computes.
    + intros files. apply IH.
    + intros files cd self. apply reachable_files_of_core.
Qed.

Lemma get_dev_to_reachable_files_computes :
  computes get_dev_to_reachable_files fresh_dev_to_reachable_files.
Proof.
  unfold get_dev_to_reachable_files. apply computes_memo.
  - intros cd self. apply fresh_dev_to_reachable_files_core.
  - intros self v Hc Hv. by apply coh_reachable.
  - coherent_set.
  - intros self Hc. unfold bind, get_state.
    apply (dev_to_reachable_files_loop_computes (get_developers self) []).
    done.
Qed.

Lemma get_file_to_devs_computes :
  computes get_file_to_devs fresh_file_to_devs.
Proof.
  unfold get_file_to_devs. apply computes_memo.
  - intros cd self. apply fresh_file_to_devs_core.
  - intros self v Hc Hv. by apply coh_file_to_devs.
  - coherent_set.
  - apply (computes_bind _ _ fresh_dev_to_reachable_files
             (λ d _, Ok (file_to_devs_of d))).
    + apply get_dev_to_reachable_files_computes.
    + intros d. apply computes_const.
    + by intros d cd self.
Qed.

Lemma get_dev_to_rare_files_computes :
  computes get_dev_to_rare_files fresh_dev_to_rare_files.
Proof.
  unfold get_dev_to_rare_files. apply computes_memo.
  - intros cd self. apply fresh_dev_to_rare_files_core.
  - intros self v Hc Hv. by apply coh_rare.
  - coherent_set.
  - apply (computes_bind _ _ fresh_file_to_devs
             (λ d _, Ok (dev_to_rare_files_of d))).
    + apply get_file_to_devs_computes.
    + intros d. apply computes_const.
    + by intros d cd self.
Qed.

Lemma get_num_rare_files_computes :
  computes get_num_rare_files
    (λ self, res_bind (fresh_dev_to_rare_files self)
               (λ d, Ok (num_files_of d))).
Proof.
  unfold get_num_rare_files.
  apply (computes_bind _ _ fresh_dev_to_rare_files
           (λ d _, Ok (num_files_of d))).
  - apply get_dev_to_rare_files_computes.
  - intros d. apply computes_const.
  - by intros d cd self.
Qed.

Lemma get_jacks_computes : computes get_jacks fresh_jacks.
Proof.
  unfold get_jacks. apply computes_memo.
  - intros cd self. apply fresh_jacks_core.
  - intros self v Hc Hv. by apply coh_jacks.
  - coherent_set.
  - eapply computes_ext.
    + apply (computes_bind _ _ fresh_dev_to_reachable_files
        (λ d self, res_bind (scores_loop d (get_num_files self) [])
                     (λ t, Ok (_sort_and_filter self t)))).
      * apply get_dev_to_reachable_files_computes.
      * intros d self Hc. exists self. unfold bind, get_state, lift, ret.
        destruct (scores_loop d (get_num_files self) []); simpl;
          (split; [done|]); (split; [done|]); apply same_core_refl.
      * by intros d cd self.
    + intros self. unfold fresh_jacks, fresh_file_coverage.
      by destruct (fresh_dev_to_reachable_files self).
Qed.

Lemma get_mavens_computes : computes get_mavens fresh_mavens.
Proof.
  unfold get_mavens. apply computes_memo.
  - intros cd self. apply fresh_mavens_core.
  - intros self v Hc Hv. by apply coh_mavens.
  - coherent_set.
  - eapply computes_ext.
    + apply (computes_bind _ _ fresh_dev_to_rare_files
        (λ d self,
           res_bind (res_bind (fresh_dev_to_rare_files self)
                       (λ d', Ok (num_files_of d')))
             (λ n, res_bind (scores_loop d n [])
                     (λ t, Ok (_sort_and_filter self t))))).
      * apply get_dev_to_rare_files_computes.
      * intros d.
        apply (computes_bind _ _
          (λ self, res_bind (fresh_dev_to_rare_files self)
                     (λ d', Ok (num_files_of d')))
          (λ n self, res_bind (scores_loop d n [])
                       (λ t, Ok (_sort_and_filter self t)))).
        -- apply get_num_rare_files_computes.
        -- intros n self Hc. exists self. unfold bind, get_state, lift, ret.
           destruct (scores_loop d n []); simpl;
             (split; [done|]); (split; [done|]); apply same_core_refl.
        -- by intros n cd self.
      * intros d cd self. by rewrite fresh_dev_to_rare_files_core.
    + intros self. unfold fresh_mavens, fresh_mavenness.
      by destruct (fresh_dev_to_rare_files self).
Qed.

Lemma get_developer_graph_computes :
  computes get_developer_graph (λ self, Ok (fresh_devG self)).
Proof.
  unfold get_developer_graph. apply computes_memo.
  - by intros cd self.
  - intros self v Hc Hv. f_equal. symmetry. by apply coh_devG.
  - coherent_set.
  - apply (computes_ret fresh_devG).
Qed.

Lemma coherent_no_current_data self :
  _current_data self = no_current_data → coherent self.
Proof. intros H. split; rewrite H; simpl; done. Qed.

(** ** The window positions, and the states between two slides *)

Lemma HistoryGraph_init_current_data dataset w dl nfl st self :
  HistoryGraph_init dataset w dl nfl st = Ok self →
  _current_data self = no_current_data.
Proof.
  unfold HistoryGraph_init, res_bind.
  destruct (DataManager_init dataset w) as [dm|]; [|done].
  unfold _initialize_graph, bind, on_data_manager. simpl.
  destruct (get_initial_window dm) as [[win|e] dm1]; [|done].
  destruct (last win); [|done]. simpl.
  rewrite _add_change_sets_run. simpl. by intros [= <-].
Qed.

Lemma forward_graph_one_day_current_data self self' :
  forward_graph_one_day self = (Ok true, self') →
  _current_data self' = no_current_data.
Proof.
  unfold forward_graph_one_day, on_data_manager.
  destruct (forward_one_day (_data_manager self)) as [[[add rem]|e] dm'].
  - unfold bind. rewrite _remove_change_sets_run, _add_change_sets_run.
    simpl. destruct (last add); simpl; by intros [= <-].
  - destruct e; simpl; intros [=].
Qed.

Lemma computes_coherent {A} (m : M HistoryGraph A) f self :
  computes m f → coherent self → coherent (m self).2.
Proof.
  intros Hm Hc. destruct (Hm self Hc) as (self' & -> & H & _). done.
Qed.

Lemma computes_fst {A} (m : M HistoryGraph A) f self :
  computes m f → coherent self → (m self).1 = f self.
Proof.
  intros Hm Hc. destruct (Hm self Hc) as (self' & -> & _). done.
Qed.

Lemma position_coherent self : position self → coherent self.
Proof.
  induction 1.
  - eapply coherent_no_current_data, HistoryGraph_init_current_data; eauto.
  - eapply coherent_no_current_data, forward_graph_one_day_current_data; eauto.
  - by eapply computes_coherent; [apply get_dev_to_reachable_files_computes|].
  - by eapply computes_coherent; [apply get_file_to_devs_computes|].
  - by eapply computes_coherent; [apply get_dev_to_rare_files_computes|].
  - by eapply computes_coherent; [apply get_num_rare_files_computes|].
  - by eapply computes_coherent; [apply get_jacks_computes|].
  - by eapply computes_coherent; [apply get_mavens_computes|].
  - by eapply computes_coherent; [apply get_developer_graph_computes|].
Qed.

(** ** Rare files and maven scores *)

Section alist_facts.

Context `{EqDecision K} {V : Type}.

Implicit Types (d : list (K * list V)).

Lemma alist_append_nonempty k (v : V) d :
  Forall (λ p, p.2 ≠ []) d → Forall (λ p, p.2 ≠ []) (alist_append k v d).
Proof.
  induction 1 as [|[k' vs] d Hp Hd IH]; simpl.
  - by repeat constructor.
  - destruct (decide (k = k')).
    + constructor; [|done]. simpl. by destruct vs.
    + by constructor.
Qed.

Lemma alist_append_keys k (v : V) d x :
  x ∈ (alist_append k v d).*1 ↔ x = k ∨ x ∈ d.*1.
Proof.
  induction d as [|[k' vs] d IH]; simpl.
  - rewrite list_elem_of_singleton. split; [auto|].
    intros [?|H]; [done|]. by apply not_elem_of_nil in H.
  - destruct (decide (k = k')) as [->|]; simpl.
    + rewrite elem_of_cons. tauto.
    + rewrite !elem_of_cons, IH. tauto.
Qed.

Lemma alist_append_NoDup k (v : V) d :
  NoDup d.*1 → NoDup (alist_append k v d).*1.
Proof.
  induction d as [|[k' vs] d IH]; simpl; intros Hnd.
  - apply NoDup_singleton.
  - apply NoDup_cons in Hnd as [Hk' Hnd].
    destruct (decide (k = k')) as [->|Hne]; simpl.
    + by apply NoDup_cons.
    + apply NoDup_cons. split; [|auto].
      rewrite alist_append_keys. intros [?|?]; [congruence|done].
Qed.

End alist_facts.

Lemma dev_to_rare_files_of_spec ftd :
  Forall (λ p : string * list string, p.2 ≠ []) (dev_to_rare_files_of ftd)
  ∧ NoDup (dev_to_rare_files_of ftd).*1.
Proof.
  unfold dev_to_rare_files_of.
  assert (H : ∀ acc : list (string * list string),
    Forall (λ p, p.2 ≠ []) acc ∧ NoDup acc.*1 →
    Forall (λ p : string * list string, p.2 ≠ [])
      (foldl (λ acc (p : string * list string),
                match p.2 with
                | [dev] => alist_append dev p.1 acc
                | _ => acc
                end) acc ftd)
    ∧ NoDup (foldl (λ acc (p : string * list string),
                match p.2 with
                | [dev] => alist_append dev p.1 acc
                | _ => acc
                end) acc ftd).*1).
  { induction ftd as [|[f devs] ftd IH]; intros acc [H1 H2]; simpl; [done|].
    apply IH. destruct devs as [|dev [|? ?]]; [done| |done].
    split; [by apply alist_append_nonempty|by apply alist_append_NoDup]. }
  apply H. split; constructor.
Qed.

Lemma num_files_of_nonneg d : 0 ≤ num_files_of d.
Proof. induction d as [|[k vs] d IH]; simpl; lia. Qed.

Lemma num_files_of_zero d :
  Forall (λ p : string * list string, p.2 ≠ []) d → num_files_of d = 0 →
  d = [].
Proof.
  destruct 1 as [|[k vs] d Hp Hd]; [done|]. simpl in *.
  pose proof (num_files_of_nonneg d). destruct vs; [done|]. simpl. lia.
Qed.

(** C9. At a window position without a rare file, [get_mavens] returns the
    empty table: it raises no [ZeroDivisionError]. *)
Theorem get_mavens_without_rare_files (self : HistoryGraph) :
  position self →
  (get_num_rare_files self).1 = Ok 0 →
  (get_mavens self).1 = Ok [].
Proof.
  intros Hpos Hnum. apply position_coherent in Hpos as Hc.
  rewrite (computes_fst _ _ _ get_num_rare_files_computes Hc) in Hnum.
  rewrite (computes_fst _ _ _ get_mavens_computes Hc).
  unfold fresh_mavens, fresh_mavenness.
  destruct (fresh_dev_to_rare_files self) as [d|] eqn:Ed; [|done].
  simpl in Hnum. injection Hnum as Hnum.
  assert (d = []) as ->.
  { apply num_files_of_zero; [|done].
    unfold fresh_dev_to_rare_files in Ed.
    destruct (fresh_file_to_devs self) as [ftd|]; [|done].
    simpl in Ed. injection Ed as <-. apply dev_to_rare_files_of_spec. }
  reflexivity.
Qed.

Lemma alist_set_fresh `{EqDecision K} {V} (k : K) (v : V) (d : list (K * V)) :
  k ∉ d.*1 → alist_set k v d = d ++ [(k, v)].
Proof.
  induction d as [|[k' v'] d IH]; simpl; intros Hk; [done|].
  apply not_elem_of_cons in Hk as [Hne Hk].
  rewrite decide_False by done. by rewrite IH.
Qed.

Lemma scores_loop_spec (d : list (string * list string)) (total : Z)
    (acc : list (string * Q)) :
  total ≠ 0 → NoDup (acc.*1 ++ d.*1) →
  scores_loop d total acc
  = Ok (acc ++ map (λ p : string * list string,
                      (p.1, (inject_Z (Z.of_nat (length p.2))
                             / inject_Z total)%Q)) d).
Proof.
  intros Ht. revert acc. induction d as [|[dev files] d IH]; intros acc Hnd.
  - simpl. by rewrite app_nil_r.
  - simpl. unfold true_div. destruct (Z.eqb_spec total 0); [done|]. simpl.
    simpl in Hnd. apply NoDup_app in Hnd as (Hacc & Hdisj & Hd).
    apply NoDup_cons in Hd as [Hdev Hd].
    rewrite alist_set_fresh; cycle 1.
    { intros Hin. apply (Hdisj _ Hin). left. }
    rewrite IH; [by rewrite <- app_assoc|].
    rewrite fmap_app. simpl. rewrite <- app_assoc. simpl.
    apply NoDup_app. split; [done|]. split; [|by apply NoDup_cons].
    intros x Hx. by apply Hdisj.
Qed.


(** ** Every node has a kind *)

Lemma kinded_add_node n k G : kinded G → kinded (nx.add_node n k G).
Proof.
  intros HG x Hx. unfold nx.add_node; simpl.
  destruct (decide (x = n)) as [->|Hne].
  - rewrite lookup_insert_eq. eauto.
  - rewrite lookup_insert_ne by done. apply HG.
    apply nset_add_node in Hx as [?|?]; done.
Qed.

Lemma kinded_add_nodes_from ns k G :
  kinded G → kinded (nx.add_nodes_from ns k G).
Proof.
  unfold nx.add_nodes_from. revert G.
  induction ns as [|n ns IH]; intros G HG; simpl; [done|].
  by apply IH, kinded_add_node.
Qed.

Lemma ensure_node_present n (N : gmap string (option string)) :
  n ∈ dom N → nx.ensure_node n N = N.
Proof.
  intros H. apply elem_of_dom in H as [a Ha]. unfold nx.ensure_node.
  by rewrite Ha.
Qed.

Lemma node_add_edge_present u v d k G :
  u ∈ nset G → v ∈ nset G → _node (nx.add_edge u v d k G) = _node G.
Proof.
  intros Hu Hv. unfold nx.add_edge; simpl.
  rewrite (ensure_node_present u) by done. by apply ensure_node_present.
Qed.

Lemma node_add_edges_G_present h d k xs G :
  h ∈ nset G → (∀ x, x ∈ xs → x ∈ nset G) →
  _node (add_edges_G h d k xs G) = _node G.
Proof.
  unfold add_edges_G. revert G.
  induction xs as [|x xs IH]; intros G Hh Hxs; simpl; [done|].
  assert (Hn : _node (nx.add_edge h x (Some d) (Some k) G) = _node G).
  { apply node_add_edge_present; [done|]. apply Hxs. left. }
  rewrite IH.
  - done.
  - unfold nset. by rewrite Hn.
  - intros y Hy. unfold nset. rewrite Hn. apply Hxs. by right.
Qed.

Lemma kinded_node_eq G G' : _node G' = _node G → kinded G → kinded G'.
Proof. intros H HG n. unfold nset. rewrite H. apply HG. Qed.

Lemma kinded_add_content_G cs files G :
  kinded G → kinded (add_content_G cs files G).
Proof.
  intros HG. unfold add_content_G.
  set (G1 := nx.add_node (author cs) "Developer"
               (nx.add_node (commit_hash cs) "ChangeSet" G)).
  assert (H1 : kinded G1) by by apply kinded_add_node, kinded_add_node.
  set (G2 := nx.add_edge (author cs) (commit_hash cs) None None G1).
  assert (Hn2 : _node G2 = _node G1).
  { apply node_add_edge_present; unfold G1;
      rewrite !nset_add_node; auto. }
  assert (H2 : kinded G2) by by eapply kinded_node_eq.
  set (G3 := nx.add_nodes_from files "File" G2).
  assert (H3 : kinded G3) by by apply kinded_add_nodes_from.
  assert (Hh3 : commit_hash cs ∈ nset G3).
  { unfold G3. rewrite nset_add_nodes_from. right. unfold nset.
    rewrite Hn2. unfold G1. fold (nset (nx.add_node (author cs) "Developer"
      (nx.add_node (commit_hash cs) "ChangeSet" G))).
    rewrite !nset_add_node. auto. }
  set (G4 := add_edges_G (commit_hash cs) (date cs) "include" files G3).
  assert (Hn4 : _node G4 = _node G3).
  { apply node_add_edges_G_present; [done|]. intros x Hx.
    unfold G3. rewrite nset_add_nodes_from. by left. }
  assert (H4 : kinded G4) by by eapply kinded_node_eq.
  set (G5 := nx.add_nodes_from (issues cs) "Issue" G4).
  assert (H5 : kinded G5) by by apply kinded_add_nodes_from.
  eapply kinded_node_eq; [|exact H5].
  apply node_add_edges_G_present.
  - unfold G5. rewrite nset_add_nodes_from. right. unfold nset.
    by rewrite Hn4.
  - intros x Hx. unfold G5. rewrite nset_add_nodes_from. by left.
Qed.

Lemma kinded_remove_nodes_from ns G :
  kinded G → kinded (nx.remove_nodes_from ns G).
Proof.
  intros HG n Hn. apply nset_remove_nodes_from in Hn as [Hn1 Hn2].
  destruct (HG n Hn2) as [k Hk]. exists k.
  unfold nx.remove_nodes_from; simpl. by apply map_lookup_filter_Some.
Qed.

Lemma kinded_remove_nodes_G ns G : kinded G → kinded (remove_nodes_G ns G).
Proof.
  intros HG. destruct ns; [done|]. simpl.
  by apply kinded_remove_nodes_from, kinded_remove_nodes_from.
Qed.

Lemma relabel_node_fold_value (mapping : gmap string string)
    (l : list (string * option string)) (N0 : gmap string (option string))
    x a :
  foldl (λ N (p : string * option string),
           <[nx.relabel mapping p.1 := p.2]> N) N0 l !! x = Some a →
  N0 !! x = Some a ∨ ∃ p, p ∈ l ∧ p.2 = a.
Proof.
  revert N0. induction l as [|p l IH]; intros N0; simpl; [auto|].
  intros H. apply IH in H as [H|(q & Hq & Ha)].
  - destruct (decide (x = nx.relabel mapping p.1)) as [->|Hne].
    + rewrite lookup_insert_eq in H. injection H as <-.
      right. exists p. split; [left|done].
    + rewrite lookup_insert_ne in H by done. by left.
  - right. exists q. split; [by right|done].
Qed.

Lemma kinded_relabel_nodes mapping G :
  kinded G → kinded (nx.relabel_nodes G mapping).
Proof.
  intros HG n Hn. unfold nset in Hn. apply elem_of_dom in Hn as [a Ha].
  pose proof Ha as Ha'. unfold nx.relabel_nodes in Ha'; simpl in Ha'.
  apply relabel_node_fold_value in Ha' as [H|([m a'] & Hp & Heq)].
  - by rewrite lookup_empty in H.
  - simpl in Heq. subst a'. apply elem_of_map_to_list in Hp.
    destruct (HG m) as [k Hk]; [apply elem_of_dom; eauto|].
    exists k. rewrite Ha. congruence.
Qed.

Lemma kinded_add_change_set_G limit cs G :
  kinded G → kinded (add_change_set_G limit cs G).
Proof.
  intros HG. unfold add_change_set_G.
  assert (H1 : kinded (remove_nodes_G
    (files_delete (partition_code_changes (code_changes cs)))
    (rename_nodes_G
       (files_rename_dict (partition_code_changes (code_changes cs))) G))).
  { apply kinded_remove_nodes_G. unfold rename_nodes_G.
    destruct (decide _); [done|]. by apply kinded_relabel_nodes. }
  destruct (is_large limit cs); [done|]. by apply kinded_add_content_G.
Qed.

Lemma kinded_add_change_sets_G limit css G :
  kinded G → kinded (add_change_sets_G limit css G).
Proof.
  unfold add_change_sets_G. revert G.
  induction css as [|cs css IH]; intros G HG; simpl; [done|].
  by apply IH, kinded_add_change_set_G.
Qed.

Lemma HistoryGraph_init_ready dataset w dl nfl st self :
  HistoryGraph_init dataset w dl nfl st = Ok self → ready self.
Proof.
  unfold HistoryGraph_init, DataManager_init, res_bind.
  destruct (_generate_date_to_change_sets dataset) as [tl|] eqn:Etl; [|done].
  apply _generate_date_to_change_sets_timeline_ok in Etl as [Hs Hn].
  unfold _initialize_graph, bind, on_data_manager. simpl.
  destruct (get_initial_window _) as [[win|e] dm1] eqn:Ewin; [|done].
  apply get_initial_window_inv in Ewin as (a & Ha & Hc & -> & ->).
  simpl in *. destruct (last _) as [cs|]; [|done].
  unfold bind. simpl. rewrite _add_change_sets_run. simpl.
  intros [= <-]. split; simpl.
  - apply good_add_change_sets_G, good_empty.
  - apply kinded_add_change_sets_G. intros n Hn'.
    unfold nset in Hn'; simpl in Hn'. rewrite dom_empty in Hn'.
    by apply not_elem_of_empty in Hn'.
  - apply dict_contains_keys in Hc.
    destruct tl as [|[k0 v0] tl']; [done|]. injection Ha as ->.
    unfold dict_keys in *. simpl in *.
    apply StronglySorted_inv in Hs as [_ Hs]. rewrite Forall_forall in Hs.
    apply elem_of_cons in Hc as [Hc|Hc].
    + unfold usec_per_day in *. lia.
    + specialize (Hs _ Hc). unfold usec_per_day in *. lia.
  - eauto.
Qed.

Lemma forward_graph_one_day_ready self self' :
  ready self → forward_graph_one_day self = (Ok true, self') → ready self'.
Proof.
  intros [Hg Hk Hr Hf].
  unfold forward_graph_one_day, on_data_manager.
  destruct (forward_one_day (_data_manager self)) as [[[add rem]|e] dm'] eqn:E.
  - apply forward_one_day_inv in E as (a & b & _ & _ & _ & _ & ->).
    unfold bind. rewrite _remove_change_sets_run, _add_change_sets_run.
    simpl. destruct (last add); simpl; intros [= <-]; split; simpl;
      eauto using good_add_change_sets_G, good_remove_nodes_G,
        kinded_add_change_sets_G, kinded_remove_nodes_G.
  - destruct e; simpl; intros [=].
Qed.

Lemma ready_same_core self self' : ready self → same_core self self' → ready self'.
Proof. intros [Hg Hk Hr Hf] ->. by split. Qed.

Lemma computes_same_core {A} (m : M HistoryGraph A) f self :
  computes m f → coherent self → same_core self (m self).2.
Proof.
  intros Hm Hc. destruct (Hm self Hc) as (self' & -> & _ & H). done.
Qed.

Lemma position_ready self : position self → ready self.
Proof.
  induction 1 as [| | self H IH| self H IH| self H IH| self H IH| self H IH
                  | self H IH| self H IH];
    try (apply position_coherent in H as Hc).
  - by eapply HistoryGraph_init_ready.
  - by eapply forward_graph_one_day_ready.
  - eapply ready_same_core; [done|].
    by eapply computes_same_core; [apply get_dev_to_reachable_files_computes|].
  - eapply ready_same_core; [done|].
    by eapply computes_same_core; [apply get_file_to_devs_computes|].
  - eapply ready_same_core; [done|].
    by eapply computes_same_core; [apply get_dev_to_rare_files_computes|].
  - eapply ready_same_core; [done|].
    by eapply computes_same_core; [apply get_num_rare_files_computes|].
  - eapply ready_same_core; [done|].
    by eapply computes_same_core; [apply get_jacks_computes|].
  - eapply ready_same_core; [done|].
    by eapply computes_same_core; [apply get_mavens_computes|].
  - eapply ready_same_core; [done|].
    by eapply computes_same_core; [apply get_developer_graph_computes|].
Qed.

(** ** The traversal of [_find_reachable_files] *)

Lemma elem_of_filter_nodes_by_kind kind G n :
  n ∈ _filter_nodes_by_kind kind G ↔ _node G !! n = Some (Some kind).
Proof.
  unfold _filter_nodes_by_kind, nx.nodes_data_kind.
  rewrite list_elem_of_omap. split.
  - intros ([m a] & Hin & H). cbn [fst snd] in H.
    destruct (decide (a = Some kind)) as [->|]; [|done].
    injection H as ->. by apply elem_of_map_to_list.
  - intros H. exists (n, Some kind). split.
    + by apply elem_of_map_to_list.
    + cbn [fst snd]. by destruct (decide (Some kind = Some kind)).
Qed.

Lemma filter_nodes_by_kind_nset kind G n :
  n ∈ _filter_nodes_by_kind kind G → n ∈ nset G.
Proof.
  rewrite elem_of_filter_nodes_by_kind. intros H. apply elem_of_dom. eauto.
Qed.

Lemma lookup_fresh_node_kinds self n k :
  fresh_node_kinds self !! n = Some k ↔ _node (_G self) !! n = Some (Some k).
Proof.
  unfold fresh_node_kinds, nx.get_node_attributes_kind.
  rewrite lookup_omap. destruct (_node (_G self) !! n) as [[k'|]|]; simpl;
    split; intros H; try done; congruence.
Qed.

Section traversal.

Variable self : HistoryGraph.

Hypothesis Hready : ready self.

Local Abbreviation G := (_G self).

Local Abbreviation kinds := (fresh_node_kinds self).

Lemma unvisited_weight_le visited l child :
  (unvisited_weight G ({[child]} ∪ visited) l ≤ unvisited_weight G visited l)%nat.
Proof.
  unfold unvisited_weight. induction l as [|n l IH]; simpl; [done|].
  destruct (decide (n ∈ {[child]} ∪ visited)) as [H1|H1],
    (decide (n ∈ visited)) as [H2|H2]; try lia.
  exfalso. apply H1. set_solver.
Qed.

Lemma unvisited_weight_insert visited l child :
  child ∈ l → child ∉ visited →
  (unvisited_weight G ({[child]} ∪ visited) l
   + S (length (nx.neighbors G child)) ≤ unvisited_weight G visited l)%nat.
Proof.
  intros Hin Hnot. induction l as [|n l IH]; simpl.
  - by apply not_elem_of_nil in Hin.
  - apply elem_of_cons in Hin as [<-|Hin].
    + pose proof (unvisited_weight_le visited l child) as Hle.
      unfold unvisited_weight in *. simpl.
      rewrite decide_True by set_solver. rewrite decide_False by done. lia.
    + specialize (IH Hin). unfold unvisited_weight in *. simpl.
      destruct (decide (n ∈ {[child]} ∪ visited)) as [H1|H1],
        (decide (n ∈ visited)) as [H2|H2]; try lia.
      exfalso. apply H1. set_solver.
Qed.

Lemma _calculate_distance_total ed : ∃ d, _calculate_distance self ed = Ok d.
Proof.
  destruct Hready as [_ _ Hr [first Hf]].
  unfold _calculate_distance, _which_day, get_first_included_date.
  destruct ed as [ed|]; [|eauto]. rewrite Hf. simpl.
  destruct (Z.eqb_spec (_graph_range_in_days self) 0); [lia|].
  destruct (Qeq_bool _ _); eauto.
Qed.

Lemma edge_nodes u v : (u, v) ∈ eset G → u ∈ nset G ∧ v ∈ nset G.
Proof.
  destruct Hready as [Hg _ _ _]. intros H. split.
  - by eapply good_closed.
  - eapply good_closed; [done|]. by apply good_sym_set.
Qed.

Lemma getitem_node n : n ∈ nset G → nx.getitem G n = Ok (nx.neighbors G n).
Proof.
  intros H. unfold nset in H. apply elem_of_dom in H as [a Ha].
  unfold nx.getitem. by rewrite Ha.
Qed.

Lemma find_reachable_files_loop_total fuel visited files stack :
  (stack_weight stack + unvisited_weight G visited (nx.nodes G) < fuel)%nat →
  frames_ok G stack →
  NoDup files →
  (∀ f, f ∈ files → f ∈ visited ∧ kinds !! f = Some "File") →
  ∃ r, find_reachable_files_loop fuel self kinds visited files stack = Ok r
       ∧ NoDup r ∧ ∀ f, f ∈ r → kinds !! f = Some "File".
Proof.
  revert visited files stack.
  induction fuel as [|fuel IH]; intros visited files stack Hfuel Hfr Hnd Hfiles;
    [lia|].
  simpl.
  destruct stack as [|[[parent dist] [|child children]] stack].
  - exists files. split; [done|]. split; [done|].
    intros f Hf. by apply Hfiles.
  - apply IH; try done.
    + unfold stack_weight in *. simpl in Hfuel. lia.
    + intros fr c Hin. apply Hfr. by right.
  - assert (Hfuel1 :
      (stack_weight ((parent, dist, children) :: stack)
       + unvisited_weight G visited (nx.nodes G) < fuel)%nat).
    { unfold stack_weight in *. simpl in *. lia. }
    assert (Hfr1 : frames_ok G ((parent, dist, children) :: stack)).
    { intros fr c Hin Hc. apply elem_of_cons in Hin as [->|Hin].
      - simpl in *. apply (Hfr (parent, dist, child :: children)); [left|].
        by right.
      - apply Hfr; [by right|done]. }
    assert (Hedge : (parent, child) ∈ eset G).
    { apply (Hfr (parent, dist, child :: children)); left. }
    destruct (decide (child ∈ visited)) as [Hvis|Hvis]; [by apply IH|].
    unfold edge_date_of. pose proof Hedge as Hlook. unfold eset in Hlook.
    apply elem_of_dom in Hlook as [e He]. rewrite He. simpl.
    destruct (_calculate_distance_total (e_date e)) as [d ->]. simpl.
    destruct d as [d|]; [|by apply IH].
    destruct (Qlt_le_dec _ _); [by apply IH|].
    destruct (edge_nodes _ _ Hedge) as [_ Hchild].
    destruct (ready_kinded self Hready child Hchild) as [kind Hkind].
    apply lookup_fresh_node_kinds in Hkind as Hkind'. rewrite Hkind'.
    destruct (decide (kind = "Developer")); [by apply IH|].
    rewrite getitem_node by done. simpl.
    apply IH.
    + pose proof (unvisited_weight_insert visited (nx.nodes G) child) as Hw.
      unfold stack_weight in *. simpl in *.
      assert (child ∈ nx.nodes G) by by apply elem_of_nodes.
      specialize (Hw ltac:(done) Hvis). lia.
    + intros fr c Hin Hc. apply elem_of_cons in Hin as [->|Hin].
      * simpl in *. by apply elem_of_neighbors.
      * by apply Hfr1.
    + destruct (decide (kind = "File")); [|done].
      apply NoDup_app. split; [done|]. split; [|apply NoDup_singleton].
      intros x Hx Hx'. apply list_elem_of_singleton in Hx' as ->.
      by destruct (Hfiles child Hx).
    + intros f Hf. destruct (decide (kind = "File")) as [->|].
      * apply elem_of_app in Hf as [Hf|Hf].
        -- destruct (Hfiles f Hf). split; [set_solver|done].
        -- apply list_elem_of_singleton in Hf as ->.
           split; [set_solver|done].
      * destruct (Hfiles f Hf). split; [set_solver|done].
Qed.

Lemma unvisited_weight_all visited l :
  (unvisited_weight G visited l
   ≤ sum_list (map (λ n, S (length (nx.neighbors G n))) l))%nat.
Proof.
  unfold unvisited_weight. induction l as [|n l IH]; simpl; [done|].
  destruct (decide (n ∈ visited)); lia.
Qed.

(** From a developer of the graph the traversal ends, raises nothing and
    returns files of the graph, each once. *)
Lemma find_reachable_files_of_total developer :
  developer ∈ nset G →
  ∃ files, find_reachable_files_of self developer = Ok files
           ∧ NoDup files ∧ ∀ f, f ∈ files → f ∈ get_files self.
Proof.
  intros Hdev. unfold find_reachable_files_of.
  rewrite getitem_node by done. simpl.
  destruct (find_reachable_files_loop_total
              (find_reachable_files_fuel G developer) {[developer]} []
              [(developer, 0%Q, nx.neighbors G developer)])
    as (r & Hr & Hnd & Hfiles).
  - pose proof (unvisited_weight_all {[developer]} (nx.nodes G)).
    unfold find_reachable_files_fuel, stack_weight. simpl. lia.
  - intros fr c Hin Hc. apply list_elem_of_singleton in Hin as ->.
    simpl in *. by apply elem_of_neighbors.
  - constructor.
  - intros f Hf. by apply not_elem_of_nil in Hf.
  - exists r. split; [done|]. split; [done|].
    intros f Hf. apply elem_of_filter_nodes_by_kind.
    apply lookup_fresh_node_kinds. by apply Hfiles.
Qed.

Lemma reachable_files_of_total devs acc :
  (∀ dev, dev ∈ devs → dev ∈ nset G) →
  NoDup acc.*1 →
  (∀ p, p ∈ acc → NoDup p.2 ∧ ∀ f, f ∈ p.2 → f ∈ get_files self) →
  ∃ d, reachable_files_of self devs acc = Ok d
       ∧ NoDup d.*1
       ∧ ∀ p, p ∈ d → NoDup p.2 ∧ ∀ f, f ∈ p.2 → f ∈ get_files self.
Proof.
  revert acc. induction devs as [|dev devs IH]; intros acc Hdevs Hnd Hacc.
  - exists acc. done.
  - simpl.
    destruct (find_reachable_files_of_total dev) as (files & -> & Hf1 & Hf2).
    { apply Hdevs. left. }
    simpl. apply IH.
    + intros d Hd. apply Hdevs. by right.
    + clear -Hnd. induction acc as [|[k v] acc IHa]; simpl.
      * apply NoDup_singleton.
      * simpl in Hnd. apply NoDup_cons in Hnd as [Hk Hnd].
        destruct (decide (dev = k)) as [->|Hne]; simpl.
        -- by apply NoDup_cons.
        -- apply NoDup_cons. split; [|auto].
           intros Hin. apply Hk. clear -Hin Hne.
           induction acc as [|[k' v'] acc IHa]; simpl in *.
           ++ apply list_elem_of_singleton in Hin. congruence.
           ++ destruct (decide (dev = k')) as [->|]; simpl in *; [done|].
              apply elem_of_cons in Hin as [->|Hin]; [left|right; auto].
    + intros p Hp. clear -Hp Hacc Hf1 Hf2.
      induction acc as [|[k v] acc IHa]; simpl in *.
      * apply list_elem_of_singleton in Hp as ->. done.
      * destruct (decide (dev = k)) as [->|].
        -- apply elem_of_cons in Hp as [->|Hp]; [done|].
           apply Hacc. by right.
        -- apply elem_of_cons in Hp as [->|Hp]; [apply Hacc; left|].
           apply IHa; [|done]. intros q Hq. apply Hacc. by right.
Qed.

Lemma fresh_dev_to_reachable_files_total :
  ∃ d, fresh_dev_to_reachable_files self = Ok d
       ∧ NoDup d.*1
       ∧ ∀ p, p ∈ d → NoDup p.2 ∧ ∀ f, f ∈ p.2 → f ∈ get_files self.
Proof.
  apply reachable_files_of_total.
  - intros dev. apply filter_nodes_by_kind_nset.
  - constructor.
  - intros p Hp. by apply not_elem_of_nil in Hp.
Qed.

End traversal.

(** ** Jack scores *)

Lemma Qdiv_inject_nonneg (a b : Z) :
  0 ≤ a → 0 < b → (0 <= inject_Z a / inject_Z b)%Q.
Proof.
  intros Ha Hb. destruct b as [|p|p]; try lia.
  unfold Qle, Qdiv, Qmult, Qinv, inject_Z; simpl. lia.
Qed.

Lemma Qdiv_inject_le (a c b : Z) :
  a ≤ c → 0 < b → (inject_Z a / inject_Z b <= inject_Z c / inject_Z b)%Q.
Proof.
  intros Hac Hb. destruct b as [|p|p]; try lia.
  unfold Qle, Qdiv, Qmult, Qinv, inject_Z; simpl. nia.
Qed.

Lemma Qdiv_inject_le_1 (c b : Z) :
  c ≤ b → 0 < b → (inject_Z c / inject_Z b <= 1)%Q.
Proof.
  intros Hcb Hb. destruct b as [|p|p]; try lia.
  unfold Qle, Qdiv, Qmult, Qinv, inject_Z; simpl. lia.
Qed.

(** C10 (as amended: for a positive number of files of the project). At a
    window position where [_number_of_files_in_project] is positive,
    [get_jacks] raises nothing, and the score of every developer before
    [_sort_and_filter] -- the number of their reachable files divided by that
    number -- is at least 0 and at most the number of File nodes of the
    graph divided by that number: at most 1 when the graph has no more File
    nodes than the project has files. (The division is the exact one.) *)
Theorem jack_scores_bounded (self : HistoryGraph) :
  position self →
  0 < get_num_files self →
  ∃ reach scores,
    (get_dev_to_reachable_files self).1 = Ok reach
    ∧ scores = map (λ p : string * list string,
                      (p.1, (inject_Z (Z.of_nat (length p.2))
                             / inject_Z (get_num_files self))%Q)) reach
    ∧ scores_loop reach (get_num_files self) [] = Ok scores
    ∧ (get_jacks self).1 = Ok (_sort_and_filter self scores)
    ∧ ∀ dev s, (dev, s) ∈ scores →
        (0 <= s)%Q
        ∧ (s <= inject_Z (Z.of_nat (length (get_files self)))
                / inject_Z (get_num_files self))%Q
        ∧ (Z.of_nat (length (get_files self)) ≤ get_num_files self →
           (s <= 1)%Q).
Proof.
  intros Hpos Hnum. apply position_coherent in Hpos as Hc.
  apply position_ready in Hpos as Hr.
  rewrite (computes_fst _ _ _ get_dev_to_reachable_files_computes Hc).
  rewrite (computes_fst _ _ _ get_jacks_computes Hc).
  unfold fresh_jacks, fresh_file_coverage.
  destruct (fresh_dev_to_reachable_files_total self Hr)
    as (d & -> & Hnd & Hd).
  exists d. eexists. split; [done|]. split; [reflexivity|].
  assert (Hloop : scores_loop d (get_num_files self) []
    = Ok (map (λ p : string * list string,
                 (p.1, (inject_Z (Z.of_nat (length p.2))
                        / inject_Z (get_num_files self))%Q)) d)).
  { rewrite scores_loop_spec; [done|lia|done]. }
  split; [done|]. split.
  - simpl. by rewrite Hloop.
  - intros dev s Hin. apply list_elem_of_fmap in Hin as ([dev' files] & Heq & Hin).
    injection Heq as -> ->. simpl.
    destruct (Hd _ Hin) as [Hnd' Hsub]. simpl in *.
    assert (Hlen : (length files ≤ length (get_files self))%nat).
    { apply submseteq_length, NoDup_submseteq; done. }
    split; [|split].
    + apply Qdiv_inject_nonneg; lia.
    + apply Qdiv_inject_le; lia.
    + intros Hle. apply Qdiv_inject_le_1; lia.
Qed.

(** ** Simple paths *)

Lemma walk_cons G x p :
  walk G (x :: p) ↔
  match head p with Some y => (x, y) ∈ eset G | None => True end ∧ walk G p.
Proof. destruct p as [|y p]; simpl; tauto. Qed.

Lemma walk_snoc G p x :
  walk G (p ++ [x]) ↔
  walk G p ∧ match last p with Some z => (z, x) ∈ eset G | None => True end.
Proof.
  induction p as [|y p IH]; [simpl; tauto|].
  rewrite <- app_comm_cons, !walk_cons, IH.
  destruct p as [|z p]; [simpl; tauto|].
  rewrite last_cons_cons. simpl head. tauto.
Qed.

Lemma walk_app G p q :
  walk G (p ++ q) ↔
  walk G p ∧ walk G q
  ∧ match last p, head q with
    | Some x, Some y => (x, y) ∈ eset G
    | _, _ => True
    end.
Proof.
  revert p. induction q as [|y q IH]; intros p.
  - rewrite app_nil_r. simpl. destruct (last p); tauto.
  - rewrite (assoc_L _ p [y] q : p ++ y :: q = (p ++ [y]) ++ q).
    rewrite IH, walk_snoc, last_snoc, walk_cons. simpl head.
    destruct (last p), (head q); tauto.
Qed.

Lemma walk_reverse G p :
  (∀ u v, (u, v) ∈ eset G → (v, u) ∈ eset G) →
  walk G p → walk G (reverse p).
Proof.
  intros Hsym. induction p as [|x p IH]; [done|].
  rewrite walk_cons, reverse_cons, walk_snoc, last_reverse.
  intros [H1 H2]. split; [auto|]. destruct (head p); auto.
Qed.

Lemma simple_path_reverse G k a b p :
  (∀ u v, (u, v) ∈ eset G → (v, u) ∈ eset G) →
  simple_path G k a b p → simple_path G k b a (reverse p).
Proof.
  intros Hsym (Hh & Hl & Hnd & Hw & Hlen).
  split; [by rewrite head_reverse|]. split; [by rewrite last_reverse|].
  split; [by rewrite reverse_Permutation|]. split; [by apply walk_reverse|].
  by rewrite length_reverse.
Qed.

Lemma simple_paths_from_spec G targets k visited cur p :
  head visited = Some cur →
  p ∈ nx.simple_paths_from G targets k visited cur ↔
  ∃ ext, p = reverse visited ++ ext
         ∧ ext ≠ [] ∧ (length ext ≤ k)%nat
         ∧ walk G (cur :: ext) ∧ NoDup ext
         ∧ (∀ x, x ∈ ext → x ∉ visited)
         ∧ ∃ t, last ext = Some t ∧ t ∈ targets.
Proof.
  revert visited cur. induction k as [|k IH]; intros visited cur Hcur; simpl.
  - split; [intros H; by apply not_elem_of_nil in H|].
    intros (ext & _ & Hne & Hlen & _). destruct ext; simpl in *; [done|lia].
  - rewrite list_elem_of_bind. split.
    + intros (child & Hp & Hchild). apply elem_of_neighbors in Hchild.
      destruct (decide (child ∈ visited)) as [|Hvis];
        [by apply not_elem_of_nil in Hp|].
      apply elem_of_app in Hp as [Hp|Hp].
      * destruct (decide (child ∈ targets)) as [Ht|];
          [|by apply not_elem_of_nil in Hp].
        apply list_elem_of_singleton in Hp as ->.
        exists [child]. rewrite reverse_cons. split; [done|].
        split; [done|]. split; [simpl; lia|]. split; [by simpl|].
        split; [apply NoDup_singleton|]. split.
        -- intros x Hx. by apply list_elem_of_singleton in Hx as ->.
        -- exists child. done.
      * apply IH in Hp as (ext & -> & Hne & Hlen & Hw & Hnd & Hvis' & Ht);
          [|done].
        exists (child :: ext). rewrite reverse_cons, <- app_assoc.
        split; [done|]. split; [done|]. split; [simpl; lia|].
        split; [by simpl|]. split.
        -- apply NoDup_cons. split; [|done]. intros Hin.
           apply (Hvis' _ Hin). left.
        -- split.
           ++ intros x Hx. apply elem_of_cons in Hx as [->|Hx]; [done|].
              intros Hin. apply (Hvis' _ Hx). by right.
           ++ destruct ext as [|y ext]; [done|]. by rewrite last_cons_cons.
    + intros (ext & -> & Hne & Hlen & Hw & Hnd & Hvis & t & Hlast & Ht).
      destruct ext as [|child ext]; [done|].
      simpl in Hw. destruct Hw as [Hedge Hw].
      exists child. split; [|by apply elem_of_neighbors].
      rewrite decide_False by (apply Hvis; left).
      apply elem_of_app. apply NoDup_cons in Hnd as [Hchild Hnd].
      destruct ext as [|y ext].
      * left. simpl in Hlast. injection Hlast as ->.
        rewrite decide_True by done. rewrite reverse_cons.
        apply list_elem_of_singleton. done.
      * right. apply IH; [done|].
        exists (y :: ext). rewrite reverse_cons, <- app_assoc.
        split; [done|]. split; [done|]. split; [simpl in *; lia|].
        split; [done|]. split; [done|]. split.
        -- intros x Hx Hin. apply elem_of_cons in Hin as [->|Hin]; [done|].
           apply (Hvis x); [by right|done].
        -- exists t. by rewrite last_cons_cons in Hlast.
Qed.

Lemma all_simple_paths_spec G a targets k p b :
  a ∉ targets →
  (p ∈ nx.all_simple_paths G a targets k ∧ last p = Some b) ↔
  (simple_path G k a b p ∧ b ∈ targets).
Proof.
  intros Ha. unfold nx.all_simple_paths. rewrite decide_False by done.
  rewrite simple_paths_from_spec by done. simpl. split.
  - intros [(ext & -> & Hne & Hlen & Hw & Hnd & Hvis & t & Hlast & Ht) Hb].
    destruct ext as [|x ext]; [done|].
    assert (t = b) as ->.
    { change ([a] ++ x :: ext) with (a :: x :: ext) in Hb.
      rewrite last_cons_cons in Hb. congruence. }
    split; [|done]. split; [done|]. split; [done|]. split.
    + change (NoDup (a :: x :: ext)). apply NoDup_cons. split; [|done].
      intros Hin. apply (Hvis a Hin). left.
    + split; [done|]. simpl in *. lia.
  - intros [(Hh & Hl & Hnd & Hw & Hlen) Hb].
    destruct p as [|a' ext]; [done|]. simpl in Hh. injection Hh as ->.
    split; [|done]. exists ext.
    apply NoDup_cons in Hnd as [Ha' Hnd].
    destruct ext as [|x ext]; [simpl in Hlen; lia|].
    split; [done|]. split; [done|]. split; [simpl in *; lia|].
    split; [done|]. split; [done|]. split.
    + intros y Hy Hin. apply list_elem_of_singleton in Hin as ->. done.
    + exists b. rewrite last_cons_cons in Hl. done.
Qed.

Lemma NoDup_neighbors G n : NoDup (nx.neighbors G n).
Proof.
  unfold nx.neighbors.
  pose proof (NoDup_fst_map_to_list (_adj G)) as Hnd.
  induction (map_to_list (_adj G)) as [|[[u v] e] l IH]; [constructor|].
  simpl in Hnd. apply NoDup_cons in Hnd as [Hk Hnd]. simpl.
  destruct (decide (u = n)) as [->|]; [|by apply IH].
  apply NoDup_cons. split; [|by apply IH].
  intros Hin. apply list_elem_of_omap in Hin as ([[u' v'] e'] & Hin & Hsel).
  cbn [fst snd] in Hsel. destruct (decide (u' = n)) as [->|]; [|done].
  injection Hsel as ->. apply Hk. apply list_elem_of_fmap.
  by exists (n, v, e').
Qed.

Lemma simple_paths_from_NoDup G targets k visited cur :
  head visited = Some cur →
  NoDup (nx.simple_paths_from G targets k visited cur).
Proof.
  revert visited cur. induction k as [|k IH]; intros visited cur Hcur; simpl;
    [constructor|].
  apply NoDup_bind; [| |apply NoDup_neighbors].
  - intros c1 c2 p _ _ Hp1 Hp2.
    assert (Hpre : ∀ c, p ∈ (if decide (c ∈ visited) then []
         else (if decide (c ∈ targets) then [reverse (c :: visited)] else [])
              ++ nx.simple_paths_from G targets k (c :: visited) c) →
       ∃ ext, p = reverse visited ++ c :: ext).
    { intros c Hp. destruct (decide (c ∈ visited));
        [by apply not_elem_of_nil in Hp|].
      apply elem_of_app in Hp as [Hp|Hp].
      - destruct (decide (c ∈ targets)); [|by apply not_elem_of_nil in Hp].
        apply list_elem_of_singleton in Hp as ->. exists [].
        by rewrite reverse_cons.
      - apply simple_paths_from_spec in Hp as (ext & -> & _); [|done].
        exists ext. by rewrite reverse_cons, <- app_assoc. }
    destruct (Hpre c1 Hp1) as [e1 H1]. destruct (Hpre c2 Hp2) as [e2 H2].
    rewrite H1 in H2. apply app_inv_head in H2. congruence.
  - intros c _. destruct (decide (c ∈ visited)); [constructor|].
    apply NoDup_app. split; [|split; [|by apply IH]].
    + destruct (decide (c ∈ targets)); [apply NoDup_singleton|constructor].
    + intros p Hp Hp'.
      destruct (decide (c ∈ targets)); [|by apply not_elem_of_nil in Hp].
      apply list_elem_of_singleton in Hp as ->.
      apply simple_paths_from_spec in Hp' as (ext & Heq & Hne & _); [|done].
      apply (f_equal length) in Heq. rewrite length_app in Heq.
      destruct ext; [done|]. simpl in Heq. lia.
Qed.

Lemma all_simple_paths_NoDup G a targets k :
  NoDup (nx.all_simple_paths G a targets k).
Proof.
  unfold nx.all_simple_paths. destruct (decide _); [constructor|].
  by apply simple_paths_from_NoDup.
Qed.

(** The paths to [b] among the paths from [a] to several targets are the
    simple paths from [a] to [b], in some order. *)
Lemma paths_to_one_target G k a b targets :
  a ∉ targets → b ∈ targets → a ≠ b →
  filter (λ p, last p = Some b) (nx.all_simple_paths G a targets k)
  ≡ₚ nx.all_simple_paths G a [b] k.
Proof.
  intros Ha Hb Hab. apply NoDup_Permutation.
  - apply NoDup_filter, all_simple_paths_NoDup.
  - apply all_simple_paths_NoDup.
  - intros p. rewrite list_elem_of_filter.
    assert (Ha' : a ∉ [b]).
    { intros H. by apply list_elem_of_singleton in H. }
    split.
    + intros [Hl Hp].
      destruct (proj1 (all_simple_paths_spec G a targets k p b Ha)) as [Hs _];
        [done|].
      apply (all_simple_paths_spec G a [b] k p b Ha'). split; [done|left].
    + intros Hp.
      assert (Hl : last p = Some b).
      { unfold nx.all_simple_paths in Hp. rewrite decide_False in Hp by done.
        apply simple_paths_from_spec in Hp
          as (ext & -> & Hne & _ & _ & _ & _ & t & Hl & Ht); [|done].
        apply list_elem_of_singleton in Ht as ->.
        destruct ext as [|x ext]; [done|].
        change (reverse [a] ++ x :: ext) with (a :: x :: ext).
        by rewrite last_cons_cons. }
      split; [done|].
      destruct (proj1 (all_simple_paths_spec G a [b] k p b Ha')) as [Hs _];
        [done|].
      by apply (all_simple_paths_spec G a targets k p b Ha).
Qed.

(** The simple paths from [b] to [a] are the simple paths from [a] to [b]
    read backwards. *)
Lemma simple_paths_symmetric G k a b :
  (∀ u v, (u, v) ∈ eset G → (v, u) ∈ eset G) → a ≠ b →
  reverse <$> nx.all_simple_paths G a [b] k ≡ₚ nx.all_simple_paths G b [a] k.
Proof.
  intros Hsym Hab. apply NoDup_Permutation.
  - apply (NoDup_fmap_2 reverse), all_simple_paths_NoDup.
  - apply all_simple_paths_NoDup.
  - assert (Hspec : ∀ x y p, x ≠ y →
      p ∈ nx.all_simple_paths G x [y] k ↔ simple_path G k x y p).
    { intros x y p Hxy.
      assert (Hx : x ∉ [y]).
      { intros H. by apply list_elem_of_singleton in H. }
      split.
      - intros Hp.
        assert (Hl : last p = Some y).
        { unfold nx.all_simple_paths in Hp.
          rewrite decide_False in Hp by done.
          apply simple_paths_from_spec in Hp
            as (ext & -> & Hne & _ & _ & _ & _ & t & Hl & Ht); [|done].
          apply list_elem_of_singleton in Ht as ->.
          destruct ext as [|z ext]; [done|].
          change (reverse [x] ++ z :: ext) with (x :: z :: ext).
          by rewrite last_cons_cons. }
        by destruct (proj1 (all_simple_paths_spec G x [y] k p y Hx)).
      - intros Hp. pose proof Hp as (_ & Hl & _).
        apply (all_simple_paths_spec G x [y] k p y Hx). split; [done|left]. }
    intros q. rewrite list_elem_of_fmap. split.
    + intros (p & -> & Hp). apply Hspec; [done|].
      apply simple_path_reverse; [done|]. by apply Hspec.
    + intros Hq. exists (reverse q). split; [by rewrite reverse_involutive|].
      apply Hspec; [done|]. apply simple_path_reverse; [done|].
      apply Hspec; [congruence|done].
Qed.

Lemma simple_path_lengths_symmetric G k a b :
  (∀ u v, (u, v) ∈ eset G → (v, u) ∈ eset G) → a ≠ b →
  simple_path_lengths G k a b ≡ₚ simple_path_lengths G k b a.
Proof.
  intros Hsym Hab. unfold simple_path_lengths.
  rewrite <- (simple_paths_symmetric G k a b Hsym Hab).
  rewrite <- list_fmap_compose.
  erewrite list_fmap_ext; [reflexivity|].
  intros i p _. simpl. by rewrite length_reverse.
Qed.

Lemma sum_reciprocals_Permutation l1 l2 :
  l1 ≡ₚ l2 → (sum_reciprocals l1 == sum_reciprocals l2)%Q.
Proof.
  induction 1 as [|x l1 l2 H IH|x y l|l1 l2 l3 H1 IH1 H2 IH2]; simpl.
  - reflexivity.
  - by rewrite IH.
  - ring.
  - by rewrite IH1.
Qed.

Lemma simple_path_lengths_positive G k a b d :
  d ∈ simple_path_lengths G k a b → (1 ≤ d)%nat.
Proof.
  unfold simple_path_lengths. rewrite list_elem_of_fmap.
  intros (p & -> & Hp). unfold nx.all_simple_paths in Hp.
  destruct (decide _); [by apply not_elem_of_nil in Hp|].
  apply simple_paths_from_spec in Hp as (ext & -> & Hne & _); [|done].
  rewrite length_app. destruct ext; [done|]. simpl. lia.
Qed.

Lemma sum_reciprocals_positive l :
  l ≠ [] → (∀ d, d ∈ l → (1 ≤ d)%nat) → (0 < sum_reciprocals l)%Q.
Proof.
  assert (Hnn : ∀ l', (∀ d, d ∈ l' → (1 ≤ d)%nat) →
            (0 <= sum_reciprocals l')%Q).
  { induction l' as [|d l' IH]; intros Hd; simpl; [apply Qle_refl|].
    assert (0 <= 1 / inject_Z (Z.of_nat d))%Q.
    { assert (1 ≤ d)%nat by (apply Hd; left).
      apply (Qdiv_inject_nonneg 1 (Z.of_nat d)); lia. }
    assert (0 <= sum_reciprocals l')%Q.
    { apply IH. intros d' Hd'. apply Hd. by right. }
    replace 0%Q with (0 + 0)%Q by reflexivity. by apply Qplus_le_compat. }
  destruct l as [|d l]; [done|]. intros _ Hd. simpl.
  assert (H1 : (0 < 1 / inject_Z (Z.of_nat d))%Q).
  { assert (1 ≤ d)%nat by (apply Hd; left).
    destruct d as [|d]; [lia|].
    unfold Qlt, Qdiv, Qmult, Qinv, inject_Z; simpl. lia. }
  assert (H2 : (0 <= sum_reciprocals l)%Q).
  { apply Hnn. intros d' Hd'. apply Hd. by right. }
  replace 0%Q with (0 + 0)%Q by reflexivity.
  by apply Qplus_lt_le_compat.
Qed.

(** ** The developer graph *)

Section alist_lookup.

Context `{EqDecision K} {V : Type}.

Lemma alist_get_None (d : list (K * V)) k :
  alist_get k d = None ↔ k ∉ d.*1.
Proof.
  induction d as [|[k' v] d IH]; simpl.
  - split; [intros _; apply not_elem_of_nil|done].
  - rewrite not_elem_of_cons. destruct (decide (k = k')) as [->|].
    + split; [done|]. by intros [? _].
    + rewrite IH. tauto.
Qed.

Lemma alist_get_app (d1 d2 : list (K * V)) k :
  alist_get k (d1 ++ d2)
  = match alist_get k d1 with Some v => Some v | None => alist_get k d2 end.
Proof.
  induction d1 as [|[k' v] d1 IH]; simpl; [done|].
  by destruct (decide (k = k')).
Qed.

Lemma alist_get_set (d : list (K * V)) k k' v :
  alist_get k (alist_set k' v d)
  = if decide (k = k') then Some v else alist_get k d.
Proof.
  induction d as [|[k0 v0] d IH]; simpl.
  - by destruct (decide (k = k')).
  - destruct (decide (k' = k0)) as [->|]; simpl.
    + by destruct (decide (k = k0)).
    + destruct (decide (k = k0)) as [->|]; [|done].
      by rewrite decide_False by congruence.
Qed.

Lemma alist_get_append (d : list (K * list V)) k k' v :
  alist_get k (alist_append k' v d)
  = if decide (k = k') then Some (default [] (alist_get k d) ++ [v])
    else alist_get k d.
Proof.
  induction d as [|[k0 vs] d IH]; simpl.
  - by destruct (decide (k = k')).
  - destruct (decide (k' = k0)) as [->|]; simpl.
    + by destruct (decide (k = k0)).
    + destruct (decide (k = k0)) as [->|].
      * by rewrite decide_False by congruence.
      * apply IH.
Qed.

End alist_lookup.

Lemma appended_app {V} (o : option (list V)) l1 l2 :
  appended (appended o l1) l2 = appended o (l1 ++ l2).
Proof.
  destruct o as [vs|], l1 as [|x l1], l2 as [|y l2]; simpl;
    rewrite ?app_nil_r, <- ?app_assoc; done.
Qed.

Lemma omap_cons_eq {A B} (f : A → option B) x l :
  omap f (x :: l)
  = match f x with Some y => y :: omap f l | None => omap f l end.
Proof. reflexivity. Qed.

Lemma inner_loop_get start paths (acc : list (string * string * list nat)) k :
  alist_get k
    (foldl (λ dev_pair2distances (path : list string),
              match last path with
              | Some end_ =>
                  alist_append (start, end_) (length path - 1)%nat
                    dev_pair2distances
              | None => dev_pair2distances
              end) acc paths)
  = appended (alist_get k acc) (omap (recorded_by start k) paths).
Proof.
  revert acc. induction paths as [|path paths IH]; intros acc; cbn [foldl].
  - destruct (alist_get k acc); simpl; by rewrite ?app_nil_r.
  - rewrite IH, omap_cons_eq. unfold recorded_by at 2.
    destruct (last path) as [e|]; [|done].
    rewrite alist_get_append.
    destruct (decide ((start, e) = k)) as [<-|Hne].
    + rewrite decide_True by done.
      destruct (alist_get (start, e) acc); simpl; by rewrite <- ?app_assoc.
    + by rewrite decide_False by congruence.
Qed.

Lemma dev_pair2distances_get G (all devs : list string)
    (acc : list (string * string * list nat)) k :
  alist_get k
    (foldl (λ dev_pair2distances start,
              let other_devs := filter (λ d, d ≠ start) all in
              let paths := nx.all_simple_paths G start other_devs 4 in
              foldl (λ dev_pair2distances (path : list string),
                       match last path with
                       | Some end_ =>
                           alist_append (start, end_) (length path - 1)%nat
                             dev_pair2distances
                       | None => dev_pair2distances
                       end)
                    dev_pair2distances paths)
           acc devs)
  = appended (alist_get k acc)
      (devs ≫= λ start,
         omap (recorded_by start k)
           (nx.all_simple_paths G start (filter (λ d, d ≠ start) all) 4)).
Proof.
  revert acc. induction devs as [|start devs IH]; intros acc; simpl.
  - destruct (alist_get k acc); simpl; by rewrite ?app_nil_r.
  - rewrite IH, inner_loop_get, appended_app. done.
Qed.

Lemma recorded_by_other start s e (paths : list (list string)) :
  start ≠ s → omap (recorded_by start (s, e)) paths = [].
Proof.
  intros Hne. induction paths as [|p paths IH]; [done|].
  rewrite omap_cons_eq, IH.
  unfold recorded_by. destruct (last p) as [e'|]; [|done].
  by rewrite decide_False by congruence.
Qed.

Lemma recorded_by_same s e (paths : list (list string)) :
  omap (recorded_by s (s, e)) paths
  = (λ p, (length p - 1)%nat) <$> filter (λ p, last p = Some e) paths.
Proof.
  induction paths as [|p paths IH]; [done|].
  rewrite omap_cons_eq, IH, filter_cons. unfold recorded_by.
  destruct (last p) as [e'|].
  - destruct (decide ((s, e') = (s, e))) as [Heq|Hne].
    + injection Heq as ->. by rewrite decide_True by done.
    + by rewrite decide_False by congruence.
  - by rewrite decide_False by done.
Qed.

Lemma bind_single (devs : list string) (s : string) (f : string → list nat) :
  NoDup devs → s ∈ devs → (∀ x, x ≠ s → f x = []) → devs ≫= f = f s.
Proof.
  intros Hnd Hs Hf. induction Hnd as [|x devs Hx Hnd IH]; csimpl.
  - by apply not_elem_of_nil in Hs.
  - apply elem_of_cons in Hs as [->|Hs].
    + assert (devs ≫= f = []) as ->; [|by rewrite app_nil_r].
      clear IH. induction devs as [|y devs IHd]; csimpl; [done|].
      apply not_elem_of_cons in Hx as [Hne Hx].
      apply NoDup_cons in Hnd as [_ Hnd].
      rewrite Hf by done. by rewrite IHd.
    + rewrite Hf; [by rewrite IH|]. intros ->. done.
Qed.

(** Under the key [(s, e)] are recorded the lengths of the simple paths from
    [s] to [e] with at most 4 edges, in some order. *)
Lemma dev_pair2distances_of_get G devs s e :
  NoDup devs → s ∈ devs → e ∈ devs → s ≠ e →
  ∃ recorded,
    alist_get (s, e) (dev_pair2distances_of G devs) = appended None recorded
    ∧ recorded ≡ₚ simple_path_lengths G 4 s e.
Proof.
  intros Hnd Hs He Hse. unfold dev_pair2distances_of.
  rewrite dev_pair2distances_get. simpl alist_get.
  rewrite (bind_single devs s); [|done|done|]; cycle 1.
  { intros x Hx. by apply recorded_by_other. }
  eexists. split; [reflexivity|].
  rewrite recorded_by_same. unfold simple_path_lengths.
  apply fmap_Permutation, paths_to_one_target; [|by apply list_elem_of_filter|done].
  rewrite list_elem_of_filter. by intros [? _].
Qed.

Lemma combinations2_spec devs x y :
  NoDup devs →
  (x, y) ∈ combinations2 devs → x ∈ devs ∧ y ∈ devs ∧ x ≠ y
  ∧ (y, x) ∉ combinations2 devs.
Proof.
  assert (Hin : ∀ l a b, (a, b) ∈ combinations2 l → a ∈ l ∧ b ∈ l).
  { induction l as [|z l IH]; intros a b; simpl.
    - intros H. by apply not_elem_of_nil in H.
    - rewrite elem_of_app, list_elem_of_fmap.
      intros [(w & [= -> ->] & Hw)|H].
      + split; [left|by right].
      + destruct (IH a b H). split; by right. }
  intros Hnd. induction Hnd as [|z devs Hz Hnd IH]; simpl.
  - intros H. by apply not_elem_of_nil in H.
  - rewrite !elem_of_app, !list_elem_of_fmap.
    intros [(w & [= -> ->] & Hw)|H].
    + split; [left|]. split; [by right|]. split; [congruence|].
      intros [(w' & [= -> ->] & Hw')|H']; [done|].
      by destruct (Hin _ _ _ H').
    + destruct (IH H) as (Hx & Hy & Hxy & Hflip).
      split; [by right|]. split; [by right|]. split; [done|].
      intros [(w' & Heq & Hw')|H']; [|done].
      injection Heq as -> ->. done.
Qed.

Lemma combinations2_total devs a b :
  a ∈ devs → b ∈ devs → a ≠ b →
  (a, b) ∈ combinations2 devs ∨ (b, a) ∈ combinations2 devs.
Proof.
  induction devs as [|z devs IH]; intros Ha Hb Hab; simpl.
  - by apply not_elem_of_nil in Ha.
  - rewrite !elem_of_app, !list_elem_of_fmap.
    apply elem_of_cons in Ha as [->|Ha], Hb as [->|Hb]; try done.
    + left. left. eauto.
    + right. left. eauto.
    + destruct (IH Ha Hb Hab); tauto.
Qed.

Lemma dev_pair2rsrd_get d2d (pairs : list (string * string))
    (acc : list (string * string * Q)) k :
  alist_get k
    (foldl (λ dev_pair2rsrd (dev_pair : string * string),
              match alist_get dev_pair d2d with
              | Some distances =>
                  let srd := sum_reciprocals distances in
                  if Qeq_bool srd 0 then dev_pair2rsrd
                  else alist_set dev_pair (1 / srd)%Q dev_pair2rsrd
              | None => dev_pair2rsrd
              end) acc pairs)
  = match (if decide (k ∈ pairs) then rsrd_of d2d k else None) with
    | Some v => Some v
    | None => alist_get k acc
    end.
Proof.
  revert acc. induction pairs as [|p pairs IH]; intros acc; cbn [foldl].
  - destruct (decide (k ∈ [])) as [Hin|_]; [|done].
    by apply not_elem_of_nil in Hin.
  - rewrite IH. clear IH. cbv beta.
    assert (Hstep :
      alist_get k
        match alist_get p d2d with
        | Some distances =>
            let srd := sum_reciprocals distances in
            if Qeq_bool srd 0 then acc
            else alist_set p (1 / srd)%Q acc
        | None => acc
        end
      = match (if decide (k = p) then rsrd_of d2d k else None) with
        | Some v => Some v
        | None => alist_get k acc
        end).
    { unfold rsrd_of. destruct (decide (k = p)) as [->|Hne].
      - destruct (alist_get p d2d); [|done]. cbv zeta.
        destruct (Qeq_bool _ _); [done|].
        rewrite alist_get_set. by rewrite decide_True.
      - destruct (alist_get p d2d); [|done]. cbv zeta.
        destruct (Qeq_bool _ _); [done|].
        rewrite alist_get_set. by rewrite decide_False. }
    cbv zeta in Hstep. rewrite Hstep. clear Hstep.
    destruct (decide (k ∈ pairs)) as [Hin|Hnin].
    + destruct (decide (k ∈ p :: pairs)) as [_|Hn]; [|by destruct Hn; right].
      destruct (rsrd_of d2d k) as [v|] eqn:Ek; [done|].
      by destruct (decide (k = p)).
    + destruct (decide (k = p)) as [->|Hne].
      * destruct (decide (p ∈ p :: pairs)) as [_|Hn]; [done|].
        destruct Hn; left.
      * destruct (decide (k ∈ p :: pairs)) as [Hin|_]; [|done].
        apply elem_of_cons in Hin as [?|?]; done.
Qed.

Lemma dev_pair2rsrd_of_get d2d devs k :
  alist_get k (dev_pair2rsrd_of d2d devs)
  = if decide (k ∈ combinations2 devs) then rsrd_of d2d k else None.
Proof.
  unfold dev_pair2rsrd_of. rewrite dev_pair2rsrd_get.
  destruct (decide _); [|done]. by destruct (rsrd_of d2d k).
Qed.

Lemma alist_set_keys `{EqDecision K} {V} (d : list (K * V)) k v :
  NoDup d.*1 → NoDup (alist_set k v d).*1
  ∧ ∀ x, x ∈ (alist_set k v d).*1 → x = k ∨ x ∈ d.*1.
Proof.
  induction d as [|[k' v'] d IH]; intros Hnd; simpl.
  - split; [apply NoDup_singleton|]. intros x Hx.
    apply list_elem_of_singleton in Hx. by left.
  - simpl in Hnd. apply NoDup_cons in Hnd as [Hk Hnd].
    destruct (decide (k = k')) as [->|Hne]; simpl.
    + split; [by apply NoDup_cons|]. intros x Hx. by right.
    + destruct (IH Hnd) as [IH1 IH2]. split.
      * apply NoDup_cons. split; [|done].
        intros Hin. apply IH2 in Hin as [?|?]; done.
      * intros x Hx. apply elem_of_cons in Hx as [->|Hx]; [right; left|].
        apply IH2 in Hx as [?|?]; [by left|right; by right].
Qed.

Lemma dev_pair2rsrd_of_NoDup d2d devs : NoDup (dev_pair2rsrd_of d2d devs).*1.
Proof.
  unfold dev_pair2rsrd_of.
  assert (Hnil : NoDup (([] : list (string * string * Q)).*1))
    by constructor.
  revert Hnil. generalize ([] : list (string * string * Q)).
  induction (combinations2 devs) as [|p pairs IH]; intros acc Hacc;
    cbn [foldl]; [done|].
  apply IH. destruct (alist_get p d2d); [|done]. cbv zeta.
  destruct (Qeq_bool _ _); [done|]. by apply alist_set_keys.
Qed.

Lemma alist_get_filter_NoDup `{EqDecision K} {V} (P : K * V → Prop)
    `{!∀ p, Decision (P p)} (d : list (K * V)) k :
  NoDup d.*1 →
  alist_get k (filter P d)
  = match alist_get k d with
    | Some v => if decide (P (k, v)) then Some v else None
    | None => None
    end.
Proof.
  induction d as [|[k' v] d IH]; intros Hnd; [done|].
  simpl in Hnd. apply NoDup_cons in Hnd as [Hk Hnd].
  rewrite filter_cons. cbn [alist_get].
  destruct (decide (k = k')) as [->|Hne].
  - destruct (decide (P (k', v))); cbn [alist_get].
    + by rewrite decide_True.
    + apply alist_get_None. intros Hin. apply Hk.
      apply list_elem_of_fmap in Hin as (y & -> & Hy).
      apply list_elem_of_filter in Hy as [_ Hy].
      apply list_elem_of_fmap. eauto.
  - destruct (decide (P (k', v))); cbn [alist_get].
    + rewrite decide_False by done. by apply IH.
    + by apply IH.
Qed.

Lemma filter_keys_NoDup {K V} (P : K * V → Prop) `{!∀ p, Decision (P p)}
    (d : list (K * V)) :
  NoDup d.*1 → NoDup (filter P d).*1.
Proof.
  intros Hnd. eapply sublist_NoDup; [done|].
  apply fmap_sublist, sublist_filter.
Qed.

(** The weight of an edge of the developer graph, looked up in either
    orientation, is the value stored for the pair in the edge list. *)
Lemma devG_of_lookup (l : list (string * string * Q)) a b :
  NoDup l.*1 → (∀ x y, (x, y) ∈ l.*1 → (y, x) ∉ l.*1) →
  dg_adj (devG_of l) !! (a, b)
  = match alist_get (a, b) l with
    | Some q => Some q
    | None => alist_get (b, a) l
    end.
Proof.
  unfold devG_of. induction l as [|[[x y] v] l IH] using rev_ind;
    intros Hnd Hflip.
  - done.
  - rewrite foldl_app. cbn [foldl dg_adj fst snd].
    rewrite fmap_app in Hnd. apply NoDup_app in Hnd as (Hnd & Hxy & _).
    assert (Hxl : (x, y) ∉ l.*1).
    { intros Hin. apply (Hxy _ Hin). simpl. left. }
    assert (Hyl : (y, x) ∉ l.*1).
    { intros Hin. apply (Hflip y x).
      - rewrite fmap_app, elem_of_app. by left.
      - rewrite fmap_app, elem_of_app. right. simpl. left. }
    assert (Hne : x ≠ y).
    { intros ->. apply (Hflip y y); rewrite fmap_app, elem_of_app;
        right; simpl; left. }
    rewrite !alist_get_app. cbn [alist_get].
    destruct (decide ((a, b) = (y, x))) as [Heq|Hn1].
    + injection Heq as -> ->. rewrite lookup_insert_eq.
      apply alist_get_None in Hxl, Hyl. rewrite Hxl, Hyl.
      rewrite decide_False by congruence. by rewrite decide_True.
    + rewrite lookup_insert_ne by congruence.
      destruct (decide ((a, b) = (x, y))) as [Heq|Hn2].
      * injection Heq as -> ->. rewrite lookup_insert_eq.
        apply alist_get_None in Hxl. by rewrite Hxl.
      * rewrite lookup_insert_ne by congruence.
        rewrite (decide_False (P := (b, a) = (x, y))) by congruence.
        rewrite IH; [|done|].
        -- destruct (alist_get (a, b) l); [done|].
           by destruct (alist_get (b, a) l).
        -- intros x' y' Hin Hin'. apply (Hflip x' y');
             rewrite fmap_app, elem_of_app; by left.
Qed.

Lemma NoDup_filter_nodes_by_kind kind G : NoDup (_filter_nodes_by_kind kind G).
Proof.
  unfold _filter_nodes_by_kind, nx.nodes_data_kind.
  pose proof (NoDup_fst_map_to_list (_node G)) as Hnd.
  induction (map_to_list (_node G)) as [|[n a] l IH]; [constructor|].
  simpl in Hnd. apply NoDup_cons in Hnd as [Hk Hnd].
  rewrite omap_cons_eq. cbn [fst snd].
  destruct (decide (a = Some kind)); [|by apply IH].
  apply NoDup_cons. split; [|by apply IH].
  rewrite list_elem_of_omap. intros ([m a'] & Hin & H). cbn [fst snd] in H.
  destruct (decide (a' = Some kind)); [|done]. injection H as ->.
  apply Hk, list_elem_of_fmap. by exists (n, a').
Qed.

Lemma rsrd_distance_sym G a b :
  (∀ u v, (u, v) ∈ eset G → (v, u) ∈ eset G) → a ≠ b →
  option_Qeq (rsrd_distance G a b) (rsrd_distance G b a).
Proof.
  intros Hsym Hab. unfold rsrd_distance.
  pose proof (simple_path_lengths_symmetric G 4 a b Hsym Hab) as Hp.
  destruct (simple_path_lengths G 4 a b) as [|d l].
  - apply Permutation.Permutation_nil in Hp. by rewrite Hp.
  - destruct (simple_path_lengths G 4 b a) as [|d' l'].
    + by apply Permutation_nil_r in Hp.
    + simpl. by rewrite (sum_reciprocals_Permutation _ _ Hp).
Qed.

Lemma option_Qeq_trans o1 o2 o3 :
  option_Qeq o1 o2 → option_Qeq o2 o3 → option_Qeq o1 o3.
Proof.
  destruct o1, o2, o3; simpl; try done. intros -> ->. reflexivity.
Qed.

Lemma rsrd_of_distance G devs s e :
  NoDup devs → s ∈ devs → e ∈ devs → s ≠ e →
  option_Qeq (rsrd_of (dev_pair2distances_of G devs) (s, e))
             (rsrd_distance G s e)
  ∧ ∀ q, rsrd_of (dev_pair2distances_of G devs) (s, e) = Some q →
         Qle_bool q 0 = false.
Proof.
  intros Hnd Hs He Hse.
  destruct (dev_pair2distances_of_get G devs s e Hnd Hs He Hse)
    as (recorded & Hget & Hperm).
  unfold rsrd_of, rsrd_distance. rewrite Hget. clear Hget.
  pose proof (simple_path_lengths_positive G 4 s e) as Hpos.
  destruct recorded as [|d l].
  - apply Permutation.Permutation_nil in Hperm. rewrite Hperm. simpl. done.
  - destruct (simple_path_lengths G 4 s e) as [|d' l'] eqn:El.
    { by apply Permutation_nil_r in Hperm. }
    cbn [appended default app].
    assert (Hsum : (0 < sum_reciprocals (d :: l))%Q).
    { apply sum_reciprocals_positive; [done|].
      intros x Hx. apply Hpos. by rewrite <- Hperm. }
    destruct (Qeq_bool (sum_reciprocals (d :: l)) 0) eqn:Eq.
    { apply Qeq_bool_iff in Eq. rewrite Eq in Hsum.
      by apply Qlt_irrefl in Hsum. }
    split.
    + simpl. by rewrite (sum_reciprocals_Permutation _ _ Hperm).
    + intros q [= <-]. destruct (Qle_bool _ 0) eqn:Ele; [|done].
      apply Qle_bool_iff in Ele.
      assert (0 < 1 / sum_reciprocals (d :: l))%Q.
      { unfold Qdiv. rewrite Qmult_1_l. by apply Qinv_lt_0_compat. }
      exfalso. eapply Qlt_irrefl, Qlt_le_trans; eauto.
Qed.

Lemma fresh_devG_lookup self a b :
  good (_G self) →
  a ∈ get_developers self → b ∈ get_developers self → a ≠ b →
  option_Qeq (dg_adj (fresh_devG self) !! (a, b))
             (rsrd_distance (_G self) a b).
Proof.
  intros HG Ha Hb Hab. unfold fresh_devG, _calculate_rsrd_distances.
  cbv zeta. set (devs := get_developers self) in *.
  set (d2d := dev_pair2distances_of (_G self) devs).
  assert (Hnd : NoDup devs) by apply NoDup_filter_nodes_by_kind.
  assert (Hsym : ∀ u v, (u, v) ∈ eset (_G self) → (v, u) ∈ eset (_G self)).
  { intros u v. by apply good_sym_set. }
  assert (Hkeys : ∀ k,
    k ∈ (filter (λ e : string * string * Q, Qle_bool e.2 0 = false)
           (dev_pair2rsrd_of d2d devs)).*1 → k ∈ combinations2 devs).
  { intros k Hk. apply list_elem_of_fmap in Hk as ([k' q] & -> & Hk).
    apply list_elem_of_filter in Hk as [_ Hk]. cbn [fst].
    destruct (decide (k' ∈ combinations2 devs)) as [|Hn]; [done|].
    assert (alist_get k' (dev_pair2rsrd_of d2d devs) = None) as Hnone.
    { rewrite dev_pair2rsrd_of_get. by rewrite decide_False. }
    apply alist_get_None in Hnone. destruct Hnone.
    apply list_elem_of_fmap. by exists (k', q). }
  rewrite devG_of_lookup; cycle 1.
  { apply filter_keys_NoDup, dev_pair2rsrd_of_NoDup. }
  { intros x y Hin Hin'. apply Hkeys in Hin, Hin'.
    by destruct (combinations2_spec devs x y Hnd Hin) as (_ & _ & _ & ?). }
  rewrite !alist_get_filter_NoDup by apply dev_pair2rsrd_of_NoDup.
  rewrite !dev_pair2rsrd_of_get. cbn [snd].
  assert (Hone : ∀ s e, s ∈ devs → e ∈ devs → s ≠ e →
    (s, e) ∈ combinations2 devs →
    option_Qeq
      match
        match rsrd_of d2d (s, e) with
        | Some v => if decide (Qle_bool v 0 = false) then Some v else None
        | None => None
        end
      with
      | Some q => Some q
      | None => None
      end
      (rsrd_distance (_G self) s e)).
  { intros s e Hs He Hse Hin.
    destruct (rsrd_of_distance (_G self) devs s e Hnd Hs He Hse)
      as [Heq Hpos]. fold d2d in Heq, Hpos.
    destruct (rsrd_of d2d (s, e)) as [q|]; [|done].
    by rewrite decide_True by by apply Hpos. }
  destruct (combinations2_total devs a b Ha Hb Hab) as [Hin|Hin].
  - destruct (combinations2_spec devs a b Hnd Hin) as (_ & _ & _ & Hflip).
    rewrite (decide_True (P := (a, b) ∈ _)) by done.
    rewrite (decide_False (P := (b, a) ∈ _)) by done.
    by apply Hone.
  - destruct (combinations2_spec devs b a Hnd Hin) as (_ & _ & _ & Hflip).
    rewrite (decide_False (P := (a, b) ∈ _)) by done.
    rewrite (decide_True (P := (b, a) ∈ _)) by done.
    eapply option_Qeq_trans; [|apply rsrd_distance_sym; [done|]; by apply not_eq_sym].
    specialize (Hone b a Hb Ha (not_eq_sym Hab) Hin).
    destruct (rsrd_of d2d (b, a)) as [v|]; [|done].
    by destruct (decide (Qle_bool v 0 = false)).
Qed.


(** * The statements on sample histories *)

Lemma separate_names_Forall (all : list ChangeSet) :
  NoDup (map commit_hash all) →
  Forall (λ cs, Forall (λ cs',
     commit_hash cs ≠ author cs'
     ∧ (commit_hash cs ∉ issues cs')
     ∧ Forall (λ cc, file_path cc ≠ commit_hash cs
                     ∧ old_file_path cc ≠ Some (commit_hash cs))
              (code_changes cs')) all) all →
  separate_names all.
Proof.
  intros Hnd Hall. split; [done|]. intros cs cs' Hcs Hcs'.
  rewrite Forall_forall in Hall. specialize (Hall cs Hcs).
  rewrite Forall_forall in Hall. destruct (Hall cs' Hcs') as (H1 & H2 & H3).
  split; [done|]. split; [done|]. by rewrite Forall_forall in H3.
Qed.

(** One RENAME whose new path is no node of the graph merges nothing. *)
Lemma single_rename_injective (old new : string) (G : Graph) :
  new ∉ nset G →
  ∀ x y, x ∈ nset G → y ∈ nset G →
    nx.relabel {[old := new]} x = nx.relabel {[old := new]} y → x = y.
Proof.
  intros Hnew x y Hx Hy. unfold nx.relabel.
  destruct (decide (old = x)) as [<-|Hxo], (decide (old = y)) as [<-|Hyo].
  - done.
  - rewrite lookup_singleton_eq, lookup_singleton_ne by done. simpl.
    intros ->. done.
  - rewrite lookup_singleton_ne, lookup_singleton_eq by done. simpl.
    intros ->. done.
  - by rewrite !lookup_singleton_ne by done.
Qed.

(** C1 on the sample: after two days forward the graph is the graph rebuilt
    from the change sets of days 2 to 5. *)
Lemma incremental_graph_equals_rebuild_witness :
  nset (_G sample_history_later) = nset (rebuild sample_history_later)
  ∧ eset (_G sample_history_later) = eset (rebuild sample_history_later).
Proof.
  apply (incremental_graph_equals_rebuild sample_dataset 4 10 50 (1 # 100)
           sample_history sample_history_later 2).
  - vm_compute. reflexivity.
  - apply separate_names_Forall; apply (bool_decide_unpack _);
      vm_compute; exact I.
  - vm_compute. reflexivity.
Defined.

(** C1, counterexample. When the change sets of day 0 and of day 1 have the
    same commit hash, removing day 0 removes the node of both, and with it
    the developer d2 and the file F1 of day 1, which the graph rebuilt from
    days 1 and 2 has. When the commit hash of day 0 is the name of the
    author of day 1, removing day 0 removes that developer. *)
Lemma shared_commit_hash_breaks_rebuild :
  (HistoryGraph_init repeated_hash_dataset 2 10 50 (1 # 100)
   = Ok repeated_hash_history
   ∧ forward_graph_one_day repeated_hash_history
     = (Ok true, repeated_hash_history_later)
   ∧ "F1" ∈ nset (rebuild repeated_hash_history_later)
   ∧ "F1" ∉ nset (_G repeated_hash_history_later)
   ∧ nset (_G repeated_hash_history_later)
     ≠ nset (rebuild repeated_hash_history_later))
  ∧ (HistoryGraph_init hash_of_author_dataset 2 10 50 (1 # 100)
     = Ok hash_of_author_history
     ∧ forward_graph_one_day hash_of_author_history
       = (Ok true, hash_of_author_history_later)
     ∧ "d2" ∈ nset (rebuild hash_of_author_history_later)
     ∧ "d2" ∉ nset (_G hash_of_author_history_later)
     ∧ nset (_G hash_of_author_history_later)
       ≠ nset (rebuild hash_of_author_history_later)).
Proof.
  split.
  - split; [vm_compute; reflexivity|]. split; [vm_compute; reflexivity|].
    split; [apply (bool_decide_unpack _); vm_compute; exact I|].
    split; apply (bool_decide_unpack _); vm_compute; exact I.
  - split; [vm_compute; reflexivity|]. split; [vm_compute; reflexivity|].
    split; [apply (bool_decide_unpack _); vm_compute; exact I|].
    split; apply (bool_decide_unpack _); vm_compute; exact I.
Qed.

(** C2 on the sample. *)
Lemma timeline_of_chronological_input_witness :
  ∃ tl, _generate_date_to_change_sets sample_dataset = Ok tl
        ∧ covers_every_day sample_change_sets tl.
Proof.
  apply (timeline_of_chronological_input sample_dataset sample_change_sets).
  - discriminate.
  - repeat constructor.
  - repeat constructor; by vm_compute.
Defined.

(** C3 on the sample, with a window of four days. *)
Lemma iterations_of_chronological_input_witness :
  ∃ dm win dm1,
    DataManager_init sample_dataset 4 = Ok dm
    ∧ get_initial_window dm = (Ok win, dm1)
    ∧ NoDup (dict_keys (_date_to_change_sets dm1))
    ∧ get_num_possible_iterations dm1
      = Z.of_nat (length (dict_keys (_date_to_change_sets dm1))) - 4 + 1
    ∧ advances_exactly dm1.
Proof.
  apply (iterations_of_chronological_input sample_dataset sample_change_sets 4).
  - repeat constructor.
  - repeat constructor; by vm_compute.
  - lia.
  - exists (mkChangeSet "CS0" "d1" (max_of_day (noon 0)) ["I0"]
              [mkCodeChange "F0" "ADD" None] 1),
           (mkChangeSet "CS3" "d3" (max_of_day (noon 5)) ["I2"]
              [mkCodeChange "F4" "ADD" None;
               mkCodeChange "F9" "RENAME" (Some "F0")] 5).
    split; [repeat constructor|]. split; [repeat constructor|].
    by vm_compute.
Defined.

(** C4 on the sample, the window taking all its days. *)
Lemma forward_graph_one_day_exhausted_witness :
  forward_graph_one_day exhausted_history = (Ok false, exhausted_history).
Proof.
  apply (forward_graph_one_day_exhausted exhausted_history).
  vm_compute. reflexivity.
Defined.

(** C5 on the sample: three add/modify targets with a limit of two. *)
Lemma large_change_set_adds_nothing_witness :
  let p := partition_code_changes (code_changes large_change_set) in
  let f := nx.relabel (files_rename_dict p) in
  _add_change_set large_change_set small_limit_history
  = (run _rename_nodes (files_rename_dict p) in
     _remove_nodes (files_delete p)) small_limit_history
  ∧ (∀ x,
       x ∈ nset (_G (_add_change_set large_change_set small_limit_history).2) →
       x ∉ files_delete p ∧ ∃ n, n ∈ nset (_G small_limit_history) ∧ x = f n)
  ∧ (∀ a b,
       (a, b)
         ∈ eset (_G (_add_change_set large_change_set small_limit_history).2) →
       a ∉ files_delete p ∧ b ∉ files_delete p ∧
       ∃ u v, (u, v) ∈ eset (_G small_limit_history) ∧
         ((a = f u ∧ b = f v) ∨ (a = f v ∧ b = f u))).
Proof.
  apply (large_change_set_adds_nothing large_change_set small_limit_history).
  vm_compute. reflexivity.
Defined.

(** C6 on the sample: F0 renamed to F9, which is no node of the graph. *)
Lemma rename_without_merge_in_place_witness :
  (_rename_nodes {["F0" := "F9"]} sample_history).1 = Ok tt
  ∧ relabelled_in_place (nx.relabel {["F0" := "F9"]}) (_G sample_history)
      (_G (_rename_nodes {["F0" := "F9"]} sample_history).2).
Proof.
  apply (rename_without_merge_in_place {["F0" := "F9"]} sample_history).
  - apply ready_good,
      (HistoryGraph_init_ready sample_dataset 4 10 50 (1 # 100)).
    vm_compute. reflexivity.
  - apply single_rename_injective, (bool_decide_unpack _).
    vm_compute. exact I.
Defined.

(** C6, counterexample. F0 is renamed to F1, a file of the graph: the node
    F1 has afterwards the edge to CS1 that F1 had, which the node F0 did not
    have before, so the renamed node does not keep exactly its edges. *)
Lemma rename_onto_a_node_merges :
  "F0" ∈ nset (_G sample_history)
  ∧ (_rename_nodes {["F0" := "F1"]} sample_history).1 = Ok tt
  ∧ _adj (_G sample_history) !! ("F0", "CS1") = None
  ∧ _adj (_G (_rename_nodes {["F0" := "F1"]} sample_history).2)
      !! ("F1", "CS1")
    = Some (mkEdgeAttr (Some (max_of_day (noon 2))) (Some "include"))
  ∧ ¬ relabelled_in_place (nx.relabel {["F0" := "F1"]}) (_G sample_history)
        (_G (_rename_nodes {["F0" := "F1"]} sample_history).2).
Proof.
  split; [apply (bool_decide_unpack _); vm_compute; exact I|].
  split; [vm_compute; reflexivity|].
  split; [vm_compute; reflexivity|].
  split; [vm_compute; reflexivity|].
  intros (_ & _ & H & _).
  specialize (H "F0" "CS1").
  assert (Some (mkEdgeAttr (Some (max_of_day (noon 2))) (Some "include"))
          = None) as Habs; [|discriminate].
  etransitivity; [|etransitivity; [apply H|]].
  - vm_compute. reflexivity.
  - apply (bool_decide_unpack _); vm_compute; exact I.
  - apply (bool_decide_unpack _); vm_compute; exact I.
  - vm_compute. reflexivity.
Qed.



(** C9 on the window whose only file two developers changed. *)
Lemma get_mavens_without_rare_files_witness :
  (get_mavens shared_file_history).1 = Ok [].
Proof.
  apply (get_mavens_without_rare_files shared_file_history).
  - apply (position_init shared_file_dataset 1 10 50 (1 # 100)).
    vm_compute. reflexivity.
  - vm_compute. reflexivity.
Defined.

(** C10 on the sample, whose last change set of the window counts four
    files. *)
Lemma jack_scores_bounded_witness :
  ∃ reach scores,
    (get_dev_to_reachable_files sample_history).1 = Ok reach
    ∧ scores = map (λ p : string * list string,
                      (p.1, (inject_Z (Z.of_nat (length p.2))
                             / inject_Z (get_num_files sample_history))%Q))
                   reach
    ∧ scores_loop reach (get_num_files sample_history) [] = Ok scores
    ∧ (get_jacks sample_history).1
      = Ok (_sort_and_filter sample_history scores)
    ∧ ∀ dev s, (dev, s) ∈ scores →
        (0 <= s)%Q
        ∧ (s <= inject_Z (Z.of_nat (length (get_files sample_history)))
                / inject_Z (get_num_files sample_history))%Q
        ∧ (Z.of_nat (length (get_files sample_history))
             ≤ get_num_files sample_history →
           (s <= 1)%Q).
Proof.
  apply (jack_scores_bounded sample_history).
  - apply (position_init sample_dataset 4 10 50 (1 # 100)).
    vm_compute. reflexivity.
  - vm_compute. reflexivity.
Defined.

(** C10, counterexample. When the last change set of the window deletes the
    only file of the project the number of files is 0 and [get_jacks]
    raises [ZeroDivisionError]; and when a change set modifies a file that
    the dataset never added, the graph has more files than the project is
    said to have and the score is 2. *)
Lemma jack_score_fails_or_exceeds_one :
  (HistoryGraph_init emptied_project_dataset 2 10 50 (1 # 100)
   = Ok emptied_project_history
   ∧ get_num_files emptied_project_history = 0
   ∧ (get_jacks emptied_project_history).1 = Raise ZeroDivisionError)
  ∧ (HistoryGraph_init undercounted_dataset 1 10 50 (1 # 100)
     = Ok undercounted_history
     ∧ get_num_files undercounted_history = 1
     ∧ ∃ s, (get_jacks undercounted_history).1 = Ok [("d1", s)]
            ∧ (s == 2)%Q ∧ ¬ (s <= 1)%Q).
Proof.
  split.
  - split; [vm_compute; reflexivity|]. split; vm_compute; reflexivity.
  - split; [vm_compute; reflexivity|]. split; [vm_compute; reflexivity|].
    eexists. split; [vm_compute; reflexivity|].
    split; [vm_compute; reflexivity|]. vm_compute. intros H. by apply H.
Qed.

(** * Further properties of the code *)

(** ** util.py and the loading of the dataset *)

(** X1. [max_of_day] is idempotent, stays within the day of its argument,
    identifies exactly the instants of one day, and is monotone. *)
Theorem max_of_day_end_of_day (t t' : Z) :
  max_of_day (max_of_day t) = max_of_day t
  ∧ t ≤ max_of_day t < t + usec_per_day
  ∧ (max_of_day t = max_of_day t'
     ↔ t `div` usec_per_day = t' `div` usec_per_day)
  ∧ (t ≤ t' → max_of_day t ≤ max_of_day t').
Proof.
  unfold max_of_day, usec_per_day.
  pose proof (Z.div_mod t 86400000000 ltac:(lia)) as Ht.
  pose proof (Z.div_mod t' 86400000000 ltac:(lia)) as Ht'.
  pose proof (Z.mod_pos_bound t 86400000000 ltac:(lia)) as Hb.
  pose proof (Z.mod_pos_bound t' 86400000000 ltac:(lia)) as Hb'.
  split.
  { replace (t - t `mod` 86400000000 + (86400000000 - 1))
      with (86400000000 - 1 + (t `div` 86400000000) * 86400000000) by lia.
    rewrite Z.mod_add by lia. rewrite Z.mod_small by lia. lia. }
  split; [lia|]. split; [lia|].
  intros Hle.
  assert (t `div` 86400000000 ≤ t' `div` 86400000000)
    by (apply Z.div_le_mono; lia).
  lia.
Qed.

Lemma sorted_insert_Permutation k l : sorted_insert k l ≡ₚ k :: l.
Proof.
  induction l as [|k' l IH]; simpl; [done|].
  destruct (k <=? k'); [done|]. rewrite IH. apply perm_swap.
Qed.

Lemma sorted_Permutation l : sorted l ≡ₚ l.
Proof.
  induction l as [|k l IH]; simpl; [done|].
  by rewrite sorted_insert_Permutation, IH.
Qed.

Lemma dict_get_fmap_keys {W} (f : Z → W) (l : list Z) k :
  dict_get k (map (λ k, (k, f k)) l)
  = if decide (k ∈ l) then Some (f k) else None.
Proof.
  induction l as [|k' l IH]; cbn [map dict_get].
  - destruct (decide (k ∈ [])) as [H|]; [|done].
    by apply not_elem_of_nil in H.
  - destruct (Z.eqb_spec k k') as [->|Hne].
    + destruct (decide (k' ∈ k' :: l)) as [|H]; [done|]. destruct H. left.
    + rewrite IH. destruct (decide (k ∈ l)) as [Hin|Hnin].
      * destruct (decide (k ∈ k' :: l)) as [|H]; [done|].
        destruct H. by right.
      * destruct (decide (k ∈ k' :: l)) as [H|]; [|done].
        apply elem_of_cons in H as [?|?]; done.
Qed.

Lemma dict_get_sort_dict {V} (d : list (Z * list V)) k :
  dict_get k (sort_dict d) = dict_get k d.
Proof.
  unfold sort_dict. rewrite dict_get_fmap_keys.
  destruct (decide (k ∈ sorted (dict_keys d))) as [Hin|Hnin].
  - rewrite elem_of_sorted in Hin. cbv beta.
    destruct (dict_get k d) as [v|] eqn:E; [done|].
    apply dict_get_None in E. by destruct E.
  - symmetry. apply dict_get_None. by rewrite <- elem_of_sorted.
Qed.

(** X2. [sort_dict] (by key, ascending) of a dict: the keys come out
    strictly ascending, they are the keys of the dict, and every key keeps
    its value. *)
Theorem sort_dict_sorted_lookup {V} (d : list (Z * list V)) :
  NoDup (dict_keys d) →
  StronglySorted Z.lt (dict_keys (sort_dict d))
  ∧ dict_keys (sort_dict d) ≡ₚ dict_keys d
  ∧ ∀ k, dict_get k (sort_dict d) = dict_get k d.
Proof.
  intros Hnd. rewrite dict_keys_sort_dict.
  split; [by apply sorted_lt|]. split; [apply sorted_Permutation|].
  apply dict_get_sort_dict.
Qed.

Lemma sort_dict_sorted_lookup_witness :
  StronglySorted Z.lt (dict_keys (sort_dict test_timeline))
  ∧ dict_keys (sort_dict test_timeline) ≡ₚ dict_keys test_timeline
  ∧ ∀ k, dict_get k (sort_dict test_timeline) = dict_get k test_timeline.
Proof.
  apply (sort_dict_sorted_lookup test_timeline).
  apply (bool_decide_unpack _). vm_compute. exact I.
Defined.

Lemma sorted_by_value_insert_Permutation {K} rev (p : K * Z) l :
  sorted_by_value_insert rev p l ≡ₚ p :: l.
Proof.
  induction l as [|p' l IH]; simpl; [done|].
  destruct (if rev then _ else _); [|done]. rewrite IH. apply perm_swap.
Qed.

Lemma sorted_by_value_insert_sorted {K} (rev : bool) (p : K * Z) l :
  StronglySorted (λ a b : K * Z, if rev then b.2 ≤ a.2 else a.2 ≤ b.2) l →
  StronglySorted (λ a b : K * Z, if rev then b.2 ≤ a.2 else a.2 ≤ b.2)
    (sorted_by_value_insert rev p l).
Proof.
  induction l as [|p' l IH]; intros Hs; simpl.
  - repeat constructor.
  - apply StronglySorted_inv in Hs as [Hs Hp'].
    destruct rev.
    + destruct (Z.ltb_spec p.2 p'.2) as [Hlt|Hge].
      * constructor; [by apply IH|].
        rewrite Forall_forall. intros x Hx.
        rewrite sorted_by_value_insert_Permutation in Hx.
        apply elem_of_cons in Hx as [->|Hx]; [lia|].
        rewrite Forall_forall in Hp'. by apply Hp'.
      * constructor; [by constructor|].
        constructor; [done|]. rewrite Forall_forall in Hp' |- *.
        intros x Hx. specialize (Hp' x Hx). simpl in *. lia.
    + destruct (Z.ltb_spec p'.2 p.2) as [Hlt|Hge].
      * constructor; [by apply IH|].
        rewrite Forall_forall. intros x Hx.
        rewrite sorted_by_value_insert_Permutation in Hx.
        apply elem_of_cons in Hx as [->|Hx]; [lia|].
        rewrite Forall_forall in Hp'. by apply Hp'.
      * constructor; [by constructor|].
        constructor; [done|]. rewrite Forall_forall in Hp' |- *.
        intros x Hx. specialize (Hp' x Hx). simpl in *. lia.
Qed.

Lemma sorted_by_value_insert_stable {K} (rev : bool) (p : K * Z) l v :
  filter (λ a : K * Z, a.2 = v) (sorted_by_value_insert rev p l)
  = filter (λ a : K * Z, a.2 = v) (p :: l).
Proof.
  induction l as [|p' l IH]; simpl; [done|].
  destruct (if rev then _ else _) eqn:E; [|done].
  rewrite filter_cons, IH, !filter_cons.
  destruct (decide (p'.2 = v)) as [Hp'|Hp'], (decide (p.2 = v)) as [Hp|Hp];
    try done.
  exfalso. destruct rev; [apply Z.ltb_lt in E|apply Z.ltb_lt in E]; lia.
Qed.

(** X3. [sort_dict] by value: the items of the dict, in ascending order of
    value, or descending with [reverse=True], and stable: the items of one
    value keep the order they had in the dict. *)
Theorem sort_dict_by_value_sorted_stable {K} (d : list (K * Z))
    (reverse : bool) :
  sort_dict_by_value d reverse ≡ₚ d
  ∧ StronglySorted
      (λ a b : K * Z, if reverse then b.2 ≤ a.2 else a.2 ≤ b.2)
      (sort_dict_by_value d reverse)
  ∧ ∀ v, filter (λ a : K * Z, a.2 = v) (sort_dict_by_value d reverse)
         = filter (λ a : K * Z, a.2 = v) d.
Proof.
  unfold sort_dict_by_value.
  induction d as [|p d (IHp & IHs & IHf)]; simpl.
  - split; [done|]. split; [constructor|done].
  - split; [by rewrite sorted_by_value_insert_Permutation, IHp|].
    split; [by apply sorted_by_value_insert_sorted|].
    intros v. rewrite sorted_by_value_insert_stable, !filter_cons, IHf.
    done.
Qed.

Lemma sort_dict_by_value_sorted {K} (d : list (K * Z)) (reverse : bool) :
  sort_dict_by_value d reverse ≡ₚ d
  ∧ StronglySorted
      (λ a b : K * Z, if reverse then b.2 ≤ a.2 else a.2 ≤ b.2)
      (sort_dict_by_value d reverse).
Proof.
  unfold sort_dict_by_value.
  induction d as [|p d (IHp & IHs)]; simpl.
  - split; [done|constructor].
  - split; [by rewrite sorted_by_value_insert_Permutation, IHp|].
    by apply sorted_by_value_insert_sorted.
Qed.

(** X4. [highest_k(d, k)] for [k >= 0]: the keys of the first [k] items
    (all of them when there are fewer) of the dict sorted by descending
    value; no item left out has a greater value than an item taken. *)
Theorem highest_k_top {K} (d : list (K * Z)) (k : Z) :
  0 ≤ k →
  ∃ top rest,
    top ++ rest ≡ₚ d
    ∧ highest_k d k = top.*1
    ∧ length top = Nat.min (Z.to_nat k) (length d)
    ∧ StronglySorted (λ a b : K * Z, b.2 ≤ a.2) top
    ∧ ∀ p q, p ∈ top → q ∈ rest → q.2 ≤ p.2.
Proof.
  intros Hk.
  destruct (sort_dict_by_value_sorted d true) as (Hp & Hs).
  exists (take (Z.to_nat k) (sort_dict_by_value d true)),
         (drop (Z.to_nat k) (sort_dict_by_value d true)).
  rewrite take_drop. split; [done|]. split.
  { unfold highest_k. cbv zeta.
    destruct (Z.leb_spec 0 k); [|lia]. by rewrite fmap_take. }
  split; [by rewrite length_take, (Permutation_length Hp)|].
  rewrite <- (take_drop (Z.to_nat k) (sort_dict_by_value d true)) in Hs.
  split; [by apply StronglySorted_app_1_l in Hs|].
  intros p q Hin Hq.
  apply (StronglySorted_app_1_elem_of _ _ _ p q Hs Hin Hq).
Qed.

Lemma highest_k_top_witness :
  ∃ top rest,
    top ++ rest ≡ₚ test_dict
    ∧ highest_k test_dict 2 = top.*1
    ∧ length top = Nat.min (Z.to_nat 2) (length test_dict)
    ∧ StronglySorted (λ a b : Z * Z, b.2 ≤ a.2) top
    ∧ ∀ p q, p ∈ top → q ∈ rest → q.2 ≤ p.2.
Proof. apply (highest_k_top test_dict 2). lia. Defined.

Lemma CodeChange_init_valid c :
  valid_code_change c →
  CodeChange_init (j_file_path c) (j_change_type c) (j_old_file_path c)
  = Ok (mkCodeChange (j_file_path c) (j_change_type c) (j_old_file_path c)).
Proof.
  intros [Hin Hren]. unfold CodeChange_init.
  rewrite bool_decide_eq_true_2 by done.
  destruct (String.eqb_spec (j_change_type c) "RENAME") as [Heq|Hne].
  - apply Hren in Heq as [o ->]. done.
  - destruct (j_old_file_path c) as [o|] eqn:E; [|done].
    destruct Hne. apply Hren. rewrite ?E. eauto.
Qed.

Lemma CodeChange_init_invalid c :
  ¬ valid_code_change c →
  CodeChange_init (j_file_path c) (j_change_type c) (j_old_file_path c)
  = Raise AssertionError.
Proof.
  intros Hn. unfold CodeChange_init.
  destruct (bool_decide_reflect
              (j_change_type c ∈ ["ADD"; "DELETE"; "MODIFY"; "RENAME"]))
    as [Hin|Hnin]; [|done].
  destruct (String.eqb_spec (j_change_type c) "RENAME") as [Heq|Hne].
  - destruct (j_old_file_path c) as [o|] eqn:E; [|done].
    destruct Hn. split; [done|]. rewrite ?E. split; eauto.
  - destruct (j_old_file_path c) as [o|] eqn:E; [done|].
    destruct Hn. split; [done|]. rewrite ?E. split; [done|].
    by intros [? [=]].
Qed.

Lemma load_code_changes_valid l :
  Forall valid_code_change l →
  load_code_changes l
  = Ok (map (λ c, mkCodeChange (j_file_path c) (j_change_type c)
                    (j_old_file_path c)) l).
Proof.
  induction 1 as [|c l Hc Hl IH]; simpl; [done|].
  rewrite CodeChange_init_valid by done. simpl. by rewrite IH.
Qed.

Lemma load_code_changes_invalid l :
  ¬ Forall valid_code_change l → load_code_changes l = Raise AssertionError.
Proof.
  induction l as [|c l IH]; intros Hn; simpl.
  - destruct Hn. constructor.
  - destruct (decide (valid_code_change c)) as [Hc|Hc].
    + rewrite CodeChange_init_valid by done. simpl.
      rewrite IH; [done|]. intros Hl. apply Hn. by constructor.
    + by rewrite CodeChange_init_invalid.
Qed.

Lemma load_change_set_valid j :
  valid_change_set j →
  load_change_set j
  = Ok (mkChangeSet (j_commit_hash j) (j_author j) (max_of_day (j_date j))
          (j_issues j)
          (map (λ c, mkCodeChange (j_file_path c) (j_change_type c)
                       (j_old_file_path c)) (j_code_changes j))
          (j_num_current_files j)).
Proof.
  intros [Hne Hall]. unfold load_change_set.
  rewrite load_code_changes_valid by done. simpl. unfold ChangeSet_init.
  destruct (j_code_changes j); done.
Qed.

Lemma load_change_set_invalid j :
  ¬ valid_change_set j → load_change_set j = Raise AssertionError.
Proof.
  intros Hn. unfold load_change_set.
  destruct (decide (Forall valid_code_change (j_code_changes j))) as [Hall|Hall].
  - rewrite load_code_changes_valid by done. simpl. unfold ChangeSet_init.
    destruct (j_code_changes j) eqn:E; [done|].
    destruct Hn. split; [by rewrite E|]. by rewrite E.
  - by rewrite load_code_changes_invalid.
Qed.

Lemma load_date_to_change_sets_invalid jsons d :
  ¬ Forall valid_change_set jsons →
  load_date_to_change_sets jsons d = Raise AssertionError.
Proof.
  revert d. induction jsons as [|j jsons IH]; intros d Hn; simpl.
  - destruct Hn. constructor.
  - destruct (decide (valid_change_set j)) as [Hj|Hj].
    + rewrite load_change_set_valid by done. simpl.
      apply IH. intros Hl. apply Hn. by constructor.
    + by rewrite load_change_set_invalid.
Qed.

Lemma loaded_valid jsons :
  Forall valid_change_set jsons → ∃ css, loaded jsons css.
Proof.
  induction 1 as [|j jsons Hj Hl [css IH]].
  - exists []. constructor.
  - eexists (_ :: css). constructor; [|done]. by apply load_change_set_valid.
Qed.

(** The timeline of a loaded input, in whatever order it is. *)
Lemma timeline_of_loaded jsons css :
  jsons ≠ [] → loaded jsons css →
  ∃ tl,
    _generate_date_to_change_sets jsons = Ok tl
    ∧ timeline_ok tl
    ∧ (∀ cs, cs ∈ css → date cs ∈ dict_keys tl)
    ∧ ∀ k, k ∈ dict_keys tl →
        dict_get k tl = Some (filter (λ cs, date cs = k) css).
Proof.
  intros Hne Hl.
  assert (Hcss : css ≠ []).
  { intros ->. inversion Hl; subst. done. }
  unfold _generate_date_to_change_sets.
  rewrite (load_date_to_change_sets_loaded _ _ _ Hl). unfold res_bind.
  cbv zeta.
  assert (Hkeys0 : dict_keys (bucket css []) ≠ []).
  { destruct css as [|c css']; [done|].
    intros Hnil.
    assert (date c ∈ dict_keys (bucket (c :: css') [])) as Hin.
    { apply elem_of_keys_bucket. right. simpl. left. }
    rewrite Hnil in Hin. by apply not_elem_of_nil in Hin. }
  destruct (last (dict_keys (bucket css []))) as [last_date|] eqn:Elast;
    cycle 1.
  { by apply last_None in Elast. }
  destruct (head (dict_keys (bucket css []))) as [first|] eqn:Ehead; cycle 1.
  { by apply head_None in Ehead. }
  destruct (fill_blanks_spec first last_date (bucket css []))
    as (d' & Hfill & Hnd & Hkeys & Hget).
  rewrite Hfill. eexists. split; [reflexivity|].
  split.
  { eapply _generate_date_to_change_sets_timeline_ok.
    unfold _generate_date_to_change_sets.
    rewrite (load_date_to_change_sets_loaded _ _ _ Hl). unfold res_bind.
    cbv zeta. rewrite Elast, Ehead, Hfill. reflexivity. }
  split.
  - intros cs Hcs. rewrite dict_keys_sort_dict, elem_of_sorted, Hkeys.
    left. apply elem_of_keys_bucket. right.
    apply list_elem_of_fmap. eauto.
  - intros k Hk. rewrite dict_get_sort_dict.
    rewrite dict_keys_sort_dict, elem_of_sorted in Hk.
    specialize (Hget k). rewrite dict_get_bucket in Hget. simpl in Hget.
    destruct (dict_get k d') as [v|] eqn:E.
    + simpl in Hget. by rewrite Hget.
    + apply dict_get_None in E. by destruct E.
Qed.

(** X5. Whatever the order of the input, when every record loads the
    timeline is built; its dates are strictly ascending, each the last
    instant of a day; the day of every change set is a date of the timeline;
    and each date holds exactly the change sets of that day, in the order of
    the input. *)
Theorem timeline_buckets_any_order (jsons : list JsonChangeSet)
    (css : list ChangeSet) :
  jsons ≠ [] → loaded jsons css →
  ∃ tl,
    _generate_date_to_change_sets jsons = Ok tl
    ∧ StronglySorted Z.lt (dict_keys tl)
    ∧ Forall normalized (dict_keys tl)
    ∧ (∀ cs, cs ∈ css → date cs ∈ dict_keys tl)
    ∧ ∀ k, k ∈ dict_keys tl →
        dict_get k tl = Some (filter (λ cs, date cs = k) css).
Proof.
  intros Hne Hl.
  destruct (timeline_of_loaded jsons css Hne Hl)
    as (tl & Htl & [Hs Hn] & Hin & Hget).
  exists tl. auto.
Qed.

Lemma timeline_buckets_any_order_witness :
  ∃ tl,
    _generate_date_to_change_sets unordered_dataset = Ok tl
    ∧ StronglySorted Z.lt (dict_keys tl)
    ∧ Forall normalized (dict_keys tl)
    ∧ (∀ cs, cs ∈ unordered_change_sets → date cs ∈ dict_keys tl)
    ∧ ∀ k, k ∈ dict_keys tl →
        dict_get k tl
        = Some (filter (λ cs, date cs = k) unordered_change_sets).
Proof.
  apply (timeline_buckets_any_order unordered_dataset unordered_change_sets).
  - discriminate.
  - repeat constructor.
Defined.

(** X6. [_generate_date_to_change_sets] raises [IndexError] on an empty
    input and [AssertionError] when a record has no code change, a change
    type out of the four, a RENAME without old path or another type with
    one; on any other input it returns the timeline. *)
Theorem timeline_built_iff_valid (jsons : list JsonChangeSet) :
  (jsons = [] → _generate_date_to_change_sets jsons = Raise IndexError)
  ∧ (jsons ≠ [] ∧ Forall valid_change_set jsons →
     ∃ tl, _generate_date_to_change_sets jsons = Ok tl)
  ∧ (¬ Forall valid_change_set jsons →
     _generate_date_to_change_sets jsons = Raise AssertionError).
Proof.
  split; [by intros ->|]. split.
  - intros [Hne Hall]. destruct (loaded_valid jsons Hall) as [css Hl].
    destruct (timeline_of_loaded jsons css Hne Hl) as (tl & Htl & _).
    eauto.
  - intros Hn. unfold _generate_date_to_change_sets.
    by rewrite load_date_to_change_sets_invalid.
Qed.

(** ** The window of the data manager *)

Lemma sorted_head_least (l : list Z) first :
  StronglySorted Z.lt l → head l = Some first → ∀ k, k ∈ l → first ≤ k.
Proof.
  intros Hs Hh k Hk. destruct l as [|x l]; [done|]. injection Hh as ->.
  apply StronglySorted_inv in Hs as [_ Hx]. rewrite Forall_forall in Hx.
  apply elem_of_cons in Hk as [->|Hk]; [lia|]. specialize (Hx k Hk). lia.
Qed.

Lemma DataManager_init_inv jsons w dm :
  DataManager_init jsons w = Ok dm →
  timeline_ok (_date_to_change_sets dm)
  ∧ _sliding_window_size dm = w
  ∧ _first_date dm = None ∧ _last_date dm = None
  ∧ dict_keys (_date_to_change_sets dm) ≠ [].
Proof.
  unfold DataManager_init, res_bind.
  destruct (_generate_date_to_change_sets jsons) as [tl|] eqn:E; [|done].
  intros [= <-]. simpl.
  split; [by eapply _generate_date_to_change_sets_timeline_ok|].
  split; [done|]. split; [done|]. split; [done|].
  unfold _generate_date_to_change_sets, res_bind in E.
  destruct (load_date_to_change_sets jsons []) as [d|]; [|done].
  cbv zeta in E.
  destruct (last (dict_keys d)) as [l|] eqn:El; [|done].
  destruct (head (dict_keys d)) as [h|] eqn:Eh; [|done].
  destruct (fill_blanks_spec h l d) as (d' & Hf & _ & Hkeys & _).
  rewrite Hf in E. injection E as <-.
  rewrite dict_keys_sort_dict. intros Hnil.
  assert (h ∈ sorted (dict_keys d')) as Hin.
  { apply elem_of_sorted, Hkeys. left. by apply head_Some_elem_of. }
  rewrite Hnil in Hin. by apply not_elem_of_nil in Hin.
Qed.

(** X7. On a data manager as constructed, [get_initial_window] sets
    [first_date] to the earliest date of the timeline and [last_date]
    [sliding_window_size - 1] days later; when that date is a date of the
    timeline it returns the change sets from [first_date] to [last_date] in
    the order of the timeline, and otherwise it raises [AssertionError],
    the two dates staying assigned. *)
Theorem initial_window_or_assertion (jsons : list JsonChangeSet) (w : Z)
    (dm : DataManager) :
  DataManager_init jsons w = Ok dm →
  ∃ first,
    head (dict_keys (_date_to_change_sets dm)) = Some first
    ∧ (∀ k, k ∈ dict_keys (_date_to_change_sets dm) → first ≤ k)
    ∧ let last_date := first + (w - 1) * usec_per_day in
      let dm1 :=
        mkDataManager w (_date_to_change_sets dm) (Some first)
          (Some last_date) in
      if dict_contains last_date (_date_to_change_sets dm)
      then get_initial_window dm = (Ok (window_of dm1), dm1)
      else get_initial_window dm = (Raise AssertionError, dm1).
Proof.
  intros Hdm.
  destruct (DataManager_init_inv _ _ _ Hdm) as ([Hs Hn] & Hw & Hf & Hl & Hne).
  destruct dm as [w' tl f l]. simpl in *. subst.
  destruct (head (dict_keys tl)) as [first|] eqn:Eh; cycle 1.
  { by apply head_None in Eh. }
  exists first. split; [done|].
  pose proof (sorted_head_least _ _ Hs Eh) as Hleast.
  split; [done|]. cbv zeta.
  unfold get_initial_window, bind, get_state, set_first_date, set_last_date,
    ret, raise.
  cbn [_date_to_change_sets _sliding_window_size _first_date _last_date
       fst snd].
  rewrite Eh.
  cbn [_date_to_change_sets _sliding_window_size _first_date _last_date
       fst snd].
  destruct (dict_contains (first + (w - 1) * usec_per_day) tl) eqn:Ec;
    [|done].
  f_equal. f_equal. rewrite initial_window_loop_filter by done.
  unfold window_of. cbn [_date_to_change_sets _first_date _last_date].
  f_equal. f_equal. apply filter_ext_elem_of.
  intros [k css] Hin. simpl.
  assert (first ≤ k); [|lia].
  apply Hleast, list_elem_of_fmap. by exists (k, css).
Qed.

Lemma initial_window_or_assertion_witness :
  ∃ first,
    head (dict_keys (_date_to_change_sets sample_manager)) = Some first
    ∧ (∀ k, k ∈ dict_keys (_date_to_change_sets sample_manager) → first ≤ k)
    ∧ let last_date := first + (4 - 1) * usec_per_day in
      let dm1 :=
        mkDataManager 4 (_date_to_change_sets sample_manager) (Some first)
          (Some last_date) in
      if dict_contains last_date (_date_to_change_sets sample_manager)
      then get_initial_window sample_manager = (Ok (window_of dm1), dm1)
      else get_initial_window sample_manager = (Raise AssertionError, dm1).
Proof.
  apply (initial_window_or_assertion sample_dataset 4 sample_manager).
  vm_compute. reflexivity.
Defined.

Lemma get_initial_window_window_inv jsons w dm win dm1 :
  DataManager_init jsons w = Ok dm →
  get_initial_window dm = (Ok win, dm1) →
  window_inv dm1 ∧ win = window_of dm1.
Proof.
  intros Hdm Hwin.
  destruct (DataManager_init_inv _ _ _ Hdm) as (Hok & Hw & _ & _ & _).
  pose proof Hok as [Hs Hn].
  apply get_initial_window_inv in Hwin as (first & Hh & Hc & -> & ->).
  cbv zeta in *. rewrite Hw in *.
  pose proof (sorted_head_least _ _ Hs Hh) as Hleast.
  apply dict_contains_keys in Hc.
  rewrite Forall_forall in Hn.
  split.
  - split; [done|]. eexists _, _. split; [done|]. split; [done|].
    split; [by apply Hleast|]. split; [|by apply Hn].
    apply Hn. by apply head_Some_elem_of.
  - rewrite initial_window_loop_filter by done.
    unfold window_of. cbn [_date_to_change_sets _first_date _last_date].
    f_equal. f_equal. apply filter_ext_elem_of.
    intros [k css] Hin. simpl.
    assert (first ≤ k); [|lia].
    apply Hleast, list_elem_of_fmap. by exists (k, css).
Qed.

Lemma forward_one_day_window_inv dm add rem dm' :
  window_inv dm → forward_one_day dm = (Ok (add, rem), dm') →
  window_inv dm'
  ∧ ∃ mid, window_of dm = rem ++ mid ∧ window_of dm' = mid ++ add.
Proof.
  intros (Hok & a & b & Ha & Hb & Hab & Hna & Hnb) Hf.
  apply forward_one_day_inv in Hf as (a' & b' & Ha' & Hb' & Hrem & Hadd & ->).
  rewrite Ha in Ha'. rewrite Hb in Hb'.
  injection Ha' as <-. injection Hb' as <-.
  split.
  - split; [done|]. exists (a + usec_per_day), (b + usec_per_day). simpl.
    unfold normalized in *. repeat split; try lia.
    + rewrite <- (Z.mul_1_l usec_per_day) at 1. by rewrite Z.mod_add.
    + rewrite <- (Z.mul_1_l usec_per_day) at 1. by rewrite Z.mod_add.
  - destruct (timeline_split _ a b rem add Hok Hab Hna Hnb Hrem Hadd)
      as (l1 & lmid & l4 & _ & H1 & H2).
    exists (concat (map snd lmid)). unfold window_of. rewrite Ha, Hb.
    cbn [_first_date _last_date _date_to_change_sets].
    rewrite H1, H2. split; [done|].
    rewrite map_app, concat_app. simpl. by rewrite app_nil_r.
Qed.

Lemma forward_days_window_inv n dm dm' :
  window_inv dm → forward_days n dm = Ok dm' → window_inv dm'.
Proof.
  revert dm. induction n as [|n IH]; intros dm Hinv; simpl.
  - by intros [= <-].
  - destruct (forward_one_day dm) as [[[add rem]|e] dm1] eqn:E; [|done].
    intros H. eapply IH; [|done].
    by eapply forward_one_day_window_inv.
Qed.

(** X8. Every successful [forward_one_day] moves [first_date] and
    [last_date] one day later and changes nothing else: after [n] of them
    the window is [n] days later and as wide as before. *)
Theorem window_moves_one_day_per_slide (n : nat) (dm dm' : DataManager)
    (a b : Z) :
  _first_date dm = Some a → _last_date dm = Some b →
  forward_days n dm = Ok dm' →
  dm' = mkDataManager (_sliding_window_size dm) (_date_to_change_sets dm)
          (Some (a + Z.of_nat n * usec_per_day))
          (Some (b + Z.of_nat n * usec_per_day)).
Proof.
  revert dm a b. induction n as [|n IH]; intros dm a b Ha Hb; simpl.
  - intros [= <-]. destruct dm; simpl in *. subst.
    by rewrite !Z.add_0_r.
  - destruct (forward_one_day dm) as [[[add rem]|e] dm1] eqn:E; [|done].
    apply forward_one_day_inv in E as (a' & b' & Ha' & Hb' & _ & _ & ->).
    rewrite Ha in Ha'. rewrite Hb in Hb'.
    injection Ha' as <-. injection Hb' as <-.
    intros H. apply (IH _ (a + usec_per_day) (b + usec_per_day)) in H;
      [|done|done].
    simpl in H. rewrite H. f_equal; f_equal; lia.
Qed.

(** X9. From the initial window on, the change sets that a successful
    [forward_one_day] returns for removal are the head of the window before,
    and the window after is the rest followed by the change sets returned
    for addition. *)
Theorem window_slide_contents (jsons : list JsonChangeSet) (w : Z)
    (dm0 dm1 dm dm' : DataManager) (win add rem : list ChangeSet) (n : nat) :
  DataManager_init jsons w = Ok dm0 →
  get_initial_window dm0 = (Ok win, dm1) →
  forward_days n dm1 = Ok dm →
  forward_one_day dm = (Ok (add, rem), dm') →
  ∃ mid, window_of dm = rem ++ mid ∧ window_of dm' = mid ++ add.
Proof.
  intros Hdm Hwin Hn Hf.
  destruct (get_initial_window_window_inv _ _ _ _ _ Hdm Hwin) as [Hinv _].
  apply (forward_days_window_inv _ _ _ Hinv) in Hn.
  by destruct (forward_one_day_window_inv _ _ _ _ Hn Hf).
Qed.

Lemma window_moves_one_day_per_slide_witness :
  sample_manager_later
  = mkDataManager (_sliding_window_size sample_manager_started)
      (_date_to_change_sets sample_manager_started)
      (Some (max_of_day (noon 0) + Z.of_nat 2 * usec_per_day))
      (Some (max_of_day (noon 3) + Z.of_nat 2 * usec_per_day)).
Proof.
  apply (window_moves_one_day_per_slide 2 sample_manager_started).
  - vm_compute. reflexivity.
  - vm_compute. reflexivity.
  - vm_compute. reflexivity.
Defined.

Lemma window_slide_contents_witness :
  ∃ add rem dm',
    forward_one_day sample_manager_next = (Ok (add, rem), dm')
    ∧ ∃ mid, window_of sample_manager_next = rem ++ mid
             ∧ window_of dm' = mid ++ add.
Proof.
  eexists _, _, _. split; [vm_compute; reflexivity|].
  eapply (window_slide_contents sample_dataset 4 sample_manager
            sample_manager_started sample_manager_next _ _ _ _ 1).
  - vm_compute. reflexivity.
  - vm_compute. reflexivity.
  - vm_compute. reflexivity.
  - vm_compute. reflexivity.
Defined.

(** ** The graph under removals and slides *)

(** X10. On a graph without isolated node, [_remove_nodes] removes the
    listed nodes, the edges at them, and the nodes that only had edges to
    listed nodes; the other nodes and edges stay with their attributes, and
    nothing else of the object changes. *)
Theorem remove_nodes_and_orphans (ns : list string) (self : HistoryGraph) :
  good (_G self) →
  ∃ G',
    _remove_nodes ns self = (Ok tt, with_G G' self)
    ∧ good G'
    ∧ (∀ x, x ∈ nset G' ↔
         x ∈ nset (_G self) ∧ x ∉ ns
         ∧ ∃ v, v ∉ ns ∧ (x, v) ∈ eset (_G self))
    ∧ (∀ a b, (a, b) ∈ eset G' ↔
         a ∉ ns ∧ b ∉ ns ∧ (a, b) ∈ eset (_G self))
    ∧ (∀ x, x ∈ nset G' → _node G' !! x = _node (_G self) !! x)
    ∧ (∀ a b, (a, b) ∈ eset G' →
         _adj G' !! (a, b) = _adj (_G self) !! (a, b)).
Proof.
  intros HG. exists (remove_nodes_G ns (_G self)).
  split; [apply _remove_nodes_run|].
  pose proof (good_remove_nodes_G ns _ HG) as HG'.
  split; [done|]. split; [|split; [|split]].
  - intros x. split.
    + intros Hx. destruct (nset_remove_nodes_G _ _ _ Hx) as [Hns Hin].
      split; [done|]. split; [done|].
      destruct (good_connected _ HG' x Hx) as [v Hv].
      apply eset_remove_nodes_G in Hv as (_ & Hv & Hxv); [|done]. eauto.
    + intros (Hin & Hns & v & Hv & Hxv).
      apply (good_closed _ HG' x v). by apply eset_remove_nodes_G.
  - intros a b. by apply eset_remove_nodes_G.
  - intros x. unfold nset. rewrite elem_of_dom. intros [a Ha]. rewrite Ha.
    symmetry. destruct ns as [|n ns]; [done|]. simpl in Ha.
    unfold nx.remove_nodes_from in Ha. simpl in Ha.
    apply map_lookup_filter_Some in Ha as [Ha _].
    by apply map_lookup_filter_Some in Ha as [Ha _].
  - intros a b. unfold eset. rewrite elem_of_dom. intros [e He]. rewrite He.
    symmetry. destruct ns as [|n ns]; [done|]. simpl in He.
    unfold nx.remove_nodes_from in He. simpl in He.
    apply map_lookup_filter_Some in He as [He _].
    by apply map_lookup_filter_Some in He as [He _].
Qed.

Lemma remove_nodes_and_orphans_witness :
  ∃ G',
    _remove_nodes ["CS0"] sample_history = (Ok tt, with_G G' sample_history)
    ∧ good G'
    ∧ (∀ x, x ∈ nset G' ↔
         x ∈ nset (_G sample_history) ∧ x ∉ ["CS0"]
         ∧ ∃ v, v ∉ ["CS0"] ∧ (x, v) ∈ eset (_G sample_history))
    ∧ (∀ a b, (a, b) ∈ eset G' ↔
         a ∉ ["CS0"] ∧ b ∉ ["CS0"] ∧ (a, b) ∈ eset (_G sample_history))
    ∧ (∀ x, x ∈ nset G' → _node G' !! x = _node (_G sample_history) !! x)
    ∧ (∀ a b, (a, b) ∈ eset G' →
         _adj G' !! (a, b) = _adj (_G sample_history) !! (a, b)).
Proof.
  apply (remove_nodes_and_orphans ["CS0"] sample_history).
  apply ready_good, (HistoryGraph_init_ready sample_dataset 4 10 50 (1 # 100)).
  vm_compute. reflexivity.
Defined.

(** X11. At every window position the adjacency of the artifact graph is
    symmetric with the same attributes in both directions, every edge joins
    nodes of the graph, no node is isolated, and every node has a kind. *)
Theorem graph_well_formed_at_every_position (self : HistoryGraph) :
  position self →
  (∀ u v, _adj (_G self) !! (u, v) = _adj (_G self) !! (v, u))
  ∧ (∀ u v, (u, v) ∈ eset (_G self) →
       u ∈ nset (_G self) ∧ v ∈ nset (_G self))
  ∧ (∀ u, u ∈ nset (_G self) → ∃ v, (u, v) ∈ eset (_G self))
  ∧ (∀ n, n ∈ nset (_G self) → ∃ k, _node (_G self) !! n = Some (Some k)).
Proof.
  intros Hpos. apply position_ready in Hpos as [HG Hk _ _].
  split; [by apply good_sym|]. split.
  - intros u v Huv. split; [by eapply good_closed|].
    eapply good_closed; [done|]. by apply good_sym_set.
  - split; [by apply good_connected|]. exact Hk.
Qed.

Lemma graph_well_formed_at_every_position_witness :
  (∀ u v, _adj (_G sample_history_later) !! (u, v)
          = _adj (_G sample_history_later) !! (v, u))
  ∧ (∀ u v, (u, v) ∈ eset (_G sample_history_later) →
       u ∈ nset (_G sample_history_later)
       ∧ v ∈ nset (_G sample_history_later))
  ∧ (∀ u, u ∈ nset (_G sample_history_later) →
       ∃ v, (u, v) ∈ eset (_G sample_history_later))
  ∧ (∀ n, n ∈ nset (_G sample_history_later) →
       ∃ k, _node (_G sample_history_later) !! n = Some (Some k)).
Proof.
  apply (graph_well_formed_at_every_position sample_history_later).
  apply (position_forward
           (history_or_empty (forward_graph_days 1 sample_history))).
  - apply (position_forward sample_history).
    + apply (position_init sample_dataset 4 10 50 (1 # 100)).
      vm_compute. reflexivity.
    + vm_compute. reflexivity.
  - vm_compute. reflexivity.
Defined.

Lemma on_data_manager_same {A} (m : M DataManager A) self r :
  m (_data_manager self) = (r, _data_manager self) →
  on_data_manager m self = (r, self).
Proof.
  intros H. unfold on_data_manager. rewrite H.
  by rewrite with_data_manager_same.
Qed.

Lemma forward_one_day_raise dm e dm' :
  forward_one_day dm = (Raise e, dm') →
  dm' = dm ∧ (e = SlidingNotPossible ∨ e = KeyError ∨ e = TypeError).
Proof.
  destruct dm as [w tl [a|] [b|]];
    unfold forward_one_day, bind, can_slide, get_state, ret, raise, dict_item,
      dict_contains, set_first_date, set_last_date; simpl.
  - destruct (dict_get (b + usec_per_day) tl) as [add|] eqn:Eb; simpl.
    + destruct (dict_get a tl) as [rem|] eqn:Ea; simpl.
      * by rewrite Eb.
      * intros [= <- <-]. auto.
    + intros [= <- <-]. auto.
  - intros [= <- <-]. auto.
  - destruct (dict_get (b + usec_per_day) tl) as [add|] eqn:Eb; simpl.
    + intros [= <- <-]. auto.
    + intros [= <- <-]. auto.
  - intros [= <- <-]. auto.
Qed.

(** X12. [forward_graph_one_day] returns [True] or leaves the object
    exactly as it was: when it returns [False], and also when it raises,
    which it does only with the [KeyError] or [TypeError] of
    [forward_one_day]. *)
Theorem forward_graph_one_day_all_or_nothing (self self' : HistoryGraph)
    (r : res bool) :
  forward_graph_one_day self = (r, self') →
  r = Ok true
  ∨ (self' = self
     ∧ (r = Ok false ∨ r = Raise KeyError ∨ r = Raise TypeError)).
Proof.
  unfold forward_graph_one_day, on_data_manager.
  destruct (forward_one_day (_data_manager self)) as [[[add rem]|e] dm'] eqn:E.
  - unfold bind. rewrite _remove_change_sets_run, _add_change_sets_run.
    simpl. destruct (last add); simpl; intros [= <- _]; by left.
  - apply forward_one_day_raise in E as [-> He].
    rewrite with_data_manager_same.
    destruct He as [->| [->| ->]]; intros [= <- <-]; right; auto.
Qed.

Lemma forward_graph_one_day_all_or_nothing_witness :
  Ok false = Ok true
  ∨ (exhausted_history = exhausted_history
     ∧ (Ok false = Ok false ∨ Ok false = Raise KeyError
        ∨ @Ok bool false = Raise TypeError)).
Proof.
  apply (forward_graph_one_day_all_or_nothing exhausted_history
           exhausted_history (Ok false)).
  vm_compute. reflexivity.
Defined.

(** X13. A successful [forward_graph_one_day] empties every memoized value,
    keeps the parameters of the object, takes the number of files of the
    project from the last change set added, or keeps it on a day without
    change set, and leaves the graph obtained by removing the change sets
    that left and then adding those that entered. *)
Theorem forward_graph_one_day_success (self self' : HistoryGraph) :
  forward_graph_one_day self = (Ok true, self') →
  ∃ add rem dm',
    forward_one_day (_data_manager self) = (Ok (add, rem), dm')
    ∧ _current_data self' = no_current_data
    ∧ _data_manager self' = dm'
    ∧ _graph_range_in_days self' = _graph_range_in_days self
    ∧ _distance_limit self' = _distance_limit self
    ∧ _num_files_limit self' = _num_files_limit self
    ∧ _score_threshold self' = _score_threshold self
    ∧ _number_of_files_in_project self'
      = match last add with
        | Some cs => num_files_in_project cs
        | None => _number_of_files_in_project self
        end
    ∧ (_remove_change_sets rem self).1 = Ok tt
    ∧ (_add_change_sets add (_remove_change_sets rem self).2).1 = Ok tt
    ∧ _G self' = _G (_add_change_sets add (_remove_change_sets rem self).2).2.
Proof.
  unfold forward_graph_one_day, on_data_manager.
  destruct (forward_one_day (_data_manager self)) as [[[add rem]|e] dm'] eqn:E.
  - unfold bind. rewrite !_remove_change_sets_run, !_add_change_sets_run.
    simpl. destruct (last add) eqn:El; simpl; intros [= <-];
      exists add, rem, dm';
      rewrite ?_remove_change_sets_run, ?_add_change_sets_run, ?El; simpl;
      repeat split; done.
  - destruct e; simpl; intros [=].
Qed.

Lemma forward_graph_one_day_success_witness :
  ∃ self',
    forward_graph_one_day sample_history = (Ok true, self')
    ∧ ∃ add rem dm',
    forward_one_day (_data_manager sample_history) = (Ok (add, rem), dm')
    ∧ _current_data self' = no_current_data
    ∧ _data_manager self' = dm'
    ∧ _graph_range_in_days self' = _graph_range_in_days sample_history
    ∧ _distance_limit self' = _distance_limit sample_history
    ∧ _num_files_limit self' = _num_files_limit sample_history
    ∧ _score_threshold self' = _score_threshold sample_history
    ∧ _number_of_files_in_project self'
      = match last add with
        | Some cs => num_files_in_project cs
        | None => _number_of_files_in_project sample_history
        end
    ∧ (_remove_change_sets rem sample_history).1 = Ok tt
    ∧ (_add_change_sets add (_remove_change_sets rem sample_history).2).1
      = Ok tt
    ∧ _G self'
      = _G (_add_change_sets add
              (_remove_change_sets rem sample_history).2).2.
Proof.
  eexists. split; [vm_compute; reflexivity|].
  apply (forward_graph_one_day_success sample_history).
  vm_compute. reflexivity.
Defined.

(** ** The memoized values *)

Lemma computes_cleared {A} (m : M HistoryGraph A) f self :
  computes m f → core_only f → coherent self →
  (m self).1 = (m (cleared self)).1
  ∧ (m self).2 = with_current_data (_current_data (m self).2) self.
Proof.
  intros Hm Hf Hc.
  assert (Hc' : coherent (cleared self)) by by apply coherent_no_current_data.
  destruct (Hm self Hc) as (s1 & E1 & _ & Hs1).
  destruct (Hm (cleared self) Hc') as (s2 & E2 & _ & _).
  rewrite E1, E2. simpl. split; [|done].
  unfold cleared. by rewrite Hf.
Qed.

Lemma num_rare_files_core :
  core_only (λ self, res_bind (fresh_dev_to_rare_files self)
                       (λ d, Ok (num_files_of d))).
Proof. intros cd self. simpl. by rewrite fresh_dev_to_rare_files_core. Qed.

(** X14. At every window position a getter returns what it returns on the
    same object with all memoized values cleared: a memoized value is never
    the value of an earlier window. *)
Theorem memoized_values_never_stale (self : HistoryGraph) :
  position self →
  (get_dev_to_reachable_files self).1
  = (get_dev_to_reachable_files (cleared self)).1
  ∧ (get_file_to_devs self).1 = (get_file_to_devs (cleared self)).1
  ∧ (get_dev_to_rare_files self).1 = (get_dev_to_rare_files (cleared self)).1
  ∧ (get_num_rare_files self).1 = (get_num_rare_files (cleared self)).1
  ∧ (get_jacks self).1 = (get_jacks (cleared self)).1
  ∧ (get_mavens self).1 = (get_mavens (cleared self)).1
  ∧ (get_developer_graph self).1 = (get_developer_graph (cleared self)).1.
Proof.
  intros Hpos. apply position_coherent in Hpos as Hc.
  split; [|split; [|split; [|split; [|split; [|split]]]]].
  - exact (proj1 (computes_cleared _ _ self
                    get_dev_to_reachable_files_computes
                    fresh_dev_to_reachable_files_core Hc)).
  - exact (proj1 (computes_cleared _ _ self get_file_to_devs_computes
                    fresh_file_to_devs_core Hc)).
  - exact (proj1 (computes_cleared _ _ self get_dev_to_rare_files_computes
                    fresh_dev_to_rare_files_core Hc)).
  - exact (proj1 (computes_cleared _ _ self get_num_rare_files_computes
                    num_rare_files_core Hc)).
  - exact (proj1 (computes_cleared _ _ self get_jacks_computes
                    fresh_jacks_core Hc)).
  - exact (proj1 (computes_cleared _ _ self get_mavens_computes
                    fresh_mavens_core Hc)).
  - refine (proj1 (computes_cleared _ _ self get_developer_graph_computes
                     _ Hc)).
    intros cd s. f_equal.
Qed.

Lemma memoized_values_never_stale_witness :
  (get_dev_to_reachable_files (get_mavens sample_history).2).1
  = (get_dev_to_reachable_files (cleared (get_mavens sample_history).2)).1
  ∧ (get_file_to_devs (get_mavens sample_history).2).1
    = (get_file_to_devs (cleared (get_mavens sample_history).2)).1
  ∧ (get_dev_to_rare_files (get_mavens sample_history).2).1
    = (get_dev_to_rare_files (cleared (get_mavens sample_history).2)).1
  ∧ (get_num_rare_files (get_mavens sample_history).2).1
    = (get_num_rare_files (cleared (get_mavens sample_history).2)).1
  ∧ (get_jacks (get_mavens sample_history).2).1
    = (get_jacks (cleared (get_mavens sample_history).2)).1
  ∧ (get_mavens (get_mavens sample_history).2).1
    = (get_mavens (cleared (get_mavens sample_history).2)).1
  ∧ (get_developer_graph (get_mavens sample_history).2).1
    = (get_developer_graph (cleared (get_mavens sample_history).2)).1.
Proof.
  apply (memoized_values_never_stale (get_mavens sample_history).2).
  apply position_get_mavens.
  apply (position_init sample_dataset 4 10 50 (1 # 100)).
  vm_compute. reflexivity.
Defined.

Lemma memo_twice {A} (getc : CurrentData → option A)
    (setc : A → CurrentData → CurrentData) (compute : M HistoryGraph A)
    self v self' :
  (∀ v cd, getc (setc v cd) = Some v) →
  memo getc setc compute self = (Ok v, self') →
  memo getc setc compute self' = (Ok v, self').
Proof.
  intros Hgs. unfold memo, bind, get_state, set_current_data, ret.
  destruct (getc (_current_data self)) as [v0|] eqn:E.
  - intros [= <- <-]. by rewrite E.
  - destruct (compute self) as [[v1|e] s1]; [|done].
    intros [= <- <-]. simpl. by rewrite Hgs.
Qed.

(** X15. A getter that has returned a value returns the same value when
    called again, and the second call leaves the object as the first call
    left it. *)
Theorem getter_twice (self : HistoryGraph) :
  (∀ v self', get_dev_to_reachable_files self = (Ok v, self') →
     get_dev_to_reachable_files self' = (Ok v, self'))
  ∧ (∀ v self', get_file_to_devs self = (Ok v, self') →
       get_file_to_devs self' = (Ok v, self'))
  ∧ (∀ v self', get_dev_to_rare_files self = (Ok v, self') →
       get_dev_to_rare_files self' = (Ok v, self'))
  ∧ (∀ v self', get_jacks self = (Ok v, self') →
       get_jacks self' = (Ok v, self'))
  ∧ (∀ v self', get_mavens self = (Ok v, self') →
       get_mavens self' = (Ok v, self'))
  ∧ (∀ v self', get_developer_graph self = (Ok v, self') →
       get_developer_graph self' = (Ok v, self')).
Proof.
  repeat split; intros v self'; by apply memo_twice.
Qed.

Lemma getter_core_only {A} (m : M HistoryGraph A) f self :
  computes m f → coherent self → cleared (m self).2 = cleared self.
Proof.
  intros Hm Hc. destruct (Hm self Hc) as (s1 & -> & _ & Hs1). simpl.
  unfold same_core in Hs1. by rewrite Hs1.
Qed.

(** X16. At every window position a getter changes nothing of the object
    but its memoized values: the graph, the window of the data manager, the
    number of files and the parameters are after the call what they were
    before it. *)
Theorem getters_touch_memo_only (self : HistoryGraph) :
  position self →
  cleared (get_dev_to_reachable_files self).2 = cleared self
  ∧ cleared (get_file_to_devs self).2 = cleared self
  ∧ cleared (get_dev_to_rare_files self).2 = cleared self
  ∧ cleared (get_num_rare_files self).2 = cleared self
  ∧ cleared (get_developer_graph self).2 = cleared self
  ∧ cleared (get_jacks self).2 = cleared self
  ∧ cleared (get_mavens self).2 = cleared self.
Proof.
  intros Hpos. apply position_coherent in Hpos as Hc.
  repeat split.
  - by apply (getter_core_only _ _ _ get_dev_to_reachable_files_computes).
  - by apply (getter_core_only _ _ _ get_file_to_devs_computes).
  - by apply (getter_core_only _ _ _ get_dev_to_rare_files_computes).
  - by apply (getter_core_only _ _ _ get_num_rare_files_computes).
  - by apply (getter_core_only _ _ _ get_developer_graph_computes).
  - by apply (getter_core_only _ _ _ get_jacks_computes).
  - by apply (getter_core_only _ _ _ get_mavens_computes).
Qed.

Lemma getters_touch_memo_only_witness :
  cleared (get_dev_to_reachable_files sample_history).2
  = cleared sample_history
  ∧ cleared (get_file_to_devs sample_history).2 = cleared sample_history
  ∧ cleared (get_dev_to_rare_files sample_history).2 = cleared sample_history
  ∧ cleared (get_num_rare_files sample_history).2 = cleared sample_history
  ∧ cleared (get_developer_graph sample_history).2 = cleared sample_history
  ∧ cleared (get_jacks sample_history).2 = cleared sample_history
  ∧ cleared (get_mavens sample_history).2 = cleared sample_history.
Proof.
  apply (getters_touch_memo_only sample_history).
  apply (position_init sample_dataset 4 10 50 (1 # 100)).
  vm_compute. reflexivity.
Defined.

Lemma sorted_desc_insert_Permutation p l : sorted_desc_insert p l ≡ₚ p :: l.
Proof.
  induction l as [|p' l IH]; simpl; [done|].
  destruct (Qlt_le_dec p.2 p'.2); [|done]. rewrite IH. apply perm_swap.
Qed.

Lemma sorted_desc_insert_sorted p l :
  StronglySorted (λ a b : string * Q, (b.2 <= a.2)%Q) l →
  StronglySorted (λ a b : string * Q, (b.2 <= a.2)%Q) (sorted_desc_insert p l).
Proof.
  induction l as [|p' l IH]; intros Hs; simpl.
  - repeat constructor.
  - apply StronglySorted_inv in Hs as [Hs Hp'].
    destruct (Qlt_le_dec p.2 p'.2) as [Hlt|Hge].
    + constructor; [by apply IH|].
      rewrite Forall_forall. intros x Hx.
      rewrite sorted_desc_insert_Permutation in Hx.
      apply elem_of_cons in Hx as [->|Hx]; [by apply Qlt_le_weak|].
      rewrite Forall_forall in Hp'. by apply Hp'.
    + constructor; [by constructor|].
      constructor; [done|]. rewrite Forall_forall in Hp' |- *.
      intros x Hx. specialize (Hp' x Hx). simpl in *.
      by eapply Qle_trans.
Qed.

Lemma sorted_desc_insert_stable p l q :
  filter (λ a : string * Q, Qeq_bool a.2 q = true) (sorted_desc_insert p l)
  = filter (λ a : string * Q, Qeq_bool a.2 q = true) (p :: l).
Proof.
  induction l as [|p' l IH]; simpl; [done|].
  destruct (Qlt_le_dec p.2 p'.2) as [Hlt|Hge]; [|done].
  rewrite filter_cons, IH, !filter_cons.
  destruct (decide (Qeq_bool p'.2 q = true)) as [Hp'|Hp'],
           (decide (Qeq_bool p.2 q = true)) as [Hp|Hp]; try done.
  exfalso. apply Qeq_bool_iff in Hp', Hp. rewrite Hp', Hp in Hlt.
  by apply Qlt_irrefl in Hlt.
Qed.

Lemma sorted_desc_spec d :
  sorted_desc d ≡ₚ d
  ∧ StronglySorted (λ a b : string * Q, (b.2 <= a.2)%Q) (sorted_desc d)
  ∧ ∀ q, filter (λ a : string * Q, Qeq_bool a.2 q = true) (sorted_desc d)
         = filter (λ a : string * Q, Qeq_bool a.2 q = true) d.
Proof.
  unfold sorted_desc. induction d as [|p d (IHp & IHs & IHf)]; simpl.
  - split; [done|]. split; [constructor|done].
  - split; [by rewrite sorted_desc_insert_Permutation, IHp|].
    split; [by apply sorted_desc_insert_sorted|].
    intros q. rewrite sorted_desc_insert_stable, !filter_cons, IHf. done.
Qed.

Lemma StronglySorted_filter {A} (R : A → A → Prop) (P : A → Prop)
    `{!∀ x, Decision (P x)} (l : list A) :
  StronglySorted R l → StronglySorted R (filter P l).
Proof.
  induction 1 as [|x l Hs IH Hx]; [constructor|].
  rewrite filter_cons. destruct (decide (P x)); [|done].
  constructor; [done|]. rewrite Forall_forall in Hx |- *.
  intros y Hy. apply list_elem_of_filter in Hy as [_ Hy]. by apply Hx.
Qed.

Lemma filter_swap {A} (P Q : A → Prop) `{!∀ x, Decision (P x)}
    `{!∀ x, Decision (Q x)} (l : list A) :
  filter P (filter Q l) = filter Q (filter P l).
Proof.
  induction l as [|x l IH]; [done|].
  rewrite !(filter_cons _ x l).
  destruct (decide (Q x)), (decide (P x));
    rewrite ?filter_cons_True, ?filter_cons_False by done; by rewrite IH.
Qed.

(** X17. [_sort_and_filter] keeps exactly the entries whose score is at
    least the threshold, in descending order of score, entries of equal
    score in the order of the dict. *)
Theorem sort_and_filter_sorted (self : HistoryGraph) (d : list (string * Q)) :
  (∀ p, p ∈ _sort_and_filter self d
        ↔ p ∈ d ∧ (_score_threshold self <= p.2)%Q)
  ∧ _sort_and_filter self d
    ≡ₚ filter (λ p : string * Q,
                 Qle_bool (_score_threshold self) p.2 = true) d
  ∧ StronglySorted (λ a b : string * Q, (b.2 <= a.2)%Q)
      (_sort_and_filter self d)
  ∧ ∀ q, filter (λ a : string * Q, Qeq_bool a.2 q = true)
           (_sort_and_filter self d)
         = filter (λ a : string * Q, Qeq_bool a.2 q = true)
             (filter (λ p : string * Q,
                        Qle_bool (_score_threshold self) p.2 = true) d).
Proof.
  destruct (sorted_desc_spec d) as (Hp & Hs & Hf).
  unfold _sort_and_filter. split.
  { intros p. rewrite list_elem_of_filter, Hp, Qle_bool_iff. tauto. }
  split; [by rewrite Hp|].
  split; [by apply StronglySorted_filter|].
  intros q. rewrite filter_swap, Hf. apply filter_swap.
Qed.

(** ** Reachable files, the developers of a file, rare files *)

Lemma alist_get_Some_elem_of `{EqDecision K} {V} (d : list (K * V)) k v :
  alist_get k d = Some v → (k, v) ∈ d.
Proof.
  induction d as [|[k' v'] d IH]; simpl; [done|].
  destruct (decide (k = k')) as [->|]; [intros [= ->]; left|].
  intros H. right. auto.
Qed.

Lemma alist_get_NoDup `{EqDecision K} {V} (d : list (K * V)) k v :
  NoDup d.*1 → (k, v) ∈ d → alist_get k d = Some v.
Proof.
  induction d as [|[k' v'] d IH]; simpl; intros Hnd Hin.
  - by apply not_elem_of_nil in Hin.
  - apply NoDup_cons in Hnd as [Hk Hnd].
    apply elem_of_cons in Hin as [[= -> ->]|Hin].
    + by rewrite decide_True.
    + destruct (decide (k = k')) as [->|]; [|auto].
      destruct Hk. apply list_elem_of_fmap. by exists (k', v).
Qed.

Lemma reachable_files_of_keys self devs acc d :
  reachable_files_of self devs acc = Ok d →
  NoDup (acc.*1 ++ devs) → d.*1 = acc.*1 ++ devs.
Proof.
  revert acc. induction devs as [|dev devs IH]; intros acc; simpl.
  - intros [= <-] _. by rewrite app_nil_r.
  - destruct (find_reachable_files_of self dev) as [files|]; [|done]. simpl.
    intros H Hnd. apply NoDup_app in Hnd as Hnd'.
    destruct Hnd' as (_ & Hdis & _).
    assert (Hfresh : dev ∉ acc.*1).
    { intros Hin. apply (Hdis _ Hin). left. }
    rewrite alist_set_fresh in H by done.
    apply IH in H.
    + rewrite H, fmap_app. simpl. by rewrite <- app_assoc.
    + rewrite fmap_app. simpl. by rewrite <- app_assoc.
Qed.

(** X18. At every window position [get_dev_to_reachable_files] raises
    nothing; the table has one entry for each developer of the graph, in
    the order of [get_developers], and the files of an entry are File nodes
    of the graph, each listed once. *)
Theorem reachable_files_table (self : HistoryGraph) :
  position self →
  ∃ reach,
    (get_dev_to_reachable_files self).1 = Ok reach
    ∧ reach.*1 = get_developers self
    ∧ NoDup reach.*1
    ∧ ∀ dev files, (dev, files) ∈ reach →
        NoDup files ∧ ∀ f, f ∈ files → f ∈ get_files self.
Proof.
  intros Hpos. apply position_coherent in Hpos as Hc.
  apply position_ready in Hpos as Hr.
  rewrite (computes_fst _ _ _ get_dev_to_reachable_files_computes Hc).
  destruct (fresh_dev_to_reachable_files_total self Hr)
    as (d & Hd & Hnd & Hfiles).
  exists d. split; [done|]. split.
  - unfold fresh_dev_to_reachable_files in Hd.
    apply reachable_files_of_keys in Hd; [done|]. simpl.
    apply NoDup_filter_nodes_by_kind.
  - split; [done|]. intros dev files Hin. apply (Hfiles _ Hin).
Qed.

Lemma reachable_files_table_witness :
  ∃ reach,
    (get_dev_to_reachable_files sample_history).1 = Ok reach
    ∧ reach.*1 = get_developers sample_history
    ∧ NoDup reach.*1
    ∧ ∀ dev files, (dev, files) ∈ reach →
        NoDup files ∧ ∀ f, f ∈ files → f ∈ get_files sample_history.
Proof.
  apply (reachable_files_table sample_history).
  apply (position_init sample_dataset 4 10 50 (1 # 100)).
  vm_compute. reflexivity.
Defined.

(** What the files of one developer add under the key [f]. *)
Lemma file_to_devs_inner (f dev : string) (files : list string)
    (acc : list (string * list string)) :
  alist_get f (foldl (λ file_to_devs f', alist_append f' dev file_to_devs)
                     acc files)
  = appended (alist_get f acc)
      (omap (λ f', if decide (f' = f) then Some dev else None) files).
Proof.
  revert acc. induction files as [|f' files IH]; intros acc; cbn [foldl].
  - destruct (alist_get f acc); simpl; by rewrite ?app_nil_r.
  - rewrite IH, omap_cons_eq, alist_get_append.
    destruct (decide (f' = f)) as [->|Hne].
    + rewrite decide_True by done.
      destruct (alist_get f acc); simpl; by rewrite <- ?app_assoc.
    + by rewrite decide_False by congruence.
Qed.

Lemma omap_single (f dev : string) (files : list string) :
  NoDup files →
  omap (λ f', if decide (f' = f) then Some dev else None) files
  = if decide (f ∈ files) then [dev] else [].
Proof.
  induction 1 as [|f' files Hf' Hnd IH].
  - destruct (decide (f ∈ [])) as [H|]; [|done].
    by apply not_elem_of_nil in H.
  - rewrite omap_cons_eq, IH. destruct (decide (f' = f)) as [->|Hne].
    + rewrite (decide_False (P := f ∈ files)) by done.
      destruct (decide (f ∈ f :: files)) as [|H]; [done|]. destruct H. left.
    + destruct (decide (f ∈ files)) as [Hin|Hnin].
      * destruct (decide (f ∈ f' :: files)) as [|H]; [done|].
        destruct H. by right.
      * destruct (decide (f ∈ f' :: files)) as [H|]; [|done].
        apply elem_of_cons in H as [?|?]; [congruence|done].
Qed.

Lemma file_to_devs_outer (f : string) (d acc : list (string * list string)) :
  (∀ p, p ∈ d → NoDup p.2) →
  alist_get f
    (foldl (λ file_to_devs (p : string * list string),
              foldl (λ file_to_devs f', alist_append f' p.1 file_to_devs)
                    file_to_devs p.2)
           acc d)
  = appended (alist_get f acc)
      (filter (λ p : string * list string, f ∈ p.2) d).*1.
Proof.
  revert acc. induction d as [|[dev files] d IH]; intros acc Hnd;
    cbn [foldl].
  - destruct (alist_get f acc); simpl; by rewrite ?app_nil_r.
  - rewrite IH by (intros p Hp; apply Hnd; by right).
    cbn [fst snd]. rewrite file_to_devs_inner, appended_app.
    rewrite omap_single by (apply (Hnd (dev, files)); left).
    rewrite filter_cons. cbn [snd].
    by destruct (decide (f ∈ files)).
Qed.

Lemma listed_elem_of (d : list (string * list string)) k x :
  NoDup d.*1 →
  x ∈ listed k d ↔ ∃ l, (k, l) ∈ d ∧ x ∈ l.
Proof.
  intros Hnd. unfold listed. split.
  - destruct (alist_get k d) as [l|] eqn:E; simpl.
    + intros Hx. exists l. split; [|done]. by apply alist_get_Some_elem_of.
    + intros Hx. by apply not_elem_of_nil in Hx.
  - intros (l & Hl & Hx). by rewrite (alist_get_NoDup d k l Hnd Hl).
Qed.

Lemma file_to_devs_of_listed (d : list (string * list string)) f :
  (∀ p, p ∈ d → NoDup p.2) →
  listed f (file_to_devs_of d)
  = (filter (λ p : string * list string, f ∈ p.2) d).*1.
Proof.
  intros Hnd. unfold listed, file_to_devs_of.
  rewrite file_to_devs_outer by done. simpl.
  by destruct ((filter _ d).*1).
Qed.

Lemma file_to_devs_of_NoDup (d : list (string * list string)) :
  NoDup (file_to_devs_of d).*1.
Proof.
  unfold file_to_devs_of.
  assert (H : ∀ acc : list (string * list string), NoDup acc.*1 →
    NoDup (foldl (λ file_to_devs (p : string * list string),
              foldl (λ file_to_devs f', alist_append f' p.1 file_to_devs)
                    file_to_devs p.2) acc d).*1).
  { induction d as [|[dev files] d IH]; intros acc Hacc; cbn [foldl];
      [done|].
    apply IH. cbn [fst snd]. clear IH. revert acc Hacc.
    induction files as [|f files IHf]; intros acc Hacc; cbn [foldl];
      [done|].
    by apply IHf, alist_append_NoDup. }
  apply H. constructor.
Qed.

Lemma elem_of_listed_file_to_devs (d : list (string * list string)) f dev :
  NoDup d.*1 → (∀ p, p ∈ d → NoDup p.2) →
  dev ∈ listed f (file_to_devs_of d) ↔ f ∈ listed dev d.
Proof.
  intros Hnd Hnd2. rewrite file_to_devs_of_listed, listed_elem_of by done.
  rewrite list_elem_of_fmap. split.
  - intros ([dev' files] & -> & Hin).
    apply list_elem_of_filter in Hin as [Hf Hin]. eauto.
  - intros (files & Hin & Hf). exists (dev, files). split; [done|].
    by apply list_elem_of_filter.
Qed.

(** X19. At every window position the table of [get_file_to_devs] is the
    table of [get_dev_to_reachable_files] turned around: a developer is
    listed under a file exactly when the file is listed under the developer;
    the developers of a file are in the order of the first table, each
    once. *)
Theorem file_to_devs_inverts (self : HistoryGraph) :
  position self →
  ∃ reach file_to_devs,
    (get_dev_to_reachable_files self).1 = Ok reach
    ∧ (get_file_to_devs self).1 = Ok file_to_devs
    ∧ NoDup file_to_devs.*1
    ∧ (∀ f, listed f file_to_devs
            = (filter (λ p : string * list string, f ∈ p.2) reach).*1)
    ∧ (∀ f dev, dev ∈ listed f file_to_devs ↔ f ∈ listed dev reach)
    ∧ (∀ f devs, (f, devs) ∈ file_to_devs → devs ≠ [] ∧ NoDup devs).
Proof.
  intros Hpos. apply position_coherent in Hpos as Hc.
  apply position_ready in Hpos as Hr.
  rewrite (computes_fst _ _ _ get_dev_to_reachable_files_computes Hc).
  rewrite (computes_fst _ _ _ get_file_to_devs_computes Hc).
  unfold fresh_file_to_devs.
  destruct (fresh_dev_to_reachable_files_total self Hr)
    as (d & -> & Hnd & Hfiles).
  exists d, (file_to_devs_of d). simpl.
  assert (Hnd2 : ∀ p, p ∈ d → NoDup p.2).
  { intros p Hp. by apply Hfiles. }
  assert (Hlisted : ∀ f, listed f (file_to_devs_of d)
            = (filter (λ p : string * list string, f ∈ p.2) d).*1).
  { intros f. by apply file_to_devs_of_listed. }
  assert (HndF : NoDup (file_to_devs_of d).*1)
    by apply file_to_devs_of_NoDup.
  split; [done|]. split; [done|]. split; [done|]. split; [done|]. split.
  - intros f dev. by apply elem_of_listed_file_to_devs.
  - intros f devs Hin.
    assert (Hl : listed f (file_to_devs_of d) = devs).
    { unfold listed. by rewrite (alist_get_NoDup _ f devs HndF Hin). }
    rewrite Hlisted in Hl. subst devs. split.
    + unfold file_to_devs_of in Hin.
      apply alist_get_NoDup in Hin; [|done].
      fold (file_to_devs_of d) in Hin.
      unfold file_to_devs_of in Hin.
      rewrite file_to_devs_outer in Hin by done. simpl in Hin.
      destruct ((filter _ d).*1) eqn:E; [done|].
      by destruct ((filter _ d).*1).
    + eapply sublist_NoDup; [exact Hnd|].
      apply fmap_sublist, sublist_filter.
Qed.

Lemma file_to_devs_inverts_witness :
  ∃ reach file_to_devs,
    (get_dev_to_reachable_files sample_history).1 = Ok reach
    ∧ (get_file_to_devs sample_history).1 = Ok file_to_devs
    ∧ NoDup file_to_devs.*1
    ∧ (∀ f, listed f file_to_devs
            = (filter (λ p : string * list string, f ∈ p.2) reach).*1)
    ∧ (∀ f dev, dev ∈ listed f file_to_devs ↔ f ∈ listed dev reach)
    ∧ (∀ f devs, (f, devs) ∈ file_to_devs → devs ≠ [] ∧ NoDup devs).
Proof.
  apply (file_to_devs_inverts sample_history).
  apply (position_init sample_dataset 4 10 50 (1 # 100)).
  vm_compute. reflexivity.
Defined.

Lemma NoDup_singleton_iff {A} (l : list A) (x : A) :
  NoDup l → l = [x] ↔ x ∈ l ∧ ∀ y, y ∈ l → y = x.
Proof.
  intros Hnd. split.
  - intros ->. split; [left|]. intros y Hy.
    by apply list_elem_of_singleton in Hy.
  - intros [Hx Hall]. destruct l as [|a l]; [by apply not_elem_of_nil in Hx|].
    apply NoDup_cons in Hnd as [Ha Hnd].
    assert (a = x) as -> by (apply Hall; left).
    destruct l as [|b l]; [done|].
    assert (b = x) as -> by (apply Hall; right; left).
    destruct Ha. left.
Qed.

Lemma dev_to_rare_files_outer (dev : string)
    (ftd acc : list (string * list string)) :
  alist_get dev
    (foldl (λ dev_to_rarefiles (p : string * list string),
              match p.2 with
              | [dev] => alist_append dev p.1 dev_to_rarefiles
              | _ => dev_to_rarefiles
              end) acc ftd)
  = appended (alist_get dev acc)
      (filter (λ p : string * list string, p.2 = [dev]) ftd).*1.
Proof.
  revert acc. induction ftd as [|[f devs] ftd IH]; intros acc; cbn [foldl].
  - destruct (alist_get dev acc); simpl; by rewrite ?app_nil_r.
  - rewrite IH, filter_cons. cbn [snd fst].
    destruct devs as [|dev' [|? ?]].
    + by rewrite decide_False by done.
    + rewrite alist_get_append. destruct (decide (dev' = dev)) as [->|Hne].
      * rewrite !decide_True by done.
        destruct (alist_get dev acc); simpl; by rewrite <- ?app_assoc.
      * by rewrite !decide_False by congruence.
    + by rewrite decide_False by done.
Qed.

Lemma dev_to_rare_files_of_listed (ftd : list (string * list string)) dev :
  listed dev (dev_to_rare_files_of ftd)
  = (filter (λ p : string * list string, p.2 = [dev]) ftd).*1.
Proof.
  unfold listed, dev_to_rare_files_of. rewrite dev_to_rare_files_outer.
  simpl. by destruct ((filter _ ftd).*1).
Qed.

Lemma elem_of_listed_rare (ftd : list (string * list string)) dev f :
  NoDup ftd.*1 →
  f ∈ listed dev (dev_to_rare_files_of ftd) ↔ listed f ftd = [dev].
Proof.
  intros Hnd. rewrite dev_to_rare_files_of_listed, list_elem_of_fmap. split.
  - intros ([f' devs] & -> & Hin).
    apply list_elem_of_filter in Hin as [Hd Hin]. simpl in *. subst devs.
    unfold listed. by rewrite (alist_get_NoDup _ _ _ Hnd Hin).
  - unfold listed. intros Hl.
    destruct (alist_get f ftd) as [devs|] eqn:E; [|done].
    simpl in Hl. subst devs. apply alist_get_Some_elem_of in E.
    exists (f, [dev]). split; [done|]. by apply list_elem_of_filter.
Qed.

(** X20. At every window position the rare files of a developer are the
    files that this developer reaches and no other developer reaches; a
    developer without such a file has no entry, and no file is listed
    twice. *)
Theorem rare_files_have_one_developer (self : HistoryGraph) :
  position self →
  ∃ reach rare,
    (get_dev_to_reachable_files self).1 = Ok reach
    ∧ (get_dev_to_rare_files self).1 = Ok rare
    ∧ NoDup rare.*1
    ∧ (∀ dev files, (dev, files) ∈ rare → files ≠ [] ∧ NoDup files)
    ∧ ∀ dev f,
        f ∈ listed dev rare
        ↔ f ∈ listed dev reach
          ∧ ∀ dev', f ∈ listed dev' reach → dev' = dev.
Proof.
  intros Hpos. apply position_coherent in Hpos as Hc.
  apply position_ready in Hpos as Hr.
  rewrite (computes_fst _ _ _ get_dev_to_reachable_files_computes Hc).
  rewrite (computes_fst _ _ _ get_dev_to_rare_files_computes Hc).
  unfold fresh_dev_to_rare_files, fresh_file_to_devs.
  destruct (fresh_dev_to_reachable_files_total self Hr)
    as (d & -> & Hnd & Hfiles).
  exists d, (dev_to_rare_files_of (file_to_devs_of d)). simpl.
  assert (Hnd2 : ∀ p, p ∈ d → NoDup p.2).
  { intros p Hp. by apply Hfiles. }
  assert (HndF : NoDup (file_to_devs_of d).*1)
    by apply file_to_devs_of_NoDup.
  destruct (dev_to_rare_files_of_spec (file_to_devs_of d)) as [Hne HndR].
  split; [done|]. split; [done|]. split; [done|]. split.
  - intros dev files Hin. split.
    + rewrite Forall_forall in Hne. apply (Hne _ Hin).
    + assert (Hl : listed dev (dev_to_rare_files_of (file_to_devs_of d))
                   = files).
      { unfold listed. by rewrite (alist_get_NoDup _ _ _ HndR Hin). }
      rewrite dev_to_rare_files_of_listed in Hl. subst files.
      eapply sublist_NoDup; [exact HndF|].
      apply fmap_sublist, sublist_filter.
  - intros dev f. rewrite elem_of_listed_rare by done.
    rewrite NoDup_singleton_iff.
    + rewrite elem_of_listed_file_to_devs by done.
      split; intros [H1 H2]; (split; [done|]); intros dev' Hdev';
        apply H2; by apply elem_of_listed_file_to_devs.
    + rewrite file_to_devs_of_listed by done.
      eapply sublist_NoDup; [exact Hnd|].
      apply fmap_sublist, sublist_filter.
Qed.

Lemma rare_files_have_one_developer_witness :
  ∃ reach rare,
    (get_dev_to_reachable_files sample_history).1 = Ok reach
    ∧ (get_dev_to_rare_files sample_history).1 = Ok rare
    ∧ NoDup rare.*1
    ∧ (∀ dev files, (dev, files) ∈ rare → files ≠ [] ∧ NoDup files)
    ∧ ∀ dev f,
        f ∈ listed dev rare
        ↔ f ∈ listed dev reach
          ∧ ∀ dev', f ∈ listed dev' reach → dev' = dev.
Proof.
  apply (rare_files_have_one_developer sample_history).
  apply (position_init sample_dataset 4 10 50 (1 # 100)).
  vm_compute. reflexivity.
Defined.

(** ** validation.py *)

Lemma Qdiv_unit_interval (a b : Z) :
  0 ≤ a ≤ b → 0 < b →
  (0 <= inject_Z a / inject_Z b)%Q ∧ (inject_Z a / inject_Z b <= 1)%Q.
Proof.
  intros Ha Hb.
  assert (Hb' : (0 < inject_Z b)%Q) by (rewrite <- (Zlt_Qlt 0); done).
  split.
  - apply Qle_shift_div_l; [done|]. rewrite Qmult_0_l.
    rewrite <- (Zle_Qle 0). lia.
  - apply Qle_shift_div_r; [done|]. rewrite Qmult_1_l.
    rewrite <- Zle_Qle. lia.
Qed.

Lemma Qdiv_eq_1 (a b : Z) :
  0 < b → (inject_Z a / inject_Z b == 1)%Q ↔ a = b.
Proof.
  intros Hb.
  assert (Hb' : ¬ (inject_Z b == 0)%Q).
  { intros H. change 0%Q with (inject_Z 0) in H.
    apply (proj1 (inject_Z_injective _ _)) in H. lia. }
  split.
  - intros H. apply inject_Z_injective.
    rewrite <- (Qmult_div_r (inject_Z a) (inject_Z b)) by done.
    rewrite H. apply Qmult_1_r.
  - intros ->. apply Qmult_inv_r. done.
Qed.

Lemma Qdiv_eq_0 (a b : Z) :
  0 < b → (inject_Z a / inject_Z b == 0)%Q ↔ a = 0.
Proof.
  intros Hb.
  assert (Hb' : ¬ (inject_Z b == 0)%Q).
  { intros H. change 0%Q with (inject_Z 0) in H.
    apply (proj1 (inject_Z_injective _ _)) in H. lia. }
  split.
  - intros H. apply inject_Z_injective.
    rewrite <- (Qmult_div_r (inject_Z a) (inject_Z b)) by done.
    rewrite H. apply Qmult_0_r.
  - intros ->. unfold Qdiv. apply Qmult_0_l.
Qed.

(** X21. [accuracy] raises ZeroDivisionError exactly when [set1] is empty.
    Otherwise it returns a ratio between 0 and 1, which is 1 exactly when
    [set1] is included in [set2] and 0 exactly when the sets are disjoint. *)
Theorem accuracy_of_sets (set1 set2 : gset string) :
  (set1 = ∅ ∧ accuracy set1 set2 = Raise ZeroDivisionError)
  ∨ (set1 ≠ ∅
     ∧ ∃ q, accuracy set1 set2 = Ok q
       ∧ (0 <= q)%Q ∧ (q <= 1)%Q
       ∧ ((q == 1)%Q ↔ set1 ⊆ set2)
       ∧ ((q == 0)%Q ↔ set1 ## set2)).
Proof.
  unfold accuracy, true_div.
  destruct (decide (set1 = ∅)) as [->|Hne].
  - left. split; [done|]. by rewrite size_empty.
  - right. split; [done|].
    assert (Hpos : 0 < Z.of_nat (size set1)).
    { assert (size set1 ≠ 0%nat); [|lia].
      intros H. apply size_empty_iff in H. by apply leibniz_equiv in H. }
    assert (Hle : (size (set1 ∩ set2) ≤ size set1)%nat).
    { apply subseteq_size. set_solver. }
    rewrite (proj2 (Z.eqb_neq _ _)) by lia.
    eexists. split; [done|].
    destruct (Qdiv_unit_interval (Z.of_nat (size (set1 ∩ set2)))
                (Z.of_nat (size set1))) as [H0 H1]; [lia|done|].
    split; [done|]. split; [done|]. split.
    + rewrite Qdiv_eq_1 by done. split.
      * intros H.
        assert (Heq : set1 ∩ set2 = set1).
        { apply set_subseteq_size_eq; [set_solver|lia]. }
        set_solver.
      * intros H. f_equal. f_equal. apply leibniz_equiv. set_solver.
    + rewrite Qdiv_eq_0 by done. split.
      * intros H. assert (H' : size (set1 ∩ set2) = 0%nat) by lia.
        apply size_empty_iff in H'. set_solver.
      * intros H. assert (H' : set1 ∩ set2 = ∅).
        { apply leibniz_equiv. set_solver. }
        by rewrite H', size_empty.
Qed.

Lemma foldl_Qplus_le {A} (f g : A → Q) (l : list A) (a b : Q) :
  (a <= b)%Q → (∀ x, x ∈ l → (f x <= g x)%Q) →
  (foldl Qplus a (map f l) <= foldl Qplus b (map g l))%Q.
Proof.
  revert a b. induction l as [|x l IH]; intros a b Hab Hfg; simpl; [done|].
  apply IH.
  - apply Qplus_le_compat; [done|]. apply Hfg. left.
  - intros y Hy. apply Hfg. by right.
Qed.

Lemma foldl_Qplus_const {A} (c : Q) (l : list A) (a : Q) :
  (foldl Qplus a (map (λ _, c) l)
   == a + inject_Z (Z.of_nat (length l)) * c)%Q.
Proof.
  revert a. induction l as [|x l IH]; intros a; simpl length; simpl map;
    cbn [foldl].
  - simpl. rewrite Qmult_0_l. by rewrite Qplus_0_r.
  - rewrite IH. rewrite Nat2Z.inj_succ, <- Z.add_1_r, inject_Z_plus.
    rewrite Qmult_plus_distr_l, Qmult_1_l.
    rewrite <- Qplus_assoc. apply Qplus_comp; [reflexivity|].
    apply Qplus_comm.
Qed.

Lemma average_le {A} (f g : A → Q) (l : list A) :
  (∀ x, x ∈ l → (f x <= g x)%Q) →
  (py_sum (map f l) / inject_Z (Z.of_nat (length l))
   <= py_sum (map g l) / inject_Z (Z.of_nat (length l)))%Q.
Proof.
  intros Hfg. unfold Qdiv. apply Qmult_le_compat_r.
  - by apply foldl_Qplus_le; [apply Qle_refl|].
  - apply Qinv_le_0_compat. rewrite <- (Zle_Qle 0). lia.
Qed.

Lemma average_unit_interval {A} (f : A → Q) (l : list A) :
  l ≠ [] → (∀ x, x ∈ l → (0 <= f x)%Q ∧ (f x <= 1)%Q) →
  (0 <= py_sum (map f l) / inject_Z (Z.of_nat (length l)))%Q
  ∧ (py_sum (map f l) / inject_Z (Z.of_nat (length l)) <= 1)%Q.
Proof.
  intros Hne Hf.
  assert (Hn : (0 < inject_Z (Z.of_nat (length l)))%Q).
  { rewrite <- (Zlt_Qlt 0). destruct l; [done|]. simpl length. lia. }
  split.
  - apply Qle_shift_div_l; [done|]. rewrite Qmult_0_l.
    assert (H0 : (py_sum (map (λ _ : A, 0%Q) l) == 0)%Q).
    { unfold py_sum. rewrite foldl_Qplus_const.
      rewrite Qmult_0_r. apply Qplus_0_l. }
    rewrite <- H0. apply foldl_Qplus_le; [apply Qle_refl|].
    intros x Hx. by apply Hf.
  - apply Qle_shift_div_r; [done|]. rewrite Qmult_1_l.
    assert (H1 : (py_sum (map (λ _ : A, 1%Q) l)
                  == inject_Z (Z.of_nat (length l)))%Q).
    { unfold py_sum. rewrite foldl_Qplus_const.
      rewrite Qmult_1_r. apply Qplus_0_l. }
    rewrite <- H1. apply foldl_Qplus_le; [apply Qle_refl|].
    intros x Hx. by apply Hf.
Qed.

Lemma topk_cells_positive c : c ∈ topk_cells → 1 ≤ c.1 ∧ c.1 ≤ c.2.
Proof.
  intros Hc. assert (H : Forall (λ c : Z * Z, 1 ≤ c.1 ∧ c.1 ≤ c.2) topk_cells).
  { apply (bool_decide_unpack _). vm_compute. exact I. }
  rewrite Forall_forall in H. by apply H.
Qed.

Lemma slice_to_nonempty (k : Z) (top : list string) :
  1 ≤ k → top ≠ [] →
  size (list_to_set (C := gset string) (slice_to k top)) ≠ 0%nat.
Proof.
  intros Hk Htop Hsize. apply size_empty_iff in Hsize.
  destruct top as [|x top]; [done|]. unfold slice_to in Hsize.
  destruct (Z.to_nat k) as [|n] eqn:E; [lia|]. simpl in Hsize. set_solver.
Qed.

Lemma topk_append_spec top_commenters key_developers
    (accs : list (Z * Z * list Q)) date correct :
  alist_get date correct = Some top_commenters → top_commenters ≠ [] →
  Forall (λ a : Z * Z * list Q, 1 ≤ a.1.1) accs →
  topk_append top_commenters key_developers accs
  = Ok (map (λ a : Z * Z * list Q,
               (a.1, a.2 ++ [cell_accuracy correct a.1
                               (date, key_developers)])) accs).
Proof.
  intros Hget Htop. induction 1 as [|[[k1 k2] values] accs Hk _ IH];
    [done|].
  cbn [topk_append]. unfold accuracy at 1, true_div.
  rewrite (proj2 (Z.eqb_neq _ _)).
  - cbn [res_bind]. rewrite IH. cbn [res_bind map fst snd].
    unfold cell_accuracy. cbn [fst snd]. by rewrite Hget.
  - pose proof (slice_to_nonempty k1 top_commenters Hk Htop). lia.
Qed.

Lemma topk_loop_spec (predicted correct : list (Z * list string))
    (accs : list (Z * Z * list Q)) :
  has_top_commenters predicted correct →
  Forall (λ a : Z * Z * list Q, 1 ≤ a.1.1) accs →
  topk_loop predicted correct accs
  = Ok (map (λ a : Z * Z * list Q,
               (a.1, a.2 ++ map (cell_accuracy correct a.1) predicted))
            accs).
Proof.
  intros Hp. revert accs.
  induction Hp as [|[date key] predicted Htop _ IH]; intros accs Haccs.
  - simpl. f_equal. induction accs as [|[c vs] accs IHa]; [done|].
    simpl. rewrite app_nil_r. f_equal. apply IHa.
    by apply Forall_inv_tail in Haccs.
  - cbn [topk_loop]. cbn [fst] in Htop.
    destruct (alist_get date correct) as [top|] eqn:Hget; [|done].
    simpl in Htop.
    rewrite (topk_append_spec top key accs date correct Hget Htop Haccs).
    cbn [res_bind]. rewrite IH.
    + f_equal. rewrite map_map. apply map_ext. intros [c vs]. simpl.
      by rewrite <- app_assoc.
    + rewrite Forall_map. by apply (Forall_impl _ _ _ Haccs).
Qed.

Lemma topk_averages_spec {A} (f : Z * Z → A → Q) (l : list A)
    (cells : list (Z * Z)) :
  l ≠ [] →
  topk_averages (map (λ c, (c, map (f c) l)) cells)
  = Ok (map (λ c, (c, (py_sum (map (f c) l)
                       / inject_Z (Z.of_nat (length l)))%Q)) cells).
Proof.
  intros Hl. induction cells as [|c cells IH]; [done|].
  cbn [map topk_averages]. rewrite IH. unfold average.
  destruct l as [|x l]; [done|]. cbn [map res_bind]. cbn [length].
  by rewrite ?length_map.
Qed.

Lemma cell_accuracy_unit_interval correct c p :
  1 ≤ c.1 → default [] (alist_get p.1 correct) ≠ [] →
  (0 <= cell_accuracy correct c p)%Q ∧ (cell_accuracy correct c p <= 1)%Q.
Proof.
  intros Hc Htop. unfold cell_accuracy. cbv zeta.
  pose proof (slice_to_nonempty c.1 _ Hc Htop) as Hsize.
  apply Qdiv_unit_interval; [|lia]. split; [lia|].
  apply Nat2Z.inj_le, subseteq_size. set_solver.
Qed.

Lemma take_le_subseteq (l : list string) (n m : nat) :
  (n ≤ m)%nat →
  list_to_set (C := gset string) (take n l) ⊆ list_to_set (take m l).
Proof.
  intros Hnm x. rewrite !elem_of_list_to_set.
  rewrite !list_elem_of_lookup. intros (i & Hi). exists i.
  apply lookup_take_Some in Hi as [Hi Hlt].
  apply lookup_take_Some. split; [done|lia].
Qed.

Lemma cell_accuracy_mono correct k1 k2 k2' p :
  k2 ≤ k2' →
  (cell_accuracy correct (k1, k2) p <= cell_accuracy correct (k1, k2') p)%Q.
Proof.
  intros Hk. unfold cell_accuracy. cbv zeta. cbn [fst snd]. unfold Qdiv.
  apply Qmult_le_compat_r.
  - rewrite <- Zle_Qle. apply Nat2Z.inj_le, subseteq_size.
    assert (H := take_le_subseteq p.2 (Z.to_nat k2) (Z.to_nat k2')).
    unfold slice_to. set_solver by lia.
  - apply Qinv_le_0_compat. rewrite <- (Zle_Qle 0). lia.
Qed.

(** X22. When there is a prediction and every predicted date has at least
    one top commenter, [topk_table] returns the ten cells [(k1, k2)] with
    [k1 <= k2] among 1, 3, 5, 10; a cell holds the mean over the dates of
    the part of the first [k1] top commenters found among the first [k2]
    predicted developers.  A cell is between 0 and 1, and grows with
    [k2]. *)
Theorem topk_table_cells (predicted correct : list (Z * list string)) :
  predicted ≠ [] → has_top_commenters predicted correct →
  ∃ table,
    topk_table predicted correct = Ok table
    ∧ table
      = map (λ c, (c, (py_sum (map (cell_accuracy correct c) predicted)
                       / inject_Z (Z.of_nat (length predicted)))%Q))
            topk_cells
    ∧ (∀ c q, (c, q) ∈ table → (0 <= q)%Q ∧ (q <= 1)%Q)
    ∧ ∀ k1 k2 k2' q q',
        (k1, k2, q) ∈ table → (k1, k2', q') ∈ table → k2 ≤ k2' →
        (q <= q')%Q.
Proof.
  intros Hne Htop. eexists. split; [|split; [reflexivity|]].
  - unfold topk_table. cbv zeta. rewrite topk_loop_spec; [|done|].
    + cbn [res_bind]. rewrite map_map. cbn [fst snd app].
      by apply (topk_averages_spec (cell_accuracy correct)).
    + rewrite Forall_map, Forall_forall. intros c Hc.
      by apply topk_cells_positive.
  - split.
    + intros c q Hin. apply list_elem_of_fmap in Hin as (c' & [= -> ->] & Hc).
      apply average_unit_interval; [done|]. intros p Hp.
      apply cell_accuracy_unit_interval.
      * by apply topk_cells_positive.
      * unfold has_top_commenters in Htop. rewrite Forall_forall in Htop.
        by apply Htop.
    + intros k1 k2 k2' q q' Hq Hq' Hk.
      apply list_elem_of_fmap in Hq as (c & [= <- ->] & _).
      apply list_elem_of_fmap in Hq' as (c' & [= <- ->] & _).
      apply average_le. intros p _. by apply cell_accuracy_mono.
Qed.

Lemma topk_table_cells_witness :
  ∃ table,
    topk_table sample_predictions sample_top_commenters = Ok table
    ∧ table
      = map (λ c, (c, (py_sum (map (cell_accuracy sample_top_commenters c)
                                   sample_predictions)
                       / inject_Z (Z.of_nat (length sample_predictions)))%Q))
            topk_cells
    ∧ (∀ c q, (c, q) ∈ table → (0 <= q)%Q ∧ (q <= 1)%Q)
    ∧ ∀ k1 k2 k2' q q',
        (k1, k2, q) ∈ table → (k1, k2', q') ∈ table → k2 ≤ k2' →
        (q <= q')%Q.
Proof.
  apply (topk_table_cells sample_predictions sample_top_commenters).
  - done.
  - apply (bool_decide_unpack _). vm_compute. exact I.
Defined.

Lemma topk_loop_raises (predicted correct : list (Z * list string))
    (accs : list (Z * Z * list Q)) :
  accs ≠ [] → Forall (λ a : Z * Z * list Q, 1 ≤ a.1.1) accs →
  ¬ has_top_commenters predicted correct →
  (topk_loop predicted correct accs = Raise ZeroDivisionError
   ∧ ∃ p, p ∈ predicted ∧ alist_get p.1 correct = Some [])
  ∨ (topk_loop predicted correct accs = Raise KeyError
     ∧ ∃ p, p ∈ predicted ∧ alist_get p.1 correct = None).
Proof.
  revert accs. induction predicted as [|[date key] predicted IH];
    intros accs Hne Haccs Hno.
  - destruct Hno. constructor.
  - cbn [topk_loop].
    destruct (alist_get date correct) as [[|x top]|] eqn:Hget.
    + left. split; [|exists (date, key); split; [left|done]].
      destruct accs as [|[[k1 k2] values] accs]; [done|].
      cbn [topk_append]. unfold slice_to at 1. rewrite take_nil.
      unfold accuracy at 1, true_div. rewrite list_to_set_nil, size_empty.
      reflexivity.
    + rewrite (topk_append_spec (x :: top) key accs date correct Hget)
        by done.
      cbn [res_bind].
      destruct (IH (map (λ a : Z * Z * list Q,
                      (a.1, a.2 ++ [cell_accuracy correct a.1 (date, key)]))
                    accs)) as [[-> (p & Hp & Hpget)]|[-> (p & Hp & Hpget)]].
      * by destruct accs.
      * rewrite Forall_map. by apply (Forall_impl _ _ _ Haccs).
      * intros Htop. apply Hno. constructor; [|done]. simpl.
        by rewrite Hget.
      * left. split; [done|]. exists p. split; [by right|done].
      * right. split; [done|]. exists p. split; [by right|done].
    + right. split; [done|]. exists (date, key). split; [left|done].
Qed.

(** X23. [topk_table] returns a table exactly when there is at least one
    predicted date and every predicted date has a top commenter.  Without a
    predicted date, or with a date whose list of top commenters is empty,
    it raises ZeroDivisionError; with a date absent from the top commenters
    it raises KeyError. *)
Theorem topk_table_returns_iff (predicted correct : list (Z * list string)) :
  match topk_table predicted correct with
  | Ok _ => predicted ≠ [] ∧ has_top_commenters predicted correct
  | Raise e =>
      (e = ZeroDivisionError
       ∧ (predicted = []
          ∨ ∃ p, p ∈ predicted ∧ alist_get p.1 correct = Some []))
      ∨ (e = KeyError ∧ ∃ p, p ∈ predicted ∧ alist_get p.1 correct = None)
  end.
Proof.
  assert (Hcells : Forall (λ a : Z * Z * list Q, 1 ≤ a.1.1)
                     (map (λ c : Z * Z, (c, @nil Q)) topk_cells)).
  { rewrite Forall_map, Forall_forall. intros c Hc.
    by apply topk_cells_positive. }
  destruct predicted as [|p predicted]; [left; split; [done|by left]|].
  destruct (decide (has_top_commenters (p :: predicted) correct))
    as [Htop|Hno].
  - unfold topk_table. cbv zeta. rewrite topk_loop_spec by done.
    cbn [res_bind]. rewrite map_map. cbn [fst snd app].
    by rewrite (topk_averages_spec (cell_accuracy correct)).
  - unfold topk_table. cbv zeta.
    destruct (topk_loop_raises (p :: predicted) correct
                (map (λ c : Z * Z, (c, @nil Q)) topk_cells))
      as [[-> H]|[-> H]]; [done|done|done| |].
    + left. split; [done|by right].
    + right. by split.
Qed.

(** ** The distance of an edge *)

Lemma Qdiv_antitone (b a a' : Z) :
  0 ≤ b → 0 < a → a ≤ a' →
  (inject_Z b / inject_Z a' <= inject_Z b / inject_Z a)%Q.
Proof.
  intros Hb Ha Ha'. destruct a as [|a|a], a' as [|a'|a']; try lia.
  unfold Qle, Qdiv, Qmult, Qinv, inject_Z. simpl. nia.
Qed.

Lemma Qdiv_negative (b a : Z) :
  0 < b → a < 0 → (inject_Z b / inject_Z a < 0)%Q.
Proof.
  intros Hb Ha. destruct a as [|a|a], b as [|b|b]; try lia.
  unfold Qlt, Qdiv, Qmult, Qinv, inject_Z. simpl. lia.
Qed.

Lemma div_day_bounds (x y r : Z) :
  0 ≤ x → x ≤ y → y < r * usec_per_day →
  0 ≤ x `div` usec_per_day
  ∧ x `div` usec_per_day ≤ y `div` usec_per_day
  ∧ y `div` usec_per_day < r.
Proof.
  intros Hx Hxy Hy. split; [by apply Z.div_pos|].
  split; [by apply Z.div_le_mono|].
  apply Z.div_lt_upper_bound; [done|]. lia.
Qed.

Lemma _calculate_distance_Finite (self : HistoryGraph) (first e : Z) :
  _first_date (_data_manager self) = Some first →
  0 < _graph_range_in_days self →
  (e - first) `div` usec_per_day + 1 ≠ 0 →
  ∃ q, _calculate_distance self (Some e) = Ok (Finite q)
    ∧ (q == 1 / (inject_Z ((e - first) `div` usec_per_day + 1)
                 / inject_Z (_graph_range_in_days self)))%Q.
Proof.
  intros Hfirst Hrange Hday.
  unfold _calculate_distance, _which_day, get_first_included_date.
  rewrite Hfirst. cbn [res_bind].
  assert (Hr0 : (_graph_range_in_days self =? 0) = false)
    by (apply Z.eqb_neq; clear - Hrange; lia).
  rewrite Hr0. cbv zeta.
  destruct (Qeq_bool _ 0) eqn:E.
  - apply Qeq_bool_eq in E.
    assert (Hr : ¬ (inject_Z (_graph_range_in_days self) == 0)%Q).
    { intros H. change 0%Q with (inject_Z 0) in H.
      apply (proj1 (inject_Z_injective _ _)) in H. clear - Hrange H. lia. }
    destruct Hday. apply inject_Z_injective.
    rewrite <- (Qmult_div_r _ (inject_Z (_graph_range_in_days self)))
      by done.
    rewrite E. change (inject_Z 0) with 0%Q. apply Qmult_0_r.
  - eexists. split; [done|reflexivity].
Qed.

(** X25. An edge dated before the first included date gets no distance of
    a window edge: on the day before the window the distance is infinite,
    and for any earlier date it is a negative number. *)
Theorem distance_before_the_window (self : HistoryGraph) (first e : Z) :
  _first_date (_data_manager self) = Some first →
  0 < _graph_range_in_days self →
  e < first →
  if decide (first - usec_per_day ≤ e)
  then _calculate_distance self (Some e) = Ok Infinity
  else ∃ q, _calculate_distance self (Some e) = Ok (Finite q) ∧ (q < 0)%Q.
Proof.
  intros Hfirst Hrange He.
  destruct (decide (first - usec_per_day ≤ e)) as [Hday|Hday].
  - assert (Hd : (e - first) `div` usec_per_day = -1).
    { symmetry. apply (Z.div_unique _ _ _ (e - first + usec_per_day)).
      - left. unfold usec_per_day in *. lia.
      - unfold usec_per_day. lia. }
    unfold _calculate_distance, _which_day, get_first_included_date.
    rewrite Hfirst. cbn [res_bind].
    assert (Hr0 : (_graph_range_in_days self =? 0) = false)
      by (apply Z.eqb_neq; clear - Hrange; lia).
    rewrite Hr0. cbv zeta. rewrite Hd.
    change (-1 + 1) with 0.
    assert (E : Qeq_bool (inject_Z 0
                          / inject_Z (_graph_range_in_days self)) 0 = true).
    { apply Qeq_eq_bool. unfold Qdiv. apply Qmult_0_l. }
    by rewrite E.
  - assert (Hd : (e - first) `div` usec_per_day + 1 < 0).
    { assert ((e - first) `div` usec_per_day < -1) as H;
        [|clear - H; lia].
      apply Z.div_lt_upper_bound; [done|].
      unfold usec_per_day in *. lia. }
    destruct (_calculate_distance_Finite self first e Hfirst Hrange)
      as (q & Hq & Eq); [clear - Hd; lia|].
    exists q. split; [done|]. rewrite Eq.
    set (day := (e - first) `div` usec_per_day + 1) in *.
    set (r := _graph_range_in_days self) in *.
    clearbody day r.
    destruct day as [|d|d], r as [|r|r]; try lia.
    unfold Qlt, Qdiv, Qmult, Qinv, inject_Z. simpl. lia.
Qed.

Lemma distance_before_the_window_witness :
  if decide (max_of_day (noon 2) - usec_per_day ≤ max_of_day (noon 0))
  then _calculate_distance sample_history_later (Some (max_of_day (noon 0)))
       = Ok Infinity
  else ∃ q, _calculate_distance sample_history_later
              (Some (max_of_day (noon 0))) = Ok (Finite q) ∧ (q < 0)%Q.
Proof.
  apply (distance_before_the_window sample_history_later
           (max_of_day (noon 2)) (max_of_day (noon 0))).
  - vm_compute. reflexivity.
  - vm_compute. reflexivity.
  - vm_compute. reflexivity.
Defined.

(** ** The developer graph *)

Lemma devG_of_snoc (l : list (string * string * Q)) (e : string * string * Q) :
  devG_of (l ++ [e])
  = mkDevGraph ({[e.1.1; e.1.2]} ∪ dg_node (devG_of l))
      (<[(e.1.2, e.1.1) := e.2]> (<[e.1 := e.2]> (dg_adj (devG_of l)))).
Proof. unfold devG_of. by rewrite foldl_app. Qed.

Lemma devG_of_adjacent (l : list (string * string * Q)) a b :
  is_Some (dg_adj (devG_of l) !! (a, b)) ↔ (a, b) ∈ l.*1 ∨ (b, a) ∈ l.*1.
Proof.
  induction l as [|[[x y] v] l IH] using rev_ind.
  - split; [by intros [? ?]|]. intros [H|H]; by apply not_elem_of_nil in H.
  - rewrite devG_of_snoc, fmap_app, !elem_of_app, list_fmap_singleton.
    cbn [dg_adj fst snd]. rewrite !list_elem_of_singleton.
    destruct (decide ((a, b) = (y, x))) as [[= -> ->]|Hne1].
    + rewrite lookup_insert_eq. split; [|by eexists]. intros _. right. by right.
    + rewrite lookup_insert_ne by done.
      destruct (decide ((a, b) = (x, y))) as [[= -> ->]|Hne2].
      * rewrite lookup_insert_eq. split; [|by eexists]. intros _. left.
        by right.
      * rewrite lookup_insert_ne by done. rewrite IH. split.
        -- intros [H|H]; [left|right]; by left.
        -- intros [[H|H]|[H|H]]; [by left|done|by right|].
           injection H as -> ->. done.
Qed.

Lemma devG_of_nodes (l : list (string * string * Q)) n :
  n ∈ dg_node (devG_of l) ↔ ∃ b, (n, b) ∈ l.*1 ∨ (b, n) ∈ l.*1.
Proof.
  induction l as [|[[x y] v] l IH] using rev_ind.
  - split; [intros H; by apply not_elem_of_empty in H|].
    intros (b & [H|H]); by apply not_elem_of_nil in H.
  - rewrite devG_of_snoc, fmap_app, list_fmap_singleton.
    cbn [dg_node fst snd].
    rewrite !elem_of_union, elem_of_singleton, elem_of_singleton, IH.
    split.
    + intros [[->| ->]|(b & [H|H])].
      * exists y. left. apply elem_of_app. right. left.
      * exists x. right. apply elem_of_app. right. left.
      * exists b. left. apply elem_of_app. by left.
      * exists b. right. apply elem_of_app. by left.
    + intros (b & [H|H]); apply elem_of_app in H as [H|H].
      * right. exists b. by left.
      * apply list_elem_of_singleton in H as [= -> ->]. left. by left.
      * right. exists b. by right.
      * apply list_elem_of_singleton in H as [= -> ->]. left. by right.
Qed.

Lemma sum_reciprocals_nonneg l : (0 <= sum_reciprocals l)%Q.
Proof.
  induction l as [|d l IH]; simpl; [done|].
  replace 0%Q with (0 + 0)%Q by reflexivity.
  apply Qplus_le_compat; [|done].
  destruct d as [|d]; [done|].
  apply Qle_shift_div_l; [by rewrite <- (Zlt_Qlt 0); lia|].
  rewrite Qmult_0_l. done.
Qed.

Lemma sum_reciprocals_quarter l :
  l ≠ [] → (∀ d, d ∈ l → (1 ≤ d ≤ 4)%nat) →
  (1 / sum_reciprocals l <= 4)%Q.
Proof.
  intros Hne Hl. destruct l as [|d l]; [done|]. simpl.
  assert (Hd : (1 ≤ d ≤ 4)%nat) by (apply Hl; left).
  pose proof (sum_reciprocals_nonneg l) as Hs.
  assert (Hq : (1 / 4 <= 1 / inject_Z (Z.of_nat d))%Q).
  { change 1%Q with (inject_Z 1). change 4%Q with (inject_Z 4).
    apply Qdiv_antitone; lia. }
  assert (Hsum : (1 / 4 <= 1 / inject_Z (Z.of_nat d) + sum_reciprocals l)%Q).
  { apply Qle_trans with (1 / 4 + 0)%Q; [by rewrite Qplus_0_r|].
    by apply Qplus_le_compat. }
  apply Qle_shift_div_r.
  - eapply Qlt_le_trans; [|exact Hsum]. reflexivity.
  - apply Qle_trans with (4 * (1 / 4))%Q; [done|].
    by apply (proj2 (Qmult_le_l _ _ 4 eq_refl)).
Qed.

Lemma simple_path_lengths_bounded G k a b d :
  d ∈ simple_path_lengths G k a b → (1 ≤ d ≤ k)%nat.
Proof.
  intros Hd. split; [by eapply simple_path_lengths_positive|].
  unfold simple_path_lengths in Hd. apply list_elem_of_fmap in Hd
    as (p & -> & Hp).
  destruct (decide (a = b)) as [->|Hab].
  - unfold nx.all_simple_paths in Hp.
    rewrite decide_True in Hp by left. by apply not_elem_of_nil in Hp.
  - assert (Hab' : a ∉ [b]).
    { intros H. by apply list_elem_of_singleton in H. }
    assert (∃ t, last p = Some t) as [t Ht].
    { unfold nx.all_simple_paths in Hp. rewrite decide_False in Hp by done.
      apply simple_paths_from_spec in Hp
        as (ext & -> & _ & _ & _ & _ & _ & t & Hl & _); [|done].
      exists t. rewrite last_app. by rewrite Hl. }
    pose proof (proj1 (all_simple_paths_spec _ a [b] k p t Hab')
                  (conj Hp Ht)) as [(_ & _ & _ & _ & Hlen) _].
    lia.
Qed.

(** X26. At every window position the developer graph is an undirected
    graph on developers: an edge joins two distinct developers of the
    graph, has the same distance in both directions, and its distance is
    positive and at most 4; the nodes are the developers that have an
    edge. *)
Theorem developer_graph_is_undirected (self : HistoryGraph) :
  position self →
  ∃ devG,
    (get_developer_graph self).1 = Ok devG
    ∧ (∀ a b q, dg_adj devG !! (a, b) = Some q →
         a ≠ b ∧ a ∈ get_developers self ∧ b ∈ get_developers self
         ∧ dg_adj devG !! (b, a) = Some q
         ∧ (0 < q)%Q ∧ (q <= 4)%Q)
    ∧ ∀ n, n ∈ dg_node devG ↔ ∃ b, is_Some (dg_adj devG !! (n, b)).
Proof.
  intros Hpos. exists (fresh_devG self). split.
  { apply (computes_fst _ _ _ get_developer_graph_computes).
    by apply position_coherent. }
  pose proof (ready_good _ (position_ready _ Hpos)) as HG.
  unfold fresh_devG, _calculate_rsrd_distances. cbv zeta.
  set (devs := get_developers self) in *.
  set (d2d := dev_pair2distances_of (_G self) devs).
  set (l := filter (λ e : string * string * Q, Qle_bool e.2 0 = false)
              (dev_pair2rsrd_of d2d devs)).
  assert (Hnd : NoDup devs) by apply NoDup_filter_nodes_by_kind.
  assert (Hkeys : ∀ k, k ∈ l.*1 → k ∈ combinations2 devs).
  { intros k Hk. apply list_elem_of_fmap in Hk as ([k' q] & -> & Hk).
    apply list_elem_of_filter in Hk as [_ Hk]. cbn [fst].
    destruct (decide (k' ∈ combinations2 devs)) as [|Hn]; [done|].
    assert (alist_get k' (dev_pair2rsrd_of d2d devs) = None) as Hnone.
    { rewrite dev_pair2rsrd_of_get. by rewrite decide_False. }
    apply alist_get_None in Hnone. destruct Hnone.
    apply list_elem_of_fmap. by exists (k', q). }
  assert (Hndl : NoDup l.*1).
  { apply filter_keys_NoDup, dev_pair2rsrd_of_NoDup. }
  assert (Hflip : ∀ x y, (x, y) ∈ l.*1 → (y, x) ∉ l.*1).
  { intros x y Hin Hin'. apply Hkeys in Hin, Hin'.
    by destruct (combinations2_spec devs x y Hnd Hin) as (_ & _ & _ & ?). }
  split.
  - intros a b q Hq.
    assert (Hadj : (a, b) ∈ l.*1 ∨ (b, a) ∈ l.*1).
    { apply devG_of_adjacent. by exists q. }
    assert (Hab : a ≠ b ∧ a ∈ devs ∧ b ∈ devs).
    { destruct Hadj as [Hin|Hin]; apply Hkeys in Hin;
        destruct (combinations2_spec _ _ _ Hnd Hin) as (? & ? & ? & _);
        done. }
    destruct Hab as (Hab & Ha & Hb).
    split; [done|]. split; [done|]. split; [done|]. split; [|split].
    + rewrite devG_of_lookup in Hq |- * by done.
      destruct (alist_get (a, b) l) as [q1|] eqn:E1.
      * injection Hq as ->.
        assert (Hin : (a, b) ∈ l.*1).
        { apply list_elem_of_fmap. exists (a, b, q). split; [done|].
          by apply alist_get_Some_elem_of. }
        destruct (alist_get (b, a) l) as [q2|] eqn:E2; [|done].
        destruct (Hflip _ _ Hin). apply list_elem_of_fmap.
        exists (b, a, q2). split; [done|]. by apply alist_get_Some_elem_of.
      * by rewrite Hq.
    + rewrite devG_of_lookup in Hq by done.
      assert (Hin : ∃ k, (k, q) ∈ l).
      { destruct (alist_get (a, b) l) as [q1|] eqn:E1.
        - injection Hq as ->. exists (a, b). by apply alist_get_Some_elem_of.
        - exists (b, a). by apply alist_get_Some_elem_of. }
      destruct Hin as (k & Hin). apply list_elem_of_filter in Hin as [Hpos' _].
      cbn [snd] in Hpos'. apply Qnot_le_lt. intros Hle.
      apply Qle_bool_iff in Hle. congruence.
    + pose proof (fresh_devG_lookup self a b HG Ha Hb Hab) as Hl.
      unfold fresh_devG, _calculate_rsrd_distances in Hl. cbv zeta in Hl.
      fold devs in Hl. fold d2d in Hl. fold l in Hl. rewrite Hq in Hl.
      unfold rsrd_distance in Hl.
      destruct (simple_path_lengths (_G self) 4 a b) as [|d ds] eqn:El;
        [done|].
      simpl in Hl. rewrite Hl.
      apply (sum_reciprocals_quarter (d :: ds)); [done|].
      intros d' Hd'. rewrite <- El in Hd'.
      by apply simple_path_lengths_bounded in Hd'.
  - intros n. rewrite devG_of_nodes. split.
    + intros (b & H). exists b. by apply devG_of_adjacent.
    + intros (b & H). exists b. by apply devG_of_adjacent.
Qed.

Lemma developer_graph_is_undirected_witness :
  ∃ devG,
    (get_developer_graph shared_file_history).1 = Ok devG
    ∧ (∀ a b q, dg_adj devG !! (a, b) = Some q →
         a ≠ b ∧ a ∈ get_developers shared_file_history
         ∧ b ∈ get_developers shared_file_history
         ∧ dg_adj devG !! (b, a) = Some q
         ∧ (0 < q)%Q ∧ (q <= 4)%Q)
    ∧ ∀ n, n ∈ dg_node devG ↔ ∃ b, is_Some (dg_adj devG !! (n, b)).
Proof.
  apply (developer_graph_is_undirected shared_file_history).
  apply (position_init shared_file_dataset 1 10 50 (1 # 100)).
  vm_compute. reflexivity.
Defined.

(** ** One change set within the limit *)

Lemma adj_add_nodes_from ns k G : _adj (nx.add_nodes_from ns k G) = _adj G.
Proof.
  unfold nx.add_nodes_from. revert G.
  induction ns as [|n ns IH]; intros G; simpl; [done|]. by rewrite IH.
Qed.

Lemma date_add_edge u v d k G a b :
  e_date <$> (_adj (nx.add_edge u v d k G) !! (a, b))
  = if decide ((a = u ∧ b = v) ∨ (a = v ∧ b = u)) then Some d
    else e_date <$> (_adj G !! (a, b)).
Proof.
  unfold nx.add_edge. cbn [_adj].
  destruct (decide ((a, b) = (v, u))) as [[= -> ->]|Hne1].
  - rewrite lookup_insert_eq. rewrite decide_True by by right. done.
  - rewrite lookup_insert_ne by done.
    destruct (decide ((a, b) = (u, v))) as [[= -> ->]|Hne2].
    + rewrite lookup_insert_eq. rewrite decide_True by by left. done.
    + rewrite lookup_insert_ne by done. rewrite decide_False; [done|].
      intros [[-> ->]|[-> ->]]; done.
Qed.

Lemma date_add_edges_G h d k xs G a b :
  e_date <$> (_adj (add_edges_G h d k xs G) !! (a, b))
  = if decide ((a = h ∧ b ∈ xs) ∨ (b = h ∧ a ∈ xs)) then Some (Some d)
    else e_date <$> (_adj G !! (a, b)).
Proof.
  unfold add_edges_G. revert G.
  induction xs as [|x xs IH]; intros G; cbn [foldl].
  - rewrite decide_False; [done|].
    intros [[_ H]|[_ H]]; by apply not_elem_of_nil in H.
  - rewrite IH, date_add_edge.
    destruct (decide ((a = h ∧ b ∈ xs) ∨ (b = h ∧ a ∈ xs))) as [H|H].
    + rewrite decide_True; [done|].
      destruct H as [[-> H]|[-> H]]; [left|right]; split; try done;
        by right.
    + destruct (decide ((a = h ∧ b = x) ∨ (a = x ∧ b = h))) as [H'|H'].
      * rewrite decide_True; [done|].
        destruct H' as [[-> ->]|[-> ->]]; [left|right]; split; try done;
          left.
      * rewrite decide_False; [done|].
        intros [[-> Hin]|[-> Hin]]; apply elem_of_cons in Hin as [->|Hin];
          tauto.
Qed.

Lemma edge_date_of_Some G a b d :
  e_date <$> (_adj G !! (a, b)) = Some d → edge_date_of G a b = Ok d.
Proof.
  unfold edge_date_of. destruct (_adj G !! (a, b)); [|done].
  by intros [= ->].
Qed.

Lemma date_add_content_G cs files G a b :
  e_date <$> (_adj (add_content_G cs files G) !! (a, b))
  = if decide ((a = commit_hash cs ∧ (b ∈ files ∨ b ∈ issues cs))
               ∨ (b = commit_hash cs ∧ (a ∈ files ∨ a ∈ issues cs)))
    then Some (Some (date cs))
    else if decide ((a = author cs ∧ b = commit_hash cs)
                    ∨ (a = commit_hash cs ∧ b = author cs))
    then Some None
    else e_date <$> (_adj G !! (a, b)).
Proof.
  unfold add_content_G. cbv zeta.
  rewrite date_add_edges_G, adj_add_nodes_from, date_add_edges_G,
    adj_add_nodes_from, date_add_edge.
  cbn [nx.add_node _adj].
  repeat destruct (decide _); try done; tauto.
Qed.

(** X27. A change set with at most [_num_files_limit] added or modified
    files: after its renames and deletions, [_add_change_set] adds the edge
    between author and commit and the edges from the commit to each added
    or modified file and to each issue, and nothing else.  The edges to
    files and issues carry the date of the change set, also when the edge
    was there before; the edge to the author carries no date, when the
    author is not also a file or an issue of the change set. *)
Theorem change_set_within_the_limit (cs : ChangeSet) (self : HistoryGraph) :
  let p := partition_code_changes (code_changes cs) in
  let f := nx.relabel (files_rename_dict p) in
  good (_G self) →
  Z.of_nat (length (files_add_modify p)) ≤ _num_files_limit self →
  ∃ G',
    _add_change_set cs self = (Ok tt, with_G G' self)
    ∧ good G'
    ∧ (∀ a b, (a, b) ∈ eset G' ↔
         ((∃ u v, (u, v) ∈ eset (_G self) ∧ a = f u ∧ b = f v)
          ∧ a ∉ files_delete p ∧ b ∉ files_delete p)
         ∨ new_edge cs (files_add_modify p) a b)
    ∧ (∀ x, x ∈ files_add_modify p ∨ x ∈ issues cs →
         edge_date_of G' (commit_hash cs) x = Ok (Some (date cs))
         ∧ edge_date_of G' x (commit_hash cs) = Ok (Some (date cs)))
    ∧ (author cs ∉ files_add_modify p → author cs ∉ issues cs →
       edge_date_of G' (author cs) (commit_hash cs) = Ok None
       ∧ edge_date_of G' (commit_hash cs) (author cs) = Ok None).
Proof.
  intros p f HG Hlimit.
  assert (Hlarge : is_large (_num_files_limit self) cs = false).
  { unfold is_large. fold p. by apply Z.ltb_ge. }
  exists (add_change_set_G (_num_files_limit self) cs (_G self)).
  split; [apply _add_change_set_run|].
  split; [by apply good_add_change_set_G|]. split.
  { intros a b. rewrite eset_add_change_set_G by done. fold p. fold f.
    rewrite Hlarge. tauto. }
  unfold add_change_set_G. fold p. rewrite Hlarge. split.
  - intros x Hx. split; apply edge_date_of_Some;
      rewrite date_add_content_G; rewrite decide_True; tauto.
  - intros Ha1 Ha2. split; apply edge_date_of_Some;
      rewrite date_add_content_G.
    + rewrite decide_False.
      * rewrite decide_True; [done|by left].
      * intros [[Heq [H|H]]|[_ [H|H]]]; try done;
          rewrite <- Heq in H; done.
    + rewrite decide_False.
      * rewrite decide_True; [done|by right].
      * intros [[_ [H|H]]|[Heq [H|H]]]; try done;
          rewrite <- Heq in H; done.
Qed.

Lemma change_set_within_the_limit_witness :
  let cs := within_limit_change_set in
  let self := sample_history in
  let p := partition_code_changes (code_changes cs) in
  let f := nx.relabel (files_rename_dict p) in
  ∃ G',
    _add_change_set cs self = (Ok tt, with_G G' self)
    ∧ good G'
    ∧ (∀ a b, (a, b) ∈ eset G' ↔
         ((∃ u v, (u, v) ∈ eset (_G self) ∧ a = f u ∧ b = f v)
          ∧ a ∉ files_delete p ∧ b ∉ files_delete p)
         ∨ new_edge cs (files_add_modify p) a b)
    ∧ (∀ x, x ∈ files_add_modify p ∨ x ∈ issues cs →
         edge_date_of G' (commit_hash cs) x = Ok (Some (date cs))
         ∧ edge_date_of G' x (commit_hash cs) = Ok (Some (date cs)))
    ∧ (author cs ∉ files_add_modify p → author cs ∉ issues cs →
       edge_date_of G' (author cs) (commit_hash cs) = Ok None
       ∧ edge_date_of G' (commit_hash cs) (author cs) = Ok None).
Proof.
  apply (change_set_within_the_limit within_limit_change_set sample_history).
  - apply (position_ready sample_history).
    apply (position_init sample_dataset 4 10 50 (1 # 100)).
    vm_compute. reflexivity.
  - vm_compute. discriminate.
Defined.

(** ** extract_commenters.py *)

Lemma alist_get_delete `{EqDecision K} {V} (d : list (K * V)) k k' :
  alist_get k (alist_delete k' d)
  = if decide (k = k') then None else alist_get k d.
Proof.
  unfold alist_delete. induction d as [|[k0 v0] d IH]; simpl.
  - by destruct (decide (k = k')).
  - rewrite filter_cons. cbn [fst].
    destruct (decide (k0 ≠ k')) as [Hne|Heq].
    + simpl. rewrite IH. destruct (decide (k = k0)) as [->|]; [|done].
      by rewrite decide_False.
    + apply dec_stable in Heq as ->. rewrite IH.
      destruct (decide (k = k')); [done|]. done.
Qed.

Lemma occurrences_nonneg c l : 0 ≤ occurrences c l.
Proof. unfold occurrences. lia. Qed.

Lemma occurrences_cons c x l :
  occurrences c (x :: l)
  = occurrences c l + (if decide (x = c) then 1 else 0).
Proof.
  unfold occurrences. rewrite filter_cons.
  destruct (decide (x = c)); simpl; lia.
Qed.

Lemma occurrences_app c l1 l2 :
  occurrences c (l1 ++ l2) = occurrences c l1 + occurrences c l2.
Proof. unfold occurrences. rewrite filter_app, length_app. lia. Qed.

Lemma counts_default top l c :
  counts top l → default 0 (alist_get c top) = occurrences c l.
Proof.
  intros [_ H]. rewrite H. pose proof (occurrences_nonneg c l).
  destruct (decide (0 < occurrences c l)); simpl; lia.
Qed.

Lemma counts_up top l c : counts top l → counts (count_up c top) (l ++ [c]).
Proof.
  intros Hc. pose proof Hc as [Hnd Hget]. unfold count_up. split.
  - by apply alist_set_keys.
  - intros c'. rewrite alist_get_set, (counts_default _ l) by done.
    rewrite occurrences_app, (occurrences_cons c' c []).
    change (occurrences c' []) with 0.
    pose proof (occurrences_nonneg c' l).
    destruct (decide (c' = c)) as [->|Hne].
    + rewrite (decide_True (P := c = c)) by done.
      rewrite decide_True by lia. f_equal; lia.
    + rewrite (decide_False (P := c = c')) by congruence.
      rewrite Hget. by rewrite !Z.add_0_r.
Qed.

Lemma counts_down top l c :
  counts top (c :: l) → counts (count_down c top) l.
Proof.
  intros Hc. pose proof Hc as [Hnd Hget]. unfold count_down. cbv zeta.
  rewrite (counts_default _ (c :: l)) by done.
  rewrite occurrences_cons, (decide_True (P := c = c)) by done.
  pose proof (occurrences_nonneg c l) as Hc0.
  destruct (Z.leb_spec (occurrences c l + 1 - 1) 0) as [Hle|Hgt].
  - split; [by apply filter_keys_NoDup|].
    intros c'. rewrite alist_get_delete.
    destruct (decide (c' = c)) as [->|Hne].
    + rewrite decide_False by lia. done.
    + rewrite Hget, occurrences_cons.
      rewrite (decide_False (P := c = c')) by congruence.
      by rewrite Z.add_0_r.
  - split; [by apply alist_set_keys|].
    intros c'. rewrite alist_get_set.
    destruct (decide (c' = c)) as [->|Hne].
    + rewrite decide_True by lia. f_equal; lia.
    + rewrite Hget, occurrences_cons.
      rewrite (decide_False (P := c = c')) by congruence.
      by rewrite Z.add_0_r.
Qed.

Lemma counts_ups top l cs :
  counts top l →
  counts (foldl (λ top c, count_up c top) top cs) (l ++ cs).
Proof.
  revert top l. induction cs as [|c cs IH]; intros top l Hc; cbn [foldl].
  - by rewrite app_nil_r.
  - replace (l ++ c :: cs) with ((l ++ [c]) ++ cs)
      by by rewrite <- app_assoc.
    by apply IH, counts_up.
Qed.

Lemma counts_downs top l cs :
  counts top (cs ++ l) →
  counts (foldl (λ top c, count_down c top) top cs) l.
Proof.
  revert top. induction cs as [|c cs IH]; intros top Hc; cbn [foldl];
    [done|].
  by apply IH, counts_down.
Qed.

Lemma for_each_comment_flat step itc css top :
  for_each_comment step itc css top
  = foldl (λ top c, step c top) top (commenters_of itc css).
Proof.
  unfold for_each_comment, commenters_of. revert top.
  induction css as [|cs css IH]; intros top; [done|].
  cbn [foldl]. rewrite bind_cons, foldl_app, <- IH. f_equal.
  generalize (issues cs). clear. intros l. revert top.
  induction l as [|i l IH]; intros top; [done|].
  cbn [foldl]. by rewrite bind_cons, foldl_app, <- IH.
Qed.

Lemma commenters_of_app itc css1 css2 :
  commenters_of itc (css1 ++ css2)
  = commenters_of itc css1 ++ commenters_of itc css2.
Proof. unfold commenters_of. by rewrite bind_app. Qed.

Lemma counts_slide itc top rems mid adds :
  counts top (commenters_of itc (rems ++ mid)) →
  counts (for_each_comment count_down itc rems
            (for_each_comment count_up itc adds top))
         (commenters_of itc (mid ++ adds)).
Proof.
  intros Hc. rewrite !for_each_comment_flat.
  apply counts_downs. rewrite commenters_of_app, app_assoc.
  rewrite <- commenters_of_app. by apply counts_ups.
Qed.

Lemma alist_get_Permutation `{EqDecision K} {V} (d d' : list (K * V)) k :
  NoDup d.*1 → d ≡ₚ d' → alist_get k d = alist_get k d'.
Proof.
  intros Hnd Hp.
  assert (Hnd' : NoDup d'.*1) by by rewrite <- Hp.
  destruct (alist_get k d) as [v|] eqn:E.
  - symmetry. apply alist_get_NoDup; [done|]. rewrite <- Hp.
    by apply alist_get_Some_elem_of.
  - symmetry. apply alist_get_None. rewrite <- Hp.
    by apply alist_get_None.
Qed.

Lemma counts_sort_dict_by_value top l :
  counts top l → counts (sort_dict_by_value top true) l.
Proof.
  intros [Hnd Hget].
  destruct (sort_dict_by_value_sorted top true) as [Hp _]. split.
  - by rewrite Hp.
  - intros c. rewrite <- Hget. symmetry. by apply alist_get_Permutation.
Qed.

Lemma Forall_alist_set `{EqDecision K} {V} (P : K * V → Prop) k v
    (d : list (K * V)) :
  P (k, v) → Forall P d → Forall P (alist_set k v d).
Proof.
  intros Hkv. induction 1 as [|[k' v'] d Hp Hd IH]; simpl.
  - by repeat constructor.
  - destruct (decide (k = k')) as [->|]; by constructor.
Qed.

Lemma window_of_window_ending dm b :
  _last_date dm = Some b →
  _first_date dm = Some (b - (_sliding_window_size dm - 1) * usec_per_day) →
  window_ending (_sliding_window_size dm) (_date_to_change_sets dm) b
  = window_of dm.
Proof.
  intros Hb Ha. unfold window_ending, window_of. simpl. by rewrite Ha, Hb.
Qed.

Lemma top_commenters_loop_entries itc fuel adds rems top result dm mid res :
  window_inv dm →
  (∃ b, _last_date dm = Some b
        ∧ _first_date dm
          = Some (b - (_sliding_window_size dm - 1) * usec_per_day)) →
  window_of dm = mid ++ adds →
  counts top (commenters_of itc (rems ++ mid)) →
  Forall (top_commenters_entry itc (_sliding_window_size dm)
            (_date_to_change_sets dm)) result →
  top_commenters_loop fuel itc adds rems top result dm = Ok res →
  Forall (top_commenters_entry itc (_sliding_window_size dm)
            (_date_to_change_sets dm)) res.
Proof.
  revert adds rems top result dm mid.
  induction fuel as [|fuel IH];
    intros adds rems top result dm mid Hinv (b & Hb & Ha) Hwin Hc Hres;
    [done|].
  cbn [top_commenters_loop]. cbv zeta.
  set (top' := for_each_comment count_down itc rems
                 (for_each_comment count_up itc adds top)).
  assert (Hc' : counts top' (commenters_of itc (window_of dm))).
  { rewrite Hwin. by apply counts_slide. }
  set (result' := alist_set (get_last_included_date dm)
                    (sort_dict_by_value top' true) result).
  assert (Hres' : Forall (top_commenters_entry itc (_sliding_window_size dm)
                            (_date_to_change_sets dm)) result').
  { apply Forall_alist_set; [|done]. exists b. cbn [fst snd].
    split; [done|]. split.
    - by destruct (sort_dict_by_value_sorted top' true).
    - rewrite window_of_window_ending by done.
      by apply counts_sort_dict_by_value. }
  destruct (forward_one_day dm) as [[[adds' rems']|e] dm'] eqn:Ef.
  - destruct (forward_one_day_window_inv _ _ _ _ Hinv Ef)
      as (Hinv' & mid' & Hw1 & Hw2).
    apply forward_one_day_inv in Ef
      as (a1 & b1 & Ha1 & Hb1 & _ & _ & ->).
    rewrite Hb in Hb1. injection Hb1 as <-.
    rewrite Ha in Ha1. injection Ha1 as <-.
    intros Hloop.
    apply (IH _ _ _ _ _ mid') in Hloop; try done.
    + exists (b + usec_per_day). simpl. split; [done|]. f_equal. lia.
    + by rewrite <- Hw1.
  - destruct e; try done. by intros [= <-].
Qed.

Lemma top_commenters_keys_step (first w : Z) (t : nat)
    (v : list (string * Z)) (result : list (option Z * list (string * Z))) :
  result.*1
  = map (λ i : nat, Some (first + (w - 1 + Z.of_nat i) * usec_per_day))
        (seq 0 t) →
  (alist_set (Some (first + (w - 1 + Z.of_nat t) * usec_per_day)) v result).*1
  = map (λ i : nat, Some (first + (w - 1 + Z.of_nat i) * usec_per_day))
        (seq 0 (S t)).
Proof.
  intros Hkeys. rewrite alist_set_fresh.
  - rewrite fmap_app, Hkeys. cbn [fmap list_fmap fst].
    by rewrite seq_S, map_app.
  - rewrite Hkeys. intros Hin. apply list_elem_of_fmap in Hin
      as (i & Heq & Hi). apply elem_of_seq in Hi.
    injection Heq as Heq. unfold usec_per_day in Heq. lia.
Qed.

Lemma contiguous_top_commenters_loop itc g first N w (m t fuel : nat)
    adds rems top result :
  0 ≤ w - 1 →
  w - 1 + Z.of_nat t + Z.of_nat m = Z.of_nat N →
  (m < fuel)%nat →
  result.*1
  = map (λ i : nat, Some (first + (w - 1 + Z.of_nat i) * usec_per_day))
        (seq 0 t) →
  ∃ res,
    top_commenters_loop fuel itc adds rems top result
      (mkDataManager w (contiguous g first N)
         (Some (first + Z.of_nat t * usec_per_day))
         (Some (first + (w - 1 + Z.of_nat t) * usec_per_day)))
    = Ok res
    ∧ res.*1
      = map (λ i : nat, Some (first + (w - 1 + Z.of_nat i) * usec_per_day))
            (seq 0 (t + S m)).
Proof.
  intros Hw. revert t fuel adds rems top result.
  induction m as [|m IH]; intros t fuel adds rems top result Hm Hfuel Hkeys;
    (destruct fuel as [|fuel]; [lia|]);
    cbn [top_commenters_loop]; cbv zeta;
    unfold get_last_included_date; cbn [_last_date].
  - rewrite forward_one_day_stop; cycle 1.
    { replace (first + (w - 1 + Z.of_nat t) * usec_per_day + usec_per_day)
        with (first + (w - 1 + Z.of_nat t + 1) * usec_per_day) by lia.
      rewrite contiguous_get. by rewrite decide_False by lia. }
    eexists. split; [done|].
    replace (t + 1)%nat with (S t) by lia.
    by apply top_commenters_keys_step.
  - rewrite (forward_one_day_ok _ _ _ _
               (g (first + Z.of_nat t * usec_per_day))
               (g (first + (w - 1 + Z.of_nat t + 1) * usec_per_day)));
      cycle 1.
    { replace (first + (w - 1 + Z.of_nat t) * usec_per_day + usec_per_day)
        with (first + (w - 1 + Z.of_nat t + 1) * usec_per_day) by lia.
      rewrite contiguous_get. by rewrite decide_True by lia. }
    { rewrite contiguous_get. by rewrite decide_True by lia. }
    replace (first + Z.of_nat t * usec_per_day + usec_per_day)
      with (first + Z.of_nat (S t) * usec_per_day) by lia.
    replace (first + (w - 1 + Z.of_nat t) * usec_per_day + usec_per_day)
      with (first + (w - 1 + Z.of_nat (S t)) * usec_per_day) by lia.
    edestruct (IH (S t) fuel) as (res & Hres & Hk);
      [| |by apply top_commenters_keys_step|]; [lia|lia|].
    exists res. split; [exact Hres|]. rewrite Hk. f_equal. f_equal. lia.
Qed.

(** X28. For a dataset in chronological order that spans at least 364
    days, [generate_date_to_top_commenters] returns one entry for each day
    from 364 days after the earliest change set to the day of the latest
    one.  The entry of a day lists the commenters of the issues of the
    change sets in the 365 days that end on that day, each with the number
    of their comments there, most comments first; a commenter without a
    comment in the window is not listed. *)
Theorem top_commenters_of_each_window
    (issue_to_commenters : list (string * list string))
    (jsons : list JsonChangeSet) (css : list ChangeSet) :
  loaded jsons css →
  Sorted Z.le (map date css) →
  (∃ c c', c ∈ css ∧ c' ∈ css ∧ 364 * usec_per_day ≤ date c' - date c) →
  ∃ result data_manager c0 cn,
    generate_date_to_top_commenters issue_to_commenters jsons = Ok result
    ∧ DataManager_init jsons 365 = Ok data_manager
    ∧ c0 ∈ css ∧ cn ∈ css ∧ (∀ c, c ∈ css → date c0 ≤ date c ≤ date cn)
    ∧ result.*1
      = map Some
          (day_range (date c0 + 364 * usec_per_day)
             (S (Z.to_nat ((date cn - date c0) `div` usec_per_day - 364))))
    ∧ Forall (top_commenters_entry issue_to_commenters 365
                (_date_to_change_sets data_manager)) result.
Proof.
  intros Hl Hs (c & c' & Hc & Hc' & Hspan).
  assert (Hne : jsons ≠ []).
  { intros ->. inversion Hl; subst. by apply not_elem_of_nil in Hc. }
  destruct (chronological_timeline jsons css Hne Hl Hs)
    as (c0 & cn & Hc0 & Hcn & Hall & Htl).
  set (N := Z.to_nat ((date cn - date c0) `div` usec_per_day)) in *.
  set (g := λ k, filter (λ cs, date cs = k) css) in *.
  change (map (λ k, (k, g k)) (day_range (date c0) (S N)))
    with (contiguous g (date c0) N) in Htl.
  assert (HN : 364 ≤ (date cn - date c0) `div` usec_per_day).
  { pose proof (Hall c Hc). pose proof (Hall c' Hc').
    apply Z.div_le_lower_bound; unfold usec_per_day in *; lia. }
  assert (HN' : Z.of_nat N = (date cn - date c0) `div` usec_per_day).
  { unfold N. rewrite Z2Nat.id; [done|]. clear - HN. lia. }
  destruct (contiguous_initial_window g (date c0) N 365) as [win Hwin];
    [clear - HN HN'; lia|].
  assert (Hdm : DataManager_init jsons 365
                = Ok (mkDataManager 365 (contiguous g (date c0) N) None None)).
  { unfold DataManager_init. by rewrite Htl. }
  destruct (get_initial_window_window_inv _ _ _ _ _ Hdm Hwin)
    as [Hinv Hwin'].
  set (m := Z.to_nat ((date cn - date c0) `div` usec_per_day - 364)).
  destruct (contiguous_top_commenters_loop issue_to_commenters g (date c0) N
              365 m 0 (S (length (contiguous g (date c0) N))) win [] [] [])
    as (res & Hres & Hkeys).
  { done. }
  { unfold m. rewrite Z2Nat.id by (clear - HN; lia). clear - HN'. lia. }
  { unfold contiguous, day_range. rewrite !length_map, length_seq.
    unfold m. clear - HN HN'. lia. }
  { done. }
  replace (date c0 + Z.of_nat 0 * usec_per_day) with (date c0) in Hres
    by (clear; lia).
  replace (365 - 1 + Z.of_nat 0) with (365 - 1) in Hres by (clear; lia).
  exists res, (mkDataManager 365 (contiguous g (date c0) N) None None),
    c0, cn.
  split.
  { unfold generate_date_to_top_commenters. rewrite Hdm. cbn [res_bind].
    rewrite Hwin. exact Hres. }
  split; [done|]. split; [done|]. split; [done|]. split; [done|]. split.
  - rewrite Hkeys. unfold day_range. rewrite map_map. cbn [Nat.add].
    apply map_ext. intros i. f_equal. clear. lia.
  - apply (top_commenters_loop_entries issue_to_commenters _ win [] [] []
             _ [] res) in Hres; try done.
    + eexists. split; [done|]. cbn [_first_date _sliding_window_size].
      f_equal. clear. lia.
    + split; [constructor|]. intros c1. done.
Qed.

Lemma top_commenters_of_each_window_witness :
  ∃ result data_manager c0 cn,
    generate_date_to_top_commenters year_comments year_dataset = Ok result
    ∧ DataManager_init year_dataset 365 = Ok data_manager
    ∧ c0 ∈ year_change_sets ∧ cn ∈ year_change_sets
    ∧ (∀ c, c ∈ year_change_sets → date c0 ≤ date c ≤ date cn)
    ∧ result.*1
      = map Some
          (day_range (date c0 + 364 * usec_per_day)
             (S (Z.to_nat ((date cn - date c0) `div` usec_per_day - 364))))
    ∧ Forall (top_commenters_entry year_comments 365
                (_date_to_change_sets data_manager)) result.
Proof.
  apply (top_commenters_of_each_window year_comments year_dataset
           year_change_sets).
  - repeat constructor.
  - repeat constructor; by vm_compute.
  - exists (mkChangeSet "CS0" "d1" (max_of_day (noon 0)) ["I0"; "I1"]
              [mkCodeChange "F0" "ADD" None] 1),
           (mkChangeSet "CS2" "d1" (max_of_day (noon 365)) ["I2"]
              [mkCodeChange "F1" "MODIFY" None] 2).
    split; [repeat constructor|]. split; [repeat constructor|].
    by vm_compute.
Defined.

(** ** The traversal of [_find_reachable_files], the number of rare files *)

Lemma find_reachable_files_loop_routes self developer fuel visited files
    stack r :
  (∀ fr, fr ∈ stack → route self developer fr.1.2 fr.1.1) →
  (∀ f, f ∈ files →
     ∃ q, route self developer q f ∧ (q <= _distance_limit self)%Q) →
  find_reachable_files_loop fuel self (fresh_node_kinds self) visited files
    stack = Ok r →
  ∀ f, f ∈ r →
    ∃ q, route self developer q f ∧ (q <= _distance_limit self)%Q.
Proof.
  revert visited files stack.
  induction fuel as [|fuel IH]; intros visited files stack Hst Hfiles;
    [done|].
  cbn [find_reachable_files_loop].
  destruct stack as [|[[parent dist] [|child children]] stack].
  - by intros [= <-].
  - apply IH; [|done]. intros fr Hfr. apply Hst. by right.
  - assert (Hst1 : ∀ fr, fr ∈ (parent, dist, children) :: stack →
                     route self developer fr.1.2 fr.1.1).
    { intros fr Hfr. apply elem_of_cons in Hfr as [->|Hfr].
      - apply (Hst (parent, dist, child :: children)). left.
      - apply Hst. by right. }
    assert (Hparent : route self developer dist parent).
    { apply (Hst (parent, dist, child :: children)). left. }
    destruct (decide (child ∈ visited)); [by apply IH|].
    unfold edge_date_of.
    destruct (_adj (_G self) !! (parent, child)) as [e|] eqn:He; [|done].
    cbn [res_bind].
    destruct (_calculate_distance self (e_date e)) as [[d|]|] eqn:Hd;
      cbn [res_bind]; [|by apply IH|done].
    destruct (Qlt_le_dec (_distance_limit self) (dist + d)) as [|Hle];
      [by apply IH|].
    destruct (fresh_node_kinds self !! child) as [kind|] eqn:Hk; [|done].
    destruct (decide (kind = "Developer")) as [|Hkind]; [by apply IH|].
    assert (Hchild : route self developer (dist + d) child)
      by by eapply route_step.
    destruct (nx.getitem (_G self) child) as [nbrs|]; [|done].
    cbn [res_bind]. apply IH.
    + intros fr Hfr. apply elem_of_cons in Hfr as [->|Hfr]; [done|].
      by apply Hst1.
    + intros f Hf. destruct (decide (kind = "File")); [|by apply Hfiles].
      apply elem_of_app in Hf as [Hf|Hf]; [by apply Hfiles|].
      apply list_elem_of_singleton in Hf as ->. eauto.
Qed.

Lemma find_reachable_files_of_routes self developer files :
  find_reachable_files_of self developer = Ok files →
  ∀ f, f ∈ files →
    ∃ q, route self developer q f ∧ (q <= _distance_limit self)%Q.
Proof.
  unfold find_reachable_files_of.
  destruct (nx.getitem (_G self) developer) as [children|]; [|done].
  cbn [res_bind]. apply find_reachable_files_loop_routes.
  - intros fr Hfr. apply list_elem_of_singleton in Hfr as ->. constructor.
  - intros f Hf. by apply not_elem_of_nil in Hf.
Qed.

Lemma reachable_files_of_entries self devs acc d :
  reachable_files_of self devs acc = Ok d →
  NoDup (acc.*1 ++ devs) →
  ∀ p, p ∈ d →
    p ∈ acc ∨ (p.1 ∈ devs ∧ find_reachable_files_of self p.1 = Ok p.2).
Proof.
  revert acc. induction devs as [|dev devs IH]; intros acc; simpl.
  - intros [= <-] _ p Hp. by left.
  - destruct (find_reachable_files_of self dev) as [files|] eqn:Hf; [|done].
    simpl. intros H Hnd p Hp.
    apply NoDup_app in Hnd as Hnd'. destruct Hnd' as (_ & Hdis & _).
    assert (Hfresh : dev ∉ acc.*1).
    { intros Hin. apply (Hdis _ Hin). left. }
    rewrite alist_set_fresh in H by done.
    assert (Hnd2 : NoDup ((acc ++ [(dev, files)]).*1 ++ devs)).
    { rewrite fmap_app. simpl. by rewrite <- app_assoc. }
    destruct (IH _ H Hnd2 p Hp) as [Hin|[Hin Hp']].
    + apply elem_of_app in Hin as [Hin|Hin]; [by left|].
      apply list_elem_of_singleton in Hin as ->. right. simpl.
      split; [left|done].
    + right. split; [by right|done].
Qed.

(** X29. At every window position, a file that [get_dev_to_reachable_files]
    lists for a developer is joined to the developer by a path of the graph
    whose added distances never exceed [_distance_limit] and which passes
    through no other developer. *)
Theorem reachable_files_within_the_limit (self : HistoryGraph) :
  position self →
  ∃ reach,
    (get_dev_to_reachable_files self).1 = Ok reach
    ∧ ∀ dev f, f ∈ listed dev reach →
        dev ∈ get_developers self
        ∧ f ∈ get_files self
        ∧ ∃ q, route self dev q f ∧ (q <= _distance_limit self)%Q.
Proof.
  intros Hpos. apply position_coherent in Hpos as Hc.
  apply position_ready in Hpos as Hr.
  rewrite (computes_fst _ _ _ get_dev_to_reachable_files_computes Hc).
  destruct (fresh_dev_to_reachable_files_total self Hr)
    as (d & Hd & Hnd & Hfiles).
  exists d. split; [done|]. intros dev f Hf.
  apply listed_elem_of in Hf as (files & Hin & Hf); [|done].
  unfold fresh_dev_to_reachable_files in Hd.
  assert (Hnd0 : NoDup (([] : list (string * list string)).*1
                        ++ get_developers self)).
  { simpl. apply NoDup_filter_nodes_by_kind. }
  destruct (reachable_files_of_entries _ _ _ _ Hd Hnd0 (dev, files) Hin)
    as [Hnil|[Hdev Hfind]].
  - by apply not_elem_of_nil in Hnil.
  - split; [done|]. split; [by apply (Hfiles _ Hin)|].
    by apply (find_reachable_files_of_routes self dev files).
Qed.

Lemma reachable_files_within_the_limit_witness :
  ∃ reach,
    (get_dev_to_reachable_files sample_history).1 = Ok reach
    ∧ ∀ dev f, f ∈ listed dev reach →
        dev ∈ get_developers sample_history
        ∧ f ∈ get_files sample_history
        ∧ ∃ q, route sample_history dev q f
               ∧ (q <= _distance_limit sample_history)%Q.
Proof.
  apply (reachable_files_within_the_limit sample_history).
  apply (position_init sample_dataset 4 10 50 (1 # 100)).
  vm_compute. reflexivity.
Defined.

Lemma num_files_of_append (d : list (string * list string)) k v :
  num_files_of (alist_append k v d) = num_files_of d + 1.
Proof.
  induction d as [|[k' vs] d IH]; simpl; [lia|].
  destruct (decide (k = k')) as [->|]; simpl.
  - rewrite length_app. simpl. lia.
  - rewrite IH. lia.
Qed.

Lemma num_files_of_rare (ftd acc : list (string * list string)) :
  num_files_of
    (foldl (λ dev_to_rarefiles (p : string * list string),
              match p.2 with
              | [dev] => alist_append dev p.1 dev_to_rarefiles
              | _ => dev_to_rarefiles
              end) acc ftd)
  = num_files_of acc
    + Z.of_nat (length (filter (λ p : string * list string,
                                  length p.2 = 1%nat) ftd)).
Proof.
  revert acc. induction ftd as [|[f devs] ftd IH]; intros acc; cbn [foldl].
  - simpl. lia.
  - rewrite IH, filter_cons. cbn [fst snd].
    destruct devs as [|dev [|dev' devs]]; simpl.
    + lia.
    + rewrite num_files_of_append. lia.
    + lia.
Qed.

(** X30. At every window position [get_num_rare_files] is the number of
    files that exactly one developer reaches: the number of entries of
    [get_file_to_devs] with a single developer. *)
Theorem num_rare_files_counts_single_developer_files (self : HistoryGraph) :
  position self →
  ∃ file_to_devs,
    (get_file_to_devs self).1 = Ok file_to_devs
    ∧ (get_num_rare_files self).1
      = Ok (Z.of_nat (length (filter (λ p : string * list string,
                                        length p.2 = 1%nat) file_to_devs))).
Proof.
  intros Hpos. apply position_coherent in Hpos as Hc.
  apply position_ready in Hpos as Hr.
  rewrite (computes_fst _ _ _ get_file_to_devs_computes Hc).
  rewrite (computes_fst _ _ _ get_num_rare_files_computes Hc).
  unfold fresh_dev_to_rare_files, fresh_file_to_devs.
  destruct (fresh_dev_to_reachable_files_total self Hr) as (d & -> & _).
  exists (file_to_devs_of d). split; [done|]. cbn [res_bind].
  unfold dev_to_rare_files_of. by rewrite num_files_of_rare.
Qed.

Lemma num_rare_files_counts_single_developer_files_witness :
  ∃ file_to_devs,
    (get_file_to_devs sample_history).1 = Ok file_to_devs
    ∧ (get_num_rare_files sample_history).1
      = Ok (Z.of_nat (length (filter (λ p : string * list string,
                                        length p.2 = 1%nat) file_to_devs))).
Proof.
  apply (num_rare_files_counts_single_developer_files sample_history).
  apply (position_init sample_dataset 4 10 50 (1 # 100)).
  vm_compute. reflexivity.
Defined.

(** * The scores and the distances in double precision *)

(** ** Rounding to binary64 *)

Lemma round_half_even_near (x : Q) :
  (inject_Z (round_half_even x) - x <= 1 # 2)%Q
  ∧ (x - inject_Z (round_half_even x) <= 1 # 2)%Q.
Proof.
  unfold round_half_even.
  pose proof (Qfloor_le x) as Hl. pose proof (Qlt_floor x) as Hu.
  rewrite inject_Z_plus in Hu. change (inject_Z 1) with 1%Q in Hu.
  destruct (Qcompare_spec (x - inject_Z (Qfloor x)) (1 # 2));
    [destruct (Z.even (Qfloor x))|..];
    rewrite ?inject_Z_plus; change (inject_Z 1) with 1%Q; split; lra.
Qed.

Lemma round_half_even_mono (x y : Q) :
  (x <= y)%Q → round_half_even x ≤ round_half_even y.
Proof.
  intros Hxy. pose proof (Qfloor_resp_le _ _ Hxy) as Hq.
  unfold round_half_even.
  pose proof (Qfloor_le x) as Hlx. pose proof (Qlt_floor x) as Hux.
  pose proof (Qfloor_le y) as Hly. pose proof (Qlt_floor y) as Huy.
  destruct (Z_lt_le_dec (Qfloor x) (Qfloor y)) as [Hlt|Hge].
  - destruct (x - inject_Z (Qfloor x) ?= 1 # 2)%Q,
      (y - inject_Z (Qfloor y) ?= 1 # 2)%Q,
      (Z.even (Qfloor x)), (Z.even (Qfloor y)); lia.
  - assert (Heq : Qfloor x = Qfloor y) by lia. rewrite Heq in *.
    destruct (Qcompare_spec (x - inject_Z (Qfloor y)) (1 # 2)),
      (Qcompare_spec (y - inject_Z (Qfloor y)) (1 # 2));
      destruct (Z.even (Qfloor y)); try lia; lra.
Qed.

Lemma round_half_even_Z (n : Z) : round_half_even (inject_Z n) = n.
Proof.
  unfold round_half_even. rewrite Qfloor_Z.
  destruct (Qcompare_spec (inject_Z n - inject_Z n) (1 # 2)); [lra|done|lra].
Qed.

Lemma Qpower_2_pos (e : Z) : (0 < 2 ^ e)%Q.
Proof. by apply Qpower_0_lt. Qed.

Lemma Qpower_2_succ (e : Z) : (2 ^ (e + 1) == 2 * 2 ^ e)%Q.
Proof. rewrite Qpower_plus by done. change (2 ^ 1)%Q with 2%Q. ring. Qed.

Lemma Qpower_2_split (a b : Z) : (2 ^ a == 2 ^ (a - b) * 2 ^ b)%Q.
Proof.
  rewrite <- Qpower_plus by done. by replace (a - b + b) with a by lia.
Qed.

Lemma Qpower_2_Z (n : Z) : 0 ≤ n → (2 ^ n == inject_Z (2 ^ n))%Q.
Proof. intros Hn. by rewrite Zpower_Qpower. Qed.

Lemma floor_log2_spec (x : Q) :
  (0 < x)%Q →
  (2 ^ floor_log2 x <= x)%Q ∧ (x < 2 ^ (floor_log2 x + 1))%Q.
Proof.
  intros Hx. destruct x as [n d].
  assert (Hn : 0 < n) by (unfold Qlt in Hx; simpl in Hx; lia).
  destruct (Z.log2_spec n Hn) as [Hn1 Hn2].
  destruct (Z.log2_spec (Z.pos d) eq_refl) as [Hd1 Hd2].
  pose proof (Z.log2_nonneg n) as Hln.
  pose proof (Z.log2_nonneg (Z.pos d)) as Hld.
  unfold floor_log2. cbn [Qnum Qden].
  set (ln := Z.log2 n) in *. set (ld := Z.log2 (Z.pos d)) in *.
  assert (HA : (0 < 2 ^ ln)%Q) by apply Qpower_2_pos.
  assert (HB : (0 < 2 ^ ld)%Q) by apply Qpower_2_pos.
  assert (HP : (0 < 2 ^ (ln - ld))%Q) by apply Qpower_2_pos.
  rewrite Zle_Qle in Hn1, Hd1. rewrite Zlt_Qlt in Hn2, Hd2.
  unfold Z.succ in Hn2, Hd2.
  rewrite <- Qpower_2_Z in Hn1, Hd1, Hn2, Hd2 by lia.
  rewrite Qpower_2_succ in Hn2, Hd2.
  pose proof (Qpower_2_split ln ld) as HAB.
  pose proof (Qmake_Qdiv n d) as Hxq.
  set (x := n # d) in *.
  assert (HD : (0 < inject_Z (Z.pos d))%Q) by (rewrite <- (Zlt_Qlt 0); lia).
  assert (Hxt : (x * (inject_Z (Z.pos d) / 2 ^ ld)
                 == (inject_Z n / 2 ^ ln) * 2 ^ (ln - ld))%Q).
  { rewrite Hxq, HAB. field. split; [|split]; lra. }
  assert (Ht1 : (1 <= inject_Z (Z.pos d) / 2 ^ ld)%Q)
    by (apply Qle_shift_div_l; lra).
  assert (Ht2 : (inject_Z (Z.pos d) / 2 ^ ld < 2)%Q)
    by (apply Qlt_shift_div_r; lra).
  assert (Hu1 : (1 <= inject_Z n / 2 ^ ln)%Q)
    by (apply Qle_shift_div_l; lra).
  assert (Hu2 : (inject_Z n / 2 ^ ln < 2)%Q)
    by (apply Qlt_shift_div_r; lra).
  set (t := (inject_Z (Z.pos d) / 2 ^ ld)%Q) in *.
  set (u := (inject_Z n / 2 ^ ln)%Q) in *.
  set (P := (2 ^ (ln - ld))%Q) in *.
  assert (Hlo : (P < 2 * x)%Q) by (clearbody t u P x; nra).
  assert (Hhi : (x < 2 * P)%Q) by (clearbody t u P x; nra).
  destruct (Qle_bool P x) eqn:E.
  - apply Qle_bool_iff in E. split; [done|].
    rewrite Qpower_2_succ. done.
  - assert (Hlt : (x < P)%Q).
    { apply Qnot_le_lt. intros H. apply Qle_bool_iff in H. congruence. }
    replace (ln - ld - 1 + 1) with (ln - ld) by lia. split; [|done].
    pose proof (Qpower_2_succ (ln - ld - 1)) as H.
    replace (ln - ld - 1 + 1) with (ln - ld) in H by lia.
    fold P in H. lra.
Qed.

Lemma floor_log2_lower (x : Q) (a : Z) :
  (2 ^ a <= x)%Q → a ≤ floor_log2 x.
Proof.
  intros Ha.
  assert (Hx : (0 < x)%Q) by (pose proof (Qpower_2_pos a); lra).
  destruct (floor_log2_spec x Hx) as [_ Hu].
  assert (H : a < floor_log2 x + 1); [|lia].
  apply (Qpower_lt_compat_l_inv 2); [lra|done].
Qed.

Lemma floor_log2_upper (x : Q) (b : Z) :
  (0 < x)%Q → (x < 2 ^ b)%Q → floor_log2 x < b.
Proof.
  intros Hx Hb. destruct (floor_log2_spec x Hx) as [Hl _].
  apply (Qpower_lt_compat_l_inv 2); [lra|done].
Qed.

Lemma floor_log2_mono (x y : Q) :
  (0 < x)%Q → (x <= y)%Q → floor_log2 x ≤ floor_log2 y.
Proof.
  intros Hx Hxy. apply floor_log2_lower.
  destruct (floor_log2_spec x Hx) as [Hl _]. lra.
Qed.

Lemma nearest_double_scaled (x : Q) (e : Z) :
  (x / 2 ^ e * 2 ^ e == x)%Q.
Proof. pose proof (Qpower_2_pos e). field. lra. Qed.

(** The double is within half a unit in the last place. *)
Lemma nearest_double_near (x : Q) :
  let e := Z.max (floor_log2 x - 52) (-1074) in
  (nearest_double x - x <= 2 ^ (e - 1))%Q
  ∧ (x - nearest_double x <= 2 ^ (e - 1))%Q.
Proof.
  intros e. unfold nearest_double. fold e.
  destruct (round_half_even_near (x / 2 ^ e)) as [H1 H2].
  pose proof (Qpower_2_pos e) as He.
  pose proof (Qpower_2_succ (e - 1)) as Hh.
  replace (e - 1 + 1) with e in Hh by lia.
  pose proof (nearest_double_scaled x e) as Hs.
  set (m := inject_Z (round_half_even (x / 2 ^ e))) in *.
  set (y := (x / 2 ^ e)%Q) in *. set (E := (2 ^ e)%Q) in *.
  set (E' := (2 ^ (e - 1))%Q) in *. clearbody m y E E'.
  split; nra.
Qed.

Lemma nearest_double_nonneg (x : Q) : (0 <= x)%Q → (0 <= nearest_double x)%Q.
Proof.
  intros Hx. unfold nearest_double.
  set (e := Z.max (floor_log2 x - 52) (-1074)).
  pose proof (Qpower_2_pos e) as He.
  apply Qmult_le_0_compat; [|lra].
  rewrite <- (Zle_Qle 0). rewrite <- (round_half_even_Z 0).
  apply round_half_even_mono. change (inject_Z 0) with 0%Q.
  apply Qle_shift_div_l; lra.
Qed.

Lemma nearest_double_le_power (x : Q) (j : Z) :
  (0 < x)%Q → (x <= 2 ^ j)%Q → -1074 ≤ j → (nearest_double x <= 2 ^ j)%Q.
Proof.
  intros Hx Hj Hmin. unfold nearest_double.
  set (e := Z.max (floor_log2 x - 52) (-1074)).
  assert (Hl : floor_log2 x ≤ j).
  { destruct (floor_log2_spec x Hx) as [Hl _].
    apply (Qpower_le_compat_l_inv 2); lra. }
  assert (Hje : 0 ≤ j - e) by lia.
  pose proof (Qpower_2_pos e) as He.
  rewrite (Qpower_2_split j e). apply Qmult_le_compat_r; [|lra].
  rewrite (Qpower_2_Z (j - e) Hje), <- Zle_Qle.
  rewrite <- (round_half_even_Z (2 ^ (j - e))).
  apply round_half_even_mono. rewrite <- (Qpower_2_Z (j - e) Hje).
  apply Qle_shift_div_r; [done|]. by rewrite <- Qpower_2_split.
Qed.

Lemma nearest_double_ge_power (x : Q) :
  (0 < x)%Q → -1074 ≤ floor_log2 x →
  (2 ^ floor_log2 x <= nearest_double x)%Q.
Proof.
  intros Hx Hmin. unfold nearest_double.
  set (l := floor_log2 x). set (e := Z.max (l - 52) (-1074)).
  destruct (floor_log2_spec x Hx) as [Hl _]. fold l in Hl.
  assert (Hle : 0 ≤ l - e) by lia.
  pose proof (Qpower_2_pos e) as He.
  rewrite (Qpower_2_split l e). apply Qmult_le_compat_r; [|lra].
  rewrite (Qpower_2_Z (l - e) Hle), <- Zle_Qle.
  rewrite <- (round_half_even_Z (2 ^ (l - e))) at 1.
  apply round_half_even_mono. rewrite <- (Qpower_2_Z (l - e) Hle).
  apply Qle_shift_div_l; [done|]. by rewrite <- Qpower_2_split.
Qed.

Lemma nearest_double_mono (x y : Q) :
  (0 < x)%Q → (x <= y)%Q → (nearest_double x <= nearest_double y)%Q.
Proof.
  intros Hx Hxy. assert (Hy : (0 < y)%Q) by lra.
  pose proof (floor_log2_mono x y Hx Hxy) as Hl.
  destruct (decide (Z.max (floor_log2 x - 52) (-1074)
                    = Z.max (floor_log2 y - 52) (-1074))) as [He|He].
  - unfold nearest_double. rewrite He.
    set (e := Z.max (floor_log2 y - 52) (-1074)).
    pose proof (Qpower_2_pos e) as Hp.
    apply Qmult_le_compat_r; [|lra]. rewrite <- Zle_Qle.
    apply round_half_even_mono.
    apply Qle_shift_div_l; [done|]. rewrite nearest_double_scaled. done.
  - apply (Qle_trans _ (2 ^ floor_log2 y)).
    + apply nearest_double_le_power; [done| |lia].
      destruct (floor_log2_spec x Hx) as [_ Hu].
      apply Qlt_le_weak, (Qlt_le_trans _ _ _ Hu).
      apply Qpower_le_compat_l; [lia|lra].
    + apply nearest_double_ge_power; [done|lia].
Qed.

Lemma nearest_double_comp (x y : Q) :
  (0 < x)%Q → (x == y)%Q → (nearest_double x == nearest_double y)%Q.
Proof.
  intros Hx Hxy. apply Qle_antisym; apply nearest_double_mono; lra.
Qed.

Lemma nearest_double_power (j : Z) :
  -1074 ≤ j → (nearest_double (2 ^ j) == 2 ^ j)%Q.
Proof.
  intros Hj. pose proof (Qpower_2_pos j) as Hp. apply Qle_antisym.
  - apply nearest_double_le_power; [done|lra|done].
  - assert (Hl : floor_log2 (2 ^ j) = j).
    { pose proof (floor_log2_lower (2 ^ j) j).
      pose proof (floor_log2_upper (2 ^ j) (j + 1) Hp).
      rewrite Qpower_2_succ in H0.
      assert (j ≤ floor_log2 (2 ^ j)) by (apply H; lra).
      assert (floor_log2 (2 ^ j) < j + 1) by (apply H0; lra). lia. }
    pose proof (nearest_double_ge_power (2 ^ j) Hp) as H.
    rewrite Hl in H. by apply H.
Qed.

(** A quotient in (0, 1] is rounded to a double in [0, 1], with an error of
    2^-53 at most. *)
Lemma nearest_double_unit (x : Q) :
  (0 < x)%Q → (x <= 1)%Q →
  (0 <= nearest_double x)%Q ∧ (nearest_double x <= 1)%Q
  ∧ (nearest_double x - x <= 2 ^ (-53))%Q
  ∧ (x - nearest_double x <= 2 ^ (-53))%Q.
Proof.
  intros H0 H1. split; [apply nearest_double_nonneg; lra|].
  split; [by apply (nearest_double_le_power x 0)|].
  assert (Hl : floor_log2 x < 1)
    by (apply floor_log2_upper; [done|]; change (2 ^ 1)%Q with 2%Q; lra).
  destruct (nearest_double_near x) as [Ha Hb].
  assert (Hp : (2 ^ (Z.max (floor_log2 x - 52) (-1074) - 1) <= 2 ^ (-53))%Q)
    by (apply Qpower_le_compat_l; [lia|lra]).
  split; lra.
Qed.

(** A normal number is rounded with a relative error of 2^-53 at most. *)
Lemma nearest_double_relative (x : Q) :
  (2 ^ (-1022) <= x)%Q →
  (nearest_double x - x <= x * 2 ^ (-53))%Q
  ∧ (x - nearest_double x <= x * 2 ^ (-53))%Q.
Proof.
  intros Hn.
  assert (Hx : (0 < x)%Q) by (pose proof (Qpower_2_pos (-1022)); lra).
  pose proof (floor_log2_lower x _ Hn) as Hl.
  destruct (floor_log2_spec x Hx) as [Hlo _].
  destruct (nearest_double_near x) as [Ha Hb].
  replace (Z.max (floor_log2 x - 52) (-1074) - 1)
    with (floor_log2 x + -53) in Ha, Hb by lia.
  rewrite Qpower_plus in Ha, Hb by done.
  pose proof (Qpower_2_pos (-53)) as Hu.
  set (L := (2 ^ floor_log2 x)%Q) in *. set (U := (2 ^ (-53))%Q) in *.
  set (v := nearest_double x) in *. clearbody L U v.
  split; nra.
Qed.

Lemma round_float_pos (x : Q) : (0 < x)%Q → round_float x = nearest_double x.
Proof.
  intros Hx. unfold round_float.
  destruct (Qcompare_spec x 0); [lra|lra|done].
Qed.

Lemma round_float_0 (x : Q) : (x == 0)%Q → round_float x = 0%Q.
Proof.
  intros Hx. unfold round_float.
  destruct (Qcompare_spec x 0); [done|lra|lra].
Qed.

Lemma round_float_neg (x : Q) :
  (x < 0)%Q → round_float x = (- nearest_double (- x))%Q.
Proof.
  intros Hx. unfold round_float.
  destruct (Qcompare_spec x 0); [lra|done|lra].
Qed.

Lemma round_float_nonneg (x : Q) : (0 <= x)%Q → (0 <= round_float x)%Q.
Proof.
  intros Hx. destruct (Qle_lt_or_eq _ _ Hx) as [Hpos|H0].
  - rewrite round_float_pos by done. by apply nearest_double_nonneg.
  - rewrite round_float_0 by done. lra.
Qed.

Lemma round_float_nonpos (x : Q) : (x < 0)%Q → (round_float x <= 0)%Q.
Proof.
  intros Hx. rewrite round_float_neg by done.
  assert (0 <= nearest_double (- x))%Q by (apply nearest_double_nonneg; lra).
  lra.
Qed.

Lemma round_float_mono (x y : Q) :
  (x <= y)%Q → (round_float x <= round_float y)%Q.
Proof.
  intros Hxy.
  destruct (Qlt_le_dec x 0) as [Hx|Hx], (Qlt_le_dec y 0) as [Hy|Hy].
  - rewrite !round_float_neg by done.
    apply Qopp_le_compat, nearest_double_mono; lra.
  - pose proof (round_float_nonpos x Hx).
    pose proof (round_float_nonneg y Hy). lra.
  - lra.
  - destruct (Qle_lt_or_eq _ _ Hx) as [Hpos|H0].
    + rewrite !round_float_pos by lra. by apply nearest_double_mono.
    + rewrite (round_float_0 x) by done. by apply round_float_nonneg.
Qed.

Lemma round_float_comp (x y : Q) :
  (x == y)%Q → (round_float x == round_float y)%Q.
Proof. intros Hxy. apply Qle_antisym; apply round_float_mono; lra. Qed.

Lemma round_float_1 (x : Q) : (x == 1)%Q → (round_float x == 1)%Q.
Proof.
  intros Hx. rewrite (round_float_comp x 1 Hx). vm_compute. reflexivity.
Qed.

(** ** The maven scores in double precision *)

Lemma Qdiv_unit (a b : Z) :
  0 < a → a ≤ b →
  (0 < inject_Z a / inject_Z b)%Q ∧ (inject_Z a / inject_Z b <= 1)%Q.
Proof.
  intros Ha Hb.
  assert (HA : (0 < inject_Z a)%Q) by (rewrite <- (Zlt_Qlt 0); lia).
  assert (HB : (0 < inject_Z b)%Q) by (rewrite <- (Zlt_Qlt 0); lia).
  assert (HAB : (inject_Z a <= inject_Z b)%Q) by (by rewrite <- Zle_Qle).
  split.
  - apply Qlt_shift_div_l; lra.
  - apply Qle_shift_div_r; lra.
Qed.

Lemma no_overflow (q : Q) (b : Z) :
  (0 <= q)%Q → (q <= 2 ^ b)%Q → b < 1024 →
  Qle_bool (2 ^ 1024) (Qabs q) = false.
Proof.
  intros H0 H1 Hb. destruct (Qle_bool _ _) eqn:E; [|done].
  apply Qle_bool_iff in E. rewrite Qabs_pos in E by done.
  assert (2 ^ b < 2 ^ 1024)%Q by (apply Qpower_lt_compat_l; [done|lra]).
  set (B := (2 ^ 1024)%Q) in *. clearbody B. lra.
Qed.








(** ** The distance of an edge in double precision *)

Lemma Qpower_2_inverse (n : Z) : (2 ^ n * 2 ^ (- n) == 1)%Q.
Proof.
  rewrite <- Qpower_plus by done. by replace (n + - n) with 0 by lia.
Qed.

(** The recency of a day of the window: the day over a range of 2^1022
    days at most is rounded to a normal double, with a relative error of
    2^-53 at most. *)
Lemma recency_of_day (day range : Z) :
  0 < day → day ≤ range → range ≤ 2 ^ 1022 →
  let x := (inject_Z day / inject_Z range)%Q in
  binary64.true_div day range = Ok (nearest_double x)
  ∧ (2 ^ (-1022) <= nearest_double x)%Q ∧ (nearest_double x <= 1)%Q
  ∧ (x * (1 - 2 ^ (-53)) <= nearest_double x)%Q
  ∧ (nearest_double x <= x * (1 + 2 ^ (-53)))%Q.
Proof.
  intros Hd Hdr Hr x.
  destruct (Qdiv_unit day range Hd Hdr) as [H0 H1]. fold x in H0, H1.
  assert (HD : (1 <= inject_Z day)%Q)
    by (change 1%Q with (inject_Z 1); rewrite <- Zle_Qle; lia).
  assert (HR : (0 < inject_Z range)%Q) by (rewrite <- (Zlt_Qlt 0); lia).
  assert (HR' : (inject_Z range <= 2 ^ 1022)%Q).
  { rewrite (Qpower_2_Z 1022) by done. by rewrite <- Zle_Qle. }
  assert (Hn : (2 ^ (-1022) <= x)%Q).
  { apply Qle_shift_div_l; [done|].
    pose proof (Qpower_2_inverse 1022) as Hi.
    change (- (1022))%Z with (-1022) in Hi.
    pose proof (Qpower_2_pos (-1022)) as Hp.
    set (B := (2 ^ 1022)%Q) in *. set (b := (2 ^ (-1022))%Q) in *.
    clearbody B b. nra. }
  destruct (nearest_double_unit x H0 H1) as (Hn0 & Hn1 & _).
  destruct (nearest_double_relative x Hn) as [He1 He2].
  split.
  { unfold binary64.true_div.
    destruct (Z.eqb_spec range 0) as [E|_]; [lia|]. cbv zeta. fold x.
    rewrite round_float_pos by done.
    by rewrite (no_overflow _ 0). }
  split.
  { rewrite <- (nearest_double_power (-1022)) by done.
    apply nearest_double_mono; [apply Qpower_2_pos|done]. }
  split; [done|].
  set (u := (2 ^ (-53))%Q) in *. clearbody u. split; lra.
Qed.

(** The reciprocal of a recency. *)
Lemma distance_of_recency (c : Q) :
  (2 ^ (-1022) <= c)%Q → (c <= 1)%Q →
  binary64.float_div 1 c = Ok (binary64.finite (nearest_double (1 / c)))
  ∧ (1 <= nearest_double (1 / c))%Q
  ∧ (nearest_double (1 / c) * c <= 1 + 2 ^ (-53))%Q
  ∧ (1 - 2 ^ (-53) <= nearest_double (1 / c) * c)%Q.
Proof.
  intros Hn H1.
  pose proof (Qpower_2_pos (-1022)) as Hp.
  assert (Hc : (0 < c)%Q) by lra.
  assert (Hy1 : (1 <= 1 / c)%Q) by (apply Qle_shift_div_l; lra).
  assert (Hy2 : (1 / c <= 2 ^ 1022)%Q).
  { apply Qle_shift_div_r; [done|].
    pose proof (Qpower_2_inverse 1022) as Hi.
    change (- (1022))%Z with (-1022) in Hi.
    pose proof (Qpower_2_pos 1022) as HB.
    set (B := (2 ^ 1022)%Q) in *. set (b := (2 ^ (-1022))%Q) in *.
    clearbody B b. nra. }
  assert (Hy0 : (0 < 1 / c)%Q) by lra.
  assert (Hv1 : (1 <= nearest_double (1 / c))%Q).
  { pose proof (nearest_double_power 0 ltac:(done)) as Hone.
    change (2 ^ 0)%Q with 1%Q in Hone. rewrite <- Hone at 1.
    apply nearest_double_mono; [done|]. done. }
  assert (Hv2 : (nearest_double (1 / c) <= 2 ^ 1022)%Q)
    by (by apply nearest_double_le_power).
  split.
  { unfold binary64.float_div.
    assert (E0 : Qeq_bool c 0 = false).
    { destruct (Qeq_bool c 0) eqn:E; [|done].
      apply Qeq_bool_iff in E. lra. }
    rewrite E0. cbv zeta. rewrite round_float_pos by done.
    assert (Hlt : (2 ^ 1022 < 2 ^ 1024)%Q)
      by (apply Qpower_lt_compat_l; [done|lra]).
    pose proof (Qpower_2_pos 1024) as HB.
    set (v := nearest_double (1 / c)) in *.
    set (B := (2 ^ 1024)%Q) in *. set (B' := (2 ^ 1022)%Q) in *.
    clearbody v B B'.
    assert (E1 : Qle_bool B v = false).
    { destruct (Qle_bool B v) eqn:E; [|done].
      apply Qle_bool_iff in E. lra. }
    assert (E2 : Qle_bool v (- B) = false).
    { destruct (Qle_bool v (- B)) eqn:E; [|done].
      apply Qle_bool_iff in E. lra. }
    by rewrite E1, E2. }
  split; [done|].
  assert (Hn' : (2 ^ (-1022) <= 1 / c)%Q) by lra.
  destruct (nearest_double_relative (1 / c) Hn') as [He1 He2].
  assert (Hyc : (1 / c * c == 1)%Q) by (field; lra).
  pose proof (Qpower_2_pos (-53)) as Hu.
  set (v := nearest_double (1 / c)) in *. set (y := (1 / c)%Q) in *.
  set (u := (2 ^ (-53))%Q) in *. clearbody v y u.
  split; nra.
Qed.

(** The distance of a day of the window, and its relative error. *)
Lemma distance_of_day (day range : Z) :
  0 < day → day ≤ range → range ≤ 2 ^ 1022 →
  let c := round_float (inject_Z day / inject_Z range) in
  let q := round_float (1 / c) in
  binary64.true_div day range = Ok c
  ∧ Qeq_bool c 0 = false
  ∧ binary64.float_div 1 c = Ok (binary64.finite q)
  ∧ (0 < c)%Q ∧ (1 <= q)%Q
  ∧ (inject_Z range / inject_Z day * (1 - 2 ^ (-51)) <= q)%Q
  ∧ (q <= inject_Z range / inject_Z day * (1 + 2 ^ (-51)))%Q.
Proof.
  intros Hd Hdr Hr.
  destruct (Qdiv_unit day range Hd Hdr) as [H0 H1].
  destruct (recency_of_day day range Hd Hdr Hr) as (Hc & Hc0 & Hc1 & Hc2 & Hc3).
  cbv zeta in *. rewrite (round_float_pos _ H0).
  set (x := (inject_Z day / inject_Z range)%Q) in *.
  set (c := nearest_double x) in *.
  pose proof (Qpower_2_pos (-1022)) as Hp.
  assert (Hcpos : (0 < c)%Q) by lra.
  destruct (distance_of_recency c Hc0 Hc1) as (Hq & Hq1 & Hq2 & Hq3).
  assert (Hy0 : (0 < 1 / c)%Q) by (apply Qlt_shift_div_l; lra).
  rewrite (round_float_pos _ Hy0).
  set (q := nearest_double (1 / c)) in *.
  split; [done|]. split.
  { destruct (Qeq_bool c 0) eqn:E; [|done]. apply Qeq_bool_iff in E. lra. }
  split; [done|]. split; [done|]. split; [done|].
  assert (HD : (0 < inject_Z day)%Q) by (rewrite <- (Zlt_Qlt 0); lia).
  assert (HR : (0 < inject_Z range)%Q) by (rewrite <- (Zlt_Qlt 0); lia).
  assert (HxR : (x * (inject_Z range / inject_Z day) == 1)%Q)
    by (unfold x; field; split; lra).
  assert (HR0 : (0 < inject_Z range / inject_Z day)%Q)
    by (apply Qlt_shift_div_l; lra).
  assert (Hw : (2 ^ (-51) == 4 * 2 ^ (-53))%Q) by (vm_compute; reflexivity).
  assert (Hu : (0 < 2 ^ (-53))%Q) by apply Qpower_2_pos.
  assert (Hu' : (2 ^ (-53) <= 1 # 4)%Q) by (vm_compute; discriminate).
  rewrite Hw.
  set (R := (inject_Z range / inject_Z day)%Q) in *.
  set (u := (2 ^ (-53))%Q) in *.
  clearbody q c x R u.
  (* t = q * x *)
  assert (Ht1 : (q * x * (1 - u) <= 1 + u)%Q) by nra.
  assert (Ht2 : (1 - u <= q * x * (1 + u))%Q) by nra.
  assert (Ht3 : (q * x <= 1 + 4 * u)%Q) by nra.
  assert (Ht4 : (1 - 4 * u <= q * x)%Q) by nra.
  assert (Hq' : (q == q * x * R)%Q) by (rewrite <- Qmult_assoc, HxR; ring).
  split.
  - rewrite Hq'. rewrite (Qmult_comm R). apply Qmult_le_compat_r; lra.
  - rewrite Hq' at 1. rewrite (Qmult_comm R). apply Qmult_le_compat_r; lra.
Qed.

(** The distance is antitone in the day. *)
Lemma distance_of_day_antitone (day day' range : Z) :
  0 < day → day ≤ day' → day' ≤ range → range ≤ 2 ^ 1022 →
  (round_float (1 / round_float (inject_Z day' / inject_Z range))
   <= round_float (1 / round_float (inject_Z day / inject_Z range)))%Q.
Proof.
  intros Hd Hdd Hdr Hr.
  destruct (distance_of_day day range) as (_ & _ & _ & Hc & _); [lia..|].
  destruct (distance_of_day day' range) as (_ & _ & _ & Hc' & _); [lia..|].
  cbv zeta in Hc, Hc'.
  assert (Hcc : (round_float (inject_Z day / inject_Z range)
                 <= round_float (inject_Z day' / inject_Z range))%Q).
  { apply round_float_mono. apply Qmult_le_compat_r.
    - by rewrite <- Zle_Qle.
    - apply Qinv_le_0_compat. rewrite <- (Zle_Qle 0). lia. }
  apply round_float_mono.
  set (c := round_float (inject_Z day / inject_Z range)) in *.
  set (c' := round_float (inject_Z day' / inject_Z range)) in *.
  clearbody c c'.
  apply Qle_shift_div_l; [done|].
  assert (H : (1 / c' * c' == 1)%Q) by (field; lra).
  assert (H' : (0 < 1 / c')%Q) by (apply Qlt_shift_div_l; lra).
  set (y := (1 / c')%Q) in *. clearbody y. nra.
Qed.

Lemma _calculate_distance_day (self : HistoryGraph) (first e : Z) :
  _first_date (_data_manager self) = Some first →
  0 < (e - first) `div` usec_per_day + 1 →
  (e - first) `div` usec_per_day + 1 ≤ _graph_range_in_days self →
  _graph_range_in_days self ≤ 2 ^ 1022 →
  binary64._calculate_distance self (Some e)
  = Ok (binary64.finite
          (round_float
             (1 / round_float
                    (inject_Z ((e - first) `div` usec_per_day + 1)
                     / inject_Z (_graph_range_in_days self))))).
Proof.
  intros Hfirst Hd Hdr Hr.
  unfold binary64._calculate_distance, _which_day, get_first_included_date.
  rewrite Hfirst. cbn [res_bind].
  destruct (distance_of_day _ _ Hd Hdr Hr) as (Ht & E & Hf & _).
  cbv zeta in Ht, E, Hf. rewrite Ht. cbn [res_bind]. by rewrite E, Hf.
Qed.

(** X24. An edge whose date lies in the window, from the first included
    date to less than [_graph_range_in_days] days after it, has a finite
    distance: the range divided by the number of the day in the window,
    as two divisions in double precision give it.  The distance is at
    least 1, and 1 on the last day of the range; the later the date, the
    shorter the distance; and it is the quotient of the range by the day
    up to a relative error of 2^-51, so that it can exceed the range. *)
Theorem distance_within_the_window (self : HistoryGraph) (first e e' : Z) :
  _first_date (_data_manager self) = Some first →
  0 < _graph_range_in_days self →
  _graph_range_in_days self ≤ 2 ^ 1022 →
  first ≤ e → e ≤ e' →
  e' < first + _graph_range_in_days self * usec_per_day →
  ∃ q q',
    binary64._calculate_distance self (Some e) = Ok (binary64.finite q)
    ∧ binary64._calculate_distance self (Some e') = Ok (binary64.finite q')
    ∧ q = round_float
            (1 / round_float
                   (inject_Z ((e - first) `div` usec_per_day + 1)
                    / inject_Z (_graph_range_in_days self)))
    ∧ (1 <= q')%Q ∧ (q' <= q)%Q
    ∧ (inject_Z (_graph_range_in_days self)
       / inject_Z ((e - first) `div` usec_per_day + 1) * (1 - 2 ^ (-51))
       <= q)%Q
    ∧ (q <= inject_Z (_graph_range_in_days self)
            / inject_Z ((e - first) `div` usec_per_day + 1)
            * (1 + 2 ^ (-51)))%Q
    ∧ (q <= inject_Z (_graph_range_in_days self) * (1 + 2 ^ (-51)))%Q
    ∧ (first + (_graph_range_in_days self - 1) * usec_per_day ≤ e' →
       (q' == 1)%Q).
Proof.
  intros Hfirst Hrange Hmax He Hee' He'.
  destruct (div_day_bounds (e - first) (e' - first)
              (_graph_range_in_days self))
    as (Hd & Hdd & Hd'); [lia..|].
  assert (Hlast : first + (_graph_range_in_days self - 1) * usec_per_day
                  ≤ e' →
                  (e' - first) `div` usec_per_day + 1
                  = _graph_range_in_days self).
  { intros Hlast.
    assert (_graph_range_in_days self - 1
            ≤ (e' - first) `div` usec_per_day); [|clear - H Hd'; lia].
    apply Z.div_le_lower_bound; [done|]. clear - Hlast. lia. }
  rewrite (_calculate_distance_day self first e Hfirst)
    by (done || clear - Hd Hdd Hd'; lia).
  rewrite (_calculate_distance_day self first e' Hfirst)
    by (done || clear - Hd Hdd Hd'; lia).
  set (r := _graph_range_in_days self) in *.
  set (d := (e - first) `div` usec_per_day + 1) in *.
  set (d' := (e' - first) `div` usec_per_day + 1) in *.
  assert (Hd1 : 0 < d) by (unfold d; clear - Hd; lia).
  assert (Hd2 : d ≤ d') by (unfold d, d'; clear - Hdd; lia).
  assert (Hd3 : d' ≤ r) by (unfold d'; clear - Hd'; lia).
  clearbody d d' r.
  destruct (distance_of_day d r) as (_ & _ & _ & _ & _ & Hlo & Hhi);
    [lia..|].
  destruct (distance_of_day d' r) as (_ & _ & _ & _ & Hone & _); [lia..|].
  cbv zeta in Hlo, Hhi, Hone.
  eexists _, _. split; [reflexivity|]. split; [reflexivity|].
  split; [reflexivity|]. split; [done|].
  split; [by apply distance_of_day_antitone|].
  split; [done|]. split; [done|]. split.
  - eapply Qle_trans; [exact Hhi|]. apply Qmult_le_compat_r.
    + apply Qle_shift_div_r; [rewrite <- (Zlt_Qlt 0); lia|].
      rewrite <- inject_Z_mult, <- Zle_Qle. nia.
    + pose proof (Qpower_2_pos (-51)). set (w := (2 ^ (-51))%Q) in *.
      clearbody w. lra.
  - intros H. rewrite (Hlast H).
    apply round_float_1.
    assert (Hr1 : (round_float (inject_Z r / inject_Z r) == 1)%Q).
    { apply round_float_1. apply Qmult_inv_r. intros H0.
      change 0%Q with (inject_Z 0) in H0.
      apply (proj1 (inject_Z_injective _ _)) in H0. lia. }
    rewrite Hr1. reflexivity.
Qed.

Lemma distance_within_the_window_witness :
  ∃ q q',
    binary64._calculate_distance seven_weeks_history
      (Some (max_of_day (noon 0))) = Ok (binary64.finite q)
    ∧ binary64._calculate_distance seven_weeks_history
        (Some (max_of_day (noon 48))) = Ok (binary64.finite q')
    ∧ q = round_float
            (1 / round_float
                   (inject_Z ((max_of_day (noon 0) - max_of_day (noon 0))
                              `div` usec_per_day + 1)
                    / inject_Z (_graph_range_in_days seven_weeks_history)))
    ∧ (1 <= q')%Q ∧ (q' <= q)%Q
    ∧ (inject_Z (_graph_range_in_days seven_weeks_history)
       / inject_Z ((max_of_day (noon 0) - max_of_day (noon 0))
                   `div` usec_per_day + 1) * (1 - 2 ^ (-51))
       <= q)%Q
    ∧ (q <= inject_Z (_graph_range_in_days seven_weeks_history)
            / inject_Z ((max_of_day (noon 0) - max_of_day (noon 0))
                        `div` usec_per_day + 1)
            * (1 + 2 ^ (-51)))%Q
    ∧ (q <= inject_Z (_graph_range_in_days seven_weeks_history)
            * (1 + 2 ^ (-51)))%Q
    ∧ (max_of_day (noon 0)
       + (_graph_range_in_days seven_weeks_history - 1) * usec_per_day
       ≤ max_of_day (noon 48) →
       (q' == 1)%Q).
Proof.
  apply (distance_within_the_window seven_weeks_history
           (max_of_day (noon 0))).
  - vm_compute. reflexivity.
  - vm_compute. reflexivity.
  - vm_compute. discriminate.
  - vm_compute. discriminate.
  - vm_compute. discriminate.
  - vm_compute. reflexivity.
Defined.

(** On the first of 49 days the distance is the double after 49: the
    quotient of the range by the day is a bound of the distance up to
    rounding only. *)
Lemma distance_above_the_range :
  ∃ q,
    binary64._calculate_distance seven_weeks_history
      (Some (max_of_day (noon 0))) = Ok (binary64.finite q)
    ∧ (q == 49 + 2 ^ (-47))%Q
    ∧ (inject_Z (_graph_range_in_days seven_weeks_history) < q)%Q.
Proof.
  eexists. split; [vm_compute; reflexivity|].
  split; vm_compute; reflexivity.
Qed.
